(** * Geo Graph Engine: a shallow embedding of the slug normalizers, the
    Geo Doctor (index, scoring, repair, report), the data validators, the
    coverage validator and the cluster splitter, with the properties the
    specification states about them; and of the scripts around them (the
    input sync, the integrity check, the cross-cluster filter, the
    proximity snapshot and its validator), with properties read off the
    code.

    Conventions of the embedding.
    - JavaScript strings are Rocq strings read as ASCII text.  Code units
      above 127 stand for no particular character: they are neither
      letters, digits nor white space.  On ASCII text [normalize('NFKD')]
      is the identity and [\p{L}], [\p{N}] are the ASCII letters and digits.
      The [slugify] of sync-doctor-inputs is also given on lists of code
      points, with the host's Unicode tables as a parameter; the two agree
      on ASCII text.
    - JavaScript numbers are IEEE 754 doubles, Rocq's primitive floats,
      with the operations of the code in the order of the code; a value
      that is absent or not of type number is [None].  [Math.sin],
      [Math.cos], [Math.asin], [Math.sqrt] and [Math.pow], whose results
      the language leaves to the host, are a parameter of the doctor and of the link facade.  Two
      quantities stay exact rationals [Q]: the ratio of two counts in the
      doctor's report and the caps of suggest-coverage.
    - A JavaScript [Map] whose iteration order is observed is an association
      list in insertion order; maps and sets that are only queried are
      stdpp's [gmap] and [gset].
    - A plain object used as a dictionary is an association list in the
      order in which its keys were first assigned.  Keys that read as array
      indices, which JavaScript enumerates first, and the names an object
      inherits from [Object.prototype] are outside the model.
    - [process.exit] and uncaught failures are values of a result type. *)

From Stdlib Require Import List String Ascii Bool Arith Lia QArith Qabs DecimalString.
From Stdlib Require Import DecimalNat DecimalFacts.
From Stdlib Require OrderedTypeEx.
From Stdlib Require Import Permutation Sorted.
From Stdlib Require Import Floats.
From stdpp Require Import gmap strings.
Import ListNotations.

#[local] Set Warnings "-inexact-float".

Local Open Scope string_scope.
Local Open Scope list_scope.
Local Open Scope nat_scope.

(* ===================================================================== *)
(** * Part I. Definitions                                                 *)
(* ===================================================================== *)

(** ** Slug normalizers ([src/lib/clusters.ts], lines 19-27 and 696-697) *)

Module Slug.

Definition code (c : ascii) : nat := nat_of_ascii c.

Definition is_lower (c : ascii) : bool := (97 <=? code c) && (code c <=? 122).
Definition is_upper (c : ascii) : bool := (65 <=? code c) && (code c <=? 90).
Definition is_digit (c : ascii) : bool := (48 <=? code c) && (code c <=? 57).
Definition is_hyphen (c : ascii) : bool := code c =? 45.

(** [\s] on ASCII: tab, line feed, vertical tab, form feed, carriage
    return and space. *)
Definition is_space (c : ascii) : bool :=
  ((9 <=? code c) && (code c <=? 13)) || (code c =? 32).

(** [\p{L}] or [\p{N}] on ASCII. *)
Definition is_alnum (c : ascii) : bool := is_lower c || is_upper c || is_digit c.

(** [[^\p{L}\p{N}]] on ASCII. *)
Definition nonalnum (c : ascii) : bool := negb (is_alnum c).

Definition hyphen : ascii := ascii_of_nat 45.

Definition lower_char (c : ascii) : ascii :=
  if is_upper c then ascii_of_nat (code c + 32) else c.

(** [String.prototype.toLowerCase]. *)
Definition toLowerCase (l : list ascii) : list ascii := List.map lower_char l.

Fixpoint dropWhile {A : Type} (p : A -> bool) (l : list A) : list A :=
  match l with
  | [] => []
  | c :: t => if p c then dropWhile p t else l
  end.

Definition dropWhileEnd {A : Type} (p : A -> bool) (l : list A) : list A :=
  rev (dropWhile p (rev l)).

(** [String.prototype.trim]. *)
Definition trim (l : list ascii) : list ascii :=
  dropWhileEnd is_space (dropWhile is_space l).

(** [s.replace(/[p]/g, '')]: every character matching [p] is deleted. *)
Definition delete_all (p : ascii -> bool) (l : list ascii) : list ascii :=
  List.filter (fun c => negb (p c)) l.

(** [s.replace(/[p]+/g, r)]: every maximal run of characters matching [p]
    is replaced by the single character [r] (emitted at the end of the run). *)
Fixpoint replace_runs {A : Type} (p : A -> bool) (r : A) (l : list A) : list A :=
  match l with
  | [] => []
  | c :: t =>
      if p c then
        match t with
        | [] => [r]
        | c' :: _ => if p c' then replace_runs p r t else r :: replace_runs p r t
        end
      else c :: replace_runs p r t
  end.

(** [s.replace(/^-|-$/g, '')]: one hyphen at the start and one hyphen at
    the end are removed; [p] recognizes the hyphen. *)
Definition strip_first {A : Type} (p : A -> bool) (l : list A) : list A :=
  match l with
  | c :: t => if p c then t else l
  | [] => []
  end.

Definition strip_last {A : Type} (p : A -> bool) (l : list A) : list A :=
  rev (strip_first p (rev l)).

Definition strip_edges {A : Type} (p : A -> bool) (l : list A) : list A :=
  strip_last p (strip_first p l).

Definition strip_leading_hyphen (l : list ascii) : list ascii := strip_first is_hyphen l.

Definition strip_trailing_hyphen (l : list ascii) : list ascii :=
  rev (strip_leading_hyphen (rev l)).

Definition strip_edge_hyphens (l : list ascii) : list ascii :=
  strip_trailing_hyphen (strip_leading_hyphen l).

(** The character class [[^a-z0-9\s-]] of the facade's first [replace]. *)
Definition facade_junk (c : ascii) : bool :=
  negb (is_lower c || is_digit c || is_space c || is_hyphen c).

(** [slugify] of the clusters facade (lines 19-27):
    [trim().toLowerCase().replace(/[^a-z0-9\s-]/g,'').replace(/\s+/g,'-').replace(/-+/g,'-')]. *)
Definition slugify_chars (l : list ascii) : list ascii :=
  replace_runs is_hyphen hyphen
    (replace_runs is_space hyphen
       (delete_all facade_junk
          (toLowerCase (trim l)))).

Definition slugify (raw : string) : string :=
  string_of_list_ascii (slugify_chars (list_ascii_of_string raw)).

(** [slugify] of sync-doctor-inputs (lines 696-697):
    [trim().toLowerCase().normalize('NFKD').replace(/[^\p{L}\p{N}]+/gu,'-')
     .replace(/-+/g,'-').replace(/^-|-$/g,'')]. *)
Definition sync_slugify_chars (l : list ascii) : list ascii :=
  strip_edge_hyphens
    (replace_runs is_hyphen hyphen
       (replace_runs nonalnum hyphen
          (toLowerCase (trim l)))).

Definition sync_slugify (s : string) : string :=
  string_of_list_ascii (sync_slugify_chars (list_ascii_of_string s)).

(** *** The same function beyond ASCII

    A string is here the list of its code points.  What the host does
    with it is a parameter: [toLowerCase], [normalize('NFKD')], the
    classes [\p{L}] and [\p{N}] of the [u]-flagged expression, and the
    white space [trim] removes. *)
Record Unicode := {
  lowercase : list N -> list N;
  NFKD : list N -> list N;
  letter_or_number : N -> bool;
  white_space : N -> bool
}.

Definition hyphen_point : N := 45%N.

Definition is_hyphen_point (c : N) : bool := (c =? 45)%N.

(** [slugify] of sync-doctor-inputs (lines 696-697) on code points. *)
Definition sync_slugify_points (U : Unicode) (l : list N) : list N :=
  strip_edges is_hyphen_point
    (replace_runs is_hyphen_point hyphen_point
       (replace_runs (fun c => negb (letter_or_number U c)) hyphen_point
          (NFKD U
             (lowercase U
                (dropWhileEnd (white_space U) (dropWhile (white_space U) l)))))).

(** The host's tables on ASCII and on U+2122 TRADE MARK SIGN: a symbol
    (neither letter nor number) without a lowercase mapping, whose
    compatibility decomposition is the two letters [TM].  No other code
    point is in the tables: it is left as it is and counts as neither
    letter nor number, as in the ASCII model above. *)
Definition lower_point (c : N) : N :=
  if ((65 <=? c) && (c <=? 90))%N then (c + 32)%N else c.

Definition decompose_point (c : N) : list N :=
  if (c =? 8482)%N then [84%N; 77%N] else [c].

Definition alnum_point (c : N) : bool :=
  (((97 <=? c) && (c <=? 122)) || ((65 <=? c) && (c <=? 90))
   || ((48 <=? c) && (c <=? 57)))%N.

Definition space_point (c : N) : bool :=
  (((9 <=? c) && (c <=? 13)) || (c =? 32))%N.

Definition basic_tables : Unicode :=
  {| lowercase := List.map lower_point;
     NFKD := flat_map decompose_point;
     letter_or_number := alnum_point;
     white_space := space_point |}.

(** An ASCII string as code points. *)
Definition points (l : list ascii) : list N := List.map N_of_ascii l.

(** The normalizer as section 4.1 of the specification words it, for
    comparison with the code: lowercase, strip diacritics (nothing to strip
    on ASCII), replace each run of white space or non-alphanumeric
    characters by one hyphen, trim leading and trailing hyphens, collapse
    repeated hyphens. *)
Definition trim_hyphens (l : list ascii) : list ascii :=
  dropWhileEnd is_hyphen (dropWhile is_hyphen l).

Definition normalize_spec_chars (l : list ascii) : list ascii :=
  replace_runs is_hyphen hyphen
    (trim_hyphens
       (replace_runs (fun c => is_space c || nonalnum c) hyphen
          (toLowerCase l))).

Definition normalize_spec (s : string) : string :=
  string_of_list_ascii (normalize_spec_chars (list_ascii_of_string s)).

(** Shape of a slug: only [a-z0-9-]. *)
Definition slug_char (c : ascii) : bool := is_lower c || is_digit c || is_hyphen c.

Fixpoint no_adjacent (p : ascii -> bool) (l : list ascii) : bool :=
  match l with
  | c :: t =>
      match t with
      | c' :: _ => negb (p c && p c') && no_adjacent p t
      | [] => true
      end
  | [] => true
  end.

Definition no_double_hyphen (l : list ascii) : bool := no_adjacent is_hyphen l.

Definition ends_with (p : ascii -> bool) (l : list ascii) : bool :=
  match l with
  | [] => false
  | _ => p (List.last l hyphen)
  end.

Definition starts_with (p : ascii -> bool) (l : list ascii) : bool :=
  match l with c :: _ => p c | [] => false end.

Definition starts_with_hyphen (l : list ascii) : bool := starts_with is_hyphen l.

Definition ends_with_hyphen (l : list ascii) : bool := ends_with is_hyphen l.

End Slug.

(** ** JavaScript values shared by the scripts *)

Module Js.

Section JsMap.
Context {V : Type}.

Fixpoint map_get (k : string) (m : list (string * V)) : option V :=
  match m with
  | [] => None
  | (k', v) :: t => if String.eqb k k' then Some v else map_get k t
  end.

Definition map_has (k : string) (m : list (string * V)) : bool :=
  match map_get k m with Some _ => true | None => false end.

(** [Map.prototype.set]: an existing key keeps its position. *)
Fixpoint map_set (k : string) (v : V) (m : list (string * V)) : list (string * V) :=
  match m with
  | [] => [(k, v)]
  | (k', v') :: t =>
      if String.eqb k k' then (k, v) :: t else (k', v') :: map_set k v t
  end.

Definition map_keys (m : list (string * V)) : list string := List.map fst m.

End JsMap.

(** [isStr(x)]: a string that is not blank. *)
Definition isStr (x : string) : bool :=
  match Slug.trim (list_ascii_of_string x) with
  | [] => false
  | _ :: _ => true
  end.

(** Truthiness of a string. *)
Definition truthy (x : string) : bool := negb (String.eqb x "").

(** [a || b] on strings. *)
Definition or_else (a b : string) : string := if truthy a then a else b.

Section Sort.
Context {A : Type} (cmp : A -> A -> comparison).

(** [Array.prototype.sort] is stable; for a consistent comparator its
    result is the one of a stable insertion sort. *)
Fixpoint sort_insert (x : A) (l : list A) : list A :=
  match l with
  | [] => [x]
  | y :: t =>
      match cmp x y with
      | Gt => y :: sort_insert x t
      | _ => x :: l
      end
  end.

Definition js_sort (l : list A) : list A := fold_right sort_insert [] l.

(** The comparator is consistent for the values of [l] (ECMAScript,
    [Array.prototype.sort]): with [a =CF b], [a <CF b], [a >CF b] for a
    result that is zero, negative, positive, [=CF] is reflexive, symmetric
    and transitive, and [<CF] and [>CF] are transitive.  Only then is the
    sort order defined. *)
Definition consistent (l : list A) : Prop :=
  (forall a, In a l -> cmp a a = Eq)
  /\ (forall a b, In a l -> In b l -> cmp a b = Eq -> cmp b a = Eq)
  /\ (forall a b c, In a l -> In b l -> In c l ->
        cmp a b = Eq -> cmp b c = Eq -> cmp a c = Eq)
  /\ (forall a b c, In a l -> In b l -> In c l ->
        cmp a b = Lt -> cmp b c = Lt -> cmp a c = Lt)
  /\ (forall a b c, In a l -> In b l -> In c l ->
        cmp a b = Gt -> cmp b c = Gt -> cmp a c = Gt).

Definition is_cmp (c : comparison) (a b : A) : bool :=
  match cmp a b, c with
  | Eq, Eq | Lt, Lt | Gt, Gt => true
  | _, _ => false
  end.

(** The same, as a test. *)
Definition consistentb (l : list A) : bool :=
  forallb (fun a => is_cmp Eq a a) l
  && forallb (fun a => forallb (fun b => implb (is_cmp Eq a b) (is_cmp Eq b a)) l) l
  && forallb
       (fun a =>
          forallb
            (fun b =>
               forallb
                 (fun c =>
                    implb (is_cmp Eq a b && is_cmp Eq b c) (is_cmp Eq a c)
                    && implb (is_cmp Lt a b && is_cmp Lt b c) (is_cmp Lt a c)
                    && implb (is_cmp Gt a b && is_cmp Gt b c) (is_cmp Gt a c))
                 l)
            l)
       l.

End Sort.

End Js.

(** ** The Geo Doctor ([scripts/geo/doctor.mjs], embedded in
    [src/lib/clusters.ts], lines 907-1351) *)

Module Doctor.
Import Js.

(** *** Data *)

(** [isNum(x)]: a value of type number that is finite; a value of another
    type, or none, is [None]. *)
Definition isNum (x : option float) : bool :=
  match x with
  | Some f => PrimFloat.is_finite f
  | None => false
  end.

(** An entry of a cluster's [suburbs].  [slug] and [name] are strings,
    possibly blank; every test the doctor makes on a name gives an absent
    name and the empty string the same answer, and a suburb whose slug is
    not a string is outside the model.  [lat] and [lng] are the values of
    type number, [None] when there is none. *)
Record SuburbItem := {
  slug : string;
  name : string;
  lat : option float;
  lng : option float
}.

(** An entry of [clusters].  [cslug] is [c?.slug], the empty string when
    there is none (the doctor only asks whether it is a non-blank string);
    [suburbs] is [c?.suburbs] when it is an array. *)
Record ClusterItem := {
  cslug : string;
  suburbs : option (list SuburbItem)
}.

(** The suburbs a cluster lists. *)
Definition suburbs_of (c : ClusterItem) : list SuburbItem :=
  match suburbs c with
  | Some l => l
  | None => []
  end.

(** A value of [suburbBySlug]. *)
Record SuburbRec := {
  r_name : string;
  r_lat : option float;
  r_lng : option float;
  r_cluster : string
}.

(** [suburbBySlug]: a [Map] from slug to record, in insertion order. *)
Definition Index := list (string * SuburbRec).



(** *** The messages pushed on [issues] *)

Inductive Issue :=
| MissingClustersFile (err : string)
| ClustersNotArray
| ClusterInvalidSlug
| ClusterNoSuburbs (cluster : string)
| SuburbMissingSlug (cluster : string)
| SuburbMissingName (shown : string)
| DuplicateSuburbSlug (s : string)
| UnknownMappedCluster (k : string)
| ClusterMapMissing
| AdjSourceUnknown (src : string)
| AdjNotArray (src : string)
| AdjSelf (src : string)
| AdjTargetUnknown (src dst : string)
| ProxSourceUnknown (src : string)
| ProxNotArray (src : string)
| ProxTooLong (src : string) (len limit : nat)
| ProxItemMissingSlug (src : string)
| ProxSelf (src : string)
| ProxDuplicate (src : string) (s : option string)
| ProxTargetUnknown (src s : string)
| MissingLatLng (n : nat)
| OutOfRange (n : nat)
| LargeClusters (big : list (string * nat)).

(** *** Index pass (lines 977-995) *)

Record IndexState := {
  st_schema : list Issue;
  st_clusterSlugs : list string;
  st_index : Index
}.

Definition index_suburb (c : string) (st : IndexState) (s : SuburbItem) : IndexState :=
  {| st_schema :=
       st_schema st
       ++ (if isStr (slug s) then [] else [SuburbMissingSlug c])
       ++ (if isStr (name s) then [] else [SuburbMissingName (or_else (slug s) "(unknown)")])
       ++ (if map_has (slug s) (st_index st) then [DuplicateSuburbSlug (slug s)] else []);
     st_clusterSlugs := st_clusterSlugs st;
     st_index :=
       map_set (slug s)
         {| r_name := name s; r_lat := lat s; r_lng := lng s; r_cluster := c |}
         (st_index st) |}.

Definition index_cluster (st : IndexState) (c : ClusterItem) : IndexState :=
  if isStr (cslug c) then
    match suburbs c with
    | Some l =>
        fold_left (index_suburb (cslug c)) l
          {| st_schema := st_schema st;
             st_clusterSlugs := st_clusterSlugs st ++ [cslug c];
             st_index := st_index st |}
    | None =>
        {| st_schema := st_schema st ++ [ClusterNoSuburbs (cslug c)];
           st_clusterSlugs := st_clusterSlugs st ++ [cslug c];
           st_index := st_index st |}
    end
  else
    {| st_schema := st_schema st ++ [ClusterInvalidSlug];
       st_clusterSlugs := st_clusterSlugs st;
       st_index := st_index st |}.

Definition index_pass (clusters : list ClusterItem) : IndexState :=
  fold_left index_cluster clusters
    {| st_schema := []; st_clusterSlugs := []; st_index := [] |}.

(** [suburbBySlug] after the index pass. *)
Definition suburbBySlug (clusters : list ClusterItem) : Index :=
  st_index (index_pass clusters).

(** *** Scoring (lines 1047-1069) *)

Record Weights := {
  adjacencyBoost : float;
  clusterBoost : float;
  biasKm : float;
  crossPenalty : float
}.

(** The functions of JavaScript's [Math] that [haversineKm] calls, and
    the operator [**]; the language leaves their results to the host. *)
Record MathLib := {
  Math_sin : float -> float;
  Math_cos : float -> float;
  Math_asin : float -> float;
  Math_sqrt : float -> float;
  Math_pow : float -> float -> float
}.

(** [Math.PI]. *)
Definition Math_PI : float := 3.141592653589793%float.

(** Stand-in for [Math] in examples whose suburbs carry no coordinates, so
    that no function of [Math] is called. *)
Definition idle_math : MathLib :=
  {| Math_sin := fun x => x; Math_cos := fun x => x; Math_asin := fun x => x;
     Math_sqrt := fun x => x; Math_pow := fun x _ => x |}.

(** Stand-in for [Math] in examples with coordinates a fraction of a
    degree apart: [sin x] and [asin x] as [x], [cos x] as [1], the square
    root of the processor and [x ** y] as [x * x]. *)
Definition small_angle_math : MathLib :=
  {| Math_sin := fun x => x; Math_cos := fun _ => 1%float; Math_asin := fun x => x;
     Math_sqrt := PrimFloat.sqrt; Math_pow := fun x _ => (x * x)%float |}.

(** A score is a number; [-Infinity] is [neg_infinity]. *)
Definition Score : Type := float.

Record Parts := {
  p_adjacency : float;
  p_cluster : float;
  p_distance : float;
  p_crossPenalty : float
}.

Record NearbyItem := { n_slug : string; n_name : string }.

Record PoolItem := { pool_slug : string; pool_name : string; pool_score : Score }.

(** The comparator given to [sort], by the sign of [y.score - x.score]:
    [Lt] negative, [Gt] positive, [Eq] zero or [NaN]. *)
Definition by_score_desc (x y : PoolItem) : comparison :=
  let d := (pool_score y - pool_score x)%float in
  if (d <? 0)%float then Lt
  else if (0 <? d)%float then Gt
  else Eq.

(** The values obtained by iterating over a string with [for ... of]: its
    characters. *)
Definition chars (s : string) : list string :=
  List.map (fun c => String c EmptyString) (list_ascii_of_string s).

(** A value of the adjacency object: an array of strings, a string, or a
    value that is neither and cannot be iterated ([null], a number, a
    boolean, an object). *)
Inductive Targets :=
| TArray (l : list string)
| TString (s : string)
| TOther.

Section Scoring.
Variable M : MathLib.
Variable weights : Weights.
(** [adj.data]: the adjacency document. *)
Variable adj : list (string * Targets).
Variable idx : Index.

Definition toRad (x : float) : float := (x * Math_PI / 180)%float.

Definition haversineKm (alat alng blat blng : float) : float :=
  let R := 6371%float in
  let dLat := toRad (blat - alat) in
  let dLng := toRad (blng - alng) in
  let s := (Math_pow M (Math_sin M (dLat / 2)) 2
            + Math_cos M (toRad alat) * Math_cos M (toRad blat)
              * Math_pow M (Math_sin M (dLng / 2)) 2)%float in
  (2 * R * Math_asin M (Math_sqrt M s))%float.

Definition isSameCluster (a b : SuburbRec) : bool :=
  truthy (r_cluster a) && truthy (r_cluster b) && String.eqb (r_cluster a) (r_cluster b).

(** [Array.isArray(adj.data?.[srcSlug]) ? adj.data[srcSlug] : []]. *)
Definition neighbors (srcSlug : string) : list string :=
  match map_get srcSlug adj with
  | Some (TArray l) => l
  | _ => []
  end.

Definition includes (x : string) (l : list string) : bool :=
  existsb (String.eqb x) l.

Definition parts_of (srcSlug dstSlug : string) (a b : SuburbRec) : Parts :=
  {| p_adjacency :=
       if includes dstSlug (neighbors srcSlug) then adjacencyBoost weights else 0%float;
     p_cluster := if isSameCluster a b then clusterBoost weights else 0%float;
     p_distance :=
       if isNum (r_lat a) && isNum (r_lng a) && isNum (r_lat b) && isNum (r_lng b) then
         match r_lat a, r_lng a, r_lat b, r_lng b with
         | Some alat, Some alng, Some blat, Some blng =>
             ((- PrimFloat.abs (biasKm weights)) * haversineKm alat alng blat blng)%float
         | _, _, _, _ => 0%float
         end
       else 0%float;
     p_crossPenalty :=
       if isSameCluster a b then 0%float
       else (- PrimFloat.abs (crossPenalty weights))%float |}.

Definition scorePair (srcSlug dstSlug : string) : Score * option Parts :=
  match map_get srcSlug idx, map_get dstSlug idx with
  | Some a, Some b =>
      let parts := parts_of srcSlug dstSlug a b in
      ((p_adjacency parts + p_cluster parts + p_distance parts
        + p_crossPenalty parts)%float,
       Some parts)
  | _, _ => (PrimFloat.neg_infinity, None)
  end.

(** [suburbBySlug.get(slug)?.name || slug]. *)
Definition display_name (s : string) : string :=
  match map_get s idx with
  | Some r => or_else (r_name r) s
  | None => s
  end.

(** *** Recomputing the nearby list (lines 1071-1081) *)

Definition pool (srcSlug : string) : list PoolItem :=
  List.map
    (fun s => {| pool_slug := s; pool_name := display_name s;
                 pool_score := fst (scorePair srcSlug s) |})
    (List.filter (fun s => negb (String.eqb s srcSlug)) (map_keys idx)).

Definition ranked (srcSlug : string) : list PoolItem :=
  js_sort by_score_desc (pool srcSlug).

Definition to_item (x : PoolItem) : NearbyItem :=
  {| n_slug := pool_slug x; n_name := pool_name x |}.

Definition recomputeNearby (srcSlug : string) (max : nat) : list NearbyItem :=
  match map_get srcSlug idx with
  | None => []
  | Some _ => List.map to_item (firstn max (ranked srcSlug))
  end.

(** [nearest] as section 4.5 of the specification words it, for comparison
    with the code: descending by score, ties broken by ascending slug. *)
Definition by_score_then_slug (x y : PoolItem) : comparison :=
  match by_score_desc x y with
  | Eq => String.compare (pool_slug x) (pool_slug y)
  | c => c
  end.

Definition nearest_spec (srcSlug : string) (limit : nat) : list NearbyItem :=
  match map_get srcSlug idx with
  | None => []
  | Some _ => List.map to_item (firstn limit (js_sort by_score_then_slug (pool srcSlug)))
  end.

(** *** The "fixed" proximity snapshot (lines 1153-1185) *)

(** An entry of a prior [nearby] list: [null]; a value that is neither
    [null] nor an object (a number, a string, a boolean); or an object,
    with the strings under [slug] and [name] when it has them. *)
Inductive JItem :=
| JNull
| JOther
| JObj (oslug : option string) (oname : option string).

Section Repair.
Variable LIMIT : nat.

Definition item_of (sl : string) : NearbyItem :=
  {| n_slug := sl; n_name := display_name sl |}.

(** The first loop: keep the valid entries of the old list, in order. *)
Fixpoint keep_valid (s : string) (seen : gset string) (keep : list NearbyItem)
    (current : list JItem) : list NearbyItem :=
  match current with
  | [] => keep
  | JNull :: rest => keep_valid s seen keep rest
  | JOther :: rest => keep_valid s seen keep rest
  | JObj None _ :: rest => keep_valid s seen keep rest
  | JObj (Some sl) _ :: rest =>
      if negb (isStr sl) then keep_valid s seen keep rest
      else if String.eqb sl s then keep_valid s seen keep rest
      else if negb (map_has sl idx) then keep_valid s seen keep rest
      else if bool_decide (sl ∈ seen) then keep_valid s seen keep rest
      else
        let keep' := keep ++ [item_of sl] in
        if LIMIT <=? length keep' then keep'
        else keep_valid s ({[sl]} ∪ seen) keep' rest
  end.

(** The second loop: pad from the recomputed list. *)
Fixpoint pad_from (s : string) (keep : list NearbyItem) (rec : list NearbyItem)
    : list NearbyItem :=
  match rec with
  | [] => keep
  | it :: rest =>
      if String.eqb (n_slug it) s then pad_from s keep rest
      else if negb (map_has (n_slug it) idx) then pad_from s keep rest
      else if existsb (fun k => String.eqb (n_slug k) (n_slug it)) keep
           then pad_from s keep rest
      else
        let keep' := keep ++ [item_of (n_slug it)] in
        if LIMIT <=? length keep' then keep'
        else pad_from s keep' rest
  end.

Definition fixed_for (current : list JItem) (s : string) : list NearbyItem :=
  let keep := keep_valid s ∅ [] current in
  let keep :=
    if length keep <? LIMIT then pad_from s keep (recomputeNearby s (LIMIT * 2))
    else keep in
  firstn LIMIT keep.

(** [Array.isArray(prox.data?.nearby?.[s]) ? prox.data.nearby[s] : []];
    a value that is not an array is [None]. *)
Definition prior_list (nearby : list (string * option (list JItem))) (s : string)
    : list JItem :=
  match map_get s nearby with
  | Some (Some l) => l
  | _ => []
  end.

Definition fixedNearby (nearby : list (string * option (list JItem)))
    : list (string * list NearbyItem) :=
  List.map (fun s => (s, fixed_for (prior_list nearby s) s)) (map_keys idx).

(** For comparison with the loops: the slugs carried by the old entries,
    the test an old slug passes to be kept, and the first occurrences of a
    list of slugs. *)
Definition old_slugs (current : list JItem) : list string :=
  flat_map (fun it => match it with JObj (Some sl) _ => [sl] | _ => [] end) current.

Definition valid_old (s sl : string) : bool :=
  isStr sl && negb (String.eqb sl s) && map_has sl idx.

Fixpoint uniq_from (seen : list string) (l : list string) : list string :=
  match l with
  | [] => []
  | x :: t =>
      if includes x seen then uniq_from seen t
      else x :: uniq_from (x :: seen) t
  end.

Definition repaired (current : list JItem) (s : string) : list string :=
  firstn LIMIT
    (uniq_from []
       (List.filter (valid_old s) (old_slugs current)
        ++ List.map n_slug (recomputeNearby s (LIMIT * 2)))).

End Repair.

End Scoring.

(** *** The whole run (lines 957-1298) *)

(** [readJson(p, fallback)]: [{ok:false, err, data:fallback}] or
    [{ok:true, err:null, data}]. *)
Inductive Loaded (A : Type) :=
| Unreadable (err : string)
| Parsed (a : A).
Arguments Unreadable {A} err.
Arguments Parsed {A} a.

Definition ok {A : Type} (f : Loaded A) : bool :=
  match f with Parsed _ => true | Unreadable _ => false end.

Definition err {A : Type} (f : Loaded A) : option string :=
  match f with Parsed _ => None | Unreadable e => Some e end.

Definition data_or {A : Type} (fallback : A) (f : Loaded A) : A :=
  match f with Parsed a => a | Unreadable _ => fallback end.

(** The fields of [geo.config.json] the doctor reads, each optional. *)
Record Config := {
  cfg_limit : option nat;
  cfg_adjacencyBoost : option float;
  cfg_clusterBoost : option float;
  cfg_biasKm : option float;
  cfg_crossClusterPenalty : option float
}.

Definition no_config : Config :=
  {| cfg_limit := None; cfg_adjacencyBoost := None; cfg_clusterBoost := None;
     cfg_biasKm := None; cfg_crossClusterPenalty := None |}.

Record Inputs := {
  (** [clusters.data.clusters]; [None] when it is not an array *)
  in_clusters : Loaded (option (list ClusterItem));
  (** the keys of [cluster_map.json] *)
  in_clusterMap : Loaded (list string);
  in_adj : Loaded (list (string * Targets));
  (** [prox.data.nearby], empty when absent *)
  in_prox : Loaded (list (string * option (list JItem)));
  in_cfg : Loaded Config
}.

Record Cli := {
  STRICT : bool;
  WRITE : bool;
  GRAPH : bool;
  EXPLAIN : option string;
  DIFF_SAMPLE : nat;
  FORCE_LIMIT : option nat
}.

(** The two readings of [new Date().toISOString()]. *)
Record Clock := {
  at_write : string;
  at_report : string
}.

Inductive Category := CMissing | CSchema | CReferential | CWarnings.

Definition Category_eqb (a b : Category) : bool :=
  match a, b with
  | CMissing, CMissing | CSchema, CSchema
  | CReferential, CReferential | CWarnings, CWarnings => true
  | _, _ => false
  end.

Record Issues := {
  missing : list Issue;
  schema : list Issue;
  referential : list Issue;
  warnings : list Issue
}.

(** The pushes of a run, in order, sorted into the four arrays. *)
Definition issues_of (pushes : list (Category * Issue)) : Issues :=
  let pick c := List.map snd (List.filter (fun p => Category_eqb (fst p) c) pushes) in
  {| missing := pick CMissing; schema := pick CSchema;
     referential := pick CReferential; warnings := pick CWarnings |}.

Definition limit_of (cli : Cli) (cfg : Config) : nat :=
  match FORCE_LIMIT cli with
  | Some (S n) => Nat.max 1 (S n)
  | _ => Nat.max 1 (match cfg_limit cfg with Some l => l | None => 6 end)
  end.

Definition weights_of (cfg : Config) : Weights :=
  {| adjacencyBoost := match cfg_adjacencyBoost cfg with Some x => x | None => 24 end;
     clusterBoost := match cfg_clusterBoost cfg with Some x => x | None => 200 end;
     biasKm := match cfg_biasKm cfg with Some x => x | None => 12 end;
     crossPenalty := match cfg_crossClusterPenalty cfg with Some x => x | None => 200 end |}.

Definition nonempty_issue (l : list Issue) : bool :=
  match l with [] => false | _ => true end.

(** Lines 979-995. *)
Definition clusters_pushes (f : Loaded (option (list ClusterItem)))
    : list (Category * Issue) * IndexState :=
  let empty := {| st_schema := []; st_clusterSlugs := []; st_index := [] |} in
  match f with
  | Unreadable e => ([(CMissing, MissingClustersFile (or_else e "file not found"))], empty)
  | Parsed None => ([(CSchema, ClustersNotArray)], empty)
  | Parsed (Some clusters) =>
      let st := index_pass clusters in
      (List.map (fun i => (CSchema, i)) (st_schema st), st)
  end.

(** Lines 997-1002. *)
Definition clusterMap_pushes (clusterSlugs : list string) (f : Loaded (list string))
    : list (Category * Issue) :=
  match f with
  | Parsed keys =>
      List.map (fun k => (CReferential, UnknownMappedCluster k))
        (List.filter (fun k => negb (includes k clusterSlugs)) keys)
  | Unreadable _ => [(CWarnings, ClusterMapMissing)]
  end.

(** Lines 1005-1014. *)
Definition adjacency_pushes (idx : Index) (f : Loaded (list (string * Targets)))
    : list (Category * Issue) :=
  match f with
  | Parsed adj =>
      flat_map
        (fun e =>
           (if map_has (fst e) idx then [] else [(CReferential, AdjSourceUnknown (fst e))])
           ++ match snd e with
              | TArray l =>
                  flat_map
                    (fun dst =>
                       (if String.eqb dst (fst e) then [(CSchema, AdjSelf (fst e))] else [])
                       ++ (if map_has dst idx then []
                           else [(CReferential, AdjTargetUnknown (fst e) dst)]))
                    l
              | _ => [(CSchema, AdjNotArray (fst e))]
              end)
        adj
  | Unreadable _ => []
  end.

(** [item?.slug]. *)
Definition item_slug (it : JItem) : option string :=
  match it with
  | JObj o _ => o
  | _ => None
  end.

(** Lines 1026-1032. *)
Fixpoint prox_items (idx : Index) (src : string) (seen : gset (option string))
    (arr : list JItem) : list (Category * Issue) :=
  match arr with
  | [] => []
  | it :: rest =>
      let sl := item_slug it in
      (if match sl with Some x => isStr x | None => false end then []
       else [(CSchema, ProxItemMissingSlug src)])
      ++ (if match sl with Some x => String.eqb x src | None => false end
          then [(CSchema, ProxSelf src)] else [])
      ++ (if bool_decide (sl ∈ seen) then [(CSchema, ProxDuplicate src sl)] else [])
      ++ match sl with
         | Some x =>
             if truthy x && negb (map_has x idx)
             then [(CReferential, ProxTargetUnknown src x)] else []
         | None => []
         end
      ++ prox_items idx src ({[sl]} ∪ seen) rest
  end.

(** Lines 1017-1034. *)
Definition proximity_pushes (idx : Index) (LIMIT : nat)
    (f : Loaded (list (string * option (list JItem)))) : list (Category * Issue) :=
  match f with
  | Parsed nmap =>
      flat_map
        (fun e =>
           if negb (map_has (fst e) idx) then [(CReferential, ProxSourceUnknown (fst e))]
           else
             match snd e with
             | None => [(CSchema, ProxNotArray (fst e))]
             | Some arr =>
                 (if LIMIT <? length arr
                  then [(CWarnings, ProxTooLong (fst e) (length arr) LIMIT)] else [])
                 ++ prox_items idx (fst e) ∅ arr
             end)
        nmap
  | Unreadable _ => []
  end.

(** Neither [x < lo] nor [x > hi]. *)
Definition in_range (lo hi x : float) : bool :=
  negb (x <? lo)%float && negb (hi <? x)%float.

(** Lines 1037-1044. *)
Definition coordinate_pushes (idx : Index) : list (Category * Issue) :=
  let missLatLng :=
    length (List.filter
              (fun e => negb (isNum (r_lat (snd e)) && isNum (r_lng (snd e)))) idx) in
  let badRange :=
    length (List.filter
              (fun e =>
                 isNum (r_lat (snd e)) && isNum (r_lng (snd e))
                 && match r_lat (snd e), r_lng (snd e) with
                    | Some a, Some b =>
                        negb (in_range (-90) 90 a && in_range (-180) 180 b)
                    | _, _ => false
                    end) idx) in
  (if missLatLng =? 0 then [] else [(CWarnings, MissingLatLng missLatLng)])
  ++ (if badRange =? 0 then [] else [(CSchema, OutOfRange badRange)]).

(** One record of [diffs]. *)
Record Diff := {
  d_suburb : string;
  d_missingFromPre : list string;
  d_extrasInPre : list (option string)
}.

Definition is_null (it : JItem) : bool :=
  match it with
  | JNull => true
  | _ => false
  end.

(** Line 1088, [pre]: the slugs [x.slug] of the prior list of [s], the
    empty list when [s] has no array.  On a [null] entry [x.slug] throws a
    [TypeError]: [None]. *)
Definition pre_of (nearby : list (string * option (list JItem))) (s : string)
    : option (list (option string)) :=
  match map_get s nearby with
  | Some (Some l) => if existsb is_null l then None else Some (List.map item_slug l)
  | _ => Some []
  end.

(** [sampleSuburbs], line 1085. *)
Definition sampleSuburbs (idx : Index) (sample : nat) : list string :=
  firstn (Nat.max 1 (Nat.min (length (map_keys idx)) sample)) (map_keys idx).

(** Lines 1089-1095: the record pushed for [s], if any. *)
Definition diff_for (M : MathLib) (w : Weights) (adj : list (string * Targets))
    (idx : Index) (LIMIT : nat) (s : string) (pre : list (option string)) : list Diff :=
  let rec := List.map n_slug (recomputeNearby M w adj idx s LIMIT) in
  let setPre : gset (option string) := list_to_set pre in
  let setRec : gset (option string) := list_to_set (List.map Some rec) in
  let missingFromPre :=
    firstn 5 (List.filter (fun x => negb (bool_decide (Some x ∈ setPre))) rec) in
  let extrasInPre :=
    firstn 5 (List.filter (fun x => negb (bool_decide (x ∈ setRec))) pre) in
  match missingFromPre, extrasInPre with
  | [], [] => []
  | _, _ => [{| d_suburb := s; d_missingFromPre := missingFromPre;
                d_extrasInPre := extrasInPre |}]
  end.

(** The loop of lines 1087-1096 over the sampled suburbs; [None] when it
    throws. *)
Fixpoint diffs_from (M : MathLib) (w : Weights) (adj : list (string * Targets))
    (idx : Index) (LIMIT : nat) (nearby : list (string * option (list JItem)))
    (samples : list string) : option (list Diff) :=
  match samples with
  | [] => Some []
  | s :: rest =>
      match pre_of nearby s with
      | None => None
      | Some pre =>
          match diffs_from M w adj idx LIMIT nearby rest with
          | None => None
          | Some ds => Some (diff_for M w adj idx LIMIT s pre ++ ds)
          end
      end
  end.

(** Lines 1084-1096: [sampleSuburbs.length] and [diffs]. *)
Definition diffs_of (M : MathLib) (w : Weights) (adj : list (string * Targets))
    (idx : Index) (LIMIT sample : nat) (nearby : list (string * option (list JItem)))
    : option (nat * list Diff) :=
  match diffs_from M w adj idx LIMIT nearby (sampleSuburbs idx sample) with
  | None => None
  | Some ds => Some (length (sampleSuburbs idx sample), ds)
  end.

(** Lines 1099-1101: the object [clusterSizes]. *)
Definition clusterSizes_of (clusterSlugs : list string) (idx : Index)
    : list (string * nat) :=
  fold_left
    (fun sizes e =>
       if truthy (r_cluster (snd e)) then
         map_set (r_cluster (snd e))
           (S (match map_get (r_cluster (snd e)) sizes with Some n => n | None => 0 end))
           sizes
       else sizes)
    idx
    (fold_left (fun sizes c => map_set c 0 sizes) clusterSlugs []).

Record EdgeStats := {
  totalEdges : nat;
  crossClusterEdges : nat;
  reciprocal : nat
}.

(** The values [for (const dst of list)] runs over; [None] when [list]
    cannot be iterated and the statement throws a [TypeError]. *)
Definition iterate (v : Targets) : option (list string) :=
  match v with
  | TArray l => Some l
  | TString s => Some (chars s)
  | TOther => None
  end.

(** The pairs [(src, dst)] the loops of lines 1105-1106 visit. *)
Fixpoint edges_of (adj : list (string * Targets)) : option (list (string * string)) :=
  match adj with
  | [] => Some []
  | e :: rest =>
      match iterate (snd e), edges_of rest with
      | Some l, Some r => Some (List.map (fun dst => (fst e, dst)) l ++ r)
      | _, _ => None
      end
  end.

(** Lines 1103-1116; [None] when the inner loop throws. *)
Definition edge_stats (idx : Index) (f : Loaded (list (string * Targets)))
    : option EdgeStats :=
  match f with
  | Parsed adj =>
      match edges_of adj with
      | None => None
      | Some edges =>
          let cluster_of s :=
            match map_get s idx with Some r => r_cluster r | None => "" end in
          Some
            {| totalEdges := length edges;
               crossClusterEdges :=
                 length (List.filter
                           (fun e => truthy (cluster_of (fst e))
                                     && truthy (cluster_of (snd e))
                                     && negb (String.eqb (cluster_of (fst e))
                                                (cluster_of (snd e))))
                           edges);
               reciprocal :=
                 length (List.filter
                           (fun e => includes (fst e) (neighbors adj (snd e)))
                           edges) |}
      end
  | Unreadable _ => Some {| totalEdges := 0; crossClusterEdges := 0; reciprocal := 0 |}
  end.

Definition reciprocityRate (st : EdgeStats) : Q :=
  match totalEdges st with
  | 0 => 0
  | S _ => (inject_Z (Z.of_nat (reciprocal st)) / inject_Z (Z.of_nat (totalEdges st)))%Q
  end.

(** Lines 1119-1124. *)
Definition bigClusters_pushes (sizes : list (string * nat)) : list (Category * Issue) :=
  match List.filter (fun e => 120 <=? snd e) sizes with
  | [] => []
  | big => [(CWarnings, LargeClusters big)]
  end.

Record FileStatus := { f_path : string; f_ok : bool; f_err : option string }.

Record Report := {
  rp_timestamp : string;
  rp_files : list FileStatus;
  rp_limit : nat;
  rp_weights : Weights;
  rp_clusters : nat;
  rp_suburbs : nat;
  rp_adjacencySources : nat;
  rp_proximitySources : nat;
  rp_clusterSizes : list (string * nat);
  rp_adjacency : EdgeStats;
  rp_reciprocityRate : Q;
  rp_diffsSampled : nat;
  rp_proximityDiffs : list Diff;
  rp_explain : option string;
  rp_fixed : option string;
  rp_graph : option string;
  rp_issues : Issues
}.

(** The file [geo-proximity-fixed.json]. *)
Record Fixed := {
  fx_nearby : list (string * list NearbyItem);
  fx_limit : nat;
  fx_generatedAt : string
}.

Record Run := {
  run_report : Report;
  run_fixed : option Fixed;
  run_diffs : list Diff;
  run_exit : nat
}.

(** The [TypeError]s of a run: [x.slug] on a [null] entry of a prior list
    (line 1088), and [for (const dst of list)] on a value that cannot be
    iterated (line 1106). *)
Inductive Fault := NullPriorEntry | AdjacencyNotIterable.

(** A run throws before it has written any file, or it runs to
    [process.exit]. *)
Inductive Outcome :=
| Threw (f : Fault)
| Finished (r : Run).

(** The exit status of the process; an uncaught exception gives 1. *)
Definition exit_of (o : Outcome) : nat :=
  match o with
  | Threw _ => 1
  | Finished r => run_exit r
  end.

(** The run, when it finished. *)
Definition finished (o : Outcome) : option Run :=
  match o with
  | Threw _ => None
  | Finished r => Some r
  end.

Definition doctor (M : MathLib) (cli : Cli) (inp : Inputs) (clock : Clock) : Outcome :=
  let cfg := data_or no_config (in_cfg inp) in
  let LIMIT := limit_of cli cfg in
  let weights := weights_of cfg in
  let adj := data_or [] (in_adj inp) in
  let nearby := data_or [] (in_prox inp) in
  let '(p1, st) := clusters_pushes (in_clusters inp) in
  let idx := st_index st in
  let p2 := clusterMap_pushes (st_clusterSlugs st) (in_clusterMap inp) in
  let p3 := adjacency_pushes idx (in_adj inp) in
  let p4 := proximity_pushes idx LIMIT (in_prox inp) in
  let p5 := coordinate_pushes idx in
  match diffs_of M weights adj idx LIMIT (Nat.max 1 (DIFF_SAMPLE cli)) nearby with
  | None => Threw NullPriorEntry
  | Some (sampled, diffs) =>
  match edge_stats idx (in_adj inp) with
  | None => Threw AdjacencyNotIterable
  | Some stats =>
  let sizes := clusterSizes_of (st_clusterSlugs st) idx in
  let p6 := bigClusters_pushes sizes in
  let issues := issues_of (p1 ++ p2 ++ p3 ++ p4 ++ p5 ++ p6) in
  let explained :=
    match EXPLAIN cli with
    | Some e => truthy e && map_has e idx
    | None => false
    end in
  let fixed :=
    if WRITE cli then
      Some {| fx_nearby := fixedNearby M weights adj idx LIMIT nearby;
              fx_limit := LIMIT;
              fx_generatedAt := at_write clock |}
    else None in
  let report :=
    {| rp_timestamp := at_report clock;
       rp_files :=
         [ {| f_path := "src/data/areas.clusters.json"; f_ok := ok (in_clusters inp);
              f_err := err (in_clusters inp) |};
           {| f_path := "src/data/cluster_map.json"; f_ok := ok (in_clusterMap inp);
              f_err := err (in_clusterMap inp) |};
           {| f_path := "src/data/areas.adj.json"; f_ok := ok (in_adj inp);
              f_err := err (in_adj inp) |};
           {| f_path := "src/data/proximity.json"; f_ok := ok (in_prox inp);
              f_err := err (in_prox inp) |};
           {| f_path := "src/data/geo.config.json"; f_ok := ok (in_cfg inp);
              f_err := err (in_cfg inp) |} ];
       rp_limit := LIMIT;
       rp_weights := weights;
       rp_clusters := length (st_clusterSlugs st);
       rp_suburbs := length idx;
       rp_adjacencySources := if ok (in_adj inp) then length adj else 0;
       rp_proximitySources := if ok (in_prox inp) then length nearby else 0;
       rp_clusterSizes := sizes;
       rp_adjacency := stats;
       rp_reciprocityRate := reciprocityRate stats;
       rp_diffsSampled := sampled;
       rp_proximityDiffs := firstn 200 diffs;
       rp_explain :=
         if explained
         then Some ("__ai/geo-explain-" ++ match EXPLAIN cli with Some e => e | None => "" end
                    ++ ".json")%string
         else None;
       rp_fixed := if WRITE cli then Some "__ai/geo-proximity-fixed.json" else None;
       rp_graph := if GRAPH cli then Some "__ai/geo-adjacency.dot" else None;
       rp_issues := issues |} in
  let fatal :=
    negb (ok (in_clusters inp)) || nonempty_issue (schema issues)
    || nonempty_issue (referential issues) in
  Finished
    {| run_report := report;
       run_fixed := fixed;
       run_diffs := diffs;
       run_exit := if STRICT cli && fatal then 1 else 0 |}
  end
  end.

(** The pushes of the checks of lines 975-1044, in order; they are made
    before any statement that can throw. *)
Definition checks_pushes (cli : Cli) (inp : Inputs) : list (Category * Issue) :=
  let LIMIT := limit_of cli (data_or no_config (in_cfg inp)) in
  let st := snd (clusters_pushes (in_clusters inp)) in
  fst (clusters_pushes (in_clusters inp))
  ++ clusterMap_pushes (st_clusterSlugs st) (in_clusterMap inp)
  ++ adjacency_pushes (st_index st) (in_adj inp)
  ++ proximity_pushes (st_index st) LIMIT (in_prox inp)
  ++ coordinate_pushes (st_index st).

(** The push of lines 1119-1124. *)
Definition late_pushes (inp : Inputs) : list (Category * Issue) :=
  let st := snd (clusters_pushes (in_clusters inp)) in
  bigClusters_pushes (clusterSizes_of (st_clusterSlugs st) (st_index st)).

(** For the statements about the passes: the suburb slugs the index pass
    visits, the occurrences of a slug already met, and the slugs named by
    the duplicate issues. *)
Definition indexed_slugs (clusters : list ClusterItem) : list string :=
  flat_map (fun c => if isStr (cslug c) then List.map slug (suburbs_of c) else []) clusters.

Fixpoint repeats (seen : list string) (l : list string) : list string :=
  match l with
  | [] => []
  | x :: t => (if includes x seen then [x] else []) ++ repeats (x :: seen) t
  end.

Definition dup_issues (l : list Issue) : list string :=
  flat_map (fun i => match i with DuplicateSuburbSlug s => [s] | _ => [] end) l.

(** [suburbBySlug] of a run. *)
Definition index_of (inp : Inputs) : Index :=
  st_index (snd (clusters_pushes (in_clusters inp))).

(** *** When a run throws *)

(** No prior list of a sampled suburb holds [null]. *)
Definition samples_sound (cli : Cli) (inp : Inputs) : Prop :=
  forall s arr,
    In s (sampleSuburbs (index_of inp) (Nat.max 1 (DIFF_SAMPLE cli))) ->
    map_get s (data_or [] (in_prox inp)) = Some (Some arr) ->
    ~ In JNull arr.

(** Every value of a readable adjacency document can be iterated. *)
Definition adjacency_iterable (inp : Inputs) : Prop :=
  forall adj src, in_adj inp = Parsed adj -> ~ In (src, TOther) adj.

(** The report with its [timestamp] blanked, and the repaired snapshot with
    its [generatedAt] blanked. *)
Definition without_timestamp (r : Report) : Report :=
  {| rp_timestamp := "";
     rp_files := rp_files r; rp_limit := rp_limit r; rp_weights := rp_weights r;
     rp_clusters := rp_clusters r; rp_suburbs := rp_suburbs r;
     rp_adjacencySources := rp_adjacencySources r;
     rp_proximitySources := rp_proximitySources r;
     rp_clusterSizes := rp_clusterSizes r; rp_adjacency := rp_adjacency r;
     rp_reciprocityRate := rp_reciprocityRate r;
     rp_diffsSampled := rp_diffsSampled r; rp_proximityDiffs := rp_proximityDiffs r;
     rp_explain := rp_explain r; rp_fixed := rp_fixed r; rp_graph := rp_graph r;
     rp_issues := rp_issues r |}.

Definition without_generatedAt (f : Fixed) : Fixed :=
  {| fx_nearby := fx_nearby f; fx_limit := fx_limit f; fx_generatedAt := "" |}.

(** *** Invariants of the index pass *)

(** The index has one entry per slug, each recorded with a cluster. *)
Definition index_ok (st : IndexState) : Prop :=
  List.NoDup (map_keys (st_index st)) /\
  Forall (fun kv => isStr (r_cluster (snd kv)) = true) (st_index st).

(** The index holds exactly the slugs seen so far. *)
Definition tracks (st : IndexState) (seen : list string) : Prop :=
  forall k, map_has k (st_index st) = includes k seen.

(** The slug a duplicate-suburb issue names. *)
Definition dup_of (i : Issue) : list string :=
  match i with DuplicateSuburbSlug s => [s] | _ => [] end.

(** *** Sample catalogs *)

Definition w0 : Weights :=
  {| adjacencyBoost := 24; clusterBoost := 200; biasKm := 12; crossPenalty := 200 |}.

Definition sub (s : string) : SuburbItem :=
  {| slug := s; name := s; lat := None; lng := None |}.

Definition cba : list ClusterItem :=
  [ {| cslug := "west"; suburbs := Some [sub "c"; sub "b"; sub "a"] |} ].

Definition pqr : list ClusterItem :=
  [ {| cslug := "cluster-a";
       suburbs := Some [ {| slug := "p"; name := "P"; lat := None; lng := None |};
                         {| slug := "q"; name := "Q"; lat := None; lng := None |} ] |};
    {| cslug := "cluster-b";
       suburbs := Some [ {| slug := "r"; name := "R"; lat := None; lng := None |} ] |} ].

(** Two suburbs of one cluster a quarter of a degree apart, and a third in
    another cluster without coordinates. *)
Definition mapped : list ClusterItem :=
  [ {| cslug := "cluster-a";
       suburbs := Some [ {| slug := "p"; name := "P";
                            lat := Some (-27.5)%float; lng := Some 153%float |};
                         {| slug := "q"; name := "Q";
                            lat := Some (-27.25)%float; lng := Some 153%float |} ] |};
    {| cslug := "cluster-b";
       suburbs := Some [ {| slug := "r"; name := "R"; lat := None; lng := None |} ] |} ].

(** Weights that are not binary fractions, and a catalog in which [u] is
    adjacent to [s] across clusters and [v] shares the cluster of [s]. *)
Definition tenths : Weights :=
  {| adjacencyBoost := 0.3; clusterBoost := 0.2; biasKm := 12; crossPenalty := 0.1 |}.

Definition suv : list ClusterItem :=
  [ {| cslug := "one"; suburbs := Some [sub "u"] |};
    {| cslug := "two"; suburbs := Some [sub "s"; sub "v"] |} ].

Definition prior_p : list (string * option (list JItem)) :=
  [ ("p", Some [ JObj (Some "p") (Some "P"); JObj (Some "atlantis") None;
                 JOther; JObj (Some "q") (Some "Q"); JObj (Some "q") None ]) ].

(** A prior snapshot with a [null] entry. *)
Definition prior_null : list (string * option (list JItem)) :=
  [ ("p", Some [ JObj (Some "p") (Some "P"); JNull; JObj (Some "q") (Some "Q") ]) ].

Definition x_twice : list ClusterItem :=
  [ {| cslug := "a"; suburbs := Some [sub "x"] |};
    {| cslug := "b"; suburbs := Some [sub "x"] |} ].

Definition demo_inputs : Inputs :=
  {| in_clusters := Parsed (Some pqr);
     in_clusterMap := Unreadable "ENOENT";
     in_adj := Parsed [("p", TArray ["q"; "atlantis"])];
     in_prox := Parsed prior_p;
     in_cfg := Unreadable "ENOENT" |}.


(** The same files, with the [null] entry in the snapshot. *)
Definition null_inputs : Inputs :=
  {| in_clusters := Parsed (Some pqr);
     in_clusterMap := Unreadable "ENOENT";
     in_adj := Parsed [("p", TArray ["q"; "atlantis"])];
     in_prox := Parsed prior_null;
     in_cfg := Unreadable "ENOENT" |}.

Definition demo_cli : Cli :=
  {| STRICT := true; WRITE := true; GRAPH := false; EXPLAIN := None;
     DIFF_SAMPLE := 60; FORCE_LIMIT := Some 2 |}.

End Doctor.

(** ** What the doctor writes, read back *)

Module Reread.
Import Js Doctor.

(** An entry of [geo-proximity-fixed.json], [{slug, name}], parsed again
    as an entry of a prior [nearby] list. *)
Definition as_prior (it : NearbyItem) : JItem :=
  JObj (Some (n_slug it)) (Some (n_name it)).

(** The records the index pass writes into [suburbBySlug], in the order
    of the writes: one per suburb of each cluster whose slug is valid. *)
Definition record_of (c : string) (s : SuburbItem) : string * SuburbRec :=
  (slug s, {| r_name := name s; r_lat := lat s; r_lng := lng s; r_cluster := c |}).

Definition listings (clusters : list ClusterItem) : list (string * SuburbRec) :=
  flat_map
    (fun c => if isStr (cslug c) then List.map (record_of (cslug c)) (suburbs_of c) else [])
    clusters.

(** The record of the last write under slug [s]. *)
Fixpoint last_listing (s : string) (l : list (string * SuburbRec)) : option SuburbRec :=
  match l with
  | [] => None
  | e :: t =>
      match last_listing s t with
      | Some r => Some r
      | None => if String.eqb s (fst e) then Some (snd e) else None
      end
  end.

End Reread.

(** ** Well-formed inputs of the doctor *)

Module Wellformed.
Import Js Doctor.

(** A suburb with a slug and a name, and with coordinates in range when it
    has both. *)
Definition suburb_ok (s : SuburbItem) : Prop :=
  isStr (slug s) = true /\ isStr (name s) = true
  /\ match lat s, lng s with
     | Some a, Some b => in_range (-90) 90 a && in_range (-180) 180 b = true
     | _, _ => True
     end.

(** Every cluster has a slug and an array of suburbs, every suburb is well
    formed, and no suburb slug is suburbs_of twice. *)
Definition catalog_ok (clusters : list ClusterItem) : Prop :=
  Forall (fun c => isStr (cslug c) = true /\ suburbs c <> None
                   /\ Forall suburb_ok (suburbs_of c)) clusters
  /\ List.NoDup (flat_map (fun c => List.map slug (suburbs_of c)) clusters).

(** An indexed record whose coordinates, when it has both, are in range. *)
Definition rec_in_range (e : string * SuburbRec) : Prop :=
  match r_lat (snd e), r_lng (snd e) with
  | Some a, Some b => in_range (-90) 90 a && in_range (-180) 180 b = true
  | _, _ => True
  end.

(** The keys of [cluster_map.json] are cluster slugs. *)
Definition clusterMap_ok (clusters : list ClusterItem) (keys : list string) : Prop :=
  forall k, In k keys -> In k (List.map cslug clusters).

(** Every value is an array; sources and targets are indexed suburbs, and
    no suburb lists itself. *)
Definition adjacency_ok (idx : Index) (adj : list (string * Targets)) : Prop :=
  forall src v, In (src, v) adj ->
    map_has src idx = true
    /\ exists l, v = TArray l
         /\ forall dst, In dst l -> dst <> src /\ map_has dst idx = true.

(** Every source is an indexed suburb with an array of entries; every
    entry carries the slug of another indexed suburb, and no slug comes
    twice in an array. *)
Definition proximity_ok (idx : Index) (nearby : list (string * option (list JItem)))
    : Prop :=
  forall src v, In (src, v) nearby ->
    map_has src idx = true
    /\ exists arr, v = Some arr
         /\ List.NoDup (List.map item_slug arr)
         /\ forall it, In it arr ->
              exists sl, item_slug it = Some sl /\ isStr sl = true
                         /\ sl <> src /\ map_has sl idx = true.

(** Pushes that go to [issues.warnings] only. *)
Definition warnings_only (ps : list (Category * Issue)) : Prop :=
  Forall (fun p => fst p = CWarnings) ps.

(** A file that is absent, or whose content satisfies [P]. *)
Definition loaded_ok {A : Type} (P : A -> Prop) (f : Loaded A) : Prop :=
  match f with
  | Parsed a => P a
  | Unreadable _ => True
  end.

(** A run on well-formed files. *)
Definition tidy_inputs : Inputs :=
  {| in_clusters := Parsed (Some pqr);
     in_clusterMap := Parsed ["cluster-a"];
     in_adj := Parsed [("p", TArray ["q"]); ("q", TArray ["p"; "r"])];
     in_prox := Parsed [("p", Some [JObj (Some "q") (Some "Q"); JObj (Some "r") None])];
     in_cfg := Unreadable "ENOENT" |}.

End Wellformed.

(** ** The data validator ([validate-data.zod], second file of
    [src/unnamed/part_000], lines 718-833) *)

Module ValidateData.
Import Js.

(** A suburb given as an object, with the fields it has. *)
Record SuburbObject := {
  so_slug : option string;
  so_name : option string;
  so_lat : option float;
  so_lng : option float
}.

(** An element of a cluster's [suburbs]: a string or an object. *)
Inductive ClusterSuburb :=
| SSlug (s : string)
| SObject (o : SuburbObject).

Record RawCluster := {
  rc_slug : string;
  rc_name : option string;
  rc_suburbs : list ClusterSuburb
}.

(** The cluster document: the object [{clusters: [...]}] whose clusters
    are objects, or an object whose values are arrays of strings. *)
Inductive ClustersDoc :=
| ArrayDoc (clusters : list RawCluster)
| RecordDoc (entries : list (string * list string)).

(** The values other than strings that reach [slugify]. *)
Inductive Untyped :=
| Undefined
| AnObject (o : SuburbObject).

(** How the script ends early: what [fail(msg)] prints before
    [process.exit(1)], or an exception thrown by [slugify]. *)
Inductive Failure :=
| SchemaInvalid
| NonSlugCluster (c : string)
| NonSlugSuburb (s c : string)
| MultipleClusters (s prev cur : string)
| DuplicateInside (dups : list string)
| CoverageSchemaInvalid
| UnknownCoverageTokens (unknown : list (string * string * string))
| Crashed.

Definition bind {A B : Type} (x : Failure + A) (f : A -> Failure + B) : Failure + B :=
  match x with
  | inl e => inl e
  | inr a => f a
  end.

Notation "x <- c1 ;; c2" := (bind c1 (fun x => c2))
  (at level 100, c1 at next level, right associativity).

(** The Zod scalar [slug]: [z.string().min(1).regex(/^[a-z0-9-]+$/)]. *)
Definition is_slug (s : string) : bool :=
  match list_ascii_of_string s with
  | [] => false
  | l => forallb Slug.slug_char l
  end.

Definition nonempty {A : Type} (l : list A) : bool :=
  match l with [] => false | _ => true end.

(** A field that is absent, or passes [test]. *)
Definition optional {A : Type} (test : A -> bool) (x : option A) : bool :=
  match x with
  | Some a => test a
  | None => true
  end.

(** [z.number().gte(lo).lte(hi)]. *)
Definition within (lo hi x : float) : bool := (lo <=? x)%float && (x <=? hi)%float.

(** The Zod union [ClusterSuburb]: a slug, or a [SuburbObject]. *)
Definition suburb_schema (r : ClusterSuburb) : bool :=
  match r with
  | SSlug s => is_slug s
  | SObject o =>
      optional is_slug (so_slug o) && optional truthy (so_name o)
      && optional (within (-90) 90) (so_lat o)
      && optional (within (-180) 180) (so_lng o)
  end.

(** [ClustersUnion.safeParse(clustersDoc).success]: the array schema for
    the object [{clusters: [...]}], the record schema for an object of
    arrays of strings. *)
Definition schema_ok (doc : ClustersDoc) : bool :=
  match doc with
  | ArrayDoc clusters =>
      nonempty clusters
      && forallb
           (fun c =>
              is_slug (rc_slug c)
              && optional truthy (rc_name c)
              && nonempty (rc_suburbs c)
              && forallb suburb_schema (rc_suburbs c))
           clusters
  | RecordDoc entries =>
      forallb (fun e => nonempty (snd e) && forallb is_slug (snd e)) entries
  end.

(** What one turn of a loop of [normalizeClusters] reads: [c.slug],
    [None] when it is undefined, or the key [k]; and [c.suburbs || []], or
    the array [v]. *)
Definition Entry : Type := option string * list ClusterSuburb.

(** The turns of the loop the document is given to (line 736): with a key
    [clusters], the loop over [clustersDoc.clusters], whose elements are
    strings when the document is a record of arrays; the loop over the
    entries otherwise. *)
Definition entries_of (doc : ClustersDoc) : list Entry :=
  match doc with
  | ArrayDoc clusters => List.map (fun c => (Some (rc_slug c), rc_suburbs c)) clusters
  | RecordDoc entries =>
      match map_get "clusters" entries with
      | Some l => List.map (fun _ : string => (@None string, @nil ClusterSuburb)) l
      | None => List.map (fun e => (Some (fst e), List.map SSlug (snd e))) entries
      end
  end.

Record Indexes := {
  suburbToCluster : gmap string string;
  clusterToSuburbs : gmap string (list string)
}.

Record BuildState := {
  bs_s2c : gmap string string;
  bs_c2s : gmap string (list string);
  bs_dupIntra : list string
}.

Section Build.
(** [slugify] is imported from [~/lib/links/knownSuburbs], which is not
    among the sources: its value on a string, and its value on another
    argument, [None] when it throws. *)
Variable slugify : string -> string.
Variable slugify_other : Untyped -> option string.
(** [process.env.STRICT_MODE === '1']. *)
Variable STRICT : bool.

(** [slugify(c.slug)], [slugify(k)]. *)
Definition key_slug (k : option string) : option string :=
  match k with
  | Some s => Some (slugify s)
  | None => slugify_other Undefined
  end.

(** [slugify(s)] for an element of the list. *)
Definition suburb_slug (r : ClusterSuburb) : option string :=
  match r with
  | SSlug s => Some (slugify s)
  | SObject o => slugify_other (AnObject o)
  end.

(** [listRaw.map(s => slugify(s))]. *)
Fixpoint suburb_slugs (l : list ClusterSuburb) : option (list string) :=
  match l with
  | [] => Some []
  | r :: t =>
      match suburb_slug r, suburb_slugs t with
      | Some s, Some ss => Some (s :: ss)
      | _, _ => None
      end
  end.

(** [String(raw)]. *)
Definition as_string (r : ClusterSuburb) : string :=
  match r with
  | SSlug s => s
  | SObject _ => "[object Object]"
  end.

(** The key as a template literal prints it. *)
Definition shown (k : option string) : string :=
  match k with
  | Some s => s
  | None => "undefined"
  end.

(** The checks under [STRICT]; an undefined [c.slug] differs from every
    string. *)
Definition strict_check (k : option string) (listRaw : list ClusterSuburb)
    : Failure + unit :=
  if STRICT then
    if match k with
       | Some s => negb (String.eqb s (slugify s))
       | None => true
       end
    then inl (NonSlugCluster (shown k))
    else
      match List.find
              (fun r => negb (String.eqb (as_string r) (slugify (as_string r))))
              listRaw with
      | Some r => inl (NonSlugSuburb (as_string r) (shown k))
      | None => inr tt
      end
  else inr tt.

(** [.sort()]. *)
Definition sorted_slugs (slugs : list string) : list string :=
  js_sort String.compare slugs.

Fixpoint intra_dups (cSlug : string) (seen : gset string) (l : list string) : list string :=
  match l with
  | [] => []
  | s :: t =>
      (if bool_decide (s ∈ seen) then [cSlug ++ ":" ++ s]%string else [])
      ++ intra_dups cSlug ({[s]} ∪ seen) t
  end.

Fixpoint assign_suburbs (cSlug : string) (l : list string) (s2c : gmap string string)
    : Failure + gmap string string :=
  match l with
  | [] => inr s2c
  | s :: t =>
      match s2c !! s with
      | Some prev =>
          if truthy prev && negb (String.eqb prev cSlug)
          then inl (MultipleClusters s prev cSlug)
          else assign_suburbs cSlug t (<[s := cSlug]> s2c)
      | None => assign_suburbs cSlug t (<[s := cSlug]> s2c)
      end
  end.

(** One turn of the loop (lines 738-755 and 759-770): the cluster slug,
    the checks under [STRICT], the sorted list of suburb slugs, the
    duplicates inside the cluster, and the assignment of its suburbs. *)
Definition build_step (st : BuildState) (e : Entry) : Failure + BuildState :=
  match key_slug (fst e) with
  | None => inl Crashed
  | Some cSlug =>
      _ <- strict_check (fst e) (snd e) ;;
      match suburb_slugs (snd e) with
      | None => inl Crashed
      | Some slugs =>
          let l := sorted_slugs slugs in
          s2c <- assign_suburbs cSlug l (bs_s2c st) ;;
          inr {| bs_s2c := s2c;
                 bs_c2s := <[cSlug := l]> (bs_c2s st);
                 bs_dupIntra := bs_dupIntra st ++ intra_dups cSlug ∅ l |}
      end
  end.

Fixpoint build_steps (st : BuildState) (es : list Entry)
    : Failure + BuildState :=
  match es with
  | [] => inr st
  | e :: t => st' <- build_step st e ;; build_steps st' t
  end.

(** [Array.from(new Set(dupIntra))]. *)
Definition dedupe (l : list string) : list string := Doctor.uniq_from [] l.

Definition normalizeClusters (doc : ClustersDoc) : Failure + Indexes :=
  if negb (schema_ok doc) then inl SchemaInvalid
  else
    st <- build_steps {| bs_s2c := ∅; bs_c2s := ∅; bs_dupIntra := [] |} (entries_of doc) ;;
    if nonempty (bs_dupIntra st) then inl (DuplicateInside (dedupe (bs_dupIntra st)))
    else inr {| suburbToCluster := bs_s2c st; clusterToSuburbs := bs_c2s st |}.

(** [validateCoverageTokens] (lines 805-825). *)
Definition unknown_tokens (ix : Indexes) (coverage : list (string * list string))
    : list (string * string * string) :=
  flat_map
    (fun e =>
       flat_map
         (fun raw =>
            let token := slugify raw in
            if bool_decide (is_Some (suburbToCluster ix !! token)) then []
            else if bool_decide (is_Some (clusterToSuburbs ix !! token)) then []
            else [(fst e, raw, token)])
         (snd e))
    coverage.

(** [CoverageSchema.safeParse(coverage).success]: every entry of every
    list is a slug. *)
Definition coverage_schema_ok (coverage : list (string * list string)) : bool :=
  forallb (fun e => forallb is_slug (snd e)) coverage.

(** [GEO_ALLOW_MISSING === '1'] only warns. The result is the list of
    warnings printed. *)
Definition validateCoverageTokens (allowMissing : bool) (ix : Indexes)
    (coverage : list (string * list string))
    : Failure + list (string * string * string) :=
  if negb (coverage_schema_ok coverage) then inl CoverageSchemaInvalid
  else
    let unknown := unknown_tokens ix coverage in
    if nonempty unknown then
      if allowMissing then inr unknown else inl (UnknownCoverageTokens unknown)
    else inr [].

(** The normalized slug of a cluster and the normalized slugs of its
    suburbs, where [slugify] returns them. *)
Definition cslug_of (e : Entry) : string :=
  match key_slug (fst e) with
  | Some c => c
  | None => ""
  end.

Definition slugs_of (e : Entry) : list string :=
  match suburb_slugs (snd e) with
  | Some l => l
  | None => []
  end.

(** [slugify] throws on no value of the cluster. *)
Definition resolves (e : Entry) : Prop :=
  key_slug (fst e) <> None /\ suburb_slugs (snd e) <> None.

(** Membership of a normalized suburb slug in a cluster of the document. *)
Definition lists (e : Entry) (s : string) : Prop := In s (slugs_of e).


(** Under [STRICT] every slug of the entries is already normalized. *)
Definition clean (es : list Entry) : Prop :=
  STRICT = true ->
  forall e, In e es ->
    (exists k, fst e = Some k /\ slugify k = k)
    /\ forall raw, In raw (snd e) -> slugify (as_string raw) = as_string raw.

Definition strict_clean (doc : ClustersDoc) : Prop := clean (entries_of doc).

(** *** Invariants of the build loop *)

(** Every entry of [suburbToCluster] comes from a processed cluster. *)
Definition traced (st : BuildState) (pre : list Entry) : Prop :=
  forall s p, bs_s2c st !! s = Some p ->
    exists e, In e pre /\ cslug_of e = p /\ lists e s.

(** Every suburb of a processed cluster is mapped to that cluster. *)
Definition settled (st : BuildState) (pre : list Entry) : Prop :=
  forall e, In e pre -> forall s, lists e s -> bs_s2c st !! s = Some (cslug_of e).

(** What [dupIntra] holds after the clusters [pre]. *)
Definition all_dups (pre : list Entry) : list string :=
  flat_map (fun e => intra_dups (cslug_of e) ∅ (sorted_slugs (slugs_of e))) pre.

End Build.

(** *** Two ways [slugify] may treat a value that is not a string *)

(** It throws, as [raw.toLowerCase()] does. *)
Definition throwing (u : Untyped) : option string := None.

(** It converts with [String(raw)] first. *)
Definition stringly (u : Untyped) : option string :=
  Some (Slug.slugify
          match u with
          | Undefined => "undefined"
          | AnObject _ => "[object Object]"
          end).

(** *** Sample documents *)

Definition split_doc : ClustersDoc :=
  ArrayDoc
    [ {| rc_slug := "a"; rc_name := None; rc_suburbs := [SSlug "x"; SSlug "y"] |};
      {| rc_slug := "b"; rc_name := None; rc_suburbs := [SSlug "y"; SSlug "x"] |} ].

Definition twice_doc : ClustersDoc :=
  ArrayDoc [ {| rc_slug := "a"; rc_name := None; rc_suburbs := [SSlug "x"; SSlug "x"] |} ].

(** A record with a cluster named [clusters]. *)
Definition clusters_key_doc : ClustersDoc :=
  RecordDoc [ ("clusters", ["x"]); ("b", ["x"]) ].

(** A cluster with a suburb given as an object. *)
Definition object_doc : ClustersDoc :=
  ArrayDoc
    [ {| rc_slug := "a"; rc_name := None;
         rc_suburbs := [ SSlug "x";
                         SObject {| so_slug := Some "y"; so_name := None;
                                    so_lat := None; so_lng := None |} ] |} ].

Definition tidy_doc : ClustersDoc :=
  RecordDoc [ ("a", ["x"; "y"]); ("b", ["z"]) ].

Definition a_x_doc : ClustersDoc := RecordDoc [ ("a", ["x"]) ].

End ValidateData.

(** ** The graph check of the data validator ([validate-data.zod],
    [src/unnamed/part_000], lines 777-803) *)

Module ValidateGraph.
Import Js.

(** A value of the adjacency document: an array, an object with its
    [adjacent_suburbs] when present, or anything else. *)
Inductive AdjValue :=
| VArray (l : list string)
| VObject (adjacent_suburbs : option (list string))
| VOther.

(** [AdjacencyUnion.safeParse(adjacencyDoc).success]: every value an array
    of slugs, or every value an object holding at most an array of slugs. *)
Definition schema_ok (doc : list (string * AdjValue)) : bool :=
  forallb
    (fun e => match snd e with
              | VArray l => forallb ValidateData.is_slug l
              | _ => false
              end) doc
  || forallb
       (fun e => match snd e with
                 | VObject (Some l) => forallb ValidateData.is_slug l
                 | VObject None => true
                 | _ => false
                 end) doc.

Inductive Warning :=
| MissingNode (a : string)
| MissingNeighbor (a b : string)
| CrossEdge (a ca b cb : string).

Definition is_missing (w : Warning) : bool :=
  match w with CrossEdge _ _ _ _ => false | _ => true end.

(** How the check ends: it returns, or [fail] prints
    [graph invalid (missing=.., cross=..)]; either way after the warnings. *)
Inductive Verdict :=
| Checked (warned : list Warning)
| GraphInvalid (missing cross : nat) (warned : list Warning)
| SchemaInvalid.

Section Graph.
Variable slugify : string -> string.

(** [Array.isArray(v) ? v : v?.adjacent_suburbs || []]. *)
Definition list_of (v : AdjValue) : list string :=
  match v with
  | VArray l => l
  | VObject (Some l) => l
  | _ => []
  end.

(** [normalizeAdjacency] (lines 777-787); [None] when the schema rejects
    the document. *)
Definition normalizeAdjacency (doc : list (string * AdjValue))
    : option (list (string * list string)) :=
  if schema_ok doc then
    Some (fold_left
            (fun out e =>
               map_set (slugify (fst e))
                 (js_sort String.compare (List.map slugify (list_of (snd e)))) out)
            doc [])
  else None.

(** [suburbToCluster.get(a)], read as a condition. *)
Definition cluster_of (s2c : gmap string string) (a : string) : option string :=
  match s2c !! a with
  | Some c => if truthy c then Some c else None
  | None => None
  end.

(** The inner loop of [validateAdjacencyAgainstClusters] for one node. *)
Definition neighbor_warnings (s2c : gmap string string) (a : string) (ca : option string)
    (ns : list string) : list Warning :=
  flat_map
    (fun b =>
       match cluster_of s2c b with
       | None => [MissingNeighbor a b]
       | Some cb =>
           match ca with
           | Some c => if negb (String.eqb c cb) then [CrossEdge a c b cb] else []
           | None => []
           end
       end)
    ns.

Definition node_warnings (warnOnly : bool) (s2c : gmap string string)
    (e : string * list string) : list Warning :=
  match cluster_of s2c (fst e) with
  | None =>
      MissingNode (fst e)
      :: (if warnOnly then [] else neighbor_warnings s2c (fst e) None (snd e))
  | Some ca => neighbor_warnings s2c (fst e) (Some ca) (snd e)
  end.

(** [validateAdjacencyAgainstClusters] (lines 789-803); [warnOnly] is
    [process.env.GEO_ALLOW_MISSING === '1']. *)
Definition validateAdjacencyAgainstClusters (warnOnly : bool)
    (adj : list (string * list string)) (s2c : gmap string string) : Verdict :=
  let warned := flat_map (node_warnings warnOnly s2c) adj in
  let missing := length (List.filter is_missing warned) in
  let cross := length (List.filter (fun w => negb (is_missing w)) warned) in
  if negb warnOnly && negb ((missing =? 0) && (cross =? 0))
  then GraphInvalid missing cross warned
  else Checked warned.

(** The two steps of [main] on the adjacency document. *)
Definition graph_check (warnOnly : bool) (doc : list (string * AdjValue))
    (s2c : gmap string string) : Verdict :=
  match normalizeAdjacency doc with
  | None => SchemaInvalid
  | Some adj => validateAdjacencyAgainstClusters warnOnly adj s2c
  end.

End Graph.

End ValidateGraph.

(** ** The adjacency integrity check ([src/unnamed/part_001]) *)

Module Integrity.
Import Js.

(** An entry of a cluster's [suburbs]: [null], a string, or an object
    with its [slug] and [name] when present. *)
Inductive Name :=
| NNull
| NStr (s : string)
| NObj (oslug oname : option string).

Record Cluster := {
  g_slug : string;
  (** [None] when the cluster has no [suburbs] *)
  g_suburbs : option (list Name)
}.

(** A value of the adjacency document. *)
Inductive Data :=
| DArray (l : list string)
| DObject (adjacent_suburbs : option (list string))
| DNull.

(** [String(raw).toLowerCase().replace(/\s+/g,'-').replace(/[^a-z0-9-]/g,'')]. *)
Definition slug_chars (l : list ascii) : list ascii :=
  Slug.delete_all (fun c => negb (Slug.slug_char c))
    (Slug.replace_runs Slug.is_space Slug.hyphen (Slug.toLowerCase l)).

(** [name.slug || name.name || '']. *)
Definition raw_of (n : Name) : string :=
  match n with
  | NNull => ""
  | NStr s => s
  | NObj oslug oname =>
      or_else (match oslug with Some x => x | None => "" end)
        (match oname with Some x => x | None => "" end)
  end.

(** [slugify] (lines 40-46). *)
Definition slugify (n : Name) : string :=
  string_of_list_ascii (slug_chars (list_ascii_of_string (raw_of n))).

(** [cluster.suburbs || []]. *)
Definition suburbs_of (c : Cluster) : list Name :=
  match g_suburbs c with Some l => l | None => [] end.

Record Built := {
  suburb2cluster : list (string * string);
  duplicates : list string
}.

(** Lines 48-60. *)
Definition add_suburb (c : string) (b : Built) (n : Name) : Built :=
  let sl := slugify n in
  {| suburb2cluster := map_set sl c (suburb2cluster b);
     duplicates :=
       duplicates b ++ (if map_has sl (suburb2cluster b) then [sl] else []) |}.

Definition build (clusters : list Cluster) : Built :=
  fold_left (fun b c => fold_left (add_suburb (g_slug c)) (suburbs_of c) b) clusters
    {| suburb2cluster := []; duplicates := [] |}.

Inductive Event :=
| Missing (s : string)
| Cross (from to fromCluster toCluster : string).

Definition is_missing (e : Event) : bool :=
  match e with Missing _ => true | Cross _ _ _ _ => false end.

(** The body of the loop over the adjacency (lines 76-101) for one entry;
    [None] when reading [data.adjacent_suburbs] throws. *)
Definition node_events (m : list (string * string)) (e : string * Data)
    : option (list Event) :=
  if negb (map_has (fst e) m) then Some [Missing (fst e)]
  else
    let fromCluster := match map_get (fst e) m with Some c => c | None => "" end in
    let scan ns :=
      flat_map
        (fun to =>
           match map_get to m with
           | None => [Missing to]
           | Some toCluster =>
               if negb (String.eqb fromCluster toCluster)
               then [Cross (fst e) to fromCluster toCluster] else []
           end)
        ns in
    match snd e with
    | DArray l => Some (scan l)
    | DObject (Some l) => Some (scan l)
    | DObject None => Some []
    | DNull => None
    end.

Fixpoint all_events (m : list (string * string)) (adj : list (string * Data))
    : option (list Event) :=
  match adj with
  | [] => Some []
  | e :: t =>
      match node_events m e with
      | None => None
      | Some evs =>
          match all_events m t with
          | None => None
          | Some rest => Some (evs ++ rest)
          end
      end
  end.

(** How the script ends: [process.exit(1)] after an exception, after the
    failure summary, or the closing line with exit code 0. *)
Inductive Outcome :=
| Crashed
| Failed (missing dups : nat)
| Passed (crossCluster : nat).

Definition exit_code (o : Outcome) : nat :=
  match o with Passed _ => 0 | _ => 1 end.

(** [run] (lines 7-138), once the two files are read.  The cluster
    breakdown (lines 116-120) reads [cluster.suburbs.map] and throws on a
    cluster without [suburbs]. *)
Definition run (clusters : list Cluster) (adjacency : list (string * Data)) : Outcome :=
  let b := build clusters in
  match all_events (suburb2cluster b) adjacency with
  | None => Crashed
  | Some evs =>
      if negb (forallb (fun c => match g_suburbs c with Some _ => true | None => false end)
                 clusters)
      then Crashed
      else
        let missing := length (List.filter is_missing evs) in
        let cross := length (List.filter (fun e => negb (is_missing e)) evs) in
        if (0 <? missing) || (0 <? length (duplicates b))
        then Failed missing (length (duplicates b))
        else Passed cross
  end.

(** The slugs of the catalog, in the order the script meets them. *)
Definition catalog_slugs (clusters : list Cluster) : list string :=
  flat_map (fun c => List.map slugify (suburbs_of c)) clusters.

(** [Array.isArray(data) ? data : (data.adjacent_suburbs || [])], for a
    value that is not [null]. *)
Definition neighbors_of (d : Data) : list string :=
  match d with
  | DArray l => l
  | DObject (Some l) => l
  | _ => []
  end.

End Integrity.

(** ** The coverage validator ([src/scripts/ops/validate-coverage.mts]) *)

Module Coverage.
Import Js.

(** A suburb entry of the cluster document: a bare string, or an object
    with the strings it has under [slug] and [name]. *)
Inductive RawSuburb :=
| SStr (s : string)
| SObj (oslug oname : option string).

Record RawCluster := { cv_suburbs : list RawSuburb }.

Definition lower (s : string) : string :=
  string_of_list_ascii (Slug.toLowerCase (list_ascii_of_string s)).

(** [(typeof s === 'string' ? s : (s.slug || s.name)).toLowerCase()];
    [None] when [s.slug || s.name] is undefined and the call throws a
    [TypeError]. *)
Definition ident (r : RawSuburb) : option string :=
  match r with
  | SStr s => Some (lower s)
  | SObj oslug oname =>
      match oslug with
      | Some sl => if truthy sl then Some (lower sl) else option_map lower oname
      | None => option_map lower oname
      end
  end.

(** The values of a list when none is missing. *)
Fixpoint all_some {A : Type} (l : list (option A)) : option (list A) :=
  match l with
  | [] => Some []
  | x :: t =>
      match x, all_some t with
      | Some a, Some r => Some (a :: r)
      | _, _ => None
      end
  end.

Definition idents (clusters : list RawCluster) : option (list string) :=
  all_some (flat_map (fun c => List.map ident (cv_suburbs c)) clusters).

(** The set [known]; [None] when building it throws. *)
Definition known (clusters : list RawCluster) : option (gset string) :=
  option_map list_to_set (idents clusters).

(** One line of [problems]: [Service "svc" references unknown suburb: s]. *)
Record Problem := { pb_service : string; pb_suburb : string }.

Definition problems (known : gset string) (coverage : list (string * list string))
    : list Problem :=
  flat_map
    (fun e =>
       flat_map
         (fun s =>
            if bool_decide (s ∈ known) then []
            else [{| pb_service := fst e; pb_suburb := s |}])
         (snd e))
    coverage.

(** What the script prints and how it ends; [Uncaught] is the
    [TypeError] of line 5. *)
Inductive Outcome :=
| Passed
| Warned (ps : list Problem)
| Failed (ps : list Problem)
| Uncaught.

Definition exit_code (o : Outcome) : nat :=
  match o with
  | Failed _ | Uncaught => 1
  | _ => 0
  end.

(** [allowMissing] is [process.env.GEO_ALLOW_MISSING === '1']. *)
Definition main (allowMissing : bool) (clusters : list RawCluster)
    (coverage : list (string * list string)) : Outcome :=
  match known clusters with
  | None => Uncaught
  | Some k =>
      match problems k coverage with
      | [] => Passed
      | ps => if allowMissing then Warned ps else Failed ps
      end
  end.

(** Every suburb object has a slug or a name. *)
Definition named (clusters : list RawCluster) : Prop :=
  forall c r, In c clusters -> In r (cv_suburbs c) -> ident r <> None.

(** A suburb slug is present in a cluster when some entry of some cluster
    has it as its lowercased identifier. *)
Definition present (clusters : list RawCluster) (s : string) : Prop :=
  exists c r, In c clusters /\ In r (cv_suburbs c) /\ ident r = Some s.

(** The coverage document references suburb [s] under service [svc]. *)
Definition references (coverage : list (string * list string)) (svc s : string) : Prop :=
  exists l, In (svc, l) coverage /\ In s l.

(** *** Sample document *)

Definition seq_clusters : list RawCluster :=
  [ {| cv_suburbs := [SStr "ipswich"; SObj None (Some "Ripley")] |} ].

(** A suburb object without slug and name. *)
Definition bare_clusters : list RawCluster :=
  [ {| cv_suburbs := [SStr "ipswich"; SObj None None] |} ].

End Coverage.

(** ** Enforcing the cross-cluster policy
    ([src/scripts/ops/enforce-cross-cluster.mts]) *)

Module Enforce.
Import Js.

(** A suburb object of the cluster document, with the fields the script
    reads. *)
Record Suburb := { e_slug : string; e_name : string }.

Record Cluster := { ec_slug : string; ec_suburbs : list Suburb }.

(** An entry of [crossCluster.whitelistEdges]. *)
Record Edge := { e_from : string; e_to : string }.

(** [[a, b].sort().join('::')]. *)
Definition pair_key (a b : string) : string :=
  match String.compare a b with
  | Gt => b ++ "::" ++ a
  | _ => a ++ "::" ++ b
  end.

(** The set [WL]. *)
Definition WL (whitelist : list Edge) : gset string :=
  list_to_set (List.map (fun e => pair_key (e_from e) (e_to e)) whitelist).

(** The map from suburb to cluster (line 20). *)
Definition cluster_map (clusters : list Cluster) : list (string * string) :=
  fold_left
    (fun m c =>
       fold_left
         (fun m s => map_set (Coverage.lower (or_else (e_slug s) (e_name s))) (ec_slug c) m)
         (ec_suburbs c) m)
    clusters [].

(** [map.get(x)] read as a condition. *)
Definition cluster_of (m : list (string * string)) (x : string) : option string :=
  match map_get x m with
  | Some c => if truthy c then Some c else None
  | None => None
  end.

(** The filter of lines 26-33: what it answers for the edge [k -> v], and
    whether it counts the edge as dropped. *)
Definition keeps (wl : gset string) (m : list (string * string)) (k v : string) : bool :=
  match cluster_of m k, cluster_of m v with
  | Some kc, Some vc => String.eqb kc vc || bool_decide (pair_key k v ∈ wl)
  | _, _ => false
  end.

Definition drops (wl : gset string) (m : list (string * string)) (k v : string) : bool :=
  match cluster_of m k, cluster_of m v with
  | Some kc, Some vc => negb (String.eqb kc vc) && negb (bool_decide (pair_key k v ∈ wl))
  | _, _ => false
  end.

(** The adjacency written back and the number of edges reported dropped. *)
Definition enforce (whitelist : list Edge) (clusters : list Cluster)
    (adj : list (string * list string)) : list (string * list string) * nat :=
  let wl := WL whitelist in
  let m := cluster_map clusters in
  (List.map (fun e => (fst e, List.filter (keeps wl m (fst e)) (snd e))) adj,
   length (flat_map (fun e => List.filter (drops wl m (fst e)) (snd e)) adj)).

End Enforce.

(** ** The cluster splitter ([src/scripts/ops/split-cluster.mts]) *)

Module Split.
Import Js.
Import Doctor(SuburbItem, slug, name, lat, lng, isNum).

Record Cluster := {
  k_slug : string;
  k_name : string;
  k_suburbs : list SuburbItem
}.

Definition Point : Type := float * float.

(** [Number.isFinite(s.lat) && Number.isFinite(s.lng)]. *)
Definition has_coords (s : SuburbItem) : bool := isNum (lat s) && isNum (lng s).

(** [subs]: the suburbs that pass the filter, each with its [[lat, lng]]. *)
Definition located (l : list SuburbItem) : list (SuburbItem * Point) :=
  flat_map
    (fun s =>
       if has_coords s then
         match lat s, lng s with
         | Some a, Some b => [(s, (a, b))]
         | _, _ => []
         end
       else [])
    l.

Definition dist (a b : Point) : float :=
  let dx := (fst a - fst b)%float in
  let dy := (snd a - snd b)%float in
  (dx * dx + dy * dy)%float.

(** [d < bd]. *)
Definition closer (d bd : float) : bool := (d <? bd)%float.

(** The loop [for (k...) { d = dist(pt, centroids[k]); if (d < bd) ... }]
    from index [k] on. *)
Fixpoint scan (pt : Point) (cs : list Point) (k best : nat) (bd : float) : nat :=
  match cs with
  | [] => best
  | c :: t =>
      let d := dist pt c in
      if closer d bd then scan pt t (S k) k d
      else scan pt t (S k) best bd
  end.

(** [assignBucket], and the same loop inside the iteration; [bd] starts
    at [Infinity]. *)
Definition assignBucket (K : nat) (centroids : list Point) (pt : Point) : nat :=
  scan pt (firstn K centroids) 0 0 PrimFloat.infinity.

Definition every_nth {A : Type} (step : nat) (l : list A) : list A :=
  List.map snd
    (List.filter (fun p => fst p mod step =? 0) (combine (seq 0 (length l)) l)).

(** [subs.filter((_,i) => i % Math.floor(subs.length / K) === 0).slice(0,K)]. *)
Definition init_centroids (K : nat) (subs : list (SuburbItem * Point)) : list Point :=
  List.map snd (firstn K (every_nth (length subs / K) subs)).

Definition bucket (K : nat) (centroids : list Point) (subs : list (SuburbItem * Point))
    (k : nat) : list (SuburbItem * Point) :=
  List.filter (fun s => assignBucket K centroids (snd s) =? k) subs.

(** A length as a number. *)
Definition number_of (n : nat) : float :=
  PrimFloat.of_uint63 (Uint63.of_Z (Z.of_nat n)).

(** [l.reduce((a,b) => a + b, 0) / l.length]. *)
Definition mean (l : list float) : float :=
  (fold_left PrimFloat.add l 0 / number_of (length l))%float.

Definition recenter (K : nat) (centroids : list Point) (subs : list (SuburbItem * Point))
    : list Point :=
  List.map
    (fun kc =>
       match bucket K centroids subs (fst kc) with
       | [] => snd kc
       | b => (mean (List.map (fun s => fst (snd s)) b),
               mean (List.map (fun s => snd (snd s)) b))
       end)
    (combine (seq 0 (length centroids)) centroids).

(** [Math.abs(a - b) < 1e-6]. *)
Definition near (a b : float) : bool := (PrimFloat.abs (a - b) <? 1e-6)%float.

Definition converged (newC centroids : list Point) : bool :=
  forallb (fun p => near (fst (fst p)) (fst (snd p)) && near (snd (fst p)) (snd (snd p)))
    (combine newC centroids).

Fixpoint lloyd (iters K : nat) (subs : list (SuburbItem * Point)) (centroids : list Point)
    : list Point :=
  match iters with
  | 0 => centroids
  | S n =>
      let newC := recenter K centroids subs in
      if converged newC centroids then centroids else lloyd n K subs newC
  end.

Definition labels : list string :=
  ["inner-north"; "west"; "bayside"; "south"; "east"; "north"].

Definition decimal (n : nat) : string := NilZero.string_of_uint (Nat.to_uint n).

Definition new_cluster (BASE_NAME BASE_SLUG : string) (K : nat) (centroids : list Point)
    (subs : list (SuburbItem * Point)) (k : nat) : Cluster :=
  {| k_slug :=
       (BASE_SLUG ++ "-" ++
        match nth_error labels k with
        | Some l => l
        | None => "part-" ++ decimal (k + 1)
        end)%string;
     k_name :=
       (BASE_NAME ++ " " ++
        match nth_error labels k with
        | Some l => l
        | None => "Part " ++ decimal (k + 1)
        end)%string;
     k_suburbs := List.map fst (bucket K centroids subs k) |}.

Definition newClusters (BASE_NAME BASE_SLUG : string) (K : nat)
    (subs : list (SuburbItem * Point)) : list Cluster :=
  let centroids := lloyd 50 K subs (init_centroids K subs) in
  List.map (new_cluster BASE_NAME BASE_SLUG K centroids subs) (seq 0 K).

(** [doc.clusters.findIndex(c => c.slug === TARGET)], with the cluster found. *)
Fixpoint find_cluster (TARGET : string) (clusters : list Cluster) (i : nat)
    : option (nat * Cluster) :=
  match clusters with
  | [] => None
  | c :: t =>
      if String.eqb (k_slug c) TARGET then Some (i, c)
      else find_cluster TARGET t (S i)
  end.

Inductive Result :=
| ClusterNotFound
| NotEnoughCoords (n : nat)
| TypeError
| Written (clusters : list Cluster).

(** The script.  With [K = 0] and a located suburb, [buckets[0].push]
    fails on [undefined]. *)
Definition split_cluster (K : nat) (TARGET BASE_NAME BASE_SLUG : string)
    (clusters : list Cluster) : Result :=
  match find_cluster TARGET clusters 0 with
  | None => ClusterNotFound
  | Some (idx, target) =>
      let subs := located (k_suburbs target) in
      if length subs <? K then NotEnoughCoords (length subs)
      else if (K =? 0) && negb (length subs =? 0) then TypeError
      else
        Written (firstn idx clusters
                 ++ newClusters BASE_NAME BASE_SLUG K subs
                 ++ skipn (S idx) clusters)
  end.

(** *** Sample catalog *)

Definition at_ (n : string) (a b : float) : SuburbItem :=
  {| slug := n; name := n; lat := Some a; lng := Some b |}.

Definition four : list Cluster :=
  [ {| k_slug := "ipswich"; k_name := "Ipswich"; k_suburbs := [] |};
    {| k_slug := "brisbane-city"; k_name := "Brisbane City";
       k_suburbs := [ at_ "a" 0 0; at_ "b" 10 10; Doctor.sub "nowhere";
                      at_ "c" 0 1; at_ "d" 10 11 ] |} ].

End Split.

(** ** The clusters facade ([src/lib/clusters.ts], lines 1-165) and the
    proximity snapshot builder ([src/scripts/build-proximity.mts]) *)

Module Facade.
Import Js.
Import Doctor(SuburbItem, slug, name, lat, lng, isNum, NearbyItem, n_slug, n_name, MathLib,
              Math_sin, Math_cos, Math_asin, Math_sqrt, Math_pow, Math_PI).

(** A suburb of the raw cluster document: a string, or an object whose
    fields may be absent. *)
Inductive RawSuburb :=
| RStr (s : string)
| RObj (oslug oname : option string) (olat olng : option float).

Record RawCluster := {
  raw_slug : string;
  raw_name : option string;
  raw_suburbs : list RawSuburb
}.

(** A value of the adjacency document. *)
Inductive AdjValue :=
| AdjArray (l : list string)
| AdjObject (adjacent_suburbs : list string)
| AdjOtherValue.

(** The four JSON documents the module imports. *)
Record Imports := {
  clustersDoc : list RawCluster;
  adjacencyDoc : list (string * AdjValue);
  coverageDoc : list (string * list string);
  blogMap : list (string * string)
}.

(** What the module takes from outside the sources: the cluster aliases
    ([~/lib/links/clusterAliases]), the [Math] library, [localeCompare],
    and the SHA-1 of the serialized payload. *)
Record Runtime := {
  toCanonicalCluster : string -> option string;
  math : MathLib;
  localeCompare : string -> string -> comparison;
  sha1_of_json : list (string * list NearbyItem) -> string
}.

Record ClusterItem := {
  c_slug : string;
  c_name : string;
  c_suburbs : list SuburbItem
}.

Definition upper_char (c : ascii) : ascii :=
  if Slug.is_lower c then ascii_of_nat (Slug.code c - 32) else c.

(** [s.split('-')]. *)
Fixpoint split_hyphen (cur : list ascii) (l : list ascii) : list (list ascii) :=
  match l with
  | [] => [rev cur]
  | c :: t =>
      if Slug.is_hyphen c then rev cur :: split_hyphen [] t
      else split_hyphen (c :: cur) t
  end.

Definition capitalize (w : list ascii) : list ascii :=
  match w with
  | [] => []
  | c :: t => upper_char c :: t
  end.

(** [words.join(' ')]. *)
Fixpoint join_space (ws : list (list ascii)) : list ascii :=
  match ws with
  | [] => []
  | [w] => w
  | w :: t => w ++ " "%char :: join_space t
  end.

Definition titleCase (s : string) : string :=
  string_of_list_ascii
    (Slug.trim (join_space (List.map capitalize (split_hyphen [] (list_ascii_of_string s))))).

Definition opt_or (a : option string) (b : string) : string :=
  match a with
  | Some x => or_else x b
  | None => b
  end.

(** Lines 34-41. *)
Definition suburb_of (r : RawSuburb) : SuburbItem :=
  match r with
  | RStr s =>
      let sl := Slug.slugify s in
      {| slug := sl; name := titleCase sl; lat := None; lng := None |}
  | RObj oslug oname olat olng =>
      let sl := Slug.slugify (opt_or oslug (opt_or oname "")) in
      {| slug := sl; name := opt_or oname (titleCase sl); lat := olat; lng := olng |}
  end.

Record Indices := {
  clusterByDatasetSlug : list (string * ClusterItem);
  suburbIndex : list (string * SuburbItem);
  suburbToDatasetCluster : list (string * string)
}.

(** Lines 32-47. *)
Definition load_cluster (ix : Indices) (c : RawCluster) : Indices :=
  let ds := Slug.slugify (raw_slug c) in
  let subs := List.map suburb_of (raw_suburbs c) in
  {| clusterByDatasetSlug :=
       map_set ds {| c_slug := ds; c_name := opt_or (raw_name c) (titleCase ds);
                     c_suburbs := subs |}
         (clusterByDatasetSlug ix);
     suburbIndex :=
       fold_left (fun m s => map_set (slug s) s m) subs (suburbIndex ix);
     suburbToDatasetCluster :=
       fold_left (fun m s => map_set (slug s) ds m) subs (suburbToDatasetCluster ix) |}.

Definition indices (RAW : list RawCluster) : Indices :=
  fold_left load_cluster RAW
    {| clusterByDatasetSlug := []; suburbIndex := []; suburbToDatasetCluster := [] |}.

(** Lines 57-65. *)
Definition ADJ (adjacencyDoc : list (string * AdjValue)) : list (string * list string) :=
  fold_left
    (fun out e =>
       match snd e with
       | AdjArray l | AdjObject l =>
           map_set (Coverage.lower (fst e)) (List.map Coverage.lower l) out
       | AdjOtherValue => out
       end)
    adjacencyDoc [].

(** Lines 164: [dedupe]. *)
Fixpoint dedupe (seen : gset string) (l : list SuburbItem) : list SuburbItem :=
  match l with
  | [] => []
  | s :: t =>
      if bool_decide (slug s ∈ seen) then dedupe seen t
      else s :: dedupe ({[slug s]} ∪ seen) t
  end.

(** A distance is a number; [Number.POSITIVE_INFINITY] is [infinity]. *)
Definition Distance : Type := float.

(** The comparator by the sign of [a.d - b.d]: [Lt] negative, [Gt]
    positive, [Eq] zero or [NaN]. *)
Definition by_distance {A : Type} (x y : A * Distance) : comparison :=
  let d := (snd x - snd y)%float in
  if (d <? 0)%float then Lt
  else if (0 <? d)%float then Gt
  else Eq.

(** [s.replace(/-region$/, '')]. *)
Definition strip_region (s : string) : string :=
  let l := list_ascii_of_string s in
  let suffix := list_ascii_of_string "-region" in
  let n := length l - length suffix in
  if (length suffix <=? length l)
     && String.eqb (string_of_list_ascii (skipn n l)) "-region"
  then string_of_list_ascii (firstn n l)
  else s.

Section Module_.
Variable R : Runtime.
Variable imp : Imports.

Definition canon_or (s : string) : string :=
  match toCanonicalCluster R s with
  | Some c => or_else c s
  | None => s
  end.

Definition canon (s : string) : option string :=
  match toCanonicalCluster R s with
  | Some c => if truthy c then Some c else None
  | None => None
  end.

Record ClusterCount := { cc_slug : string; cc_name : string; cc_suburbCount : nat }.

(** Lines 69-78. *)
Definition getClustersSync : list ClusterCount :=
  List.map snd
    (fold_left
       (fun merged e =>
          let canonical := canon_or (fst e) in
          match map_get canonical merged with
          | None =>
              map_set canonical
                {| cc_slug := canonical; cc_name := titleCase canonical;
                   cc_suburbCount := length (c_suburbs (snd e)) |} merged
          | Some prev =>
              map_set canonical
                {| cc_slug := cc_slug prev; cc_name := cc_name prev;
                   cc_suburbCount := cc_suburbCount prev + length (c_suburbs (snd e)) |}
                merged
          end)
       (clusterByDatasetSlug (indices (clustersDoc imp))) []).

(** Lines 80-89. *)
Definition listSuburbsForClusterSyncAsObjects (clusterSlug : string) : list SuburbItem :=
  let canonical :=
    match canon clusterSlug with
    | Some c => Some c
    | None => canon (strip_region clusterSlug)
    end in
  match canonical with
  | None => []
  | Some canonical =>
      dedupe ∅
        (flat_map
           (fun e =>
              match toCanonicalCluster R (fst e) with
              | Some can => if String.eqb can canonical then c_suburbs (snd e) else []
              | None => []
              end)
           (clusterByDatasetSlug (indices (clustersDoc imp))))
  end.

(** Lines 91-93. *)
Definition findSuburbBySlug (s : string) : option SuburbItem :=
  map_get (Coverage.lower s) (suburbIndex (indices (clustersDoc imp))).

(** Lines 101-107. *)
Definition getClusterForSuburbSync (s : string) : option string :=
  match map_get (Coverage.lower s) (suburbToDatasetCluster (indices (clustersDoc imp))) with
  | Some ds => if truthy ds then Some (canon_or ds) else None
  | None => None
  end.

(** Lines 157-163. *)
Definition hav (a b : SuburbItem) : Distance :=
  if isNum (lat a) && isNum (lng a) && isNum (lat b) && isNum (lng b) then
    match lat a, lng a, lat b, lng b with
    | Some alat, Some alng, Some blat, Some blng =>
        let toRad d := (d * Math_PI / 180)%float in
        let dLat := toRad (blat - alat)%float in
        let dLon := toRad (blng - alng)%float in
        let s1 := Math_pow (math R) (Math_sin (math R) (dLat / 2)) 2 in
        let s2 := (Math_cos (math R) (toRad alat) * Math_cos (math R) (toRad blat)
                   * Math_pow (math R) (Math_sin (math R) (dLon / 2)) 2)%float in
        (2 * 6371 * Math_asin (math R) (Math_sqrt (math R) (s1 + s2)))%float
    | _, _, _, _ => PrimFloat.infinity
    end
  else PrimFloat.infinity.

(** Lines 153-156. *)
Definition rankByDistance (src : SuburbItem) (l : list SuburbItem) : list SuburbItem :=
  if isNum (lat src) && isNum (lng src) then
    List.map fst (js_sort by_distance (List.map (fun s => (s, hav src s)) l))
  else js_sort (fun a b => localeCompare R (slug a) (slug b)) l.

(** Lines 115-126. *)
Definition getNearbySuburbs (suburbSlug : string) (limit : option nat) : list SuburbItem :=
  match findSuburbBySlug suburbSlug with
  | None => []
  | Some src =>
      let limit := Nat.max 1 (match limit with Some l => l | None => 6 end) in
      let adj :=
        flat_map
          (fun sl => match findSuburbBySlug sl with Some s => [s] | None => [] end)
          (match map_get (slug src) (ADJ (adjacencyDoc imp)) with
           | Some l => l
           | None => []
           end) in
      if limit <=? length adj then firstn limit adj
      else
        let pool :=
          match getClusterForSuburbSync (slug src) with
          | Some canonical =>
              List.filter
                (fun s => negb (String.eqb (slug s) (slug src))
                          && negb (existsb (fun a => String.eqb (slug a) (slug s)) adj))
                (listSuburbsForClusterSyncAsObjects canonical)
          | None => []
          end in
        firstn limit (adj ++ rankByDistance src pool)
  end.

(** The file [proximity.json]. *)
Record Snapshot := {
  etag : string;
  nearby : list (string * list NearbyItem)
}.

(** [build-proximity.mts], lines 11-20. *)
Definition build_proximity : Snapshot :=
  let clusterSlugs := List.map cc_slug getClustersSync in
  let allSuburbs :=
    Doctor.uniq_from []
      (flat_map (fun c => List.map slug (listSuburbsForClusterSyncAsObjects c))
         clusterSlugs) in
  let nearby :=
    List.map
      (fun s =>
         (s, List.map (fun x => {| n_slug := slug x; n_name := name x |})
               (getNearbySuburbs s (Some 6))))
      allSuburbs in
  {| etag := sha1_of_json R nearby; nearby := nearby |}.

End Module_.

(** *** Sample imports *)

Definition demo_runtime : Runtime :=
  {| toCanonicalCluster := fun s => Some s;
     math := Doctor.idle_math;
     localeCompare := String.compare;
     sha1_of_json := fun payload => "0000" |}.

Definition demo_imports (coverage : list (string * list string)) : Imports :=
  {| clustersDoc :=
       [ {| raw_slug := "West"; raw_name := None;
            raw_suburbs := [RStr "Mount Crosby"; RStr "anstead";
                            RObj (Some "karana-downs") None None None] |} ];
     adjacencyDoc := [("anstead", AdjObject ["Karana-Downs"])];
     coverageDoc := coverage;
     blogMap := [] |}.

End Facade.

(** ** The parts of a nearby list ([getNearbySuburbs], lines 115-126 of
    [src/lib/clusters.ts]) *)

Module Nearby.
Import Js Facade.
Import Doctor(SuburbItem, slug).

(** [Math.max(1, opts.limit ?? 6)]. *)
Definition bound (limit : option nat) : nat :=
  Nat.max 1 (match limit with Some l => l | None => 6 end).

(** The array [adj] (line 118): the adjacency entries of the source that
    the index knows, in the order of the document. *)
Definition hits (imp : Imports) (src : SuburbItem) : list SuburbItem :=
  flat_map
    (fun sl => match findSuburbBySlug imp sl with Some s => [s] | None => [] end)
    (match map_get (slug src) (ADJ (adjacencyDoc imp)) with
     | Some l => l
     | None => []
     end).

End Nearby.

(** ** The snapshot validator ([src/scripts/ops/validate-proximity.mts]) *)

Module ValidateProximity.
Import Js.
Import Doctor(SuburbItem, slug, NearbyItem, n_slug, n_name).
Import Facade(RawSuburb, RStr, RObj, RawCluster, raw_suburbs, suburb_of).

(** [(typeof s === 'string' ? s : (s.slug || s.name)).toLowerCase()];
    [None] when there is nothing to lower, which is a [TypeError]. *)
Definition ident (r : RawSuburb) : option string :=
  match r with
  | RStr s => Some (Coverage.lower s)
  | RObj oslug oname _ _ =>
      match (match oslug with
             | Some x => if truthy x then oslug else oname
             | None => oname
             end) with
      | Some x => Some (Coverage.lower x)
      | None => None
      end
  end.

Fixpoint idents (l : list RawSuburb) : option (list string) :=
  match l with
  | [] => Some []
  | r :: t =>
      match ident r with
      | Some a =>
          match idents t with
          | Some b => Some (a :: b)
          | None => None
          end
      | None => None
      end
  end.

(** The set [known] (line 5). *)
Definition known (clusters : list RawCluster) : option (gset string) :=
  match idents (flat_map raw_suburbs clusters) with
  | Some l => Some (list_to_set l)
  | None => None
  end.

(** The snapshot file: missing, blank, or a JSON object with or without a
    field [nearby]. *)
Inductive ProxFile :=
| Missing
| Blank
| Snapshot (nearby : option (list (string * list NearbyItem))).

(** [prox] (lines 6-8): a missing file reads as ['{}'], whose [nearby] is
    undefined; a blank one gives [{}]. *)
Definition prox_of (f : ProxFile) : option (list (string * list NearbyItem)) :=
  match f with
  | Missing => None
  | Blank => Some []
  | Snapshot nearby => nearby
  end.

Inductive Err :=
| UnknownKey (s : string)
| NotInCatalog (s it : string).

(** Lines 10-13. *)
Definition errs (k : gset string) (prox : list (string * list NearbyItem)) : list Err :=
  flat_map
    (fun e =>
       (if bool_decide (fst e ∈ k) then [] else [UnknownKey (fst e)])
       ++ flat_map
            (fun it =>
               if bool_decide (n_slug it ∈ k) then []
               else [NotInCatalog (fst e) (n_slug it)])
            (snd e))
    prox.

(** How the script ends: an uncaught [TypeError], exit code 1 with the
    list of errors, or success. *)
Inductive Outcome :=
| Crashed
| Failed (l : list Err)
| Passed.

Definition validate (clusters : list RawCluster) (f : ProxFile) : Outcome :=
  match known clusters with
  | None => Crashed
  | Some k =>
      match prox_of f with
      | None => Crashed
      | Some prox =>
          match errs k prox with
          | [] => Passed
          | l => Failed l
          end
      end
  end.

(** The suburbs of the catalog, as the facade loads them. *)
Definition catalog (clusters : list RawCluster) : list SuburbItem :=
  flat_map (fun c => List.map suburb_of (raw_suburbs c)) clusters.

(** *** A catalog written with slugs *)

Definition slug_imports : Facade.Imports :=
  {| Facade.clustersDoc :=
       [ {| Facade.raw_slug := "west"; Facade.raw_name := None;
            Facade.raw_suburbs := [RStr "anstead"; RStr "mount-crosby";
                                   RObj (Some "karana-downs") (Some "Karana Downs")
                                     None None] |} ];
     Facade.adjacencyDoc := [("anstead", Facade.AdjObject ["Karana-Downs"])];
     Facade.coverageDoc := [];
     Facade.blogMap := [] |}.

End ValidateProximity.

(** ** The coverage suggestion ([src/scripts/ops/suggest-coverage.mts],
    lines 76-97) *)

Module Suggest.
Import Js.
Import Doctor(uniq_from, includes).

(** [s.toLowerCase().trim()]. *)
Definition normalize (s : string) : string :=
  string_of_list_ascii (Slug.trim (list_ascii_of_string (Coverage.lower s))).

(** [new Set(l)], in insertion order. *)
Definition as_set (l : list string) : list string := uniq_from [] l.

(** A length as a number. *)
Definition number (n : nat) : Q := inject_Z (Z.of_nat n).

(** [Math.max(floor, o ?? n)]. *)
Definition at_least (floor : Q) (o : option Q) (n : nat) : Q :=
  let x := match o with Some q => q | None => number n end in
  if Qle_bool floor x then x else floor.

(** The two caps of a service. *)
Record Conf := {
  maxAdd : option Q;
  clusterCap : option Q
}.

Section Choose.
Variable current : list string.
Variable cluster_of : string -> string.
Variable addCap : Q.
Variable perClusterCap : Q.

(** [!current.has(s)]. *)
Definition fresh (s : string) : bool := negb (includes s current).

(** The loop over [rank] (lines 81-89).  [rank] is given by its slugs, in
    sorted order; the cluster of an entry is the one [allSubs] records for
    its slug. *)
Fixpoint choose (chosen : list string) (perCluster : list (string * nat))
    (rank : list string) : list string :=
  match rank with
  | [] => chosen
  | r :: rest =>
      if includes r current then choose (chosen ++ [r]) perCluster rest
      else if Qle_bool addCap (number (length (List.filter fresh chosen))) then chosen
      else
        let used :=
          match map_get (cluster_of r) perCluster with Some n => n | None => 0 end in
        if Qle_bool perClusterCap (number used) then choose chosen perCluster rest
        else choose (chosen ++ [r]) (map_set (cluster_of r) (used + 1) perCluster) rest
  end.

End Choose.

Record Diff := {
  add : list string;
  remove : list string
}.

(** Lines 76-97 for one service: [suggested[service]] and [diff[service]].
    [cov] is [coverage[service]] when there is one. *)
Definition suggest (cov : option (list string)) (conf : Conf)
    (cluster_of : string -> string) (rank : list string) : list string * Diff :=
  let listed := match cov with Some l => l | None => [] end in
  let current := as_set (List.map normalize listed) in
  let chosen :=
    choose current cluster_of
      (at_least 0 (maxAdd conf) (length rank))
      (at_least 1 (clusterCap conf) (length rank))
      [] [] rank in
  let union := js_sort String.compare (as_set (current ++ chosen)) in
  let before := as_set listed in
  let after := as_set union in
  (union,
   {| add := js_sort String.compare
               (List.filter (fun x => negb (includes x before)) after);
      remove := js_sort String.compare
                  (List.filter (fun x => negb (includes x after)) before) |}).

End Suggest.

(** ** The adjacency of the importer ([src/scripts/import-true-geo.mts],
    lines 80-85) *)

Module ImportGeo.
Import Js.
Import Doctor(uniq_from).

(** One list: [Array.from(new Set(list.map(s => s.toLowerCase())
    .filter(Boolean))).sort()]. *)
Definition neighbors (l : list string) : list string :=
  js_sort String.compare
    (uniq_from [] (List.filter truthy (List.map Coverage.lower l))).

(** [adjOut]; the value of a node is [node?.adjacent_suburbs] when there
    is one. *)
Definition adjOut (adjRaw : list (string * option (list string)))
    : list (string * list string) :=
  fold_left
    (fun out e =>
       map_set (Coverage.lower (fst e))
         (neighbors (match snd e with Some l => l | None => [] end)) out)
    adjRaw [].

(** The document as the facade imports it. *)
Definition as_document (adj : list (string * list string))
    : list (string * Facade.AdjValue) :=
  List.map (fun e => (fst e, Facade.AdjArray (snd e))) adj.

End ImportGeo.

(** ** The inputs written for the doctor ([sync-doctor-inputs], fifth file
    of [src/lib/clusters.ts], lines 766-890) *)

Module Sync.
Import Js.
Import Doctor(SuburbItem, slug, name, lat, lng, ClusterItem, cslug, suburbs).

(** *** What is read *)

(** A coordinate field of a JSON object: absent (or [null]), a number, or
    a value of another type. *)
Inductive Field :=
| FAbsent
| FNumber (q : float)
| FOther.

(** [a ?? b]. *)
Definition nullish (a b : Field) : Field :=
  match a with
  | FAbsent => b
  | _ => a
  end.

(** An element of [suburbs.json], or a row of the CSV and GeoJSON
    sources. *)
Record Source := {
  s_slug : option string;
  s_name : option string;
  s_coords : option (Field * Field);
  s_lat : Field;
  s_lng : Field
}.

(** A cluster of the content file; [k_suburbs] is [c.suburbs] when that is
    an array, and its elements are the suburb names, which are strings. *)
Record ContentCluster := {
  k_slug : option string;
  k_name : option string;
  k_suburbs : option (list string)
}.

Definition opt_str (o : option string) : string :=
  match o with
  | Some x => x
  | None => ""
  end.

Definition opt_list (o : option (list string)) : list string :=
  match o with
  | Some l => l
  | None => []
  end.

(** *** The lookups [bySlug] and [byName] (lines 781-788) *)

Record Lookups := {
  bySlug : list (string * Source);
  byName : list (string * Source)
}.

Definition add_source (lk : Lookups) (s : Source) : Lookups :=
  let sl := or_else (opt_str (s_slug s)) (Slug.sync_slugify (opt_str (s_name s))) in
  if negb (truthy sl) then lk
  else
    {| bySlug := map_set sl s (bySlug lk);
       byName :=
         if truthy (opt_str (s_name s))
         then map_set (Coverage.lower (opt_str (s_name s))) s (byName lk)
         else byName lk |}.

Definition lookups (suburbsList : list Source) : Lookups :=
  fold_left add_source suburbsList {| bySlug := []; byName := [] |}.

(** *** The cluster sets (lines 790-829) *)

(** [Set.prototype.add] on a set kept in insertion order. *)
Definition set_add (s : string) (set : list string) : list string :=
  if existsb (String.eqb s) set then set else set ++ [s].

(** [for (const n of list) { const s = slugify(String(n)); if (s) set.add(s); }] *)
Definition add_names (names : list string) (set : list string) : list string :=
  fold_left
    (fun acc n =>
       let s := Slug.sync_slugify n in
       if truthy s then set_add s acc else acc)
    names set.

Record Sets := {
  clusterSets : list (string * list string);
  clusterNames : list (string * string)
}.

(** [clusterSets.get(slug) || new Set()]. *)
Definition set_of (sl : string) (st : Sets) : list string :=
  match map_get sl (clusterSets st) with
  | Some set => set
  | None => []
  end.

(** Lines 794-803. *)
Definition content_step (st : Sets) (c : ContentCluster) : Sets :=
  let sl := Slug.sync_slugify (opt_str (k_slug c)) in
  if negb (truthy sl) then st
  else
    {| clusterSets :=
         map_set sl (add_names (opt_list (k_suburbs c)) (set_of sl st)) (clusterSets st);
       clusterNames :=
         map_set sl (or_else (opt_str (k_name c)) (or_else (opt_str (k_slug c)) sl))
           (clusterNames st) |}.

(** [hay.includes(needle)]. *)
Fixpoint str_includes (needle hay : string) : bool :=
  String.prefix needle hay
  || match hay with
     | EmptyString => false
     | String _ rest => str_includes needle rest
     end.

(** Lines 810-816. *)
Definition mapLgaToCanonical (k : string) : option string :=
  let key := Slug.sync_slugify k in
  if str_includes "brisbane" key then Some "brisbane"
  else if str_includes "ipswich" key then Some "ipswich"
  else if str_includes "logan" key then Some "logan"
  else None.

(** [target.charAt(0).toUpperCase() + target.slice(1)]. *)
Definition capitalized (target : string) : string :=
  string_of_list_ascii (Facade.capitalize (list_ascii_of_string target)).

(** Lines 817-828; the value of a key is [rec.suburbs] when that is an
    array. *)
Definition true_step (st : Sets) (e : string * option (list string)) : Sets :=
  match mapLgaToCanonical (fst e) with
  | None => st
  | Some target =>
      {| clusterSets :=
           map_set target (add_names (opt_list (snd e)) (set_of target st)) (clusterSets st);
         clusterNames :=
           if map_has target (clusterNames st) then clusterNames st
           else map_set target (capitalized target) (clusterNames st) |}
  end.

(** Both merges.  [content] is [content.clusters] when that is an array,
    [trueClusters] the entries of the LGA file when it holds an object. *)
Definition collect (content : option (list ContentCluster))
    (trueClusters : option (list (string * option (list string)))) : Sets :=
  let st :=
    match content with
    | Some l => fold_left content_step l {| clusterSets := []; clusterNames := [] |}
    | None => {| clusterSets := []; clusterNames := [] |}
    end in
  match trueClusters with
  | Some l => fold_left true_step l st
  | None => st
  end.

(** *** The clusters written (lines 831-866) *)

(** [\w]. *)
Definition is_word (c : ascii) : bool :=
  Slug.is_alnum c || Ascii.eqb c "_"%char.

(** [.replace(/\b\w/g, m => m.toUpperCase())]: a word character is raised
    when the character before it is not one. *)
Fixpoint upper_words (inside : bool) (l : list ascii) : list ascii :=
  match l with
  | [] => []
  | c :: t =>
      (if is_word c && negb inside then Facade.upper_char c else c)
      :: upper_words (is_word c) t
  end.

Definition nameGuess (s : string) : string :=
  string_of_list_ascii
    (upper_words false
       (List.map (fun c => if Slug.is_hyphen c then " "%char else c)
          (list_ascii_of_string s))).

(** [bySlug.get(s) || byName.get(key) || enrich.get(s)]. *)
Definition find_match (lk : Lookups) (enrich : list (string * Source))
    (s key : string) : option Source :=
  match map_get s (bySlug lk) with
  | Some m => Some m
  | None =>
      match map_get key (byName lk) with
      | Some m => Some m
      | None => map_get s enrich
      end
  end.

(** [match?.coords?.lat ?? match?.lat], and the same for [lng]. *)
Definition coordinate (m : option Source) (inner : Field * Field -> Field)
    (outer : Source -> Field) : Field :=
  match m with
  | None => FAbsent
  | Some x =>
      nullish (match s_coords x with Some c => inner c | None => FAbsent end) (outer x)
  end.

(** The entry pushed: coordinates are written when both are numbers. *)
Definition entry (sl nm : string) (la ln : Field) : SuburbItem :=
  match la, ln with
  | FNumber a, FNumber b => {| slug := sl; name := nm; lat := Some a; lng := Some b |}
  | _, _ => {| slug := sl; name := nm; lat := None; lng := None |}
  end.

Definition match_name (m : option Source) : string :=
  match m with
  | Some x => opt_str (s_name x)
  | None => ""
  end.

(** Lines 834-842. *)
Definition guessed (lk : Lookups) (enrich : list (string * Source)) (s : string)
    : SuburbItem :=
  let g := nameGuess s in
  let m := find_match lk enrich s (Coverage.lower g) in
  entry s (or_else (match_name m) g) (coordinate m fst s_lat) (coordinate m snd s_lng).

(** Lines 853-861. *)
Definition named (lk : Lookups) (enrich : list (string * Source)) (n : string)
    : SuburbItem :=
  let s := Slug.sync_slugify n in
  let m := find_match lk enrich s (Coverage.lower n) in
  entry s n (coordinate m fst s_lat) (coordinate m snd s_lng).

(** A cluster of [areas.clusters.json]. *)
Record Written := {
  w_slug : option string;
  w_name : option string;
  w_suburbs : list SuburbItem
}.

(** Lines 832-844. *)
Definition merged (st : Sets) (lk : Lookups) (enrich : list (string * Source))
    : list Written :=
  List.map
    (fun e =>
       {| w_slug := Some (fst e);
          w_name := Some (or_else (opt_str (map_get (fst e) (clusterNames st))) (fst e));
          w_suburbs := List.map (guessed lk enrich) (snd e) |})
    (clusterSets st).

(** Lines 848-865. *)
Definition copied (content : option (list ContentCluster)) (lk : Lookups)
    (enrich : list (string * Source)) : list Written :=
  match content with
  | Some l =>
      List.map
        (fun c =>
           {| w_slug := k_slug c;
              w_name := if truthy (opt_str (k_name c)) then k_name c else k_slug c;
              w_suburbs := List.map (named lk enrich) (opt_list (k_suburbs c)) |})
        l
  | None => []
  end.

Definition clusters (content : option (list ContentCluster))
    (trueClusters : option (list (string * option (list string))))
    (suburbsList : list Source) (enrich : list (string * Source)) : list Written :=
  match merged (collect content trueClusters) (lookups suburbsList) enrich with
  | [] => copied content (lookups suburbsList) enrich
  | l => l
  end.

(** The cluster as the doctor reads it back; a slug that was not written
    and an empty one are both refused by [isStr]. *)
Definition as_read (w : Written) : ClusterItem :=
  {| cslug := opt_str (w_slug w); suburbs := Some (w_suburbs w) |}.

(** A slug that is not empty and is its own normal form. *)
Definition normal (s : string) : Prop :=
  truthy s = true /\ Slug.sync_slugify s = s.

(** A suburb slug is listed under a cluster slug by the content file or by
    an LGA that maps to it. *)
Definition listed (content : option (list ContentCluster))
    (trueClusters : option (list (string * option (list string))))
    (sl s : string) : Prop :=
  (exists l c n, content = Some l /\ In c l
     /\ Slug.sync_slugify (opt_str (k_slug c)) = sl
     /\ In n (opt_list (k_suburbs c)) /\ Slug.sync_slugify n = s)
  \/ (exists l e n, trueClusters = Some l /\ In e l
        /\ mapLgaToCanonical (fst e) = Some sl
        /\ In n (opt_list (snd e)) /\ Slug.sync_slugify n = s).

(** A cluster slug comes from a cluster of the content file or from an
    LGA that maps to it. *)
Definition opened (content : option (list ContentCluster))
    (trueClusters : option (list (string * option (list string))))
    (sl : string) : Prop :=
  (exists l c, content = Some l /\ In c l
     /\ Slug.sync_slugify (opt_str (k_slug c)) = sl)
  \/ (exists l e, trueClusters = Some l /\ In e l
        /\ mapLgaToCanonical (fst e) = Some sl).

(** Text made of ASCII characters only, on which [Slug.sync_slugify] is
    the [slugify] of the script. *)
Definition ascii_text (s : string) : Prop :=
  forallb (fun c => Slug.code c <? 128) (list_ascii_of_string s) = true.

(** The cluster slugs and suburb names of the content file are ASCII
    text. *)
Definition ascii_content (content : option (list ContentCluster)) : Prop :=
  forall l c, content = Some l -> In c l ->
    ascii_text (opt_str (k_slug c)) /\ Forall ascii_text (opt_list (k_suburbs c)).

(** The keys of an object and the strings listed under them are ASCII
    text. *)
Definition ascii_entries (m : option (list (string * option (list string)))) : Prop :=
  forall l e, m = Some l -> In e l ->
    ascii_text (fst e) /\ Forall ascii_text (opt_list (snd e)).

(** The names of the suburbs file are ASCII text. *)
Definition ascii_sources (suburbsList : list Source) : Prop :=
  Forall (fun s => ascii_text (opt_str (s_name s))) suburbsList.

(** Distinct normal keys, each with a set of distinct normal slugs. *)
Definition sets_ok (m : list (string * list string)) : Prop :=
  List.NoDup (map_keys m)
  /\ Forall (fun e => normal (fst e) /\ List.NoDup (snd e) /\ Forall normal (snd e)) m.

(** *** The adjacency written (lines 870-890) *)

(** The set [valid] (line 874). *)
Definition valid (clusters : list Written) : gset string :=
  list_to_set
    (flat_map (fun c => List.map (fun s => Slug.sync_slugify (slug s)) (w_suburbs c))
       clusters).

(** The loop over the neighbors of one source (lines 880-883). *)
Fixpoint targets (ok : gset string) (src : string) (seen : gset string)
    (input : list string) : list string :=
  match input with
  | [] => []
  | tRaw :: rest =>
      let t := Slug.sync_slugify tRaw in
      if negb (truthy t) || String.eqb t src then targets ok src seen rest
      else if negb (bool_decide (t ∈ ok)) then targets ok src seen rest
      else if bool_decide (t ∈ seen) then targets ok src seen rest
      else t :: targets ok src ({[t]} ∪ seen) rest
  end.

(** The object [mapped] (lines 875-885), its keys in the order of their
    first assignment.  The value of a source is [rec.adjacent_suburbs]
    when that is an array, [None] otherwise. *)
Definition mapped (clusters : list Written)
    (rich : list (string * option (list string))) : list (string * list string) :=
  fold_left
    (fun out e =>
       let src := Slug.sync_slugify (fst e) in
       if negb (bool_decide (src ∈ valid clusters)) then out
       else
         match targets (valid clusters) src ∅
                 (match snd e with Some l => l | None => [] end) with
         | [] => out
         | l => map_set src l out
         end)
    rich [].

(** [adjOut]: from the rich source when it is there, else the flat file
    (or [{}]). *)
Definition adjOut (clusters : list Written)
    (rich : option (list (string * option (list string))))
    (flat : list (string * list string)) : list (string * list string) :=
  match rich with
  | Some r => mapped clusters r
  | None => flat
  end.

(** The adjacency file as the doctor reads it back: every value is an
    array of strings. *)
Definition adj_read (m : list (string * list string)) : list (string * Doctor.Targets) :=
  List.map (fun e => (fst e, Doctor.TArray (snd e))) m.

(** *** Sample sources *)

Definition demo_content : list ContentCluster :=
  [ {| k_slug := Some "Ipswich"; k_name := None;
       k_suburbs := Some ["Redbank Plains"; "Goodna"; "goodna "] |} ].

Definition demo_true : list (string * option (list string)) :=
  [("Brisbane City", Some ["Kenmore"]); ("Ipswich City", Some ["Goodna"; "Ripley"])].

Definition demo_rich : list (string * option (list string)) :=
  [("Goodna", Some ["Redbank Plains"; "Goodna"; "Atlantis"; "ripley"]);
   ("Atlantis", Some ["Goodna"])].

End Sync.

(* ===================================================================== *)
(** * Part II. Theorems                                                   *)
(* ===================================================================== *)

Module SlugFacts.
Import Slug.

Implicit Types p q : ascii -> bool.

Example slugify_punct : slugify "a.b" = "ab".
Proof. reflexivity. Qed.

Example slugify_edges : slugify "-a-" = "-a-".
Proof. reflexivity. Qed.

Example slugify_words : slugify "  St. Lucia  " = "st-lucia".
Proof. reflexivity. Qed.

Example sync_slugify_punct : sync_slugify "O'Connor -- Park!" = "o-connor-park".
Proof. reflexivity. Qed.

Example normalize_spec_punct : normalize_spec "O'Connor -- Park!" = "o-connor-park".
Proof. reflexivity. Qed.

(** *** Facts about single characters (by enumeration of the 256 codes) *)

Ltac all_chars c := destruct c as [[] [] [] [] [] [] [] []]; vm_compute; try reflexivity; try discriminate; auto.

Lemma is_hyphen_eq c : is_hyphen c = true -> c = hyphen.
Proof. all_chars c. Qed.

Lemma lower_char_not_upper c : is_upper (lower_char c) = false.
Proof. all_chars c. Qed.

Lemma lower_char_space c : is_space (lower_char c) = is_space c.
Proof. all_chars c. Qed.

Lemma lower_char_fix c : is_upper c = false -> lower_char c = c.
Proof. unfold lower_char. now intros ->. Qed.

Lemma slug_char_not_upper c : slug_char c = true -> is_upper c = false.
Proof. all_chars c. Qed.

Lemma slug_char_not_space c : slug_char c = true -> is_space c = false.
Proof. all_chars c. Qed.

Lemma slug_char_not_junk c : slug_char c = true -> facade_junk c = false.
Proof. all_chars c. Qed.

Lemma slug_char_nonalnum c : slug_char c = true -> is_alnum c = false -> is_hyphen c = true.
Proof. all_chars c. Qed.

Lemma hyphen_nonalnum c : is_hyphen c = true -> is_alnum c = false.
Proof. all_chars c. Qed.

Lemma space_nonalnum c : is_space c = true -> is_alnum c = false.
Proof. all_chars c. Qed.

Lemma alnum_lowered_slug c : is_alnum (lower_char c) = true -> slug_char (lower_char c) = true.
Proof. all_chars c. Qed.

Lemma kept_lowered_slug c :
  facade_junk (lower_char c) = false -> is_space (lower_char c) = false ->
  slug_char (lower_char c) = true.
Proof. all_chars c. Qed.

(** *** Facts about the list functions *)

Lemma replace_runs_ext p q r l :
  (forall c, p c = q c) -> replace_runs p r l = replace_runs q r l.
Proof.
  intros E. induction l as [|c t IH]; simpl; [reflexivity|].
  rewrite <- (E c). destruct t as [|c' t'].
  - reflexivity.
  - rewrite <- (E c'), IH. reflexivity.
Qed.

Lemma replace_runs_none p r l :
  Forall (fun c => p c = false) l -> replace_runs p r l = l.
Proof.
  induction 1 as [|c t Hc _ IH]; simpl; [reflexivity|].
  now rewrite Hc, IH.
Qed.

Lemma replace_runs_fix p r l :
  (forall c, In c l -> p c = true -> c = r) ->
  no_adjacent p l = true -> replace_runs p r l = l.
Proof.
  induction l as [|c t IH]; intros Hr Hn; [reflexivity|].
  assert (IHt : replace_runs p r t = t).
  { apply IH.
    - intros d Hd. apply Hr. now right.
    - simpl in Hn. destruct t; [reflexivity|].
      now apply andb_true_iff in Hn. }
  simpl. destruct (p c) eqn:Pc.
  - assert (c = r) as -> by (apply Hr; [now left|assumption]).
    destruct t as [|c' t']; [reflexivity|].
    simpl in Hn. rewrite Pc in Hn. destruct (p c') eqn:Pc'; [discriminate|].
    now rewrite IHt.
  - now rewrite IHt.
Qed.

Lemma replace_runs_Forall (q : ascii -> bool) p r l :
  q r = true ->
  Forall (fun c => p c = false -> q c = true) l ->
  Forall (fun c => q c = true) (replace_runs p r l).
Proof.
  intros Hr. induction 1 as [|c t Hc Ht IH]; simpl; [constructor|].
  destruct (p c) eqn:Pc.
  - destruct t as [|c' t']; [repeat constructor; assumption|].
    destruct (p c'); [assumption|]. now constructor.
  - constructor; [now apply Hc|assumption].
Qed.

Lemma replace_runs_head p r c t :
  p c = false -> replace_runs p r (c :: t) = c :: replace_runs p r t.
Proof. simpl. now intros ->. Qed.

Lemma no_adjacent_cons p c l :
  no_adjacent p (c :: l) = negb (p c && starts_with p l) && no_adjacent p l.
Proof. destruct l; simpl; [now rewrite andb_false_r|reflexivity]. Qed.

Lemma replace_runs_starts p r l :
  p r = true -> starts_with p (replace_runs p r l) = starts_with p l.
Proof.
  intros Hr. induction l as [|c t IH]; [reflexivity|].
  simpl. destruct (p c) eqn:Pc; simpl; [|assumption].
  destruct t as [|c' t']; simpl; [assumption|].
  destruct (p c') eqn:Pc'; simpl; [|assumption].
  simpl in IH. rewrite Pc' in IH. exact IH.
Qed.

Lemma replace_runs_no_adjacent p r l :
  p r = true -> no_adjacent p (replace_runs p r l) = true.
Proof.
  intros Hr. induction l as [|c t IH]; [reflexivity|].
  simpl replace_runs. destruct (p c) eqn:Pc.
  - destruct t as [|c' t']; [reflexivity|].
    destruct (p c') eqn:Pc'; [assumption|].
    rewrite no_adjacent_cons, IH, replace_runs_starts by assumption.
    simpl. now rewrite Pc', andb_false_r.
  - rewrite no_adjacent_cons, IH, Pc. reflexivity.
Qed.

Lemma ends_with_snoc p l c : ends_with p (l ++ [c]) = p c.
Proof.
  unfold ends_with. rewrite last_last. now destruct l.
Qed.

Lemma ends_with_rev p l : ends_with p l = starts_with p (rev l).
Proof.
  destruct l as [|c t] using rev_ind; [reflexivity|].
  now rewrite ends_with_snoc, rev_unit.
Qed.

Lemma starts_with_rev p l : starts_with p l = ends_with p (rev l).
Proof. now rewrite ends_with_rev, rev_involutive. Qed.

Lemma Forall_not_starts p l :
  Forall (fun c => p c = false) l -> starts_with p l = false.
Proof. now destruct 1. Qed.

Lemma Forall_not_ends p l :
  Forall (fun c => p c = false) l -> ends_with p l = false.
Proof.
  intros H. rewrite ends_with_rev. apply Forall_not_starts.
  now apply List.Forall_rev.
Qed.

Lemma dropWhile_none p l : starts_with p l = false -> dropWhile p l = l.
Proof. destruct l; simpl; [reflexivity|]. now intros ->. Qed.

Lemma dropWhileEnd_none p l : ends_with p l = false -> dropWhileEnd p l = l.
Proof.
  intros H. unfold dropWhileEnd. rewrite dropWhile_none.
  - apply rev_involutive.
  - now rewrite <- ends_with_rev.
Qed.

Lemma trim_fix l : Forall (fun c => is_space c = false) l -> trim l = l.
Proof.
  intros H. unfold trim.
  rewrite (dropWhile_none _ l) by now apply Forall_not_starts.
  apply dropWhileEnd_none. now apply Forall_not_ends.
Qed.

Lemma toLowerCase_fix l : Forall (fun c => is_upper c = false) l -> toLowerCase l = l.
Proof.
  unfold toLowerCase.
  induction 1 as [|c t Hc _ IH]; simpl; [reflexivity|].
  now rewrite IH, lower_char_fix.
Qed.

Lemma delete_all_fix p l : Forall (fun c => p c = false) l -> delete_all p l = l.
Proof.
  unfold delete_all.
  induction 1 as [|c t Hc _ IH]; simpl; [reflexivity|].
  now rewrite Hc, IH.
Qed.

Lemma Forall_slug_weaken (P : ascii -> Prop) l :
  (forall c, slug_char c = true -> P c) ->
  Forall (fun c => slug_char c = true) l -> Forall P l.
Proof. intros H. apply List.Forall_impl. exact H. Qed.

(** *** The facade [slugify]: shape of the result and fixed points *)

Lemma slugify_chars_slug l : Forall (fun c => slug_char c = true) (slugify_chars l).
Proof.
  unfold slugify_chars.
  apply replace_runs_Forall; [reflexivity|].
  apply List.Forall_impl with (P := fun c => slug_char c = true); [auto|].
  apply replace_runs_Forall; [reflexivity|].
  apply List.Forall_forall. intros c Hc Hs.
  unfold delete_all in Hc. apply filter_In in Hc as [Hc Hj].
  unfold toLowerCase in Hc. apply in_map_iff in Hc as [c0 [<- _]].
  apply kept_lowered_slug; [|assumption].
  now apply negb_true_iff.
Qed.

Lemma slugify_chars_no_double l : no_double_hyphen (slugify_chars l) = true.
Proof. unfold slugify_chars. now apply replace_runs_no_adjacent. Qed.

Lemma collapse_fix l : no_double_hyphen l = true -> replace_runs is_hyphen hyphen l = l.
Proof.
  intros H. apply replace_runs_fix; [|assumption].
  intros c _. apply is_hyphen_eq.
Qed.

Lemma slugify_chars_fix l :
  Forall (fun c => slug_char c = true) l -> no_double_hyphen l = true ->
  slugify_chars l = l.
Proof.
  intros Hs Hn. unfold slugify_chars.
  rewrite trim_fix by (revert Hs; apply Forall_slug_weaken, slug_char_not_space).
  rewrite toLowerCase_fix by (revert Hs; apply Forall_slug_weaken, slug_char_not_upper).
  rewrite delete_all_fix by (revert Hs; apply Forall_slug_weaken, slug_char_not_junk).
  rewrite (replace_runs_none is_space) by (revert Hs; apply Forall_slug_weaken, slug_char_not_space).
  now apply collapse_fix.
Qed.

Lemma slugify_idem x : slugify (slugify x) = slugify x.
Proof.
  unfold slugify. rewrite list_ascii_of_string_of_list_ascii.
  f_equal. apply slugify_chars_fix.
  - apply slugify_chars_slug.
  - apply slugify_chars_no_double.
Qed.

(** *** Runs and reversal *)

Lemma ends_with_cons p c c' l : ends_with p (c :: c' :: l) = ends_with p (c' :: l).
Proof. reflexivity. Qed.

Lemma replace_runs_snoc p r l c :
  replace_runs p r (l ++ [c]) =
  if p c then (if ends_with p l then replace_runs p r l else replace_runs p r l ++ [r])
  else replace_runs p r l ++ [c].
Proof.
  induction l as [|a l IH].
  - simpl. now destruct (p c).
  - destruct l as [|b l'].
    + simpl. destruct (p a) eqn:Pa, (p c) eqn:Pc; simpl; rewrite ?Pa, ?Pc; reflexivity.
    + rewrite ends_with_cons.
      change ((a :: b :: l') ++ [c]) with (a :: (b :: l') ++ [c]).
      change (replace_runs p r (a :: (b :: l') ++ [c])) with
        (if p a then
           if p b then replace_runs p r ((b :: l') ++ [c])
           else r :: replace_runs p r ((b :: l') ++ [c])
         else a :: replace_runs p r ((b :: l') ++ [c])).
      change (replace_runs p r (a :: b :: l')) with
        (if p a then
           if p b then replace_runs p r (b :: l') else r :: replace_runs p r (b :: l')
         else a :: replace_runs p r (b :: l')).
      rewrite IH.
      destruct (p a), (p b), (p c), (ends_with p (b :: l')); reflexivity.
Qed.

Lemma replace_runs_rev p r l : replace_runs p r (rev l) = rev (replace_runs p r l).
Proof.
  induction l as [|c t IH]; [reflexivity|].
  simpl rev at 1. rewrite replace_runs_snoc, IH, <- starts_with_rev.
  simpl replace_runs. destruct (p c) eqn:Pc.
  - destruct t as [|c' t']; [reflexivity|].
    simpl starts_with. destruct (p c'); [reflexivity|].
    reflexivity.
  - reflexivity.
Qed.

Lemma no_adjacent_snoc p l c :
  no_adjacent p (l ++ [c]) = no_adjacent p l && negb (ends_with p l && p c).
Proof.
  induction l as [|a l IH]; [reflexivity|].
  destruct l as [|b l'].
  - simpl. now rewrite !andb_true_r.
  - change ((a :: b :: l') ++ [c]) with (a :: (b :: l') ++ [c]).
    rewrite (no_adjacent_cons p a), IH, ends_with_cons.
    rewrite (no_adjacent_cons p a (b :: l')).
    simpl starts_with. now rewrite andb_assoc.
Qed.

Lemma no_adjacent_rev p l : no_adjacent p (rev l) = no_adjacent p l.
Proof.
  induction l as [|c t IH]; [reflexivity|].
  simpl rev. rewrite no_adjacent_snoc, IH, no_adjacent_cons, <- starts_with_rev.
  rewrite andb_comm. f_equal. now rewrite andb_comm.
Qed.

Lemma no_adjacent_weaken p q l :
  Forall (fun c => p c = true -> q c = true) l ->
  no_adjacent q l = true -> no_adjacent p l = true.
Proof.
  induction 1 as [|c t Hc Ht IH]; [reflexivity|].
  rewrite !no_adjacent_cons. intros H.
  apply andb_true_iff in H as [H1 H2]. rewrite IH by assumption.
  rewrite andb_true_r. apply negb_true_iff. apply negb_true_iff in H1.
  destruct (p c) eqn:Pc; [|reflexivity]. rewrite Hc in H1 by reflexivity.
  destruct Ht as [|c' t' Hc' _]; [reflexivity|]. simpl in *.
  destruct (p c') eqn:Pc'; [|reflexivity]. now rewrite Hc' in H1.
Qed.

(** *** Stripping hyphens at the two ends *)

Lemma strip_leading_none l : starts_with is_hyphen l = false -> strip_leading_hyphen l = l.
Proof. destruct l; simpl; [reflexivity|]. now intros ->. Qed.

Lemma strip_trailing_none l : ends_with is_hyphen l = false -> strip_trailing_hyphen l = l.
Proof.
  intros H. unfold strip_trailing_hyphen. rewrite strip_leading_none.
  - apply rev_involutive.
  - now rewrite <- ends_with_rev.
Qed.

Lemma strip_trailing_snoc l c :
  strip_trailing_hyphen (l ++ [c]) = if is_hyphen c then l else l ++ [c].
Proof.
  unfold strip_trailing_hyphen. rewrite rev_unit. simpl.
  destruct (is_hyphen c); simpl; [apply rev_involutive|].
  now rewrite rev_involutive.
Qed.

Lemma strip_commute l :
  strip_trailing_hyphen (strip_leading_hyphen l) =
  strip_leading_hyphen (strip_trailing_hyphen l).
Proof.
  destruct l as [|a t]; [reflexivity|].
  destruct t as [|b t'] using rev_ind.
  - unfold strip_trailing_hyphen. simpl.
    destruct (is_hyphen a) eqn:Ha; simpl; rewrite ?Ha; reflexivity.
  - clear IHt'.
    assert (E : strip_trailing_hyphen (a :: t' ++ [b]) =
                if is_hyphen b then a :: t' else a :: t' ++ [b])
      by apply (strip_trailing_snoc (a :: t')).
    rewrite E. simpl strip_leading_hyphen at 1.
    destruct (is_hyphen a) eqn:Ha.
    + rewrite strip_trailing_snoc. destruct (is_hyphen b); simpl; now rewrite Ha.
    + rewrite E. destruct (is_hyphen b); simpl; now rewrite Ha.
Qed.

Lemma strip_leading_no_double_cons l :
  no_double_hyphen l = true -> no_double_hyphen (strip_leading_hyphen l) = true
  /\ starts_with is_hyphen (strip_leading_hyphen l) = false.
Proof.
  unfold no_double_hyphen. destruct l as [|c t]; [now split|].
  rewrite no_adjacent_cons. intros H. apply andb_true_iff in H as [H1 H2].
  simpl. destruct (is_hyphen c) eqn:Hc.
  - split; [assumption|]. simpl in H1. now apply negb_true_iff in H1.
  - split; [|exact Hc]. rewrite no_adjacent_cons, Hc. exact H2.
Qed.

Lemma strip_leading_no_double l :
  no_double_hyphen l = true -> no_double_hyphen (strip_leading_hyphen l) = true.
Proof. intros H. now apply strip_leading_no_double_cons. Qed.

Lemma strip_trailing_no_double l :
  no_double_hyphen l = true -> no_double_hyphen (strip_trailing_hyphen l) = true
  /\ ends_with is_hyphen (strip_trailing_hyphen l) = false.
Proof.
  intros H. unfold strip_trailing_hyphen, no_double_hyphen.
  rewrite no_adjacent_rev, ends_with_rev, rev_involutive.
  apply strip_leading_no_double_cons. unfold no_double_hyphen.
  now rewrite no_adjacent_rev.
Qed.

Lemma strip_leading_Forall (P : ascii -> Prop) l :
  Forall P l -> Forall P (strip_leading_hyphen l).
Proof. destruct 1; simpl; [constructor|]. destruct (is_hyphen x); [assumption|now constructor]. Qed.

Lemma strip_edge_Forall (P : ascii -> Prop) l :
  Forall P l -> Forall P (strip_edge_hyphens l).
Proof.
  intros H. unfold strip_edge_hyphens, strip_trailing_hyphen.
  apply List.Forall_rev, strip_leading_Forall, List.Forall_rev.
  now apply strip_leading_Forall.
Qed.

Lemma strip_edge_shape l :
  no_double_hyphen l = true ->
  no_double_hyphen (strip_edge_hyphens l) = true
  /\ starts_with_hyphen (strip_edge_hyphens l) = false
  /\ ends_with_hyphen (strip_edge_hyphens l) = false.
Proof.
  intros H. unfold starts_with_hyphen, ends_with_hyphen. repeat split.
  - unfold strip_edge_hyphens.
    now apply strip_trailing_no_double, strip_leading_no_double_cons.
  - unfold strip_edge_hyphens. rewrite strip_commute.
    now apply strip_leading_no_double_cons, strip_trailing_no_double.
  - unfold strip_edge_hyphens.
    now apply strip_trailing_no_double, strip_leading_no_double_cons.
Qed.

Lemma dropWhile_hyphen_strip l :
  no_double_hyphen l = true -> dropWhile is_hyphen l = strip_leading_hyphen l.
Proof.
  intros H. destruct (strip_leading_no_double_cons l H) as [_ Hs].
  destruct l as [|c t]; [reflexivity|]. simpl in *.
  destruct (is_hyphen c); [|reflexivity]. now apply dropWhile_none.
Qed.

Lemma trim_hyphens_strip l :
  no_double_hyphen l = true -> trim_hyphens l = strip_edge_hyphens l.
Proof.
  intros H. unfold trim_hyphens, strip_edge_hyphens.
  rewrite dropWhile_hyphen_strip by assumption.
  unfold dropWhileEnd, strip_trailing_hyphen. f_equal.
  apply dropWhile_hyphen_strip. unfold no_double_hyphen.
  rewrite no_adjacent_rev. now apply strip_leading_no_double.
Qed.

(** *** White space around the text only feeds the edge hyphens *)

Section TrimAbsorbed.
Variable p : ascii -> bool.
Hypothesis p_space : forall c, is_space c = true -> p c = true.
Hypothesis p_hyphen : forall c, is_hyphen c = true -> p c = true.

Lemma lead_trim l :
  strip_leading_hyphen (replace_runs p hyphen (dropWhile is_space l)) =
  strip_leading_hyphen (replace_runs p hyphen l).
Proof.
  induction l as [|c t IH]; [reflexivity|].
  simpl dropWhile. destruct (is_space c) eqn:Sc; [|reflexivity].
  rewrite IH. simpl replace_runs. rewrite (p_space c Sc).
  destruct t as [|c' t']; [reflexivity|].
  destruct (p c') eqn:Pc'; [reflexivity|].
  rewrite replace_runs_head by assumption. simpl.
  destruct (is_hyphen c') eqn:Hc'; [|reflexivity].
  rewrite (p_hyphen c' Hc') in Pc'. discriminate.
Qed.

Lemma trail_trim l :
  strip_trailing_hyphen (replace_runs p hyphen (dropWhileEnd is_space l)) =
  strip_trailing_hyphen (replace_runs p hyphen l).
Proof.
  unfold strip_trailing_hyphen, dropWhileEnd.
  now rewrite <- !replace_runs_rev, rev_involutive, lead_trim.
Qed.

Lemma edge_trim l :
  strip_edge_hyphens (replace_runs p hyphen (trim l)) =
  strip_edge_hyphens (replace_runs p hyphen l).
Proof.
  unfold strip_edge_hyphens, trim.
  now rewrite strip_commute, trail_trim, <- strip_commute, lead_trim.
Qed.

End TrimAbsorbed.

Lemma dropWhile_lower l :
  dropWhile is_space (toLowerCase l) = toLowerCase (dropWhile is_space l).
Proof.
  unfold toLowerCase. induction l as [|c t IH]; [reflexivity|].
  simpl. rewrite lower_char_space. now destruct (is_space c).
Qed.

Lemma trim_lower l : trim (toLowerCase l) = toLowerCase (trim l).
Proof.
  unfold trim, dropWhileEnd. rewrite dropWhile_lower.
  unfold toLowerCase at 1. rewrite <- List.map_rev.
  fold (toLowerCase (rev (dropWhile is_space l))).
  rewrite dropWhile_lower. unfold toLowerCase. now rewrite List.map_rev.
Qed.

(** *** The sync [slugify]: shape, fixed points, agreement with the words
    of the specification *)

Lemma lowered_runs_slug l :
  Forall (fun c => slug_char c = true) (replace_runs nonalnum hyphen (toLowerCase l)).
Proof.
  apply replace_runs_Forall; [reflexivity|].
  apply List.Forall_forall. intros c Hc Hn.
  unfold toLowerCase in Hc. apply in_map_iff in Hc as [c0 [<- _]].
  apply alnum_lowered_slug. unfold nonalnum in Hn. now apply negb_false_iff.
Qed.

Lemma lowered_runs_no_double l :
  no_double_hyphen (replace_runs nonalnum hyphen l) = true.
Proof.
  unfold no_double_hyphen.
  apply no_adjacent_weaken with (q := nonalnum).
  - apply List.Forall_forall. intros c _ Hc. unfold nonalnum.
    now rewrite hyphen_nonalnum.
  - now apply replace_runs_no_adjacent.
Qed.

Lemma sync_slugify_chars_eq l :
  sync_slugify_chars l =
  strip_edge_hyphens (replace_runs nonalnum hyphen (toLowerCase l)).
Proof.
  unfold sync_slugify_chars.
  rewrite collapse_fix by apply lowered_runs_no_double.
  rewrite <- trim_lower. apply edge_trim.
  - intros c Hc. unfold nonalnum. now rewrite space_nonalnum.
  - intros c Hc. unfold nonalnum. now rewrite hyphen_nonalnum.
Qed.

Lemma sync_slugify_chars_shape l :
  Forall (fun c => slug_char c = true) (sync_slugify_chars l)
  /\ no_double_hyphen (sync_slugify_chars l) = true
  /\ starts_with_hyphen (sync_slugify_chars l) = false
  /\ ends_with_hyphen (sync_slugify_chars l) = false.
Proof.
  rewrite sync_slugify_chars_eq. split.
  - apply strip_edge_Forall, lowered_runs_slug.
  - apply strip_edge_shape, lowered_runs_no_double.
Qed.

Lemma sync_slugify_chars_fix l :
  Forall (fun c => slug_char c = true) l -> no_double_hyphen l = true ->
  starts_with_hyphen l = false -> ends_with_hyphen l = false ->
  sync_slugify_chars l = l.
Proof.
  intros Hs Hn Hb He. rewrite sync_slugify_chars_eq.
  rewrite toLowerCase_fix by (revert Hs; apply Forall_slug_weaken, slug_char_not_upper).
  rewrite replace_runs_fix.
  - unfold strip_edge_hyphens. rewrite (strip_leading_none l) by exact Hb.
    now apply strip_trailing_none.
  - intros c Hc Hp. apply is_hyphen_eq, slug_char_nonalnum.
    + exact (proj1 (List.Forall_forall _ l) Hs c Hc).
    + unfold nonalnum in Hp. now apply negb_true_iff.
  - apply no_adjacent_weaken with (q := is_hyphen); [|exact Hn].
    revert Hs. apply List.Forall_impl. intros c Hc Hp.
    apply slug_char_nonalnum; [assumption|].
    unfold nonalnum in Hp. now apply negb_true_iff.
Qed.

Lemma sync_slugify_idem x : sync_slugify (sync_slugify x) = sync_slugify x.
Proof.
  unfold sync_slugify. rewrite list_ascii_of_string_of_list_ascii.
  f_equal. destruct (sync_slugify_chars_shape (list_ascii_of_string x)) as (H1 & H2 & H3 & H4).
  now apply sync_slugify_chars_fix.
Qed.

Lemma sync_slugify_chars_spec l : sync_slugify_chars l = normalize_spec_chars l.
Proof.
  rewrite sync_slugify_chars_eq. unfold normalize_spec_chars.
  rewrite (replace_runs_ext (fun c => is_space c || nonalnum c) nonalnum).
  - rewrite trim_hyphens_strip by apply lowered_runs_no_double.
    symmetry. apply collapse_fix, strip_edge_shape, lowered_runs_no_double.
  - intros c. destruct (is_space c) eqn:Sc; [|reflexivity].
    unfold nonalnum. now rewrite space_nonalnum.
Qed.

(** *** The facade deletes what is neither letter, digit, space nor hyphen *)

(** *** The code-point model restricted to ASCII is the ASCII model *)

Section Transport.
Context {A B : Type} (f : A -> B) (pa : A -> bool) (pb : B -> bool).
Hypothesis agree : forall c, pb (f c) = pa c.

Lemma map_dropWhile (l : list A) :
  List.map f (dropWhile pa l) = dropWhile pb (List.map f l).
Proof.
  induction l as [|c t IH]; [reflexivity|].
  simpl. rewrite agree. destruct (pa c); [exact IH|reflexivity].
Qed.

Lemma map_dropWhileEnd (l : list A) :
  List.map f (dropWhileEnd pa l) = dropWhileEnd pb (List.map f l).
Proof.
  unfold dropWhileEnd. now rewrite List.map_rev, map_dropWhile, List.map_rev.
Qed.

Lemma map_replace_runs (r : A) (l : list A) :
  List.map f (replace_runs pa r l) = replace_runs pb (f r) (List.map f l).
Proof.
  induction l as [|c t IH]; [reflexivity|].
  cbn [replace_runs List.map]. rewrite agree.
  destruct (pa c).
  - destruct t as [|c' t']; [reflexivity|].
    cbn [List.map]. rewrite agree.
    cbn [List.map] in IH. destruct (pa c'); [exact IH|].
    cbn [List.map]. now rewrite IH.
  - cbn [List.map]. now rewrite IH.
Qed.

Lemma map_strip_first (l : list A) :
  List.map f (strip_first pa l) = strip_first pb (List.map f l).
Proof.
  destruct l as [|c t]; [reflexivity|].
  simpl. rewrite agree. now destruct (pa c).
Qed.

Lemma map_strip_edges (l : list A) :
  List.map f (strip_edges pa l) = strip_edges pb (List.map f l).
Proof.
  unfold strip_edges, strip_last.
  now rewrite List.map_rev, map_strip_first, List.map_rev, map_strip_first.
Qed.

End Transport.

Lemma space_point_ascii c : space_point (N_of_ascii c) = is_space c.
Proof. all_chars c. Qed.

Lemma alnum_point_ascii c : negb (alnum_point (N_of_ascii c)) = nonalnum c.
Proof. all_chars c. Qed.

Lemma hyphen_point_ascii c : is_hyphen_point (N_of_ascii c) = is_hyphen c.
Proof. all_chars c. Qed.

Lemma lower_point_ascii c : lower_point (N_of_ascii c) = N_of_ascii (lower_char c).
Proof. all_chars c. Qed.

Lemma decompose_point_ascii c : decompose_point (N_of_ascii c) = [N_of_ascii c].
Proof. all_chars c. Qed.

Lemma lowercase_ascii l : lowercase basic_tables (points l) = points (toLowerCase l).
Proof.
  unfold points, toLowerCase. cbn [lowercase basic_tables].
  rewrite !List.map_map. apply List.map_ext. intros c. apply lower_point_ascii.
Qed.

Lemma NFKD_ascii l : NFKD basic_tables (points l) = points l.
Proof.
  unfold points. cbn [NFKD basic_tables].
  induction l as [|c t IH]; [reflexivity|].
  cbn [List.map flat_map]. now rewrite decompose_point_ascii, IH.
Qed.

(** On a string of the ASCII model the code-point function computes what
    the ASCII function computes. *)
Lemma sync_slugify_points_ascii l :
  sync_slugify_points basic_tables (points l) = points (sync_slugify_chars l).
Proof.
  unfold sync_slugify_points, sync_slugify_chars, trim.
  cbn [white_space letter_or_number basic_tables].
  unfold points at 1.
  rewrite <- (map_dropWhile N_of_ascii is_space space_point space_point_ascii).
  rewrite <- (map_dropWhileEnd N_of_ascii is_space space_point space_point_ascii).
  fold (points (dropWhileEnd is_space (dropWhile is_space l))).
  rewrite lowercase_ascii, NFKD_ascii. unfold points.
  change hyphen_point with (N_of_ascii hyphen).
  rewrite <- (map_replace_runs N_of_ascii nonalnum (fun c => negb (alnum_point c))
                alnum_point_ascii).
  rewrite <- (map_replace_runs N_of_ascii is_hyphen is_hyphen_point hyphen_point_ascii).
  rewrite <- (map_strip_edges N_of_ascii is_hyphen is_hyphen_point hyphen_point_ascii).
  reflexivity.
Qed.

Lemma lower_char_hyphen c : is_hyphen (lower_char c) = is_hyphen c.
Proof. all_chars c. Qed.

Lemma junk_split c :
  is_space c = false -> is_hyphen c = false ->
  negb (facade_junk c) = (is_lower c || is_digit c).
Proof. all_chars c. Qed.

Lemma letter_not_sep c :
  (is_lower c || is_digit c) = true -> is_space c = false /\ is_hyphen c = false.
Proof. all_chars c. Qed.

Lemma sep_lower_not_letter c :
  (is_space c || is_hyphen c) = true ->
  (is_lower (lower_char c) || is_digit (lower_char c)) = false.
Proof. all_chars c. Qed.

Lemma slugify_chars_no_sep l :
  Forall (fun c => is_space c = false /\ is_hyphen c = false) l ->
  slugify_chars l = List.filter (fun c => is_lower c || is_digit c) (toLowerCase l).
Proof.
  intros H. unfold slugify_chars.
  rewrite trim_fix by (revert H; apply List.Forall_impl; tauto).
  assert (E : delete_all facade_junk (toLowerCase l) =
              List.filter (fun c => is_lower c || is_digit c) (toLowerCase l)).
  { unfold delete_all. apply List.filter_ext_in. intros c Hc.
    unfold toLowerCase in Hc. apply in_map_iff in Hc as [c0 [<- Hc0]].
    destruct (proj1 (List.Forall_forall _ l) H c0 Hc0) as [Hs Hh].
    apply junk_split; [now rewrite lower_char_space|now rewrite lower_char_hyphen]. }
  rewrite E.
  assert (F : Forall (fun c => is_space c = false /\ is_hyphen c = false)
                (List.filter (fun c => is_lower c || is_digit c) (toLowerCase l))).
  { apply List.Forall_forall. intros c Hc. apply filter_In in Hc as [_ Hc].
    now apply letter_not_sep. }
  rewrite (replace_runs_none is_space) by (revert F; apply List.Forall_impl; tauto).
  apply replace_runs_none. revert F. apply List.Forall_impl. tauto.
Qed.

Lemma filter_lower_delete_sep l :
  List.filter (fun c => is_lower c || is_digit c)
    (toLowerCase (delete_all (fun c => is_space c || is_hyphen c) l)) =
  List.filter (fun c => is_lower c || is_digit c) (toLowerCase l).
Proof.
  unfold toLowerCase, delete_all. induction l as [|c t IH]; [reflexivity|].
  simpl. destruct (is_space c || is_hyphen c) eqn:S; simpl.
  - now rewrite (sep_lower_not_letter c S).
  - now rewrite IH.
Qed.

Lemma slugify_chars_deletes l :
  slugify_chars (delete_all (fun c => is_space c || is_hyphen c) l) =
  List.filter (fun c => is_lower c || is_digit c) (toLowerCase l).
Proof.
  rewrite slugify_chars_no_sep.
  - apply filter_lower_delete_sep.
  - apply List.Forall_forall. intros c Hc. unfold delete_all in Hc.
    apply filter_In in Hc as [_ Hc]. apply negb_true_iff in Hc.
    now apply orb_false_iff in Hc.
Qed.

(** On every string of the ASCII model, normalizing twice gives the same
    slug as normalizing once, for the facade's [slugify] and for the
    [slugify] of sync-doctor-inputs. *)
Lemma normalize_idempotent : forall x : string,
  slugify (slugify x) = slugify x /\
  sync_slugify (sync_slugify x) = sync_slugify x.
Proof.
  intros x. split; [apply slugify_idem|apply sync_slugify_idem].
Qed.

(** C5.  The [slugify] of sync-doctor-inputs is not idempotent beyond
    ASCII.  It lowercases before it decomposes: [toLowerCase] leaves the
    trade mark sign U+2122 as it is, [normalize('NFKD')] then turns it
    into the letters [TM], which the expression keeps, so the first pass
    returns [TM]; the second pass lowercases that to [tm]. *)
Theorem sync_slugify_trade_mark :
  sync_slugify_points basic_tables [8482%N] = [84%N; 77%N] /\
  points (list_ascii_of_string "TM") = [84%N; 77%N] /\
  sync_slugify_points basic_tables [84%N; 77%N] = points (list_ascii_of_string "tm") /\
  sync_slugify "TM" = "tm" /\
  sync_slugify_points basic_tables (sync_slugify_points basic_tables [8482%N])
    <> sync_slugify_points basic_tables [8482%N].
Proof. repeat split; try reflexivity. vm_compute. discriminate. Qed.

(** C4, as stated, fails on the facade's [slugify]: punctuation between
    words is deleted instead of becoming a hyphen, and hyphens at the two
    ends of the input stay. *)
Lemma normalize_facade_counterexample :
  slugify "a.b" = "ab" /\ normalize_spec "a.b" = "a-b" /\
  slugify "a.b" <> normalize_spec "a.b" /\
  slugify "-a-" = "-a-" /\
  starts_with_hyphen (list_ascii_of_string (slugify "-a-")) = true /\
  ends_with_hyphen (list_ascii_of_string (slugify "-a-")) = true.
Proof. repeat split; try reflexivity. discriminate. Qed.

(** C4, amended.  For every string of the ASCII model the [slugify] of
    sync-doctor-inputs does what section 4.1 says: its result is the
    lowercased input with every run of white space or non-alphanumeric
    characters replaced by one hyphen, hyphens trimmed at both ends and
    repeated hyphens collapsed; it contains only [a-z0-9-], never two
    hyphens in a row, and neither begins nor ends with a hyphen.  The
    facade's [slugify] also returns only [a-z0-9-] without repeated
    hyphens, but it deletes every character other than letters, digits,
    white space and hyphens: on an input from which white space and
    hyphens were removed, its result is exactly the letters and digits of
    the lowercased input. *)
Theorem normalize_behaviour : forall x : string,
  (sync_slugify x = normalize_spec x
   /\ Forall (fun c => slug_char c = true) (list_ascii_of_string (sync_slugify x))
   /\ no_double_hyphen (list_ascii_of_string (sync_slugify x)) = true
   /\ starts_with_hyphen (list_ascii_of_string (sync_slugify x)) = false
   /\ ends_with_hyphen (list_ascii_of_string (sync_slugify x)) = false)
  /\
  (Forall (fun c => slug_char c = true) (list_ascii_of_string (slugify x))
   /\ no_double_hyphen (list_ascii_of_string (slugify x)) = true
   /\ slugify_chars
        (delete_all (fun c => is_space c || is_hyphen c) (list_ascii_of_string x)) =
      List.filter (fun c => is_lower c || is_digit c)
        (toLowerCase (list_ascii_of_string x))).
Proof.
  intros x. split.
  - unfold sync_slugify, normalize_spec.
    rewrite list_ascii_of_string_of_list_ascii.
    split; [now rewrite sync_slugify_chars_spec|].
    apply sync_slugify_chars_shape.
  - unfold slugify. rewrite list_ascii_of_string_of_list_ascii.
    repeat split.
    + apply slugify_chars_slug.
    + apply slugify_chars_no_double.
    + apply slugify_chars_deletes.
Qed.

End SlugFacts.

Module DoctorFacts.
Import Js Doctor.

Example recompute_cba :
  List.map n_slug (recomputeNearby idle_math w0 [] (suburbBySlug cba) "a" 2) = ["c"; "b"].
Proof. vm_compute. reflexivity. Qed.

Example nearest_spec_cba :
  List.map n_slug (nearest_spec idle_math w0 [] (suburbBySlug cba) "a" 2) = ["b"; "c"].
Proof. vm_compute. reflexivity. Qed.

(** *** The [Map] operations *)

Lemma fold_left_inv {A B : Type} (P : A -> Prop) (f : A -> B -> A) (l : list B) (a : A) :
  P a -> (forall a b, In b l -> P a -> P (f a b)) -> P (fold_left f l a).
Proof.
  revert a. induction l as [|b l IH]; intros a Ha Hf; [exact Ha|].
  simpl. apply IH.
  - apply Hf; [now left|exact Ha].
  - intros a' b' Hb'. apply Hf. now right.
Qed.

Section MapFacts.
Context {V : Type}.
Implicit Types (m : list (string * V)) (k : string) (v : V).

Lemma map_get_In k m v : map_get k m = Some v -> In (k, v) m.
Proof.
  induction m as [|[k' v'] t IH]; simpl; [discriminate|].
  destruct (String.eqb k k') eqn:E.
  - apply String.eqb_eq in E. subst k'. intros [= ->]. now left.
  - intros H. right. now apply IH.
Qed.

Lemma map_has_keys k m : map_has k m = true <-> In k (map_keys m).
Proof.
  unfold map_has, map_keys. induction m as [|[k' v'] t IH]; simpl.
  - split; [discriminate|tauto].
  - destruct (String.eqb k k') eqn:E.
    + apply String.eqb_eq in E. subst k'. split; [now left|reflexivity].
    + apply String.eqb_neq in E. rewrite IH. split; [now right|].
      intros [H|H]; [congruence|exact H].
Qed.

Lemma map_has_get k m : map_has k m = true <-> exists v, map_get k m = Some v.
Proof.
  unfold map_has. destruct (map_get k m) as [v|].
  - split; [now exists v|reflexivity].
  - split; [discriminate|now intros [v Hv]].
Qed.

Lemma map_set_keys k v m :
  map_keys (map_set k v m) =
  if map_has k m then map_keys m else map_keys m ++ [k].
Proof.
  unfold map_has, map_keys. induction m as [|[k' v'] t IH]; simpl; [reflexivity|].
  destruct (String.eqb k k') eqn:E; simpl.
  - apply String.eqb_eq in E. now subst k'.
  - rewrite IH. now destruct (map_get k t).
Qed.

Lemma map_set_NoDup k v m : List.NoDup (map_keys m) -> List.NoDup (map_keys (map_set k v m)).
Proof.
  intros H. rewrite map_set_keys. destruct (map_has k m) eqn:E; [exact H|].
  apply List.NoDup_app.
  - exact H.
  - repeat constructor. intros [].
  - intros x Hx [<-|[]]. apply map_has_keys in Hx. congruence.
Qed.

Lemma map_set_Forall (P : string * V -> Prop) k v m :
  P (k, v) -> Forall P m -> Forall P (map_set k v m).
Proof.
  intros Hk. induction 1 as [|[k' v'] t Hx Ht IH]; simpl.
  - now repeat constructor.
  - destruct (String.eqb k k'); now constructor.
Qed.

End MapFacts.

(** *** Invariants of the index pass *)

Lemma isStr_truthy x : isStr x = true -> truthy x = true.
Proof.
  unfold isStr, truthy. destruct x; [discriminate|reflexivity].
Qed.

Lemma index_suburb_ok c st s : isStr c = true -> index_ok st -> index_ok (index_suburb c st s).
Proof.
  intros Hc [H1 H2]. split; simpl.
  - now apply map_set_NoDup.
  - now apply map_set_Forall.
Qed.

Lemma index_cluster_ok st c : index_ok st -> index_ok (index_cluster st c).
Proof.
  intros H. unfold index_cluster. destruct (isStr (cslug c)) eqn:E; [|exact H].
  destruct (suburbs c) as [l|]; [|exact H].
  apply fold_left_inv; [exact H|].
  intros a b _. now apply index_suburb_ok.
Qed.

Lemma index_pass_ok clusters : index_ok (index_pass clusters).
Proof.
  unfold index_pass. apply fold_left_inv.
  - split; simpl; constructor.
  - intros a b _. apply index_cluster_ok.
Qed.

Lemma suburbBySlug_NoDup clusters : List.NoDup (map_keys (suburbBySlug clusters)).
Proof. apply index_pass_ok. Qed.

Lemma suburbBySlug_cluster clusters k r :
  map_get k (suburbBySlug clusters) = Some r -> truthy (r_cluster r) = true.
Proof.
  intros H. apply map_get_In in H.
  destruct (index_pass_ok clusters) as [_ F].
  apply isStr_truthy.
  exact (proj1 (List.Forall_forall _ _) F (k, r) H).
Qed.

(** *** The stable sort *)

Section SortFacts.
Context {A : Type} (cmp : A -> A -> comparison).

Lemma sort_insert_perm x l : Permutation (sort_insert cmp x l) (x :: l).
Proof.
  induction l as [|y t IH]; simpl; [reflexivity|].
  destruct (cmp x y); try reflexivity.
  rewrite IH. apply perm_swap.
Qed.

Lemma js_sort_perm l : Permutation (js_sort cmp l) l.
Proof.
  induction l as [|x t IH]; simpl; [reflexivity|].
  rewrite sort_insert_perm. now constructor.
Qed.

Lemma sort_insert_filter (P : A -> bool) x l :
  (forall y, In y l -> P x = true -> P y = true -> cmp x y <> Gt) ->
  List.filter P (sort_insert cmp x l) = List.filter P (x :: l).
Proof.
  induction l as [|y t IH]; intros H; [reflexivity|].
  simpl sort_insert. destruct (cmp x y) eqn:E; try reflexivity.
  simpl. rewrite IH by (intros z Hz; apply H; now right).
  simpl. destruct (P x) eqn:Px, (P y) eqn:Py; try reflexivity.
  exfalso. apply (H y); auto. now left.
Qed.

Lemma js_sort_filter (P : A -> bool) l :
  (forall x y, In x l -> In y l -> P x = true -> P y = true -> cmp x y <> Gt) ->
  List.filter P (js_sort cmp l) = List.filter P l.
Proof.
  induction l as [|x t IH]; intros H; [reflexivity|].
  simpl js_sort. rewrite sort_insert_filter.
  - simpl. rewrite IH; [reflexivity|].
    intros a b Ha Hb. apply H; now right.
  - intros y Hy. apply H; [now left|right].
    exact (Permutation_in _ (js_sort_perm t) Hy).
Qed.

Lemma is_cmp_true c a b : is_cmp cmp c a b = true <-> cmp a b = c.
Proof. unfold is_cmp. destruct (cmp a b), c; split; congruence. Qed.

Lemma consistentb_sound l : consistentb cmp l = true -> consistent cmp l.
Proof.
  unfold consistentb. rewrite !andb_true_iff, !forallb_forall.
  intros [[H1 H2] H3]. repeat split.
  - intros a Ha. now apply is_cmp_true, H1.
  - intros a b Ha Hb E. specialize (H2 a Ha).
    rewrite forallb_forall in H2. specialize (H2 b Hb).
    rewrite (proj2 (is_cmp_true Eq a b) E) in H2. now apply is_cmp_true.
  - intros a b c Ha Hb Hc E1 E2. specialize (H3 a Ha).
    rewrite forallb_forall in H3. specialize (H3 b Hb).
    rewrite forallb_forall in H3. specialize (H3 c Hc).
    rewrite !andb_true_iff in H3. destruct H3 as [[H3 _] _].
    rewrite (proj2 (is_cmp_true Eq a b) E1), (proj2 (is_cmp_true Eq b c) E2) in H3.
    now apply is_cmp_true.
  - intros a b c Ha Hb Hc E1 E2. specialize (H3 a Ha).
    rewrite forallb_forall in H3. specialize (H3 b Hb).
    rewrite forallb_forall in H3. specialize (H3 c Hc).
    rewrite !andb_true_iff in H3. destruct H3 as [[_ H3] _].
    rewrite (proj2 (is_cmp_true Lt a b) E1), (proj2 (is_cmp_true Lt b c) E2) in H3.
    now apply is_cmp_true.
  - intros a b c Ha Hb Hc E1 E2. specialize (H3 a Ha).
    rewrite forallb_forall in H3. specialize (H3 b Hb).
    rewrite forallb_forall in H3. specialize (H3 c Hc).
    rewrite !andb_true_iff in H3. destruct H3 as [_ H3].
    rewrite (proj2 (is_cmp_true Gt a b) E1), (proj2 (is_cmp_true Gt b c) E2) in H3.
    now apply is_cmp_true.
Qed.

Lemma consistent_incl l l' :
  (forall x, In x l' -> In x l) -> consistent cmp l -> consistent cmp l'.
Proof.
  intros Hi (H1 & H2 & H3 & H4 & H5). repeat split.
  - intros a Ha. apply H1; auto.
  - intros a b Ha Hb. apply H2; auto.
  - intros a b c Ha Hb Hc. apply H3; auto.
  - intros a b c Ha Hb Hc. apply H4; auto.
  - intros a b c Ha Hb Hc. apply H5; auto.
Qed.

Section Consistent.
Variable l : list A.
Hypothesis Hc : consistent cmp l.

Lemma consistent_asym a b : In a l -> In b l -> cmp a b = Gt -> cmp b a <> Gt.
Proof.
  destruct Hc as (H1 & _ & _ & _ & H5). intros Ha Hb E E'.
  pose proof (H5 a b a Ha Hb Ha E E') as F. rewrite (H1 a Ha) in F. discriminate.
Qed.

Lemma consistent_flip a b : In a l -> In b l -> cmp a b = Lt -> cmp b a = Gt.
Proof.
  destruct Hc as (H1 & H2 & _ & H4 & _). intros Ha Hb E.
  destruct (cmp b a) eqn:E'; [| |reflexivity].
  - rewrite (H2 b a Hb Ha E') in E. discriminate.
  - pose proof (H4 a b a Ha Hb Ha E E') as F. rewrite (H1 a Ha) in F. discriminate.
Qed.

Lemma consistent_flip_gt a b : In a l -> In b l -> cmp a b = Gt -> cmp b a = Lt.
Proof.
  destruct Hc as (H1 & H2 & _ & _ & H5). intros Ha Hb E.
  destruct (cmp b a) eqn:E'; [|reflexivity|].
  - rewrite (H2 b a Hb Ha E') in E. discriminate.
  - pose proof (H5 a b a Ha Hb Ha E E') as F. rewrite (H1 a Ha) in F. discriminate.
Qed.

Lemma consistent_trans a b c :
  In a l -> In b l -> In c l -> cmp a b <> Gt -> cmp b c <> Gt -> cmp a c <> Gt.
Proof.
  destruct Hc as (H1 & H2 & H3 & H4 & H5). intros Ha Hb Hc' E1 E2 E3.
  pose proof (consistent_flip_gt a c Ha Hc' E3) as F.
  destruct (cmp a b) eqn:Eab; [| |congruence]; destruct (cmp b c) eqn:Ebc; try congruence.
  - rewrite (H3 a b c Ha Hb Hc' Eab Ebc) in E3. discriminate.
  - pose proof (H4 b c a Hb Hc' Ha Ebc F) as G.
    rewrite (H2 a b Ha Hb Eab) in G. discriminate.
  - pose proof (H4 c a b Hc' Ha Hb F Eab) as G.
    rewrite (H2 b c Hb Hc' Ebc) in G. discriminate.
  - rewrite (H4 a b c Ha Hb Hc' Eab Ebc) in E3. discriminate.
Qed.

End Consistent.

Lemma sort_insert_sorted x l :
  consistent cmp (x :: l) ->
  StronglySorted (fun a b => cmp a b <> Gt) l ->
  StronglySorted (fun a b => cmp a b <> Gt) (sort_insert cmp x l).
Proof.
  intros Hc. induction 1 as [|y t Ht IH Hy]; simpl.
  - repeat constructor.
  - assert (Hsub : consistent cmp (x :: t)).
    { revert Hc. apply consistent_incl. intros z [<-|Hz]; [now left|now right; right]. }
    assert (Hle : cmp x y <> Gt -> Forall (fun b => cmp x b <> Gt) (y :: t)).
    { intros E. constructor; [exact E|].
      apply List.Forall_forall. intros z Hz.
      apply (consistent_trans _ Hc x y z); [now left|right; now left|right; now right|exact E|].
      exact (proj1 (List.Forall_forall _ _) Hy z Hz). }
    destruct (cmp x y) eqn:E.
    + constructor; [now constructor|]. apply Hle. discriminate.
    + constructor; [now constructor|]. apply Hle. discriminate.
    + constructor; [exact (IH Hsub)|].
      eapply Permutation_Forall.
      * symmetry. apply sort_insert_perm.
      * constructor; [|exact Hy].
        apply (consistent_asym _ Hc x y); [now left|right; now left|exact E].
Qed.

Lemma js_sort_sorted l :
  consistent cmp l -> StronglySorted (fun a b => cmp a b <> Gt) (js_sort cmp l).
Proof.
  induction l as [|x t IH]; intros Hc; simpl; [constructor|].
  apply sort_insert_sorted.
  - revert Hc. apply consistent_incl. intros z [<-|Hz]; [now left|right].
    exact (Permutation_in _ (js_sort_perm t) Hz).
  - apply IH. revert Hc. apply consistent_incl. intros z Hz. now right.
Qed.

(** For a comparator that is an order on all values. *)
Lemma js_sort_ordered l :
  (forall x y z, cmp x y <> Gt -> cmp y z <> Gt -> cmp x z <> Gt) ->
  (forall x y, cmp x y = Gt -> cmp y x <> Gt) ->
  StronglySorted (fun a b => cmp a b <> Gt) (js_sort cmp l).
Proof.
  intros cmp_trans cmp_asym.
  induction l as [|x t IH]; simpl; [constructor|].
  induction IH as [|y u Hu IHu Hy]; simpl.
  - repeat constructor.
  - destruct (cmp x y) eqn:E.
    + constructor; [now constructor|]. constructor; [congruence|].
      revert Hy. apply List.Forall_impl. intros z. apply cmp_trans. congruence.
    + constructor; [now constructor|]. constructor; [congruence|].
      revert Hy. apply List.Forall_impl. intros z. apply cmp_trans. congruence.
    + constructor; [exact IHu|].
      eapply Permutation_Forall.
      * symmetry. apply sort_insert_perm.
      * constructor; [now apply cmp_asym|exact Hy].
Qed.

End SortFacts.

Lemma StronglySorted_weaken {A : Type} (R R' : A -> A -> Prop) (l : list A) :
  (forall x y, R x y -> R' x y) -> StronglySorted R l -> StronglySorted R' l.
Proof.
  intros H. induction 1 as [|x t Ht IH Hx]; constructor; [exact IH|].
  revert Hx. apply List.Forall_impl. apply H.
Qed.

(** A double is not both below and above zero. *)
Lemma ltb_zero_asym (d : float) : (d <? 0)%float = true -> (0 <? d)%float = false.
Proof.
  rewrite !ltb_spec. change (Prim2SF 0) with (S754_zero false).
  destruct (Prim2SF d) as [s|s| |s m e]; try destruct s; unfold SFltb; simpl;
    intros H; (reflexivity || discriminate H).
Qed.

Lemma by_score_desc_not_Gt x y :
  by_score_desc x y <> Gt <-> (0 <? pool_score y - pool_score x)%float = false.
Proof.
  unfold by_score_desc.
  destruct (pool_score y - pool_score x <? 0)%float eqn:E.
  - rewrite (ltb_zero_asym _ E). split; [reflexivity|discriminate].
  - destruct (0 <? pool_score y - pool_score x)%float; split; congruence.
Qed.

(** Candidates with one score are equal for the comparator. *)
Lemma by_score_desc_score x y x' y' :
  pool_score x = pool_score x' -> pool_score y = pool_score y' ->
  by_score_desc x y = by_score_desc x' y'.
Proof. unfold by_score_desc. now intros -> ->. Qed.

Lemma ranked_sorted M w adj idx a :
  consistent by_score_desc (pool M w adj idx a) ->
  StronglySorted (fun x y => by_score_desc x y <> Gt) (ranked M w adj idx a).
Proof. apply js_sort_sorted. Qed.

(** C1. For suburbs [a] and [b] of the catalog, the proximity score is the
    sum, in double-precision arithmetic and in the order the code adds
    them, of: [adjacencyBoost] if [b] is an element of the array the
    adjacency document holds under [a], else [0]; [clusterBoost] if the two
    suburbs are in the same cluster, else [0]; minus [|biasKm|] times the
    haversine distance (radius 6371) when the four coordinates are finite
    numbers, else [0]; and [0] if the two suburbs are in the same cluster,
    else minus [|crossClusterPenalty|].  A pair without coordinates scores
    with a distance term of [0]. *)
Theorem scorePair_terms :
  forall (M : MathLib) (w : Weights) (adj : list (string * Targets))
         (clusters : list ClusterItem) (a b : string) (A B : SuburbRec),
    map_get a (suburbBySlug clusters) = Some A ->
    map_get b (suburbBySlug clusters) = Some B ->
    let adjacent :=
      match map_get a adj with
      | Some (TArray l) => existsb (String.eqb b) l
      | _ => false
      end in
    let same := String.eqb (r_cluster A) (r_cluster B) in
    let rad (x : float) := (x * 3.141592653589793 / 180)%float in
    let km (alat alng blat blng : float) :=
      (2 * 6371
       * Math_asin M
           (Math_sqrt M
              (Math_pow M (Math_sin M (rad (blat - alat) / 2)) 2
               + Math_cos M (rad alat) * Math_cos M (rad blat)
                 * Math_pow M (Math_sin M (rad (blng - alng) / 2)) 2)))%float in
    let distance :=
      match r_lat A, r_lng A, r_lat B, r_lng B with
      | Some alat, Some alng, Some blat, Some blng =>
          if PrimFloat.is_finite alat && PrimFloat.is_finite alng
             && PrimFloat.is_finite blat && PrimFloat.is_finite blng
          then ((- PrimFloat.abs (biasKm w)) * km alat alng blat blng)%float
          else 0%float
      | _, _, _, _ => 0%float
      end in
    fst (scorePair M w adj (suburbBySlug clusters) a b) =
      ((if adjacent then adjacencyBoost w else 0)
       + (if same then clusterBoost w else 0)
       + distance
       + (if same then 0 else - PrimFloat.abs (crossPenalty w)))%float.
Proof.
  intros M w adj clusters a b A B HA HB. cbv zeta.
  unfold scorePair. rewrite HA, HB. cbn [fst parts_of p_adjacency p_cluster p_distance
    p_crossPenalty].
  unfold isSameCluster.
  rewrite (suburbBySlug_cluster _ _ _ HA), (suburbBySlug_cluster _ _ _ HB).
  cbn [andb].
  assert (Hadj : includes b (neighbors adj a) =
                 match map_get a adj with
                 | Some (TArray l) => existsb (String.eqb b) l
                 | _ => false
                 end).
  { unfold neighbors, includes. destruct (map_get a adj) as [[l|t|]|]; reflexivity. }
  rewrite Hadj. f_equal. f_equal.
  unfold isNum.
  destruct (r_lat A) as [alat|], (r_lng A) as [alng|], (r_lat B) as [blat|],
    (r_lng B) as [blng|]; try reflexivity;
    repeat match goal with
           | |- context [PrimFloat.is_finite ?x] => destruct (PrimFloat.is_finite x)
           end; reflexivity.
Qed.

Lemma scorePair_terms_witness :
  fst (scorePair small_angle_math w0 [("p", TArray ["q"])] (suburbBySlug mapped) "p" "q") =
    (-109.5847799336762)%float
  /\ fst (scorePair small_angle_math w0 [("p", TArray ["q"])] (suburbBySlug mapped) "p" "r") =
      (-200)%float.
Proof.
  split.
  - pose proof (scorePair_terms small_angle_math w0 [("p", TArray ["q"])] mapped "p" "q"
                  {| r_name := "P"; r_lat := Some (-27.5)%float; r_lng := Some 153%float;
                     r_cluster := "cluster-a" |}
                  {| r_name := "Q"; r_lat := Some (-27.25)%float; r_lng := Some 153%float;
                     r_cluster := "cluster-a" |}
                  eq_refl eq_refl) as H.
    cbv zeta in H. rewrite H. vm_compute. reflexivity.
  - pose proof (scorePair_terms small_angle_math w0 [("p", TArray ["q"])] mapped "p" "r"
                  {| r_name := "P"; r_lat := Some (-27.5)%float; r_lng := Some 153%float;
                     r_cluster := "cluster-a" |}
                  {| r_name := "R"; r_lat := None; r_lng := None; r_cluster := "cluster-b" |}
                  eq_refl eq_refl) as H.
    cbv zeta in H. rewrite H. vm_compute. reflexivity.
Defined.

(** The terms are added as doubles: with weights 0.3, 0.2 and 0.1 the
    cross-cluster neighbor [u] scores 0.3 - 0.1, which is below the 0.2 of
    [v], and [v] is ranked first although it comes later in the catalog. *)
Example recompute_rounds :
  List.map (fun x => (pool_slug x, pool_score x))
    (pool idle_math tenths [("s", TArray ["u"])] (suburbBySlug suv) "s") =
    [("u", 0.19999999999999998%float); ("v", 0.2%float)]
  /\ List.map n_slug
       (recomputeNearby idle_math tenths [("s", TArray ["u"])] (suburbBySlug suv) "s" 2) =
     ["v"; "u"].
Proof. split; vm_compute; reflexivity. Qed.

(** A weight that is not a number makes every score [NaN]; the comparator
    then calls any two candidates equal. *)
Example nan_scores_tie :
  List.map (fun x => by_score_desc x x)
    (pool idle_math
       {| adjacencyBoost := PrimFloat.nan; clusterBoost := 200; biasKm := 12;
          crossPenalty := 200 |}
       [("s", TArray ["u"])] (suburbBySlug suv) "s") = [Eq; Eq]
  /\ List.map pool_score
       (pool idle_math
          {| adjacencyBoost := PrimFloat.nan; clusterBoost := 200; biasKm := 12;
             crossPenalty := 200 |}
          [("s", TArray ["u"])] (suburbBySlug suv) "s") = [PrimFloat.nan; 200%float].
Proof. split; vm_compute; reflexivity. Qed.

(** C2, as stated, fails on the tie-break: [c], [b] and [a] share one
    cluster and carry no coordinates, so [c] and [b] score the same against
    [a]; the code returns them in catalog order, [c] before [b], where
    ascending slug order asks for [b] before [c]. *)
Lemma nearest_tie_counterexample :
  fst (scorePair idle_math w0 [] (suburbBySlug cba) "a" "c") =
  fst (scorePair idle_math w0 [] (suburbBySlug cba) "a" "b") /\
  List.map n_slug (recomputeNearby idle_math w0 [] (suburbBySlug cba) "a" 2) = ["c"; "b"] /\
  List.map n_slug (nearest_spec idle_math w0 [] (suburbBySlug cba) "a" 2) = ["b"; "c"] /\
  recomputeNearby idle_math w0 [] (suburbBySlug cba) "a" 2 <>
  nearest_spec idle_math w0 [] (suburbBySlug cba) "a" 2.
Proof.
  repeat split; try (vm_compute; reflexivity).
  vm_compute. discriminate.
Qed.

(** C2, amended.  For every suburb [a] of the catalog, every limit and
    fixed weights such that the comparator of the sort, the sign of
    [y.score - x.score], is consistent on the candidates, [recomputeNearby]
    scores [a] against every other suburb of the catalog, sorts the
    candidates descending by score (no candidate comes before one the
    comparator puts first), candidates the comparator calls equal, those
    of the same score among them, keeping their catalog order, and returns
    the first [max] entries.  Being a function
    of the catalog, the adjacency, the weights, [a] and [max], it returns
    the same list on repeated calls. *)
Theorem recomputeNearby_ranking :
  forall (M : MathLib) (w : Weights) (adj : list (string * Targets))
         (idx : Index) (a : string) (max : nat),
    map_has a idx = true ->
    consistent by_score_desc (pool M w adj idx a) ->
    recomputeNearby M w adj idx a max =
      List.map to_item (firstn max (ranked M w adj idx a))
    /\ List.map pool_slug (pool M w adj idx a) =
       List.filter (fun s => negb (String.eqb s a)) (map_keys idx)
    /\ (forall x, In x (pool M w adj idx a) ->
          pool_score x = fst (scorePair M w adj idx a (pool_slug x)))
    /\ Permutation (ranked M w adj idx a) (pool M w adj idx a)
    /\ StronglySorted
         (fun x y => (0 <? pool_score y - pool_score x)%float = false)
         (ranked M w adj idx a)
    /\ (forall x, In x (pool M w adj idx a) ->
          List.filter (is_cmp by_score_desc Eq x) (ranked M w adj idx a) =
          List.filter (is_cmp by_score_desc Eq x) (pool M w adj idx a))
    /\ (forall v : Score,
          List.filter (fun x => PrimFloat.Leibniz.eqb (pool_score x) v)
            (ranked M w adj idx a) =
          List.filter (fun x => PrimFloat.Leibniz.eqb (pool_score x) v)
            (pool M w adj idx a)).
Proof.
  intros M w adj idx a max Ha Hc. repeat split.
  - unfold recomputeNearby. apply map_has_get in Ha as [v ->]. reflexivity.
  - unfold pool. rewrite List.map_map. simpl. apply List.map_id.
  - unfold pool. intros x Hx. apply in_map_iff in Hx as [s [<- _]]. reflexivity.
  - apply js_sort_perm.
  - eapply StronglySorted_weaken; [|apply ranked_sorted; exact Hc].
    intros x y. apply by_score_desc_not_Gt.
  - intros x Hx. apply js_sort_filter. intros y z Hy Hz Py Pz.
    apply is_cmp_true in Py, Pz.
    destruct Hc as (_ & Hsym & Htrans & _).
    rewrite (Htrans y x z Hy Hx Hz (Hsym x y Hx Hy Py) Pz). discriminate.
  - intros v. apply js_sort_filter. intros x y Hx Hy Px Py.
    apply FloatAxioms.Leibniz.eqb_spec in Px, Py.
    rewrite (by_score_desc_score x y x x eq_refl (eq_trans Py (eq_sym Px))).
    destruct Hc as (Hrefl & _). rewrite (Hrefl x Hx). discriminate.
Qed.

Lemma recomputeNearby_ranking_witness :
  List.map pool_slug (pool idle_math tenths [("s", TArray ["u"])] (suburbBySlug suv) "s") =
    ["u"; "v"]
  /\ List.map pool_slug
       (ranked idle_math tenths [("s", TArray ["u"])] (suburbBySlug suv) "s") = ["v"; "u"]
  /\ StronglySorted
       (fun x y => (0 <? pool_score y - pool_score x)%float = false)
       (ranked idle_math tenths [("s", TArray ["u"])] (suburbBySlug suv) "s").
Proof.
  assert (Hc : consistent by_score_desc
                 (pool idle_math tenths [("s", TArray ["u"])] (suburbBySlug suv) "s"))
    by (apply consistentb_sound; vm_compute; reflexivity).
  pose proof (recomputeNearby_ranking idle_math tenths [("s", TArray ["u"])]
                (suburbBySlug suv) "s" 2 eq_refl Hc) as (_ & H2 & _ & _ & H5 & _ & _).
  split; [exact H2|]. split; [vm_compute; reflexivity|exact H5].
Defined.

(** *** The repair loops and their closed form *)

Lemma In_firstn {A : Type} (n : nat) (l : list A) (x : A) : In x (firstn n l) -> In x l.
Proof.
  intros H. rewrite <- (firstn_skipn n l). apply in_or_app. now left.
Qed.

Lemma NoDup_firstn {A : Type} (n : nat) (l : list A) : List.NoDup l -> List.NoDup (firstn n l).
Proof.
  intros H. rewrite <- (firstn_skipn n l) in H.
  now apply List.NoDup_app_remove_r in H.
Qed.

Lemma includes_In x l : includes x l = true <-> In x l.
Proof.
  unfold includes. rewrite existsb_exists. split.
  - intros [y [Hy E]]. apply String.eqb_eq in E. now subst y.
  - intros H. exists x. split; [exact H|apply String.eqb_refl].
Qed.

Lemma includes_ext x l1 l2 :
  (forall y, In y l1 <-> In y l2) -> includes x l1 = includes x l2.
Proof.
  intros H. destruct (includes x l2) eqn:E.
  - apply includes_In. apply H. now apply includes_In.
  - destruct (includes x l1) eqn:E1; [|reflexivity].
    apply includes_In, H, includes_In in E1. congruence.
Qed.

Lemma uniq_from_ext seen1 seen2 l :
  (forall y, In y seen1 <-> In y seen2) -> uniq_from seen1 l = uniq_from seen2 l.
Proof.
  revert seen1 seen2. induction l as [|x t IH]; intros seen1 seen2 H; [reflexivity|].
  simpl. rewrite (includes_ext x seen1 seen2 H).
  destruct (includes x seen2); [now apply IH|].
  f_equal. apply IH. intros y. simpl. rewrite H. tauto.
Qed.

Lemma uniq_from_app seen l1 l2 :
  uniq_from seen (l1 ++ l2) = uniq_from seen l1 ++ uniq_from (uniq_from seen l1 ++ seen) l2.
Proof.
  revert seen. induction l1 as [|x t IH]; intros seen; [reflexivity|].
  simpl. destruct (includes x seen) eqn:E; [apply IH|].
  simpl. f_equal. rewrite IH. f_equal. apply uniq_from_ext.
  intros y. rewrite !in_app_iff. simpl. rewrite in_app_iff. tauto.
Qed.

Lemma uniq_from_In seen l x : In x (uniq_from seen l) -> In x l /\ ~ In x seen.
Proof.
  revert seen. induction l as [|y t IH]; intros seen; simpl; [tauto|].
  destruct (includes y seen) eqn:E.
  - intros H. apply IH in H. tauto.
  - intros [<-|H].
    + split; [now left|]. intros H. apply includes_In in H. congruence.
    + apply IH in H. simpl in H. tauto.
Qed.

Lemma uniq_from_NoDup seen l : List.NoDup (uniq_from seen l).
Proof.
  revert seen. induction l as [|y t IH]; intros seen; simpl; [constructor|].
  destruct (includes y seen); [apply IH|].
  constructor; [|apply IH].
  intros H. apply uniq_from_In in H. simpl in H. tauto.
Qed.

Lemma filter_all {A : Type} (f : A -> bool) (l : list A) :
  (forall x, In x l -> f x = true) -> List.filter f l = l.
Proof.
  induction l as [|x t IH]; intros H; [reflexivity|].
  simpl. rewrite (H x) by now left. f_equal. apply IH. intros y Hy. apply H. now right.
Qed.

Section RepairFacts.
Variable M : MathLib.
Variable w : Weights.
Variable adj : list (string * Targets).
Variable idx : Index.
Variable LIMIT : nat.

Local Abbreviation item_of := (item_of idx).
Local Abbreviation keep_valid := (keep_valid idx LIMIT).
Local Abbreviation pad_from := (pad_from idx LIMIT).
Local Abbreviation valid_old := (valid_old idx).

Lemma slugs_item_of l : List.map n_slug (List.map item_of l) = l.
Proof. rewrite List.map_map. simpl. apply List.map_id. Qed.

Lemma keep_valid_closed s seen seenl keep current :
  (forall x, x ∈ seen <-> In x seenl) ->
  keep_valid s seen keep current =
  keep ++ List.map item_of
            (firstn (Nat.max 1 (LIMIT - length keep))
               (uniq_from seenl (List.filter (valid_old s) (old_slugs current)))).
Proof.
  revert seen seenl keep.
  induction current as [|it rest IH]; intros seen seenl keep Hseen.
  - simpl. destruct (Nat.max 1 (LIMIT - length keep)); simpl; now rewrite app_nil_r.
  - destruct it as [| |[sl|] oname]; simpl; try (now apply IH).
    unfold valid_old at 1.
    destruct (isStr sl) eqn:E1; simpl; [|now apply IH].
    destruct (String.eqb sl s) eqn:E2; simpl; [now apply IH|].
    destruct (map_has sl idx) eqn:E3; simpl; [|now apply IH].
    destruct (bool_decide (sl ∈ seen)) eqn:E4.
    + apply bool_decide_eq_true in E4. apply Hseen, includes_In in E4.
      rewrite E4. now apply IH.
    + apply bool_decide_eq_false in E4.
      assert (E5 : includes sl seenl = false).
      { destruct (includes sl seenl) eqn:E; [|reflexivity].
        apply includes_In, Hseen in E. contradiction. }
      rewrite E5. rewrite length_app. simpl length.
      destruct (LIMIT <=? length keep + 1) eqn:E6.
      * apply Nat.leb_le in E6.
        replace (Nat.max 1 (LIMIT - length keep)) with 1 by lia.
        reflexivity.
      * apply Nat.leb_gt in E6.
        rewrite (IH _ (sl :: seenl)).
        -- rewrite length_app. simpl length.
           replace (Nat.max 1 (LIMIT - length keep))
             with (S (Nat.max 1 (LIMIT - (length keep + 1)))) by lia.
           simpl. now rewrite <- app_assoc.
        -- intros x. rewrite elem_of_union, elem_of_singleton, Hseen.
           simpl. split; intros [H|H]; auto.
Qed.

Lemma pad_from_closed s seenl keep rec :
  (forall x, In x seenl <-> In x (List.map n_slug keep)) ->
  pad_from s keep rec =
  keep ++ List.map item_of
            (firstn (Nat.max 1 (LIMIT - length keep))
               (uniq_from seenl
                  (List.filter (fun x => negb (String.eqb x s) && map_has x idx)
                     (List.map n_slug rec)))).
Proof.
  revert seenl keep.
  induction rec as [|it rest IH]; intros seenl keep Hseen.
  - simpl. destruct (Nat.max 1 (LIMIT - length keep)); simpl; now rewrite app_nil_r.
  - simpl.
    destruct (String.eqb (n_slug it) s) eqn:E2; simpl; [now apply IH|].
    destruct (map_has (n_slug it) idx) eqn:E3; simpl; [|now apply IH].
    assert (E : existsb (fun k => String.eqb (n_slug k) (n_slug it)) keep =
                includes (n_slug it) seenl).
    { destruct (includes (n_slug it) seenl) eqn:E.
      - apply includes_In, Hseen, in_map_iff in E as [k [Hk Hin]].
        apply existsb_exists. exists k. split; [exact Hin|].
        rewrite Hk. apply String.eqb_refl.
      - destruct (existsb _ keep) eqn:E'; [|reflexivity].
        apply existsb_exists in E' as [k [Hin Hk]]. apply String.eqb_eq in Hk.
        assert (In (n_slug it) seenl)
          by (apply Hseen, in_map_iff; now exists k).
        apply includes_In in H. congruence. }
    rewrite E. destruct (includes (n_slug it) seenl) eqn:E4; [now apply IH|].
    rewrite length_app. simpl length.
    destruct (LIMIT <=? length keep + 1) eqn:E6.
    + apply Nat.leb_le in E6.
      replace (Nat.max 1 (LIMIT - length keep)) with 1 by lia.
      reflexivity.
    + apply Nat.leb_gt in E6.
      rewrite (IH (n_slug it :: seenl)).
      * rewrite length_app. simpl length.
        replace (Nat.max 1 (LIMIT - length keep))
          with (S (Nat.max 1 (LIMIT - (length keep + 1)))) by lia.
        simpl. now rewrite <- app_assoc.
      * intros x. rewrite List.map_app, in_app_iff. simpl. rewrite Hseen. tauto.
Qed.

Lemma recomputeNearby_slugs s n x :
  In x (List.map n_slug (recomputeNearby M w adj idx s n)) ->
  String.eqb x s = false /\ map_has x idx = true.
Proof.
  unfold recomputeNearby. destruct (map_get s idx); [|intros []].
  rewrite List.map_map. intros H. apply in_map_iff in H as [y [<- Hy]].
  apply In_firstn in Hy.
  apply (Permutation_in _ (js_sort_perm by_score_desc _)) in Hy.
  unfold pool in Hy. apply in_map_iff in Hy as [k [<- Hk]].
  apply filter_In in Hk as [Hk Hne]. simpl. split.
  - now apply negb_true_iff.
  - now apply map_has_keys.
Qed.

Lemma fixed_for_closed current s :
  fixed_for M w adj idx LIMIT current s =
  List.map item_of (repaired M w adj idx LIMIT current s).
Proof.
  unfold fixed_for, repaired.
  set (V := uniq_from [] (List.filter (valid_old s) (old_slugs current))).
  set (R := List.map n_slug (recomputeNearby M w adj idx s (LIMIT * 2))).
  rewrite (keep_valid_closed s ∅ [] [] current)
    by (intros x; split; [intros H; now apply not_elem_of_empty in H|intros []]).
  simpl app. simpl length. rewrite Nat.sub_0_r. fold V.
  rewrite uniq_from_app. fold V. rewrite app_nil_r.
  assert (HR : uniq_from V R =
               uniq_from V (List.filter (fun x => negb (String.eqb x s) && map_has x idx) R)).
  { f_equal. symmetry. apply filter_all. intros x Hx.
    apply recomputeNearby_slugs in Hx as [-> ->]. reflexivity. }
  rewrite length_map.
  destruct (length (firstn (Nat.max 1 LIMIT) V) <? LIMIT) eqn:E.
  - apply Nat.ltb_lt in E. rewrite length_firstn in E.
    assert (HV : firstn (Nat.max 1 LIMIT) V = V) by (apply firstn_all2; lia).
    rewrite HV.
    rewrite (pad_from_closed s V) by (intros x; now rewrite slugs_item_of).
    fold R. rewrite <- HR, length_map, <- List.map_app, firstn_map. f_equal.
    rewrite !firstn_app, firstn_firstn. f_equal. f_equal. lia.
  - apply Nat.ltb_ge in E. rewrite length_firstn in E.
    rewrite firstn_map, firstn_firstn. f_equal.
    rewrite firstn_app.
    replace (LIMIT - length V) with 0 by lia.
    simpl. rewrite app_nil_r. f_equal. lia.
Qed.

End RepairFacts.

(** Entries that are [null] are passed over by the first loop. *)
Lemma old_slugs_without_null (current : list JItem) :
  old_slugs (List.filter (fun it => negb (is_null it)) current) = old_slugs current.
Proof.
  induction current as [|it rest IH]; [reflexivity|].
  destruct it as [| |o n]; simpl; [exact IH|exact IH|].
  now rewrite IH.
Qed.

(** *** A [null] entry in the prior snapshot *)

Lemma pre_of_null nearby s arr :
  map_get s nearby = Some (Some arr) -> In JNull arr -> pre_of nearby s = None.
Proof.
  intros E H. unfold pre_of. rewrite E.
  assert (X : existsb is_null arr = true)
    by (apply existsb_exists; exists JNull; split; [exact H|reflexivity]).
  now rewrite X.
Qed.

Lemma diffs_from_null M w adj idx LIMIT nearby samples s :
  In s samples -> pre_of nearby s = None ->
  diffs_from M w adj idx LIMIT nearby samples = None.
Proof.
  induction samples as [|x t IH]; intros Hin E; [destruct Hin|].
  simpl. destruct Hin as [->|Hin].
  - now rewrite E.
  - destruct (pre_of nearby x); [|reflexivity]. now rewrite (IH Hin E).
Qed.

(** C8, where the code departs from it.  When the prior list of a sampled
    catalog suburb holds a [null] entry, the run throws at line 1088
    ([x.slug] on [null]) and no repaired snapshot is written, although the
    repair loops of lines 1153-1185 pass over such an entry: run on that
    list, they give the list they give once the [null] entries are
    removed. *)
Theorem fixed_repair_null_entry :
  forall (M : MathLib) (cli : Cli) (inp : Inputs) (clock : Clock)
         (s : string) (arr : list JItem),
    In s (sampleSuburbs (index_of inp) (Nat.max 1 (DIFF_SAMPLE cli))) ->
    map_get s (data_or [] (in_prox inp)) = Some (Some arr) ->
    In JNull arr ->
    doctor M cli inp clock = Threw NullPriorEntry
    /\ forall (w : Weights) (adj : list (string * Targets)) (LIMIT : nat),
         fixed_for M w adj (index_of inp) LIMIT arr s =
         fixed_for M w adj (index_of inp) LIMIT
           (List.filter (fun it => negb (is_null it)) arr) s.
Proof.
  intros M cli inp clock s arr Hs Harr Hnull. split.
  - unfold doctor, index_of in *.
    destruct (clusters_pushes (in_clusters inp)) as [p1 st]. cbn [snd] in Hs.
    unfold diffs_of.
    rewrite (diffs_from_null _ _ _ _ _ _ _ s Hs (pre_of_null _ _ _ Harr Hnull)).
    reflexivity.
  - intros w adj LIMIT. rewrite !fixed_for_closed. unfold repaired.
    now rewrite old_slugs_without_null.
Qed.

Lemma fixed_repair_null_entry_witness :
  doctor idle_math demo_cli null_inputs {| at_write := "t1"; at_report := "t2" |} =
    Threw NullPriorEntry
  /\ List.map n_slug
       (fixed_for idle_math w0 [("p", TArray ["q"; "atlantis"])] (suburbBySlug pqr) 2
          [JObj (Some "p") (Some "P"); JNull; JObj (Some "q") (Some "Q")] "p") = ["q"; "r"].
Proof.
  assert (Hs : In "p" (sampleSuburbs (index_of null_inputs) (Nat.max 1 (DIFF_SAMPLE demo_cli))))
    by (vm_compute; auto).
  assert (Hn : In JNull [JObj (Some "p") (Some "P"); JNull; JObj (Some "q") (Some "Q")])
    by (right; now left).
  pose proof (fixed_repair_null_entry idle_math demo_cli null_inputs
                {| at_write := "t1"; at_report := "t2" |} "p" _ Hs eq_refl Hn) as [H1 H2].
  split; [exact H1|]. vm_compute. reflexivity.
Defined.

(** *** The index pass reports every repeated slug *)

Lemma dup_issues_app l1 l2 : dup_issues (l1 ++ l2) = dup_issues l1 ++ dup_issues l2.
Proof. unfold dup_issues. apply flat_map_app. Qed.

Lemma map_has_set {V : Type} k k' (v : V) m :
  map_has k (map_set k' v m) = String.eqb k k' || map_has k m.
Proof.
  unfold map_has. induction m as [|[k0 v0] t IH]; simpl.
  - now destruct (String.eqb k k').
  - destruct (String.eqb k' k0) eqn:E; simpl.
    + apply String.eqb_eq in E. subst k0.
      destruct (String.eqb k k'); reflexivity.
    + destruct (String.eqb k k0) eqn:E0.
      * now rewrite orb_true_r.
      * exact IH.
Qed.

Lemma index_suburbs_dups c l : forall st seen,
  tracks st seen ->
  dup_issues (st_schema (fold_left (index_suburb c) l st)) =
    dup_issues (st_schema st) ++ repeats seen (List.map slug l)
  /\ tracks (fold_left (index_suburb c) l st) (rev (List.map slug l) ++ seen)
  /\ st_clusterSlugs (fold_left (index_suburb c) l st) = st_clusterSlugs st.
Proof.
  induction l as [|s t IH]; intros st seen Ht.
  - simpl. now rewrite app_nil_r.
  - simpl fold_left. destruct (IH (index_suburb c st s) (slug s :: seen)) as (H1 & H2 & H3).
    + intros k. simpl. rewrite map_has_set, Ht. reflexivity.
    + split; [|split].
      * rewrite H1. simpl. rewrite !dup_issues_app, Ht, <- !app_assoc. f_equal.
        destruct (isStr (slug s)), (isStr (name s)), (includes (slug s) seen); reflexivity.
      * simpl. rewrite <- app_assoc. exact H2.
      * exact H3.
Qed.

Lemma repeats_app l1 : forall l2 seen,
  repeats seen (l1 ++ l2) = repeats seen l1 ++ repeats (rev l1 ++ seen) l2.
Proof.
  induction l1 as [|x l1 IH]; intros l2 seen; [reflexivity|].
  simpl. rewrite IH, <- !app_assoc. reflexivity.
Qed.

Lemma index_clusters_dups clusters : forall st seen,
  tracks st seen ->
  dup_issues (st_schema (fold_left index_cluster clusters st)) =
  dup_issues (st_schema st) ++ repeats seen (indexed_slugs clusters).
Proof.
  induction clusters as [|c t IH]; intros st seen Ht.
  - simpl. now rewrite app_nil_r.
  - simpl fold_left. unfold indexed_slugs. simpl flat_map. fold (indexed_slugs t).
    unfold index_cluster at 2. destruct (isStr (cslug c)) eqn:E.
    + unfold suburbs_of. destruct (suburbs c) as [l|].
      * destruct (index_suburbs_dups (cslug c) l
                    {| st_schema := st_schema st;
                       st_clusterSlugs := st_clusterSlugs st ++ [cslug c];
                       st_index := st_index st |} seen Ht) as (H1 & H2 & _).
        rewrite (IH _ _ H2), H1. simpl. rewrite <- app_assoc. f_equal.
        symmetry. apply repeats_app.
      * rewrite (IH _ seen).
        -- simpl. rewrite dup_issues_app. simpl. now rewrite app_nil_r.
        -- exact Ht.
    + rewrite (IH _ seen).
      * simpl. rewrite dup_issues_app. simpl. now rewrite app_nil_r.
      * exact Ht.
Qed.

Lemma index_pass_dups clusters :
  dup_issues (st_schema (index_pass clusters)) = repeats [] (indexed_slugs clusters).
Proof.
  unfold index_pass. rewrite (index_clusters_dups clusters _ []); [reflexivity|].
  intros k. reflexivity.
Qed.

Lemma index_clusters_tracks clusters : forall st seen,
  tracks st seen ->
  tracks (fold_left index_cluster clusters st) (rev (indexed_slugs clusters) ++ seen).
Proof.
  induction clusters as [|c t IH]; intros st seen Ht; [exact Ht|].
  simpl fold_left. unfold indexed_slugs. simpl flat_map. fold (indexed_slugs t).
  rewrite rev_app_distr, <- app_assoc.
  apply IH. unfold index_cluster, suburbs_of.
  destruct (isStr (cslug c)); [|exact Ht].
  destruct (suburbs c) as [l|]; [|exact Ht].
  now apply (index_suburbs_dups (cslug c) l
               {| st_schema := st_schema st;
                  st_clusterSlugs := st_clusterSlugs st ++ [cslug c];
                  st_index := st_index st |} seen).
Qed.

(** The index holds the slugs the pass has visited. *)
Lemma index_pass_indexed clusters s :
  map_has s (suburbBySlug clusters) = true <-> In s (indexed_slugs clusters).
Proof.
  unfold suburbBySlug, index_pass.
  rewrite (index_clusters_tracks clusters
             {| st_schema := []; st_clusterSlugs := []; st_index := [] |} [])
    by (intros k; reflexivity).
  rewrite app_nil_r, includes_In. symmetry. apply in_rev.
Qed.

Lemma repeats_count (l : list string) (s : string) : forall seen,
  (In s seen /\ In s l) \/ 1 < count_occ string_dec l s -> In s (repeats seen l).
Proof.
  induction l as [|x t IH]; intros seen H.
  - simpl in H. destruct H as [[_ []]|H]; lia.
  - simpl. destruct (string_dec x s) as [->|Hne].
    + destruct (includes s seen) eqn:E.
      * now left.
      * simpl. apply IH. left. split; [now left|].
        destruct H as [[Hs _]|H].
        -- apply includes_In in Hs. congruence.
        -- rewrite count_occ_cons_eq in H by reflexivity.
           apply (count_occ_In string_dec). lia.
    + apply in_or_app. right. apply IH.
      destruct H as [[Hs [Hx|Hin]]|H].
      * congruence.
      * left. split; [now right|exact Hin].
      * right. now rewrite count_occ_cons_neq in H.
Qed.

Lemma dup_issues_In (l : list Issue) (s : string) :
  In s (dup_issues l) <-> In (DuplicateSuburbSlug s) l.
Proof.
  unfold dup_issues. rewrite in_flat_map. split.
  - intros (i & Hi & H). destruct i; simpl in H; try contradiction.
    destruct H as [<-|[]]. exact Hi.
  - intros H. exists (DuplicateSuburbSlug s). split; [exact H|now left].
Qed.

End DoctorFacts.

Module ValidateFacts.
Import Js Doctor ValidateData.

Example normalize_split :
  normalizeClusters Slug.slugify throwing false split_doc =
  inl (MultipleClusters "x" "a" "b").
Proof. vm_compute. reflexivity. Qed.

Example normalize_twice :
  normalizeClusters Slug.slugify throwing false twice_doc = inl (DuplicateInside ["a:x"]).
Proof. vm_compute. reflexivity. Qed.

(** A record with a cluster named [clusters] passes the schema and is
    given to the loop over [clustersDoc.clusters]: its other clusters are
    not read, and each string found there is taken as a cluster without
    slug and without suburbs. *)
Example normalize_clusters_key :
  schema_ok clusters_key_doc = true
  /\ entries_of clusters_key_doc = [(None, [])]
  /\ normalizeClusters Slug.slugify throwing false clusters_key_doc = inl Crashed
  /\ (ix <- normalizeClusters Slug.slugify stringly false clusters_key_doc ;;
      inr (map_to_list (suburbToCluster ix), map_to_list (clusterToSuburbs ix))) =
     inr ([], [("undefined", [])])
  /\ normalizeClusters Slug.slugify stringly true clusters_key_doc =
     inl (NonSlugCluster "undefined").
Proof. repeat split; vm_compute; reflexivity. Qed.

(** A suburb given as an object is handed to [slugify] as it is. *)
Example normalize_object :
  schema_ok object_doc = true
  /\ normalizeClusters Slug.slugify throwing false object_doc = inl Crashed
  /\ (ix <- normalizeClusters Slug.slugify stringly false object_doc ;;
      inr (clusterToSuburbs ix !! "a")) = inr (Some ["object-object"; "x"]).
Proof. repeat split; vm_compute; reflexivity. Qed.

Section BuildFacts.
Variable slugify : string -> string.
Variable slugify_other : Untyped -> option string.
Variable STRICT : bool.

Local Abbreviation cslug_of := (cslug_of slugify slugify_other).
Local Abbreviation slugs_of := (slugs_of slugify slugify_other).
Local Abbreviation resolves := (resolves slugify slugify_other).
Local Abbreviation lists := (lists slugify slugify_other).
Local Abbreviation clean := (clean slugify STRICT).
Local Abbreviation traced := (traced slugify slugify_other).
Local Abbreviation settled := (settled slugify slugify_other).
Local Abbreviation all_dups := (all_dups slugify slugify_other).
Local Abbreviation assign_suburbs := assign_suburbs.
Local Abbreviation build_step := (build_step slugify slugify_other STRICT).
Local Abbreviation build_steps := (build_steps slugify slugify_other STRICT).

Lemma assign_fail c l m f :
  assign_suburbs c l m = inl f ->
  exists s p, f = MultipleClusters s p c /\ In s l /\ m !! s = Some p
              /\ truthy p = true /\ p <> c.
Proof.
  revert m. induction l as [|s t IH]; intros m; simpl; [discriminate|].
  destruct (m !! s) as [prev|] eqn:E.
  - destruct (truthy prev && negb (String.eqb prev c)) eqn:C.
    + intros [= <-]. apply andb_true_iff in C as [C1 C2].
      apply negb_true_iff, String.eqb_neq in C2.
      exists s, prev. auto.
    + intros H. apply IH in H as (s' & p & -> & Hin & Hl & Ht & Hne).
      exists s', p. repeat split; auto.
      destruct (decide (s = s')) as [->|Hs].
      * rewrite lookup_insert_eq in Hl. congruence.
      * now rewrite lookup_insert_ne in Hl.
  - intros H. apply IH in H as (s' & p & -> & Hin & Hl & Ht & Hne).
    exists s', p. repeat split; auto.
    destruct (decide (s = s')) as [->|Hs].
    + rewrite lookup_insert_eq in Hl. congruence.
    + now rewrite lookup_insert_ne in Hl.
Qed.

Lemma assign_ok c l m m' :
  assign_suburbs c l m = inr m' ->
  (forall s, In s l -> m' !! s = Some c)
  /\ (forall s, ~ In s l -> m' !! s = m !! s)
  /\ (forall s p, In s l -> m !! s = Some p -> truthy p = true -> p = c).
Proof.
  revert m. induction l as [|s t IH]; intros m; simpl.
  - intros [= <-]. repeat split; tauto.
  - assert (K : assign_suburbs c t (<[s:=c]> m) = inr m' ->
                (m !! s = None \/ exists prev, m !! s = Some prev
                   /\ (truthy prev = true -> prev = c)) ->
                (forall s0, s = s0 \/ In s0 t -> m' !! s0 = Some c)
                /\ (forall s0, ~ (s = s0 \/ In s0 t) -> m' !! s0 = m !! s0)
                /\ (forall s0 p, s = s0 \/ In s0 t -> m !! s0 = Some p ->
                      truthy p = true -> p = c)).
    { intros H Hs. apply IH in H as (H1 & H2 & H3). repeat split.
      - intros s0 [<-|Hin].
        + destruct (in_dec string_dec s t) as [Hin|Hin]; [now apply H1|].
          rewrite H2 by assumption. apply lookup_insert_eq.
        + now apply H1.
      - intros s0 Hn. rewrite H2 by tauto. apply lookup_insert_ne. tauto.
      - intros s0 p [<-|Hin] Hl Ht.
        + destruct Hs as [Hs|(prev & Hs & Hp)]; [congruence|].
          rewrite Hs in Hl. injection Hl as <-. now apply Hp.
        + destruct (decide (s = s0)) as [<-|Hne].
          * destruct Hs as [Hs|(prev & Hs & Hp)]; [congruence|].
            rewrite Hs in Hl. injection Hl as <-. now apply Hp.
          * apply (H3 s0 p Hin); [|exact Ht]. now rewrite lookup_insert_ne. }
    destruct (m !! s) as [prev|] eqn:E.
    + destruct (truthy prev && negb (String.eqb prev c)) eqn:C; [discriminate|].
      intros H. apply K; [exact H|]. right. exists prev. split; [reflexivity|].
      intros Ht. rewrite Ht in C. simpl in C.
      apply negb_false_iff in C. now apply String.eqb_eq.
    + intros H. apply K; [exact H|]. now left.
Qed.

Lemma assign_succeeds c l m :
  (forall s p, In s l -> m !! s = Some p -> truthy p = true -> p = c) ->
  exists m', assign_suburbs c l m = inr m'.
Proof.
  revert m. induction l as [|s t IH]; intros m H; simpl; [now exists m|].
  assert (K : exists m', assign_suburbs c t (<[s:=c]> m) = inr m').
  { apply IH. intros s0 p Hin Hl Ht.
    destruct (decide (s = s0)) as [<-|Hne].
    - rewrite lookup_insert_eq in Hl. congruence.
    - rewrite lookup_insert_ne in Hl by assumption.
      apply (H s0 p); auto. now right. }
  destruct (m !! s) as [prev|] eqn:E; [|exact K].
  destruct (truthy prev) eqn:Ht; simpl; [|exact K].
  rewrite (H s prev) by (auto; now left).
  rewrite String.eqb_refl. exact K.
Qed.

Lemma find_absent {A : Type} (f : A -> bool) (l : list A) :
  (forall x, In x l -> f x = false) -> List.find f l = None.
Proof.
  induction l as [|x t IH]; intros H; [reflexivity|].
  simpl. rewrite (H x) by now left. apply IH. intros y Hy. apply H. now right.
Qed.

Lemma strict_check_clean es e :
  clean es -> In e es -> strict_check slugify STRICT (fst e) (snd e) = inr tt.
Proof.
  intros Hc He. unfold strict_check. destruct STRICT eqn:S; [|reflexivity].
  destruct (Hc eq_refl e He) as [(k & -> & H1) H2].
  rewrite H1, String.eqb_refl. simpl.
  rewrite find_absent; [reflexivity|].
  intros raw Hr. rewrite (H2 raw Hr), String.eqb_refl. reflexivity.
Qed.

Lemma In_sorted_slugs l s : In s (sorted_slugs l) <-> In s l.
Proof.
  unfold sorted_slugs. split; apply Permutation_in.
  - apply DoctorFacts.js_sort_perm.
  - symmetry. apply DoctorFacts.js_sort_perm.
Qed.

(** A turn on a cluster on which [slugify] does not throw. *)
Lemma build_step_resolved st e :
  resolves e ->
  build_step st e =
  (_ <- strict_check slugify STRICT (fst e) (snd e) ;;
   s2c <- assign_suburbs (cslug_of e) (sorted_slugs (slugs_of e)) (bs_s2c st) ;;
   inr {| bs_s2c := s2c;
          bs_c2s := <[cslug_of e := sorted_slugs (slugs_of e)]> (bs_c2s st);
          bs_dupIntra := bs_dupIntra st ++
            intra_dups (cslug_of e) ∅ (sorted_slugs (slugs_of e)) |}).
Proof.
  intros [H1 H2]. unfold ValidateData.build_step, ValidateData.cslug_of,
    ValidateData.slugs_of.
  destruct (key_slug slugify slugify_other (fst e)) as [c|]; [|now destruct H1].
  destruct (suburb_slugs slugify slugify_other (snd e)) as [l|]; [|now destruct H2].
  reflexivity.
Qed.

(** A turn that does not fail has met no exception. *)
Lemma build_step_resolves st e st' : build_step st e = inr st' -> resolves e.
Proof.
  unfold ValidateData.build_step, ValidateData.resolves.
  destruct (key_slug slugify slugify_other (fst e)) as [c|]; [|discriminate].
  destruct (strict_check slugify STRICT (fst e) (snd e)) as [f|[]]; [discriminate|].
  simpl. destruct (suburb_slugs slugify slugify_other (snd e)) as [l|]; [|discriminate].
  intros _. split; discriminate.
Qed.

Lemma build_step_inr st e st' :
  strict_check slugify STRICT (fst e) (snd e) = inr tt ->
  build_step st e = inr st' ->
  exists m', assign_suburbs (cslug_of e) (sorted_slugs (slugs_of e)) (bs_s2c st) = inr m'
    /\ st' = {| bs_s2c := m';
                bs_c2s := <[cslug_of e := sorted_slugs (slugs_of e)]> (bs_c2s st);
                bs_dupIntra := bs_dupIntra st ++
                  intra_dups (cslug_of e) ∅ (sorted_slugs (slugs_of e)) |}.
Proof.
  intros Hs H. pose proof (build_step_resolves _ _ _ H) as Hr.
  rewrite (build_step_resolved st e Hr), Hs in H. simpl in H.
  destruct (assign_suburbs _ _ _) as [f|m'] eqn:E; simpl in H; [discriminate|].
  injection H as <-. now exists m'.
Qed.

Lemma build_step_traced st e st' pre :
  strict_check slugify STRICT (fst e) (snd e) = inr tt ->
  build_step st e = inr st' ->
  traced st pre -> traced st' (pre ++ [e]).
Proof.
  intros Hs H Ht. apply build_step_inr in H as (m' & Ha & ->); [|exact Hs].
  apply assign_ok in Ha as (H1 & H2 & _).
  intros s p. simpl. intros Hl.
  destruct (in_dec string_dec s (sorted_slugs (slugs_of e))) as [Hin|Hin].
  - rewrite (H1 s Hin) in Hl. injection Hl as <-.
    exists e. split; [apply in_or_app; right; now left|].
    split; [reflexivity|]. now apply In_sorted_slugs.
  - rewrite (H2 s Hin) in Hl. destruct (Ht s p Hl) as (e1 & He1 & Hp & Hls).
    exists e1. split; [apply in_or_app; now left|]. now split.
Qed.

Lemma build_step_settled st e st' pre :
  strict_check slugify STRICT (fst e) (snd e) = inr tt ->
  build_step st e = inr st' ->
  (forall e1, In e1 pre -> truthy (cslug_of e1) = true) ->
  settled st pre -> settled st' (pre ++ [e]).
Proof.
  intros Hs H Htr Hst. apply build_step_inr in H as (m' & Ha & ->); [|exact Hs].
  apply assign_ok in Ha as (H1 & H2 & H3).
  intros e1 He1 s Hls. simpl.
  destruct (in_dec string_dec s (sorted_slugs (slugs_of e))) as [Hin|Hin].
  - rewrite (H1 s Hin). apply in_app_iff in He1 as [He1|[<-|[]]]; [|reflexivity].
    f_equal. symmetry. apply (H3 s _ Hin); [now apply Hst|now apply Htr].
  - rewrite (H2 s Hin). apply in_app_iff in He1 as [He1|[<-|[]]]; [now apply Hst|].
    exfalso. apply Hin. now apply In_sorted_slugs.
Qed.

Lemma build_step_inl st e f pre :
  resolves e ->
  strict_check slugify STRICT (fst e) (snd e) = inr tt ->
  build_step st e = inl f ->
  traced st pre ->
  exists s e1, f = MultipleClusters s (cslug_of e1) (cslug_of e)
    /\ In e1 pre /\ lists e1 s /\ lists e s
    /\ cslug_of e1 <> cslug_of e.
Proof.
  intros Hr Hs H Ht. rewrite (build_step_resolved st e Hr), Hs in H. simpl in H.
  destruct (assign_suburbs _ _ _) as [f'|m'] eqn:E; simpl in H; [|discriminate].
  injection H as <-.
  apply assign_fail in E as (s & p & -> & Hin & Hl & _ & Hne).
  destruct (Ht s p Hl) as (e1 & He1 & <- & Hls).
  exists s, e1. repeat split; auto. now apply In_sorted_slugs.
Qed.

Lemma build_step_succeeds st e pre :
  resolves e ->
  strict_check slugify STRICT (fst e) (snd e) = inr tt ->
  traced st pre ->
  (forall e1 s, In e1 pre -> lists e1 s -> lists e s -> cslug_of e1 = cslug_of e) ->
  exists st', build_step st e = inr st'.
Proof.
  intros Hr Hs Ht Hno. rewrite (build_step_resolved st e Hr), Hs. simpl.
  destruct (assign_succeeds (cslug_of e) (sorted_slugs (slugs_of e)) (bs_s2c st))
    as [m' ->].
  - intros s p Hin Hl _. destruct (Ht s p Hl) as (e1 & He1 & <- & Hls).
    apply (Hno e1 s); auto. now apply In_sorted_slugs.
  - simpl. eauto.
Qed.

(** A suburb listed by two clusters of different slugs stops the build. *)
Lemma build_steps_conflict es : forall st pre,
  clean es ->
  (forall e, In e es -> resolves e) ->
  (forall e, In e (pre ++ es) -> truthy (cslug_of e) = true) ->
  traced st pre -> settled st pre ->
  (exists e1 e2 s, In e1 (pre ++ es) /\ In e2 (pre ++ es) /\ lists e1 s /\ lists e2 s
                   /\ cslug_of e1 <> cslug_of e2) ->
  exists s e1 e2,
    build_steps st es = inl (MultipleClusters s (cslug_of e1) (cslug_of e2))
    /\ In e1 (pre ++ es) /\ In e2 (pre ++ es) /\ lists e1 s /\ lists e2 s
    /\ cslug_of e1 <> cslug_of e2.
Proof.
  induction es as [|e t IH]; intros st pre Hc Hres Htr Ht Hst Hcf.
  - exfalso. rewrite app_nil_r in Hcf. destruct Hcf as (e1 & e2 & s & H1 & H2 & L1 & L2 & Hne).
    apply Hne. pose proof (Hst e1 H1 s L1) as A. pose proof (Hst e2 H2 s L2) as B.
    congruence.
  - assert (Hs : strict_check slugify STRICT (fst e) (snd e) = inr tt)
      by (apply (strict_check_clean (e :: t)); [exact Hc|now left]).
    assert (Hr : resolves e) by (apply Hres; now left).
    simpl. destruct (build_step st e) as [f|st'] eqn:E; simpl.
    + destruct (build_step_inl st e f pre Hr Hs E Ht) as (s & e1 & -> & He1 & L1 & L & Hne).
      exists s, e1, e. repeat split; auto.
      * apply in_or_app. now left.
      * apply in_or_app. right. now left.
    + assert (Happ : (pre ++ [e]) ++ t = pre ++ e :: t) by now rewrite <- app_assoc.
      destruct (IH st' (pre ++ [e])) as (s & e1 & e2 & R).
      * intros S e0 H0. apply (Hc S). now right.
      * intros e0 H0. apply Hres. now right.
      * rewrite Happ. exact Htr.
      * now apply (build_step_traced st).
      * apply (build_step_settled st); auto.
        intros e1 He1. apply Htr, in_or_app. now left.
      * rewrite Happ. exact Hcf.
      * rewrite Happ in R. exists s, e1, e2. exact R.
Qed.

(** Without such a suburb the loop runs to its end and collects the
    duplicates found inside each cluster. *)
Lemma build_steps_run es : forall st pre,
  clean es ->
  (forall e, In e es -> resolves e) ->
  traced st pre ->
  (forall e1 e2 s, In e1 (pre ++ es) -> In e2 (pre ++ es) -> lists e1 s -> lists e2 s ->
     cslug_of e1 = cslug_of e2) ->
  exists st', build_steps st es = inr st'
    /\ bs_dupIntra st' = bs_dupIntra st ++ all_dups es.
Proof.
  induction es as [|e t IH]; intros st pre Hc Hres Ht Hno.
  - exists st. simpl. now rewrite app_nil_r.
  - assert (Hs : strict_check slugify STRICT (fst e) (snd e) = inr tt)
      by (apply (strict_check_clean (e :: t)); [exact Hc|now left]).
    assert (Hr : resolves e) by (apply Hres; now left).
    destruct (build_step_succeeds st e pre Hr Hs Ht) as [st' E].
    { intros e1 s He1 L1 L. apply (Hno e1 e s); auto.
      - apply in_or_app. now left.
      - apply in_or_app. right. now left. }
    simpl. rewrite E. simpl.
    assert (Happ : (pre ++ [e]) ++ t = pre ++ e :: t) by now rewrite <- app_assoc.
    destruct (IH st' (pre ++ [e])) as (st'' & R & D).
    + intros S e0 H0. apply (Hc S). now right.
    + intros e0 H0. apply Hres. now right.
    + now apply (build_step_traced st).
    + rewrite Happ. exact Hno.
    + exists st''. split; [exact R|]. rewrite D.
      apply build_step_inr in E as (m' & _ & ->); [|exact Hs].
      simpl. now rewrite <- app_assoc.
Qed.

(** The first cluster on which [slugify] throws, when no earlier turn
    fails, ends the run with that exception. *)
Lemma build_step_crash st e :
  ~ resolves e ->
  strict_check slugify STRICT (fst e) (snd e) = inr tt ->
  build_step st e = inl Crashed.
Proof.
  intros Hn Hs. unfold ValidateData.build_step, ValidateData.resolves in *.
  destruct (key_slug slugify slugify_other (fst e)) as [c|]; [|reflexivity].
  rewrite Hs. simpl.
  destruct (suburb_slugs slugify slugify_other (snd e)) as [l|]; [|reflexivity].
  exfalso. apply Hn. split; discriminate.
Qed.

Lemma intra_dups_none c seen l :
  List.NoDup l -> (forall s, In s l -> s ∉ seen) -> intra_dups c seen l = [].
Proof.
  revert seen. induction l as [|s t IH]; intros seen Hn Hs; [reflexivity|].
  simpl. inversion Hn as [|? ? Hnot Hn']; subst.
  rewrite bool_decide_eq_false_2 by (apply Hs; now left).
  simpl. apply IH; [exact Hn'|].
  intros s' Hin. rewrite elem_of_union, elem_of_singleton.
  intros [->|H]; [contradiction|]. apply (Hs s'); [now right|exact H].
Qed.

Lemma all_dups_none es :
  (forall e, In e es -> List.NoDup (slugs_of e)) -> all_dups es = [].
Proof.
  induction es as [|e t IH]; intros H; [reflexivity|].
  unfold ValidateData.all_dups. simpl. fold (all_dups t).
  rewrite IH by (intros e0 H0; apply H; now right).
  rewrite app_nil_r. apply intra_dups_none.
  - eapply Permutation_NoDup; [|apply H; now left].
    symmetry. apply DoctorFacts.js_sort_perm.
  - intros s _. apply not_elem_of_empty.
Qed.

End BuildFacts.

(** Documents whose clusters have a slug and list strings only give
    [slugify] nothing to throw on. *)
Lemma strings_resolve slugify slugify_other (k : string) (l : list string) :
  resolves slugify slugify_other (Some k, List.map SSlug l).
Proof.
  split; [discriminate|]. cbn [snd].
  induction l as [|x t IH]; [discriminate|].
  simpl. destruct (suburb_slugs slugify slugify_other (List.map SSlug t));
    [discriminate|now destruct IH].
Qed.

(** C3, as stated, fails in two ways.  The doctor's index build records a
    suburb found in two clusters as a schema issue that names the suburb
    and neither cluster; and [normalizeClusters] fails on a document in
    which each suburb belongs to exactly one cluster when a suburb is
    listed twice inside that cluster. *)
Lemma cluster_index_counterexample :
  st_schema (index_pass x_twice) = [DuplicateSuburbSlug "x"]
  /\ normalizeClusters Slug.slugify throwing false twice_doc =
     inl (DuplicateInside ["a:x"]).
Proof. split; vm_compute; reflexivity. Qed.

(** C3, amended.  Take a cluster document that passes the schema, on whose
    values [slugify] does not throw and, in strict mode, whose raw slugs
    are already normalized; its clusters are the elements of
    [clustersDoc.clusters] when it has a key [clusters], its entries
    otherwise.  If its normalized cluster slugs are non-empty and some
    suburb slug is listed by two clusters of different slugs,
    [normalizeClusters] fails with the error that names such a suburb and
    the two cluster slugs.  If no suburb is listed by two clusters of
    different slugs and no suburb is listed twice inside a cluster, the
    build succeeds.  The index build of the doctor does not fail: for
    every catalog in which two clusters with a valid slug list a suburb
    slug, it records a schema issue that names the suburb only, and the
    suburb is indexed. *)
Theorem cluster_index_build :
  (forall (slugify : string -> string) (slugify_other : Untyped -> option string)
          (STRICT : bool) (doc : ClustersDoc),
     schema_ok doc = true ->
     strict_clean slugify STRICT doc ->
     (forall e, In e (entries_of doc) -> resolves slugify slugify_other e) ->
     ((forall e, In e (entries_of doc) ->
         truthy (cslug_of slugify slugify_other e) = true) ->
      (exists e1 e2 s,
         In e1 (entries_of doc) /\ In e2 (entries_of doc)
         /\ lists slugify slugify_other e1 s /\ lists slugify slugify_other e2 s
         /\ cslug_of slugify slugify_other e1 <> cslug_of slugify slugify_other e2) ->
      exists s e1 e2,
        normalizeClusters slugify slugify_other STRICT doc =
          inl (MultipleClusters s (cslug_of slugify slugify_other e1)
                 (cslug_of slugify slugify_other e2))
        /\ In e1 (entries_of doc) /\ In e2 (entries_of doc)
        /\ lists slugify slugify_other e1 s /\ lists slugify slugify_other e2 s
        /\ cslug_of slugify slugify_other e1 <> cslug_of slugify slugify_other e2)
     /\
     ((forall e1 e2 s,
         In e1 (entries_of doc) -> In e2 (entries_of doc) ->
         lists slugify slugify_other e1 s -> lists slugify slugify_other e2 s ->
         cslug_of slugify slugify_other e1 = cslug_of slugify slugify_other e2) ->
      (forall e, In e (entries_of doc) -> List.NoDup (slugs_of slugify slugify_other e)) ->
      exists ix, normalizeClusters slugify slugify_other STRICT doc = inr ix))
  /\
  (forall (clusters before between after : list ClusterItem) (c1 c2 : ClusterItem)
          (s : string),
     clusters = before ++ c1 :: between ++ c2 :: after ->
     isStr (cslug c1) = true -> isStr (cslug c2) = true ->
     In s (List.map slug (suburbs_of c1)) ->
     In s (List.map slug (suburbs_of c2)) ->
     In (DuplicateSuburbSlug s) (st_schema (index_pass clusters))
     /\ map_has s (suburbBySlug clusters) = true).
Proof.
  split.
  - intros slugify slugify_other STRICT doc Hschema Hclean Hres.
    unfold normalizeClusters. rewrite Hschema. simpl. split.
    + intros Htr Hcf.
      destruct (build_steps_conflict slugify slugify_other STRICT (entries_of doc)
                  {| bs_s2c := ∅; bs_c2s := ∅; bs_dupIntra := [] |} [])
        as (s & e1 & e2 & -> & R); auto.
      * intros s p Hl. simpl in Hl. now rewrite lookup_empty in Hl.
      * intros e [].
      * exists s, e1, e2. split; [reflexivity|exact R].
    + intros Hno Hnd.
      destruct (build_steps_run slugify slugify_other STRICT (entries_of doc)
                  {| bs_s2c := ∅; bs_c2s := ∅; bs_dupIntra := [] |} [])
        as (st' & -> & D); auto.
      * intros s p Hl. simpl in Hl. now rewrite lookup_empty in Hl.
      * simpl. simpl in D. rewrite D, (all_dups_none slugify slugify_other _ Hnd).
        simpl. eauto.
  - intros clusters before between after c1 c2 s -> H1 H2 L1 L2.
    assert (Hin1 : In s (indexed_slugs [c1])).
    { unfold indexed_slugs. simpl. rewrite H1, app_nil_r. exact L1. }
    assert (Hin2 : In s (indexed_slugs [c2])).
    { unfold indexed_slugs. simpl. rewrite H2, app_nil_r. exact L2. }
    assert (Happ : forall a b, indexed_slugs (a ++ b) = indexed_slugs a ++ indexed_slugs b)
      by (intros a b; unfold indexed_slugs; apply flat_map_app).
    assert (Hcount : 1 < count_occ string_dec
                           (indexed_slugs (before ++ c1 :: between ++ c2 :: after)) s).
    { change (c1 :: between ++ c2 :: after) with ([c1] ++ between ++ [c2] ++ after).
      rewrite !Happ, !count_occ_app.
      apply (count_occ_In string_dec) in Hin1, Hin2. lia. }
    split.
    + apply DoctorFacts.dup_issues_In. rewrite DoctorFacts.index_pass_dups.
      apply DoctorFacts.repeats_count. now right.
    + apply DoctorFacts.index_pass_indexed. apply (count_occ_In string_dec). lia.
Qed.

Lemma cluster_index_build_witness :
  (exists (s : string) (e1 e2 : Entry),
     normalizeClusters Slug.slugify throwing false split_doc =
       inl (MultipleClusters s (cslug_of Slug.slugify throwing e1)
              (cslug_of Slug.slugify throwing e2)))
  /\ (exists ix, normalizeClusters Slug.slugify throwing false tidy_doc = inr ix)
  /\ In (DuplicateSuburbSlug "x") (st_schema (index_pass x_twice)).
Proof.
  destruct cluster_index_build as [Hn Hd].
  split; [|split].
  - assert (Hs : schema_ok split_doc = true) by reflexivity.
    assert (Hc : strict_clean Slug.slugify false split_doc) by (intros H; discriminate H).
    assert (Hr : forall e, In e (entries_of split_doc) -> resolves Slug.slugify throwing e).
    { intros e [<-|[<-|[]]]; split; discriminate. }
    destruct (Hn Slug.slugify throwing false split_doc Hs Hc Hr) as [H _].
    destruct H as (s & e1 & e2 & H & _).
    + intros e [<-|[<-|[]]]; reflexivity.
    + exists (Some "a", [SSlug "x"; SSlug "y"]), (Some "b", [SSlug "y"; SSlug "x"]), "x".
      repeat split; try (vm_compute; tauto). vm_compute. discriminate.
    + now exists s, e1, e2.
  - assert (Hs : schema_ok tidy_doc = true) by reflexivity.
    assert (Hc : strict_clean Slug.slugify false tidy_doc) by (intros H; discriminate H).
    assert (Hr : forall e, In e (entries_of tidy_doc) -> resolves Slug.slugify throwing e).
    { intros e [<-|[<-|[]]]; split; discriminate. }
    destruct (Hn Slug.slugify throwing false tidy_doc Hs Hc Hr) as [_ H].
    apply H.
    + intros e1 e2 s [<-|[<-|[]]] [<-|[<-|[]]]; vm_compute; intros A B;
        try reflexivity; exfalso;
        repeat (destruct A as [A|A]; try discriminate A);
        repeat (destruct B as [B|B]; try discriminate B);
        try contradiction; subst; discriminate.
    + intros e [<-|[<-|[]]]; vm_compute; repeat constructor; simpl; try tauto;
        intuition discriminate.
  - refine (proj1 (Hd x_twice [] [] [] _ _ "x" eq_refl eq_refl eq_refl _ _));
      now left.
Defined.

End ValidateFacts.

Module CoverageFacts.
Import Js Coverage.

Example coverage_atlantis :
  main false seq_clusters [("bond-cleaning", ["ipswich"; "atlantis"])] =
  Failed [ {| pb_service := "bond-cleaning"; pb_suburb := "atlantis" |} ].
Proof. vm_compute. reflexivity. Qed.

Example coverage_atlantis_tolerant :
  main true seq_clusters [("bond-cleaning", ["ipswich"; "atlantis"])] =
  Warned [ {| pb_service := "bond-cleaning"; pb_suburb := "atlantis" |} ].
Proof. vm_compute. reflexivity. Qed.

Lemma all_some_Some {A : Type} (l : list (option A)) (r : list A) :
  all_some l = Some r <-> l = List.map Some r.
Proof.
  revert r. induction l as [|x t IH]; intros r; simpl.
  - split; [intros [= <-]; reflexivity|]. destruct r; [reflexivity|discriminate].
  - destruct x as [a|].
    + destruct (all_some t) as [r'|] eqn:E.
      * split.
        -- intros [= <-]. simpl. f_equal. now apply IH.
        -- destruct r as [|b r0]; [discriminate|]. simpl. intros [= -> H].
           apply IH in H. now injection H as ->.
      * split; [discriminate|]. destruct r as [|b r0]; [discriminate|].
        simpl. intros [= -> H]. apply IH in H. discriminate H.
    + split; [discriminate|]. destruct r; discriminate.
Qed.

Lemma all_some_None {A : Type} (l : list (option A)) :
  all_some l = None <-> In None l.
Proof.
  induction l as [|x t IH]; simpl.
  - split; [discriminate|intros []].
  - destruct x as [a|].
    + destruct (all_some t) as [r|].
      * split; [discriminate|]. intros [H|H]; [discriminate H|].
        apply IH in H. discriminate H.
      * split; [intros _; right; now apply IH|reflexivity].
    + split; [now left|reflexivity].
Qed.

(** The set is built exactly when every suburb object has a slug or a
    name. *)
Lemma known_named clusters : (exists k, known clusters = Some k) <-> named clusters.
Proof.
  unfold known, idents, named.
  destruct (all_some _) as [r|] eqn:E; simpl.
  - split; [|eauto]. intros _ c x Hc Hx Hn.
    assert (In None (flat_map (fun c => List.map ident (cv_suburbs c)) clusters)).
    { apply in_flat_map. exists c. split; [exact Hc|]. rewrite <- Hn. now apply in_map. }
    apply all_some_None in H. congruence.
  - split; [intros [k Hk]; discriminate Hk|]. intros H. exfalso.
    apply all_some_None, in_flat_map in E as (c & Hc & Hx).
    apply in_map_iff in Hx as (x & Hx & Hin). exact (H c x Hc Hin Hx).
Qed.

Lemma known_present clusters k s :
  known clusters = Some k -> (s ∈ k <-> present clusters s).
Proof.
  unfold known, idents, present. destruct (all_some _) as [r|] eqn:E; [|discriminate].
  intros [= <-]. apply all_some_Some in E.
  rewrite elem_of_list_to_set, list_elem_of_In. split.
  - intros H. apply (in_map Some) in H. rewrite <- E in H.
    apply in_flat_map in H as (c & Hc & Hs).
    apply in_map_iff in Hs as (x & Hx & Hin). now exists c, x.
  - intros (c & x & Hc & Hx & Hs).
    assert (H : In (Some s) (List.map Some r)).
    { rewrite <- E. apply in_flat_map. exists c. split; [exact Hc|].
      rewrite <- Hs. now apply in_map. }
    apply in_map_iff in H as (y & [= ->] & Hy). exact Hy.
Qed.

Lemma problems_spec clusters k coverage svc s :
  known clusters = Some k ->
  (In {| pb_service := svc; pb_suburb := s |} (problems k coverage) <->
   references coverage svc s /\ ~ present clusters s).
Proof.
  intros Hk. unfold problems, references. rewrite in_flat_map. split.
  - intros ([svc' l] & He & H). apply in_flat_map in H as (s' & Hs' & H).
    simpl in *. destruct (bool_decide (s' ∈ k)) eqn:E; [destruct H|].
    destruct H as [[= <- <-]|[]]. split; [now exists l|].
    apply bool_decide_eq_false in E. now rewrite <- (known_present clusters k).
  - intros ((l & He & Hs) & Hn). exists (svc, l). split; [exact He|].
    apply in_flat_map. exists s. split; [exact Hs|]. simpl.
    rewrite bool_decide_eq_false_2 by now rewrite (known_present clusters k).
    now left.
Qed.

Lemma problems_nil clusters k coverage :
  known clusters = Some k ->
  (problems k coverage = [] <->
   forall svc s, references coverage svc s -> present clusters s).
Proof.
  intros Hk. split.
  - intros H svc s Hr.
    destruct (decide (s ∈ k)) as [Hin|Hin]; [now apply (known_present clusters k)|].
    exfalso. assert (In {| pb_service := svc; pb_suburb := s |} (problems k coverage)).
    { apply (problems_spec clusters); [exact Hk|]. split; [exact Hr|].
      now rewrite <- (known_present clusters k). }
    rewrite H in H0. destruct H0.
  - intros H. destruct (problems k coverage) as [|[svc s] t] eqn:E; [reflexivity|].
    exfalso. assert (Hin : In {| pb_service := svc; pb_suburb := s |} (problems k coverage))
      by (rewrite E; now left).
    apply (problems_spec clusters) in Hin as [Hr Hn]; [|exact Hk].
    apply Hn. now apply (H svc).
Qed.

Import ValidateData.

Lemma unknown_tokens_spec slugify ix coverage svc raw token :
  In (svc, raw, token) (unknown_tokens slugify ix coverage) <->
  references coverage svc raw /\ token = slugify raw
  /\ suburbToCluster ix !! token = None /\ clusterToSuburbs ix !! token = None.
Proof.
  unfold unknown_tokens, references. rewrite in_flat_map. split.
  - intros ([svc' l] & He & H). apply in_flat_map in H as (raw' & Hr & H). simpl in *.
    destruct (bool_decide (is_Some (suburbToCluster ix !! slugify raw'))) eqn:E1; [destruct H|].
    destruct (bool_decide (is_Some (clusterToSuburbs ix !! slugify raw'))) eqn:E2; [destruct H|].
    destruct H as [[= <- <- <-]|[]].
    apply bool_decide_eq_false, eq_None_not_Some in E1.
    apply bool_decide_eq_false, eq_None_not_Some in E2.
    split; [now exists l|]. auto.
  - intros ((l & He & Hr) & -> & H1 & H2). exists (svc, l). split; [exact He|].
    apply in_flat_map. exists raw. split; [exact Hr|]. simpl.
    rewrite bool_decide_eq_false_2 by now apply eq_None_not_Some.
    rewrite bool_decide_eq_false_2 by now apply eq_None_not_Some.
    now left.
Qed.

Lemma unknown_tokens_nil slugify ix coverage :
  (forall svc raw, references coverage svc raw ->
     is_Some (suburbToCluster ix !! slugify raw)
     \/ is_Some (clusterToSuburbs ix !! slugify raw)) ->
  unknown_tokens slugify ix coverage = [].
Proof.
  intros H. destruct (unknown_tokens slugify ix coverage) as [|[[svc raw] token] t] eqn:E;
    [reflexivity|].
  exfalso.
  assert (Hin : In (svc, raw, token) (unknown_tokens slugify ix coverage))
    by (rewrite E; now left).
  apply unknown_tokens_spec in Hin as (Hr & -> & H1 & H2).
  destruct (H svc raw Hr) as [[v Hv]|[v Hv]]; congruence.
Qed.

(** C9, as stated, fails on [validateCoverageTokens]: a coverage entry that
    is no suburb of any cluster but equals a cluster slug is accepted. *)
Lemma coverage_cluster_token_counterexample :
  (ix <- normalizeClusters Slug.slugify throwing false a_x_doc ;;
   inr (suburbToCluster ix !! "a")) = inr None
  /\ (ix <- normalizeClusters Slug.slugify throwing false a_x_doc ;;
      validateCoverageTokens Slug.slugify false ix [("bond-cleaning", ["a"])]) = inr [].
Proof. split; vm_compute; reflexivity. Qed.

(** A coverage entry that is not a slug is refused by the schema in either
    mode, and a suburb object without slug and name makes
    [validate-coverage.mts] throw. *)
Example coverage_not_a_slug :
  (ix <- normalizeClusters Slug.slugify throwing false a_x_doc ;;
   validateCoverageTokens Slug.slugify true ix [("bond-cleaning", ["Ipswich"])]) =
  inl CoverageSchemaInvalid
  /\ main true bare_clusters [("bond-cleaning", ["ipswich"])] = Uncaught.
Proof. split; vm_compute; reflexivity. Qed.

(** C9, amended.  In [validate-coverage.mts], when every suburb object of
    the cluster document has a slug or a name, a coverage document that
    references a suburb slug present in no cluster makes the run fail with
    exit code 1 and an error that lists every such reference, unless
    [GEO_ALLOW_MISSING=1], in which case the same findings are printed as
    warnings and the run exits 0; when every referenced slug is present the
    run passes in either mode; and when a suburb object has neither slug
    nor name the script throws and exits 1 in either mode.
    [validateCoverageTokens] refuses, in either mode, a coverage document
    in which some entry is not a slug; on the others it behaves as the
    script does, on normalized tokens, except that a token equal to a
    cluster slug is accepted as well. *)
Theorem coverage_validation :
  (forall (allowMissing : bool) (clusters : list Coverage.RawCluster)
          (coverage : list (string * list string)),
     (named clusters ->
      ((exists svc s, references coverage svc s /\ ~ present clusters s) ->
       exists ps,
         (forall svc s, In {| pb_service := svc; pb_suburb := s |} ps <->
                        references coverage svc s /\ ~ present clusters s)
         /\ main allowMissing clusters coverage =
            (if allowMissing then Warned ps else Failed ps)
         /\ exit_code (main allowMissing clusters coverage) =
            (if allowMissing then 0 else 1))
      /\
      ((forall svc s, references coverage svc s -> present clusters s) ->
       main allowMissing clusters coverage = Passed
       /\ exit_code (main allowMissing clusters coverage) = 0))
     /\
     (~ named clusters ->
      main allowMissing clusters coverage = Uncaught
      /\ exit_code (main allowMissing clusters coverage) = 1))
  /\
  (forall (slugify : string -> string) (allowMissing : bool) (ix : Indexes)
          (coverage : list (string * list string)),
     ((exists svc raw, references coverage svc raw /\ is_slug raw = false) ->
      validateCoverageTokens slugify allowMissing ix coverage = inl CoverageSchemaInvalid)
     /\
     ((forall svc raw, references coverage svc raw -> is_slug raw = true) ->
      ((exists svc raw, references coverage svc raw
          /\ suburbToCluster ix !! slugify raw = None
          /\ clusterToSuburbs ix !! slugify raw = None) ->
       exists unknown,
         (forall svc raw token, In (svc, raw, token) unknown <->
            references coverage svc raw /\ token = slugify raw
            /\ suburbToCluster ix !! token = None
            /\ clusterToSuburbs ix !! token = None)
         /\ validateCoverageTokens slugify allowMissing ix coverage =
            (if allowMissing then inr unknown else inl (UnknownCoverageTokens unknown)))
      /\
      ((forall svc raw, references coverage svc raw ->
          is_Some (suburbToCluster ix !! slugify raw)
          \/ is_Some (clusterToSuburbs ix !! slugify raw)) ->
       validateCoverageTokens slugify allowMissing ix coverage = inr []))).
Proof.
  split.
  - intros allowMissing clusters coverage. split.
    + intros Hn. apply known_named in Hn as [k Hk]. split.
      * intros (svc & s & Hr & Hp). exists (problems k coverage).
        split; [intros svc' s'; now apply problems_spec|].
        assert (Hin : In {| pb_service := svc; pb_suburb := s |} (problems k coverage))
          by now apply (problems_spec clusters).
        unfold main. rewrite Hk.
        destruct (problems k coverage) as [|p t]; [destruct Hin|].
        now destruct allowMissing.
      * intros H. apply (problems_nil clusters k coverage Hk) in H.
        unfold main. now rewrite Hk, H.
    + intros Hn. unfold main.
      destruct (known clusters) as [k|] eqn:Hk; [|now split].
      exfalso. apply Hn, known_named. now exists k.
  - intros slugify allowMissing ix coverage. split.
    + intros (svc & raw & (l & He & Hr) & Hs). unfold validateCoverageTokens.
      assert (E : coverage_schema_ok coverage = false).
      { destruct (coverage_schema_ok coverage) eqn:E; [|reflexivity].
        unfold coverage_schema_ok in E. rewrite forallb_forall in E.
        specialize (E (svc, l) He). simpl in E. rewrite forallb_forall in E.
        rewrite (E raw Hr) in Hs. discriminate Hs. }
      now rewrite E.
    + intros Hok.
      assert (E : coverage_schema_ok coverage = true).
      { unfold coverage_schema_ok. apply forallb_forall. intros [svc l] He.
        apply forallb_forall. intros raw Hr. apply (Hok svc). now exists l. }
      unfold validateCoverageTokens. rewrite E. cbn [negb]. split.
      * intros (svc & raw & Hr & H1 & H2). exists (unknown_tokens slugify ix coverage).
        split; [intros svc' raw' token'; apply unknown_tokens_spec|].
        assert (Hin : In (svc, raw, slugify raw) (unknown_tokens slugify ix coverage))
          by now apply unknown_tokens_spec.
        destruct (unknown_tokens slugify ix coverage) as [|p t]; [destruct Hin|].
        reflexivity.
      * intros H. now rewrite (unknown_tokens_nil slugify ix coverage H).
Qed.

Lemma coverage_validation_witness :
  exists ps,
    In {| pb_service := "bond-cleaning"; pb_suburb := "atlantis" |} ps
    /\ main false seq_clusters [("bond-cleaning", ["ipswich"; "atlantis"])] = Failed ps.
Proof.
  destruct coverage_validation as [H _].
  destruct (H false seq_clusters [("bond-cleaning", ["ipswich"; "atlantis"])]) as [H0 _].
  assert (Hn : named seq_clusters).
  { intros c r [<-|[]] [<-|[<-|[]]]; discriminate. }
  assert (Ha : ~ present seq_clusters "atlantis").
  { intros (c & r & [<-|[]] & [<-|[<-|[]]] & E); vm_compute in E; discriminate E. }
  destruct (H0 Hn) as [H1 _].
  destruct H1 as (ps & Hps & Hm & _).
  - exists "bond-cleaning", "atlantis". split; [|exact Ha].
    exists ["ipswich"; "atlantis"]. split; [now left|right; now left].
  - exists ps. split; [|exact Hm]. apply Hps. split; [|exact Ha].
    exists ["ipswich"; "atlantis"]. split; [now left|right; now left].
Defined.

End CoverageFacts.

Module SplitFacts.
Import Js Split.
Import Doctor(SuburbItem, slug, name, lat, lng).

Example split_four :
  match split_cluster 2 "brisbane-city" "Brisbane" "brisbane" four with
  | Written cs => List.map (fun c => (k_slug c, List.map slug (k_suburbs c))) cs
  | _ => []
  end =
  [ ("ipswich", []); ("brisbane-inner-north", ["a"; "c"]); ("brisbane-west", ["b"; "d"]) ].
Proof. vm_compute. reflexivity. Qed.

(** *** Every located suburb falls in one bucket below [K] *)

Lemma scan_range pt cs : forall k best bd,
  scan pt cs k best bd = best \/ k <= scan pt cs k best bd < k + length cs.
Proof.
  induction cs as [|c t IH]; intros k best bd; simpl; [now left|].
  destruct (closer (dist pt c) bd).
  - right. destruct (IH (S k) k (dist pt c)) as [->|H]; lia.
  - destruct (IH (S k) best bd) as [->|H]; [now left|right; lia].
Qed.

Lemma assignBucket_lt K centroids pt : 1 <= K -> assignBucket K centroids pt < K.
Proof.
  intros HK. unfold assignBucket.
  destruct (scan_range pt (firstn K centroids) 0 0 PrimFloat.infinity) as [->|H]; [lia|].
  pose proof (firstn_le_length K centroids). lia.
Qed.

Lemma flat_map_nil {A B : Type} (ks : list A) : flat_map (fun _ : A => @nil B) ks = [].
Proof. induction ks; simpl; auto. Qed.

Lemma filter_head {A : Type} (g : A -> bool) (x : A) (t : list A) :
  List.filter g (x :: t) = if g x then x :: List.filter g t else List.filter g t.
Proof. reflexivity. Qed.

Section Partition.
Context {A : Type} (f : A -> nat).

Lemma buckets_skip x t ks :
  ~ In (f x) ks ->
  flat_map (fun k => List.filter (fun y => f y =? k) (x :: t)) ks =
  flat_map (fun k => List.filter (fun y => f y =? k) t) ks.
Proof.
  induction ks as [|k ks IH]; intros H; [reflexivity|].
  cbn [flat_map]. rewrite IH by (intros Hin; apply H; now right).
  f_equal. rewrite filter_head.
  destruct (Nat.eqb_spec (f x) k) as [E|E]; [|reflexivity].
  exfalso. apply H. now left.
Qed.

Lemma buckets_cons x t ks :
  List.NoDup ks -> In (f x) ks ->
  Permutation
    (flat_map (fun k => List.filter (fun y => f y =? k) (x :: t)) ks)
    (x :: flat_map (fun k => List.filter (fun y => f y =? k) t) ks).
Proof.
  induction ks as [|k ks IH]; intros Hn Hin; [destruct Hin|].
  inversion Hn as [|? ? Hk Hn']; subst.
  cbn [flat_map]. rewrite (filter_head (fun y => f y =? k)).
  destruct (Nat.eqb_spec (f x) k) as [E|E].
  - subst k. rewrite buckets_skip by assumption. reflexivity.
  - destruct Hin as [Hin|Hin]; [congruence|].
    rewrite (IH Hn' Hin). symmetry. apply Permutation_middle.
Qed.

Lemma buckets_partition K l :
  (forall x, In x l -> f x < K) ->
  Permutation (flat_map (fun k => List.filter (fun y => f y =? k) l) (seq 0 K)) l.
Proof.
  induction l as [|x t IH]; intros H.
  - simpl. now rewrite flat_map_nil.
  - rewrite buckets_cons.
    + constructor. apply IH. intros y Hy. apply H. now right.
    + apply seq_NoDup.
    + apply in_seq. specialize (H x (or_introl eq_refl)). lia.
Qed.

End Partition.

(** *** The centroid array has [K] entries, so [centroids[k]] is defined *)

Lemma filter_hit {A : Type} (g : A -> bool) (x : A) (l : list A) :
  In x l -> g x = true -> 1 <= length (List.filter g l).
Proof.
  intros Hin Hg.
  assert (H : In x (List.filter g l)) by (apply filter_In; auto).
  destruct (List.filter g l); [destruct H|simpl; lia].
Qed.

Lemma multiples_below step : 1 <= step -> forall m,
  m <= length (List.filter (fun i => i mod step =? 0) (seq 0 ((m - 1) * step + 1))).
Proof.
  intros Hs m. induction m as [|m IH]; [lia|].
  destruct m as [|m].
  - simpl. rewrite Nat.Div0.mod_0_l. simpl. lia.
  - replace ((S (S m) - 1) * step + 1) with (((S m - 1) * step + 1) + step)
      by (simpl; rewrite Nat.sub_0_r; lia).
    rewrite seq_app, List.filter_app, List.length_app.
    assert (1 <= length (List.filter (fun i => i mod step =? 0)
                           (seq (0 + ((S m - 1) * step + 1)) step))).
    { apply (filter_hit _ (S m * step)).
      - apply in_seq. simpl. rewrite Nat.sub_0_r. lia.
      - apply Nat.eqb_eq. apply Nat.Div0.mod_mul. }
    lia.
Qed.

Lemma multiples_upto step n m :
  1 <= step -> (m - 1) * step + 1 <= n ->
  m <= length (List.filter (fun i => i mod step =? 0) (seq 0 n)).
Proof.
  intros Hs Hn.
  replace n with (((m - 1) * step + 1) + (n - ((m - 1) * step + 1))) by lia.
  rewrite seq_app, List.filter_app, List.length_app.
  pose proof (multiples_below step Hs m). lia.
Qed.

Lemma map_fst_combine {A B : Type} (a : list A) : forall b : list B,
  length a = length b -> List.map fst (combine a b) = a.
Proof.
  induction a as [|x t IH]; intros [|y u] H; try discriminate; [reflexivity|].
  simpl. f_equal. apply IH. now injection H.
Qed.

Lemma every_nth_length {A : Type} (step : nat) (l : list A) :
  length (every_nth step l) =
  length (List.filter (fun i => i mod step =? 0) (seq 0 (length l))).
Proof.
  unfold every_nth. rewrite List.length_map.
  rewrite <- (map_fst_combine (seq 0 (length l)) l) at 2 by apply List.length_seq.
  now rewrite filter_map_swap, List.length_map.
Qed.

Lemma init_centroids_length K subs :
  1 <= K -> K <= length subs -> length (init_centroids K subs) = K.
Proof.
  intros HK Hn. unfold init_centroids.
  rewrite List.length_map. apply List.firstn_length_le.
  rewrite every_nth_length.
  assert (Hstep : 1 <= length subs / K) by (apply Nat.div_le_lower_bound; lia).
  apply multiples_upto; [exact Hstep|].
  pose proof (Nat.Div0.mul_div_le (length subs) K).
  nia.
Qed.

Lemma recenter_length K centroids subs :
  length (recenter K centroids subs) = length centroids.
Proof.
  unfold recenter.
  rewrite List.length_map, List.length_combine, List.length_seq. lia.
Qed.

Lemma lloyd_length iters K subs : forall centroids,
  length (lloyd iters K subs centroids) = length centroids.
Proof.
  induction iters as [|n IH]; intros centroids; [reflexivity|].
  simpl. destruct (converged (recenter K centroids subs) centroids); [reflexivity|].
  now rewrite IH, recenter_length.
Qed.

(** With [1 <= K <= subs.length] the centroids the buckets are cut from
    are [K] in number: every index [k < K] of the inner loops reads a
    centroid. *)
Lemma centroids_defined K subs :
  1 <= K -> K <= length subs ->
  let centroids := lloyd 50 K subs (init_centroids K subs) in
  length centroids = K /\ firstn K centroids = centroids.
Proof.
  intros HK Hn centroids.
  assert (H : length centroids = K).
  { unfold centroids. rewrite lloyd_length. now apply init_centroids_length. }
  split; [exact H|]. apply List.firstn_all2. lia.
Qed.

Lemma located_fst l : List.map fst (located l) = List.filter has_coords l.
Proof.
  induction l as [|s t IH]; [reflexivity|].
  change (located (s :: t))
    with ((if has_coords s then
             match lat s, lng s with
             | Some a, Some b => [(s, (a, b))]
             | _, _ => []
             end
           else []) ++ located t).
  rewrite List.map_app. simpl List.filter.
  destruct (has_coords s) eqn:E; [|exact IH].
  unfold has_coords, Doctor.isNum in E.
  destruct (lat s), (lng s); try discriminate E.
  - simpl. f_equal. exact IH.
  - now rewrite andb_false_r in E.
Qed.

Lemma located_coords l s pt :
  In (s, pt) (located l) ->
  In s l /\ lat s = Some (fst pt) /\ lng s = Some (snd pt) /\ has_coords s = true.
Proof.
  unfold located. rewrite in_flat_map. intros (s' & Hin & H).
  destruct (has_coords s') eqn:E; [|destruct H].
  destruct (lat s') as [a|] eqn:Ea, (lng s') as [b|] eqn:Eb; try destruct H.
  - injection H as <- <-. auto.
  - destruct H.
Qed.

Lemma map_flat_map {A B C : Type} (g : B -> C) (h : A -> list B) (l : list A) :
  List.map g (flat_map h l) = flat_map (fun x => List.map g (h x)) l.
Proof.
  induction l as [|x t IH]; [reflexivity|].
  simpl. now rewrite List.map_app, IH.
Qed.

Lemma find_cluster_split TARGET clusters : forall i idx target,
  find_cluster TARGET clusters i = Some (idx, target) ->
  i <= idx /\ k_slug target = TARGET
  /\ clusters = firstn (idx - i) clusters ++ target :: skipn (S (idx - i)) clusters
  /\ Forall (fun c => k_slug c <> TARGET) (firstn (idx - i) clusters).
Proof.
  induction clusters as [|c t IH]; intros i idx target; simpl; [discriminate|].
  destruct (String.eqb (k_slug c) TARGET) eqn:E.
  - intros [= <- <-]. rewrite Nat.sub_diag. simpl.
    apply String.eqb_eq in E. repeat split; auto.
  - intros H. apply IH in H as (Hle & Hs & Hc & Hf).
    replace (idx - i) with (S (idx - S i)) by lia. simpl.
    repeat split; [lia|exact Hs|now f_equal|].
    constructor; [now apply String.eqb_neq|exact Hf].
Qed.

(** C10. When the target cluster is found and has at least [K >= 1]
    suburbs with finite coordinates, the splitter writes the document in
    which the target is replaced by [K] sub-clusters and every other
    cluster is unchanged; the sub-clusters together hold exactly the
    coordinate-bearing suburbs of the target, each of them in one
    sub-cluster only, and no suburb without finite [lat]/[lng] appears in
    any sub-cluster. *)
Theorem split_partitions :
  forall (K : nat) (TARGET BASE_NAME BASE_SLUG : string) (clusters : list Cluster)
         (idx : nat) (target : Cluster),
    find_cluster TARGET clusters 0 = Some (idx, target) ->
    1 <= K ->
    K <= length (List.filter has_coords (k_suburbs target)) ->
    exists news : list Cluster,
      split_cluster K TARGET BASE_NAME BASE_SLUG clusters =
        Written (firstn idx clusters ++ news ++ skipn (S idx) clusters)
      /\ clusters = firstn idx clusters ++ target :: skipn (S idx) clusters
      /\ length news = K
      /\ Permutation (concat (List.map k_suburbs news))
           (List.filter has_coords (k_suburbs target))
      /\ (forall i j s,
            In s (k_suburbs (nth i news target)) -> In s (k_suburbs (nth j news target)) ->
            i < K -> j < K -> i = j)
      /\ (forall c s, In c news -> In s (k_suburbs c) ->
            In s (k_suburbs target) /\ has_coords s = true).
Proof.
  intros K TARGET BASE_NAME BASE_SLUG clusters idx target Hfind HK Hn.
  exists (newClusters BASE_NAME BASE_SLUG K (located (k_suburbs target))).
  set (subs := located (k_suburbs target)).
  assert (Hlen : length subs = length (List.filter has_coords (k_suburbs target))).
  { unfold subs. now rewrite <- located_fst, length_map. }
  unfold split_cluster. rewrite Hfind. fold subs.
  replace (length subs <? K) with false by (symmetry; apply Nat.ltb_ge; lia).
  replace (K =? 0) with false by (symmetry; apply Nat.eqb_neq; lia).
  simpl andb.
  apply find_cluster_split in Hfind as (_ & _ & Hdoc & _). rewrite Nat.sub_0_r in Hdoc.
  unfold newClusters.
  split; [reflexivity|]. split; [exact Hdoc|].
  generalize (lloyd 50 K subs (init_centroids K subs)). intros cs.
  split; [now rewrite length_map, length_seq|].
  split.
  { rewrite List.map_map. cbn [k_suburbs new_cluster]. rewrite <- flat_map_concat_map.
    rewrite <- located_fst. fold subs.
    rewrite <- (map_flat_map fst (fun k => bucket K cs subs k)).
    apply Permutation_map. unfold bucket.
    apply (buckets_partition (fun s => assignBucket K cs (snd s))).
    intros x _. now apply assignBucket_lt. }
  assert (Hnth : forall i, i < K ->
            k_suburbs (nth i (List.map (new_cluster BASE_NAME BASE_SLUG K cs subs) (seq 0 K)) target)
            = List.map fst (bucket K cs subs i)).
  { intros i Hi.
    rewrite (nth_indep _ target (new_cluster BASE_NAME BASE_SLUG K cs subs 0))
      by now rewrite length_map, length_seq.
    rewrite (map_nth (new_cluster BASE_NAME BASE_SLUG K cs subs)), seq_nth by assumption.
    reflexivity. }
  split.
  - intros i j s Hi Hj Li Lj. rewrite Hnth in Hi, Hj by assumption.
    apply in_map_iff in Hi as ([s1 p1] & E1 & H1).
    apply in_map_iff in Hj as ([s2 p2] & E2 & H2).
    cbn [fst] in E1, E2. subst s1 s2.
    unfold bucket in H1, H2.
    apply filter_In in H1 as [H1 A1], H2 as [H2 A2]. cbn [snd] in A1, A2.
    apply located_coords in H1 as (_ & La1 & Ln1 & _), H2 as (_ & La2 & Ln2 & _).
    assert (p1 = p2).
    { destruct p1, p2. cbn [fst snd] in La1, Ln1, La2, Ln2. congruence. }
    subst p2. apply Nat.eqb_eq in A1, A2. congruence.
  - intros c s Hc Hs. apply in_map_iff in Hc as (k & <- & _).
    cbn [k_suburbs new_cluster] in Hs.
    apply in_map_iff in Hs as ([s' p] & E & H). cbn [fst] in E. subst s'.
    unfold bucket in H. apply filter_In in H as [H _].
    apply located_coords in H as (Hin & _ & _ & Hc).
    split; [exact Hin|exact Hc].
Qed.

Lemma split_partitions_witness :
  exists news : list Cluster,
    split_cluster 2 "brisbane-city" "Brisbane" "brisbane" four =
      Written (firstn 1 four ++ news ++ skipn 2 four)
    /\ length news = 2.
Proof.
  assert (Hf : find_cluster "brisbane-city" four 0 = Some (1, nth 1 four (nth 0 four
                 {| k_slug := ""; k_name := ""; k_suburbs := [] |}))) by reflexivity.
  assert (H1 : 1 <= 2) by lia.
  assert (H2 : 2 <= length (List.filter has_coords (k_suburbs (nth 1 four (nth 0 four
                 {| k_slug := ""; k_name := ""; k_suburbs := [] |}))))) by (simpl; lia).
  destruct (split_partitions 2 "brisbane-city" "Brisbane" "brisbane" four 1 _ Hf H1 H2)
    as (news & Hw & _ & Hl & _).
  exists news. split; [exact Hw|exact Hl].
Defined.

End SplitFacts.

Module RunFacts.
Import Js Doctor Facade.

Example doctor_demo_issues :
  option_map (fun r => rp_issues (run_report r))
    (finished (doctor idle_math demo_cli demo_inputs
                 {| at_write := "t1"; at_report := "t2" |})) =
  Some
    {| missing := [];
       schema := [ProxSelf "p"; ProxItemMissingSlug "p"; ProxDuplicate "p" (Some "q")];
       referential := [AdjTargetUnknown "p" "atlantis"; ProxTargetUnknown "p" "atlantis"];
       warnings := [ClusterMapMissing; ProxTooLong "p" 5 2; MissingLatLng 3] |}.
Proof. vm_compute. reflexivity. Qed.

Example doctor_demo_exit :
  exit_of (doctor idle_math demo_cli demo_inputs {| at_write := "t1"; at_report := "t2" |})
  = 1.
Proof. vm_compute. reflexivity. Qed.

Example build_demo :
  nearby (build_proximity demo_runtime (demo_imports [])) =
  [ ("mount-crosby", [ {| n_slug := "anstead"; n_name := "Anstead" |};
                       {| n_slug := "karana-downs"; n_name := "Karana Downs" |} ]);
    ("anstead", [ {| n_slug := "karana-downs"; n_name := "Karana Downs" |};
                  {| n_slug := "mount-crosby"; n_name := "Mount Crosby" |} ]);
    ("karana-downs", [ {| n_slug := "anstead"; n_name := "Anstead" |};
                       {| n_slug := "mount-crosby"; n_name := "Mount Crosby" |} ]) ].
Proof. vm_compute. reflexivity. Qed.

(** C7. Two runs on unchanged inputs and weights give the same outputs
    except for the timestamp fields: two doctor runs that differ only in
    what the clock reads either both throw the same error, writing
    nothing, or both finish, and then they produce reports that agree once
    [timestamp] is blanked, the same repaired snapshot once [generatedAt]
    is blanked, the same diff and the same exit status; and two runs of
    the proximity snapshot builder over the same cluster catalog and
    adjacency document emit the same [nearby] map and the same [etag]. *)
Theorem runs_repeat :
  (forall (M : MathLib) (cli : Cli) (inp : Inputs) (c1 c2 : Clock),
     match doctor M cli inp c1, doctor M cli inp c2 with
     | Finished r1, Finished r2 =>
         without_timestamp (run_report r1) = without_timestamp (run_report r2)
         /\ option_map without_generatedAt (run_fixed r1) =
            option_map without_generatedAt (run_fixed r2)
         /\ run_diffs r1 = run_diffs r2
         /\ run_exit r1 = run_exit r2
     | Threw f1, Threw f2 => f1 = f2
     | _, _ => False
     end)
  /\
  (forall (R : Runtime) (imp1 imp2 : Imports),
     clustersDoc imp1 = clustersDoc imp2 ->
     adjacencyDoc imp1 = adjacencyDoc imp2 ->
     nearby (build_proximity R imp1) = nearby (build_proximity R imp2)
     /\ etag (build_proximity R imp1) = etag (build_proximity R imp2)).
Proof.
  split.
  - intros M cli inp c1 c2. unfold doctor.
    destruct (clusters_pushes (in_clusters inp)) as [p1 st].
    destruct (diffs_of _ _ _ _ _ _ _) as [[sampled diffs]|]; [|reflexivity].
    destruct (edge_stats _ _) as [stats|]; [|reflexivity].
    cbn [run_report run_fixed run_diffs run_exit].
    repeat split. now destruct (WRITE cli).
  - intros R [c1 a1 v1 b1] [c2 a2 v2 b2] Hc Ha. cbn in Hc, Ha. subst c2 a2.
    split; reflexivity.
Qed.

Lemma runs_repeat_witness :
  nearby (build_proximity demo_runtime (demo_imports [])) =
  nearby (build_proximity demo_runtime (demo_imports [("bond-cleaning", ["anstead"])]))
  /\ etag (build_proximity demo_runtime (demo_imports [])) =
     etag (build_proximity demo_runtime (demo_imports [("bond-cleaning", ["anstead"])])).
Proof.
  destruct runs_repeat as [_ H].
  exact (H demo_runtime (demo_imports []) (demo_imports [("bond-cleaning", ["anstead"])])
           eq_refl eq_refl).
Defined.

End RunFacts.

Module PassFacts.
Import Js Doctor ValidateData.

(** *** The doctor's arrays hold every push *)



Lemma In_missing ps i : In i (missing (issues_of ps)) <-> In (CMissing, i) ps.
Proof.
  unfold issues_of. simpl. rewrite in_map_iff. split.
  - intros ([c j] & <- & H). apply filter_In in H as [H E]. simpl in *.
    now destruct c.
  - intros H. exists (CMissing, i). split; [reflexivity|].
    apply filter_In. now split.
Qed.

Lemma In_warnings ps i : In i (warnings (issues_of ps)) <-> In (CWarnings, i) ps.
Proof.
  unfold issues_of. simpl. rewrite in_map_iff. split.
  - intros ([c j] & <- & H). apply filter_In in H as [H E]. simpl in *.
    now destruct c.
  - intros H. exists (CWarnings, i). split; [reflexivity|].
    apply filter_In. now split.
Qed.

(** A run that finishes reports the pushes of the checks, then the late
    one. *)
Lemma doctor_issues M cli inp clock r :
  doctor M cli inp clock = Finished r ->
  rp_issues (run_report r) = issues_of (checks_pushes cli inp ++ late_pushes inp).
Proof.
  unfold doctor, checks_pushes, late_pushes.
  destruct (clusters_pushes (in_clusters inp)) as [p1 st]. cbn [fst snd].
  destruct (diffs_of _ _ _ _ _ _ _) as [[sampled diffs]|]; [|discriminate].
  destruct (edge_stats _ _) as [stats|]; [|discriminate].
  intros [= <-]. cbn [run_report rp_issues]. f_equal.
  now rewrite <- !app_assoc.
Qed.

(** *** When a run throws *)

Lemma existsb_is_null arr : existsb is_null arr = true <-> In JNull arr.
Proof.
  rewrite existsb_exists. split.
  - intros (x & Hx & E). destruct x; try discriminate E. exact Hx.
  - intros H. now exists JNull.
Qed.

Lemma diffs_from_some M w adj idx LIMIT nearby samples :
  (forall s arr, In s samples -> map_get s nearby = Some (Some arr) -> ~ In JNull arr) ->
  exists ds, diffs_from M w adj idx LIMIT nearby samples = Some ds.
Proof.
  induction samples as [|x t IH]; intros H; [now exists []|].
  simpl.
  assert (Hx : exists pre, pre_of nearby x = Some pre).
  { unfold pre_of. destruct (map_get x nearby) as [[arr|]|] eqn:E; eauto.
    destruct (existsb is_null arr) eqn:N; eauto.
    apply existsb_is_null in N. exfalso. apply (H x arr); auto. now left. }
  destruct Hx as [pre ->].
  destruct IH as [ds ->]; [|eauto].
  intros s arr Hs. apply H. now right.
Qed.

Lemma diffs_from_none M w adj idx LIMIT nearby samples :
  diffs_from M w adj idx LIMIT nearby samples = None ->
  exists s arr, In s samples /\ map_get s nearby = Some (Some arr) /\ In JNull arr.
Proof.
  induction samples as [|x t IH]; [discriminate|].
  simpl. unfold pre_of at 1.
  destruct (map_get x nearby) as [[arr|]|] eqn:E.
  - destruct (existsb is_null arr) eqn:N.
    + intros _. exists x, arr. split; [now left|]. split; [exact E|].
      now apply existsb_is_null.
    + destruct (diffs_from _ _ _ _ _ _ t) eqn:D; [discriminate|].
      intros _. destruct (IH eq_refl) as (s & a & Hs & Ha & Hn).
      exists s, a. split; [now right|auto].
  - destruct (diffs_from _ _ _ _ _ _ t) eqn:D; [discriminate|].
    intros _. destruct (IH eq_refl) as (s & a & Hs & Ha & Hn).
    exists s, a. split; [now right|auto].
  - destruct (diffs_from _ _ _ _ _ _ t) eqn:D; [discriminate|].
    intros _. destruct (IH eq_refl) as (s & a & Hs & Ha & Hn).
    exists s, a. split; [now right|auto].
Qed.

Lemma edges_of_some adj :
  (forall src, ~ In (src, TOther) adj) <-> exists es, edges_of adj = Some es.
Proof.
  induction adj as [|[k v] t IH]; simpl.
  - split; [now exists []|intros _ src []].
  - split.
    + intros H.
      destruct (proj1 IH) as [es E]; [intros src Hs; apply (H src); now right|].
      rewrite E. destruct v as [l|s|]; simpl; eauto.
      exfalso. apply (H k). now left.
    + intros [es E] src [[= <- Hv]|Hin].
      * subst v. discriminate E.
      * destruct (iterate v); [|discriminate E].
        destruct (edges_of t) eqn:Et; [|discriminate E].
        apply (proj2 IH (ex_intro _ _ eq_refl) src Hin).
Qed.

(** The run finishes exactly when neither loop throws. *)
Lemma doctor_finishes M cli inp clock :
  (exists r, doctor M cli inp clock = Finished r) <->
  samples_sound cli inp /\ adjacency_iterable inp.
Proof.
  unfold samples_sound, adjacency_iterable, doctor, index_of.
  destruct (clusters_pushes (in_clusters inp)) as [p1 st]. cbn [snd].
  unfold diffs_of. split.
  - intros [r Hr].
    destruct (diffs_from _ _ _ _ _ _ _) as [ds|] eqn:D; [|discriminate Hr].
    destruct (edge_stats (st_index st) (in_adj inp)) as [stats|] eqn:S; [|discriminate Hr].
    split.
    + intros s arr Hs Ha Hn.
      rewrite (DoctorFacts.diffs_from_null _ _ _ _ _ _ _ s Hs
                 (DoctorFacts.pre_of_null _ _ _ Ha Hn)) in D. discriminate D.
    + intros adj src Ea. rewrite Ea in S. simpl in S.
      destruct (edges_of adj) as [es|] eqn:E; [|discriminate S].
      exact (proj2 (edges_of_some adj) (ex_intro _ _ E) src).
  - intros [H1 H2].
    destruct (diffs_from_some M (weights_of (data_or no_config (in_cfg inp)))
                (data_or [] (in_adj inp)) (st_index st)
                (limit_of cli (data_or no_config (in_cfg inp)))
                (data_or [] (in_prox inp))
                (sampleSuburbs (st_index st) (Nat.max 1 (DIFF_SAMPLE cli))))
      as [ds ->]; [exact H1|].
    destruct (in_adj inp) as [e|adj] eqn:Ea; simpl.
    + eauto.
    + destruct (proj1 (edges_of_some adj)) as [es ->]; [|eauto].
      intros src. now apply (H2 adj).
Qed.

Lemma flat_map_none {A B : Type} (f : A -> list B) (l : list A) :
  (forall x, In x l -> f x = []) -> flat_map f l = [].
Proof.
  induction l as [|x t IH]; intros H; [reflexivity|].
  simpl. rewrite (H x) by now left. apply IH. intros y Hy. apply H. now right.
Qed.








Lemma bigClusters_no_dup sizes i : In (CSchema, i) (bigClusters_pushes sizes) -> dup_of i = [].
Proof.
  unfold bigClusters_pushes. destruct (List.filter _ sizes); [intros []|].
  intros [H|[]]. discriminate.
Qed.

(** *** The adjacency and proximity passes report every finding *)



(** *** The index pass reports every cluster and suburb it refuses *)








(** *** [normalizeClusters] reports every duplicate inside a cluster *)


Lemma uniq_from_complete x l : forall seen,
  In x l -> ~ In x seen -> In x (uniq_from seen l).
Proof.
  induction l as [|y t IH]; intros seen Hin Hs; [destruct Hin|].
  simpl. destruct (includes y seen) eqn:E.
  - destruct Hin as [->|Hin].
    + apply DoctorFacts.includes_In in E. contradiction.
    + now apply IH.
  - destruct (string_dec y x) as [->|Hne]; [now left|]. right.
    destruct Hin as [Hin|Hin]; [contradiction|].
    apply IH; [exact Hin|]. intros [H|H]; contradiction.
Qed.





End PassFacts.

Module DoctorMore.
Import Js Doctor.

(** *** The recomputed list *)

Lemma filter_out_length (a : string) (l : list string) :
  List.NoDup l -> In a l ->
  length (List.filter (fun s => negb (String.eqb s a)) l) = length l - 1.
Proof.
  induction l as [|x t IH]; intros Hn Hin; [destruct Hin|].
  inversion Hn as [|? ? Hx Ht]; subst. simpl.
  destruct (String.eqb x a) eqn:E; simpl.
  - apply String.eqb_eq in E. subst x. rewrite Nat.sub_0_r.
    f_equal. apply DoctorFacts.filter_all.
    intros y Hy. apply negb_true_iff, String.eqb_neq. intros ->. contradiction.
  - apply String.eqb_neq in E. destruct Hin as [Hin|Hin]; [contradiction|].
    rewrite (IH Ht Hin). destruct t; [destruct Hin|simpl; lia].
Qed.

Lemma NoDup_filter_keep {A : Type} (f : A -> bool) (l : list A) :
  List.NoDup l -> List.NoDup (List.filter f l).
Proof.
  induction 1 as [|x t Hx Ht IH]; simpl; [constructor|].
  destruct (f x); [|exact IH].
  constructor; [|exact IH]. intros H. apply filter_In in H. tauto.
Qed.

Lemma ranked_slugs M w adj idx a :
  Permutation (List.map pool_slug (ranked M w adj idx a))
    (List.filter (fun s => negb (String.eqb s a)) (map_keys idx)).
Proof.
  unfold ranked.
  rewrite (Permutation_map pool_slug (DoctorFacts.js_sort_perm by_score_desc _)).
  unfold pool. rewrite List.map_map. simpl. now rewrite List.map_id.
Qed.

(** X1.  For a suburb [a] of the index the doctor builds from a catalog,
    [recomputeNearby] returns as many entries as asked for, or all the
    other suburbs of the index when there are fewer; no slug is returned
    twice, [a] itself is never returned, and every returned slug is a
    suburb of the index. *)
Theorem recomputeNearby_size :
  forall (M : MathLib) (w : Weights) (adj : list (string * Targets))
         (clusters : list ClusterItem) (a : string) (max : nat),
    In a (map_keys (suburbBySlug clusters)) ->
    length (recomputeNearby M w adj (suburbBySlug clusters) a max) =
      Nat.min max (length (suburbBySlug clusters) - 1)
    /\ List.NoDup (List.map n_slug (recomputeNearby M w adj (suburbBySlug clusters) a max))
    /\ ~ In a (List.map n_slug (recomputeNearby M w adj (suburbBySlug clusters) a max))
    /\ (forall x,
          In x (List.map n_slug (recomputeNearby M w adj (suburbBySlug clusters) a max)) ->
          In x (map_keys (suburbBySlug clusters))).
Proof.
  intros M w adj clusters a max Ha.
  set (idx := suburbBySlug clusters) in *.
  pose proof (DoctorFacts.suburbBySlug_NoDup clusters) as Hn. fold idx in Hn.
  assert (Hget : exists r, map_get a idx = Some r)
    by (apply DoctorFacts.map_has_get, DoctorFacts.map_has_keys; exact Ha).
  destruct Hget as [r Hr].
  assert (Hs : List.map n_slug (recomputeNearby M w adj idx a max) =
               firstn max (List.map pool_slug (ranked M w adj idx a))).
  { unfold recomputeNearby. rewrite Hr. rewrite List.map_map, firstn_map.
    reflexivity. }
  pose proof (ranked_slugs M w adj idx a) as Hp.
  repeat split.
  - rewrite <- (List.length_map n_slug), Hs, List.length_firstn.
    rewrite (Permutation_length Hp), filter_out_length by assumption.
    unfold map_keys. now rewrite List.length_map.
  - rewrite Hs. apply DoctorFacts.NoDup_firstn.
    eapply Permutation_NoDup; [symmetry; exact Hp|].
    now apply NoDup_filter_keep.
  - rewrite Hs. intros H. apply DoctorFacts.In_firstn in H.
    apply (Permutation_in _ Hp), filter_In in H as [_ H].
    rewrite String.eqb_refl in H. discriminate.
  - rewrite Hs. intros x H. apply DoctorFacts.In_firstn in H.
    apply (Permutation_in _ Hp), filter_In in H. tauto.
Qed.

Lemma recomputeNearby_size_witness :
  length (recomputeNearby idle_math w0 [] (suburbBySlug pqr) "p" 6) = 2.
Proof.
  assert (H : In "p" (map_keys (suburbBySlug pqr))) by (vm_compute; auto).
  destruct (recomputeNearby_size idle_math w0 [] pqr "p" 6 H) as [E _].
  exact E.
Defined.

(** *** Repairing a repaired list *)

Lemma uniq_from_fresh seen l :
  List.NoDup l -> (forall x, In x l -> ~ In x seen) -> uniq_from seen l = l.
Proof.
  revert seen. induction l as [|x t IH]; intros seen Hn Hs; [reflexivity|].
  inversion Hn as [|? ? Hx Ht]; subst. simpl.
  destruct (includes x seen) eqn:E.
  - apply DoctorFacts.includes_In in E. exfalso. apply (Hs x); [now left|exact E].
  - f_equal. apply IH; [exact Ht|].
    intros y Hy [<-|H]; [contradiction|]. apply (Hs y); [now right|exact H].
Qed.

Lemma uniq_from_seen seen l : (forall x, In x l -> In x seen) -> uniq_from seen l = [].
Proof.
  revert seen. induction l as [|x t IH]; intros seen H; [reflexivity|].
  simpl. rewrite (proj2 (DoctorFacts.includes_In x seen)) by (apply H; now left).
  apply IH. intros y Hy. apply H. now right.
Qed.

Lemma old_slugs_as_prior l :
  old_slugs (List.map Reread.as_prior l) = List.map n_slug l.
Proof. induction l as [|x t IH]; simpl; [reflexivity|now rewrite IH]. Qed.

(** X2.  The repair is idempotent on a catalog whose indexed slugs are
    all non-blank strings: when the list the [--write] pass produced for a
    suburb is given back as that suburb's prior list, the pass produces
    the same list again. *)
Theorem fixed_for_idempotent :
  forall (M : MathLib) (w : Weights) (adj : list (string * Targets))
         (idx : Index) (LIMIT : nat) (current : list JItem) (s : string),
    Forall (fun k => isStr k = true) (map_keys idx) ->
    fixed_for M w adj idx LIMIT
      (List.map Reread.as_prior (fixed_for M w adj idx LIMIT current s)) s =
    fixed_for M w adj idx LIMIT current s.
Proof.
  intros M w adj idx LIMIT current s Hkeys.
  rewrite !DoctorFacts.fixed_for_closed. f_equal.
  set (P := repaired M w adj idx LIMIT current s).
  unfold repaired at 1.
  rewrite old_slugs_as_prior, DoctorFacts.slugs_item_of.
  set (R := List.map n_slug (recomputeNearby M w adj idx s (LIMIT * 2))).
  set (V := List.filter (valid_old idx s) (old_slugs current)).
  assert (HP : P = firstn LIMIT (uniq_from [] (V ++ R))) by reflexivity.
  assert (HR : forall x, In x R -> valid_old idx s x = true).
  { intros x Hx. apply DoctorFacts.recomputeNearby_slugs in Hx as [E1 E2].
    unfold valid_old. rewrite E1, E2.
    apply DoctorFacts.map_has_keys in E2.
    rewrite (proj1 (List.Forall_forall _ _) Hkeys x E2). reflexivity. }
  assert (Hvalid : forall x, In x P -> valid_old idx s x = true).
  { intros x Hx. rewrite HP in Hx.
    apply DoctorFacts.In_firstn, DoctorFacts.uniq_from_In in Hx as [Hx _].
    apply in_app_iff in Hx as [Hx|Hx]; [|now apply HR].
    unfold V in Hx. apply filter_In in Hx. tauto. }
  assert (Hnd : List.NoDup P)
    by (rewrite HP; apply DoctorFacts.NoDup_firstn, DoctorFacts.uniq_from_NoDup).
  rewrite (DoctorFacts.filter_all _ P Hvalid).
  rewrite DoctorFacts.uniq_from_app.
  rewrite (uniq_from_fresh [] P Hnd) by (intros x _ []).
  rewrite app_nil_r.
  assert (Hlen : length P <= LIMIT) by (rewrite HP; apply firstn_le_length).
  destruct (Nat.eq_dec (length P) LIMIT) as [E|E].
  - rewrite firstn_app, E, Nat.sub_diag. simpl. rewrite app_nil_r.
    rewrite <- E. apply firstn_all.
  - assert (HU : P = uniq_from [] (V ++ R)).
    { rewrite HP. apply firstn_all2.
      rewrite HP, List.length_firstn in E, Hlen. lia. }
    rewrite uniq_from_seen.
    + rewrite app_nil_r. apply firstn_all2. exact Hlen.
    + intros x Hx. rewrite HU. apply PassFacts.uniq_from_complete.
      * apply in_or_app. now right.
      * intros [].
Qed.

Lemma fixed_for_idempotent_witness :
  fixed_for idle_math w0 [("p", TArray ["q"])] (suburbBySlug pqr) 2
    (List.map Reread.as_prior
       (fixed_for idle_math w0 [("p", TArray ["q"])] (suburbBySlug pqr) 2
          (prior_list prior_p "p") "p")) "p" =
  fixed_for idle_math w0 [("p", TArray ["q"])] (suburbBySlug pqr) 2 (prior_list prior_p "p") "p".
Proof.
  apply (fixed_for_idempotent idle_math w0 [("p", TArray ["q"])] (suburbBySlug pqr) 2
           (prior_list prior_p "p") "p").
  repeat constructor.
Defined.

(** *** Edge statistics *)

Lemma filter_length_le {A : Type} (f : A -> bool) (l : list A) :
  length (List.filter f l) <= length l.
Proof. induction l as [|x t IH]; simpl; [lia|]. destruct (f x); simpl; lia. Qed.

Lemma filter_length_all {A : Type} (f : A -> bool) (l : list A) :
  length (List.filter f l) = length l <-> forall x, In x l -> f x = true.
Proof.
  induction l as [|x t IH]; simpl.
  - split; [intros _ x []|reflexivity].
  - pose proof (filter_length_le f t) as Hle.
    destruct (f x) eqn:E; simpl.
    + split.
      * intros H y [<-|Hy]; [exact E|]. apply IH; [lia|exact Hy].
      * intros H. f_equal. apply IH. intros y Hy. apply H. now right.
    + split; [lia|]. intros H. rewrite (H x) in E by now left. discriminate.
Qed.

Lemma ratio_bounds (r t : nat) :
  r <= t -> 0 < t ->
  (0 <= inject_Z (Z.of_nat r) / inject_Z (Z.of_nat t) <= 1)%Q.
Proof.
  intros Hrt Ht.
  assert (Hpos : (0 < inject_Z (Z.of_nat t))%Q).
  { change 0%Q with (inject_Z 0). rewrite <- Zlt_Qlt. lia. }
  split.
  - apply Qle_shift_div_l; [exact Hpos|]. rewrite Qmult_0_l.
    change 0%Q with (inject_Z 0). rewrite <- Zle_Qle. lia.
  - apply Qle_shift_div_r; [exact Hpos|]. rewrite Qmult_1_l.
    rewrite <- Zle_Qle. lia.
Qed.

Lemma ratio_one (r t : nat) :
  0 < t -> (inject_Z (Z.of_nat r) / inject_Z (Z.of_nat t) == 1)%Q <-> r = t.
Proof.
  intros Ht.
  assert (Hne : ~ (inject_Z (Z.of_nat t) == 0)%Q).
  { change 0%Q with (inject_Z 0). rewrite inject_Z_injective. lia. }
  split.
  - intros H.
    assert (E : (inject_Z (Z.of_nat r) == inject_Z (Z.of_nat t))%Q).
    { rewrite <- (Qmult_div_r (inject_Z (Z.of_nat r)) (inject_Z (Z.of_nat t)) Hne).
      rewrite H. apply Qmult_1_r. }
    rewrite inject_Z_injective in E. lia.
  - intros ->. apply Qmult_inv_r. exact Hne.
Qed.

Lemma edges_of_In adj es src dst :
  edges_of adj = Some es ->
  (In (src, dst) es <-> exists v l, In (src, v) adj /\ iterate v = Some l /\ In dst l).
Proof.
  revert es. induction adj as [|[k v] t IH]; intros es E; simpl in E.
  - injection E as <-. split; [intros []|intros (v & l & [] & _)].
  - destruct (iterate v) as [l|] eqn:Ev; [|discriminate E].
    destruct (edges_of t) as [r|]; [|discriminate E].
    injection E as <-. rewrite in_app_iff, in_map_iff, (IH r eq_refl). split.
    + intros [(d & [= <- <-] & Hd)|(v' & l' & Hin & Hv & Hd)].
      * exists v, l. split; [now left|auto].
      * exists v', l'. split; [now right|auto].
    + intros (v' & l' & [[= <- <-]|Hin] & Hv & Hd).
      * left. exists dst. split; [reflexivity|]. congruence.
      * right. now exists v', l'.
Qed.

(** X3.  The doctor's adjacency statistics are computed whenever every
    value of the adjacency document can be iterated, as arrays can.  In
    them the cross-cluster edges and the reciprocated edges are counted
    among the edges, so neither count exceeds [totalEdges], and
    [reciprocityRate] lies between 0 and 1; it is 0 for a graph without
    edges, and on a graph with edges it is 1 exactly when every edge
    [src -> dst] is answered by [src] being listed in the array under
    [dst]. *)
Theorem reciprocity_rate_range :
  forall (idx : Index) (f : Loaded (list (string * Targets))),
    ((forall adj src, f = Parsed adj -> ~ In (src, TOther) adj) ->
     exists st, edge_stats idx f = Some st)
    /\ forall st : EdgeStats,
         edge_stats idx f = Some st ->
         crossClusterEdges st <= totalEdges st
         /\ reciprocal st <= totalEdges st
         /\ (0 <= reciprocityRate st <= 1)%Q
         /\ (totalEdges st = 0 -> reciprocityRate st = 0%Q)
         /\ (forall adj, f = Parsed adj -> 0 < totalEdges st ->
               ((reciprocityRate st == 1)%Q <->
                forall src v l dst, In (src, v) adj -> iterate v = Some l -> In dst l ->
                  includes src (neighbors adj dst) = true)).
Proof.
  intros idx f. split.
  { intros H. destruct f as [e|adj]; simpl; [eauto|].
    destruct (proj1 (PassFacts.edges_of_some adj)) as [es ->];
      [intros src; now apply (H adj)|eauto]. }
  intros st Hst.
  assert (H1 : crossClusterEdges st <= totalEdges st).
  { destruct f as [e|adj]; simpl in Hst.
    - injection Hst as <-. simpl. lia.
    - destruct (edges_of adj); [|discriminate Hst]. injection Hst as <-.
      apply filter_length_le. }
  assert (H2 : reciprocal st <= totalEdges st).
  { destruct f as [e|adj]; simpl in Hst.
    - injection Hst as <-. simpl. lia.
    - destruct (edges_of adj); [|discriminate Hst]. injection Hst as <-.
      apply filter_length_le. }
  split; [exact H1|]. split; [exact H2|]. split; [|split].
  - unfold reciprocityRate.
    destruct (totalEdges st) as [|n] eqn:E.
    + split; apply Qle_bool_iff; reflexivity.
    + rewrite <- E. apply ratio_bounds; lia.
  - intros E. unfold reciprocityRate. now rewrite E.
  - intros adj -> Hpos. unfold reciprocityRate.
    destruct (totalEdges st) as [|n] eqn:E; [lia|].
    rewrite <- E, ratio_one by lia.
    simpl in Hst. destruct (edges_of adj) as [es|] eqn:Ees; [|discriminate Hst].
    injection Hst as <-. cbn [reciprocal totalEdges].
    rewrite filter_length_all. split.
    + intros H src v l dst Hl Hv Hd.
      apply (H (src, dst)). apply (edges_of_In adj es src dst Ees). now exists v, l.
    + intros H [src dst] Hin.
      apply (edges_of_In adj es src dst Ees) in Hin as (v & l & Hl & Hv & Hd).
      exact (H src v l dst Hl Hv Hd).
Qed.

Lemma reciprocity_rate_range_witness :
  exists st : EdgeStats,
    edge_stats [] (Parsed [("a", TArray ["b"]); ("b", TArray ["a"])]) = Some st
    /\ (reciprocityRate st == 1)%Q.
Proof.
  eexists. split; [reflexivity|].
  pose proof (proj2 (reciprocity_rate_range []
                       (Parsed [("a", TArray ["b"]); ("b", TArray ["a"])]))
                _ eq_refl) as (_ & _ & _ & _ & H).
  apply (H [("a", TArray ["b"]); ("b", TArray ["a"])] eq_refl); [simpl; lia|].
  intros src v l dst [[= <- <-]|[[= <- <-]|[]]] [= <-] [<-|[]]; reflexivity.
Defined.

(** *** The index after repeated writes *)

Lemma map_get_set {V : Type} k k' (v : V) m :
  map_get k (map_set k' v m) = if String.eqb k k' then Some v else map_get k m.
Proof.
  induction m as [|[k0 v0] t IH]; simpl; [reflexivity|].
  destruct (String.eqb k' k0) eqn:E; simpl.
  - apply String.eqb_eq in E. subst k0. now destruct (String.eqb k k').
  - destruct (String.eqb k k0) eqn:E0.
    + apply String.eqb_eq in E0. subst k0. apply String.eqb_neq in E.
      assert (E1 : String.eqb k k' = false) by (apply String.eqb_neq; congruence).
      now rewrite E1.
    + exact IH.
Qed.

Lemma includes_keys {V : Type} k (m : list (string * V)) :
  includes k (map_keys m) = map_has k m.
Proof.
  destruct (map_has k m) eqn:E.
  - now apply DoctorFacts.includes_In, DoctorFacts.map_has_keys.
  - destruct (includes k (map_keys m)) eqn:E'; [|reflexivity].
    apply DoctorFacts.includes_In, DoctorFacts.map_has_keys in E'. congruence.
Qed.

Lemma writes_keys {V : Type} (l : list (string * V)) : forall m,
  map_keys (fold_left (fun m e => map_set (fst e) (snd e) m) l m) =
  map_keys m ++ uniq_from (map_keys m) (List.map fst l).
Proof.
  induction l as [|[k v] t IH]; intros m; simpl; [now rewrite app_nil_r|].
  rewrite IH, DoctorFacts.map_set_keys, includes_keys.
  destruct (map_has k m); [reflexivity|].
  rewrite <- app_assoc. simpl. do 2 f_equal.
  apply DoctorFacts.uniq_from_ext. intros y. rewrite in_app_iff. simpl. tauto.
Qed.

Lemma writes_get {V : Type} (last : string -> list (string * V) -> option V)
    (Hnil : forall s, last s [] = None)
    (Hcons : forall s e t,
       last s (e :: t) =
       match last s t with
       | Some r => Some r
       | None => if String.eqb s (fst e) then Some (snd e) else None
       end)
    (s : string) (l : list (string * V)) : forall m,
  map_get s (fold_left (fun m e => map_set (fst e) (snd e) m) l m) =
  match last s l with Some r => Some r | None => map_get s m end.
Proof.
  induction l as [|[k v] t IH]; intros m; simpl.
  - now rewrite Hnil.
  - rewrite IH, Hcons. destruct (last s t); [reflexivity|].
    simpl. rewrite map_get_set. now destruct (String.eqb s k).
Qed.

Lemma index_suburbs_writes c l : forall st,
  st_index (fold_left (index_suburb c) l st) =
  fold_left (fun m e => map_set (fst e) (snd e) m)
    (List.map (Reread.record_of c) l) (st_index st).
Proof.
  induction l as [|s t IH]; intros st; [reflexivity|].
  simpl. now rewrite IH.
Qed.

Lemma index_pass_writes clusters : forall st,
  st_index (fold_left index_cluster clusters st) =
  fold_left (fun m e => map_set (fst e) (snd e) m)
    (Reread.listings clusters) (st_index st).
Proof.
  induction clusters as [|c t IH]; intros st; [reflexivity|].
  simpl fold_left at 1. rewrite IH.
  unfold Reread.listings. simpl flat_map. fold (Reread.listings t).
  rewrite fold_left_app. f_equal.
  unfold index_cluster, suburbs_of. destruct (isStr (cslug c)); [|reflexivity].
  destruct (suburbs c) as [l|]; [|reflexivity].
  now rewrite index_suburbs_writes.
Qed.

Lemma listings_slugs clusters :
  List.map fst (Reread.listings clusters) = indexed_slugs clusters.
Proof.
  unfold Reread.listings, indexed_slugs.
  induction clusters as [|c t IH]; [reflexivity|].
  simpl. rewrite List.map_app, IH. f_equal.
  destruct (isStr (cslug c)); [|reflexivity].
  rewrite List.map_map. reflexivity.
Qed.

Lemma indexed_has clusters k :
  map_has k (suburbBySlug clusters) = true <-> In k (indexed_slugs clusters).
Proof.
  unfold suburbBySlug, index_pass. rewrite index_pass_writes. simpl st_index.
  rewrite DoctorFacts.map_has_keys, writes_keys, listings_slugs. simpl. split.
  - intros H. now apply DoctorFacts.uniq_from_In in H.
  - intros H. apply PassFacts.uniq_from_complete; [exact H|intros []].
Qed.

(** X4.  A suburb the catalog lists several times is indexed once: the
    index holds the listed slugs in the order of their first listing, and
    under each slug the name, coordinates and cluster of its last listing.
    Clusters without a valid slug contribute nothing. *)
Theorem index_first_place_last_record :
  forall clusters : list ClusterItem,
    map_keys (suburbBySlug clusters) = uniq_from [] (indexed_slugs clusters)
    /\ forall s : string,
         map_get s (suburbBySlug clusters) =
         Reread.last_listing s (Reread.listings clusters).
Proof.
  intros clusters. unfold suburbBySlug, index_pass.
  rewrite index_pass_writes. simpl st_index. split.
  - rewrite writes_keys. simpl. now rewrite listings_slugs.
  - intros s.
    rewrite (writes_get Reread.last_listing) by reflexivity.
    now destruct (Reread.last_listing s (Reread.listings clusters)).
Qed.

(** *** The repaired snapshot *)



End DoctorMore.

Module SoundFacts.
Import Js Doctor Wellformed.

(** *** Well-formed inputs raise warnings only *)

Lemma NoDup_app_apart {A : Type} (l1 l2 : list A) (x : A) :
  List.NoDup (l1 ++ l2) -> In x l1 -> ~ In x l2.
Proof.
  induction l1 as [|y t IH]; intros Hn Hin; [destruct Hin|].
  simpl in Hn. inversion Hn as [|? ? Hy Ht]; subst.
  destruct Hin as [->|Hin]; [|now apply IH].
  intros H. apply Hy. apply in_or_app. now right.
Qed.

Lemma index_suburbs_clean c l : forall st seen,
  tracks st seen ->
  Forall suburb_ok l ->
  List.NoDup (List.map slug l) ->
  (forall x, In x (List.map slug l) -> ~ In x seen) ->
  st_schema (fold_left (index_suburb c) l st) = st_schema st
  /\ tracks (fold_left (index_suburb c) l st) (rev (List.map slug l) ++ seen)
  /\ st_clusterSlugs (fold_left (index_suburb c) l st) = st_clusterSlugs st.
Proof.
  induction l as [|s t IH]; intros st seen Ht Hok Hn Hs; [now simpl|].
  inversion Hok as [|? ? (H1 & H2 & _) Hok']; subst.
  simpl in Hn. inversion Hn as [|? ? Hx Hn']; subst.
  simpl fold_left.
  destruct (IH (index_suburb c st s) (slug s :: seen)) as (E1 & E2 & E3).
  - intros k. simpl. rewrite DoctorFacts.map_has_set, Ht. reflexivity.
  - exact Hok'.
  - exact Hn'.
  - intros x Hin [<-|H]; [contradiction|]. apply (Hs x); [now right|exact H].
  - split; [|split].
    + rewrite E1. simpl. rewrite H1, H2, Ht.
      assert (E : includes (slug s) seen = false).
      { destruct (includes (slug s) seen) eqn:E; [|reflexivity].
        apply DoctorFacts.includes_In in E. exfalso. apply (Hs (slug s)); [now left|exact E]. }
      rewrite E. simpl. now rewrite app_nil_r.
    + simpl. rewrite <- app_assoc. exact E2.
    + exact E3.
Qed.

Lemma index_clusters_clean clusters : forall st seen,
  tracks st seen ->
  Forall (fun c => isStr (cslug c) = true /\ suburbs c <> None
                   /\ Forall suburb_ok (suburbs_of c)) clusters ->
  List.NoDup (flat_map (fun c => List.map slug (suburbs_of c)) clusters) ->
  (forall x, In x (flat_map (fun c => List.map slug (suburbs_of c)) clusters) ->
     ~ In x seen) ->
  st_schema (fold_left index_cluster clusters st) = st_schema st
  /\ st_clusterSlugs (fold_left index_cluster clusters st) =
     st_clusterSlugs st ++ List.map cslug clusters.
Proof.
  induction clusters as [|c t IH]; intros st seen Ht Hok Hn Hs.
  - simpl. now rewrite app_nil_r.
  - inversion Hok as [|? ? (Hc & Harr & Hsub) Hok']; subst.
    simpl in Hn, Hs. simpl fold_left.
    unfold index_cluster at 2 4. rewrite Hc.
    unfold suburbs_of in Hsub, Hn, Hs at 1.
    destruct (suburbs c) as [l|] eqn:El; [|now destruct Harr].
    destruct (index_suburbs_clean (cslug c) l
                {| st_schema := st_schema st;
                   st_clusterSlugs := st_clusterSlugs st ++ [cslug c];
                   st_index := st_index st |} seen) as (E1 & E2 & E3).
    + exact Ht.
    + exact Hsub.
    + now apply List.NoDup_app_remove_r in Hn.
    + intros x Hx. apply Hs, in_or_app. now left.
    + destruct (IH _ _ E2 Hok') as [F1 F2].
      * now apply List.NoDup_app_remove_l in Hn.
      * intros x Hx Hin. apply in_app_iff in Hin as [Hin|Hin].
        -- apply in_rev in Hin. revert Hx. now apply (NoDup_app_apart _ _ x Hn).
        -- apply (Hs x); [apply in_or_app; now right|exact Hin].
      * rewrite F1, F2, E1, E3. simpl. now rewrite <- app_assoc.
Qed.

Lemma index_pass_clean clusters :
  catalog_ok clusters ->
  st_schema (index_pass clusters) = []
  /\ st_clusterSlugs (index_pass clusters) = List.map cslug clusters.
Proof.
  intros [Hok Hn]. unfold index_pass.
  destruct (index_clusters_clean clusters
              {| st_schema := []; st_clusterSlugs := []; st_index := [] |} [])
    as [E1 E2]; auto.
  intros k. reflexivity.
Qed.

Lemma index_in_range clusters :
  catalog_ok clusters -> Forall rec_in_range (suburbBySlug clusters).
Proof.
  intros [Hok _]. unfold suburbBySlug, index_pass.
  apply (DoctorFacts.fold_left_inv (fun st => Forall rec_in_range (st_index st))).
  - constructor.
  - intros st c Hc Hst. unfold index_cluster.
    destruct (isStr (cslug c)); [|exact Hst].
    destruct (suburbs c) as [l|] eqn:El; [|exact Hst].
    apply (DoctorFacts.fold_left_inv (fun st => Forall rec_in_range (st_index st))).
    + exact Hst.
    + intros st' s Hs Hst'. simpl. apply DoctorFacts.map_set_Forall; [|exact Hst'].
      destruct (proj1 (List.Forall_forall _ _) Hok c Hc) as (_ & _ & Hsub).
      unfold suburbs_of in Hsub. rewrite El in Hsub.
      destruct (proj1 (List.Forall_forall _ _) Hsub s Hs) as (_ & _ & H).
      exact H.
Qed.

Lemma warnings_only_issues ps :
  warnings_only ps ->
  missing (issues_of ps) = [] /\ schema (issues_of ps) = []
  /\ referential (issues_of ps) = [].
Proof.
  intros H. unfold issues_of. simpl.
  assert (E : forall c, c <> CWarnings ->
            List.filter (fun p : Category * Issue => Category_eqb (fst p) c) ps = []).
  { intros c Hc. induction H as [|[c' i] t Hp Ht IH]; [reflexivity|].
    simpl in *. subst c'. rewrite IH. now destruct c. }
  rewrite !E by discriminate. now simpl.
Qed.

Lemma warnings_only_app ps qs :
  warnings_only ps -> warnings_only qs -> warnings_only (ps ++ qs).
Proof. intros H1 H2. apply Forall_app. now split. Qed.

Lemma clusterMap_pushes_clean clusters f :
  loaded_ok (clusterMap_ok clusters) f ->
  warnings_only (clusterMap_pushes (List.map cslug clusters) f).
Proof.
  destruct f as [e|keys]; simpl; intros H.
  - now repeat constructor.
  - replace (List.filter (fun k => negb (includes k (List.map cslug clusters))) keys)
      with (@nil string); [constructor|].
    symmetry. induction keys as [|k t IH]; [reflexivity|].
    simpl. rewrite (proj2 (DoctorFacts.includes_In k _)) by (apply H; now left).
    simpl. apply IH. intros k' Hk'. apply H. now right.
Qed.

Lemma adjacency_pushes_clean idx f :
  loaded_ok (adjacency_ok idx) f -> adjacency_pushes idx f = [].
Proof.
  destruct f as [e|adj]; simpl; intros H; [reflexivity|].
  apply PassFacts.flat_map_none. intros [src v] Hin. simpl.
  destruct (H src v Hin) as (Hs & l & -> & Hd). rewrite Hs. simpl.
  apply PassFacts.flat_map_none. intros dst Hdst.
  destruct (Hd dst Hdst) as [Hne Hm]. rewrite Hm.
  now rewrite (proj2 (String.eqb_neq dst src) Hne).
Qed.

Lemma prox_items_clean idx src arr : forall seen : gset (option string),
  List.NoDup (List.map item_slug arr) ->
  (forall it, In it arr -> item_slug it ∉ seen) ->
  (forall it, In it arr ->
     exists sl, item_slug it = Some sl /\ isStr sl = true
                /\ sl <> src /\ map_has sl idx = true) ->
  prox_items idx src seen arr = [].
Proof.
  induction arr as [|it rest IH]; intros seen Hn Hs Hok; [reflexivity|].
  simpl in Hn. inversion Hn as [|? ? Hx Hn']; subst.
  destruct (Hok it (or_introl eq_refl)) as (sl & E & H1 & H2 & H3).
  cbn [prox_items]. rewrite E, H1, H3.
  rewrite (proj2 (String.eqb_neq sl src) H2).
  rewrite bool_decide_eq_false_2 by (rewrite <- E; apply Hs; now left).
  rewrite andb_false_r. simpl.
  apply IH.
  - exact Hn'.
  - intros it' Hin. rewrite elem_of_union, elem_of_singleton.
    intros [H|H].
    + apply Hx. rewrite E, <- H. now apply in_map.
    + apply (Hs it'); [now right|exact H].
  - intros it' Hin. apply Hok. now right.
Qed.

Lemma proximity_pushes_clean idx LIMIT f :
  loaded_ok (proximity_ok idx) f -> warnings_only (proximity_pushes idx LIMIT f).
Proof.
  destruct f as [e|nmap]; simpl; intros H; [constructor|].
  unfold warnings_only. apply List.Forall_forall. intros p Hp.
  apply in_flat_map in Hp as ([src v] & Hin & Hp). simpl in Hp.
  destruct (H src v Hin) as (Hs & arr & -> & Hn & Hok).
  rewrite Hs in Hp. simpl in Hp.
  rewrite prox_items_clean in Hp; auto.
  - rewrite app_nil_r in Hp. destruct (LIMIT <? length arr); [|destruct Hp].
    destruct Hp as [<-|[]]. reflexivity.
  - intros it _. apply not_elem_of_empty.
Qed.

Lemma filter_none {A : Type} (f : A -> bool) (l : list A) :
  (forall x, In x l -> f x = false) -> List.filter f l = [].
Proof.
  induction l as [|x t IH]; intros H; [reflexivity|].
  simpl. rewrite (H x) by now left. apply IH. intros y Hy. apply H. now right.
Qed.

Lemma coordinate_pushes_clean idx :
  Forall rec_in_range idx -> warnings_only (coordinate_pushes idx).
Proof.
  intros H. unfold coordinate_pushes.
  rewrite (filter_none (fun e => isNum (r_lat (snd e)) && isNum (r_lng (snd e))
                                 && match r_lat (snd e), r_lng (snd e) with
                                    | Some a, Some b =>
                                        negb (in_range (-90) 90 a && in_range (-180) 180 b)
                                    | _, _ => false
                                    end) idx).
  - simpl. rewrite app_nil_r.
    destruct (length _ =? 0); now repeat constructor.
  - intros e He. pose proof (proj1 (List.Forall_forall _ _) H e He) as R.
    unfold rec_in_range in R.
    destruct (r_lat (snd e)), (r_lng (snd e)); try (now rewrite andb_false_r).
    rewrite R. now rewrite andb_false_r.
Qed.

Lemma proximity_ok_sound cli inp idx :
  loaded_ok (proximity_ok idx) (in_prox inp) -> samples_sound cli inp.
Proof.
  intros H s arr _ Hget Hnull.
  destruct (in_prox inp) as [e|nmap]; simpl in *; [discriminate Hget|].
  apply DoctorFacts.map_get_In in Hget.
  destruct (H s (Some arr) Hget) as (_ & arr' & [= <-] & _ & Hok).
  destruct (Hok JNull Hnull) as (sl & E & _). discriminate E.
Qed.

Lemma adjacency_ok_iterable inp idx :
  loaded_ok (adjacency_ok idx) (in_adj inp) -> adjacency_iterable inp.
Proof.
  intros H adj src E Hin. rewrite E in H. simpl in H.
  destruct (H src TOther Hin) as (_ & l & Hl & _). discriminate Hl.
Qed.

Lemma bigClusters_pushes_warn sizes : warnings_only (bigClusters_pushes sizes).
Proof.
  unfold bigClusters_pushes.
  destruct (List.filter _ sizes); now repeat constructor.
Qed.

(** X5.  On well-formed files the doctor runs to its end, raises warnings
    only, and a strict run exits 0: when the catalog gives every cluster a
    slug and an array of suburbs, every suburb a slug and a name, no
    suburb slug twice and only coordinates in range, and the cluster map,
    the adjacency and the proximity snapshot, where present, refer to
    indexed slugs only, without self reference or repeated entry, then the
    run finishes and reports no missing-file, schema or referential
    issue. *)
Theorem clean_inputs_pass :
  forall (M : MathLib) (cli : Cli) (inp : Inputs) (clock : Clock)
         (clusters : list ClusterItem),
    in_clusters inp = Parsed (Some clusters) ->
    catalog_ok clusters ->
    loaded_ok (clusterMap_ok clusters) (in_clusterMap inp) ->
    loaded_ok (adjacency_ok (suburbBySlug clusters)) (in_adj inp) ->
    loaded_ok (proximity_ok (suburbBySlug clusters)) (in_prox inp) ->
    exists r : Run,
      doctor M cli inp clock = Finished r
      /\ missing (rp_issues (run_report r)) = []
      /\ schema (rp_issues (run_report r)) = []
      /\ referential (rp_issues (run_report r)) = []
      /\ run_exit r = 0.
Proof.
  intros M cli inp clock clusters Hc Hcat Hmap Hadj Hprox.
  destruct (index_pass_clean clusters Hcat) as [Hschema Hslugs].
  destruct (proj2 (PassFacts.doctor_finishes M cli inp clock)) as [r Hr].
  { split; [eapply proximity_ok_sound|eapply adjacency_ok_iterable]; eassumption. }
  exists r. split; [exact Hr|].
  assert (Hissues : missing (rp_issues (run_report r)) = []
                    /\ schema (rp_issues (run_report r)) = []
                    /\ referential (rp_issues (run_report r)) = []).
  { rewrite (PassFacts.doctor_issues _ _ _ _ _ Hr). apply warnings_only_issues.
    unfold checks_pushes, late_pushes. rewrite Hc. cbn [clusters_pushes fst snd].
    fold (suburbBySlug clusters). rewrite Hschema, Hslugs. cbn [List.map app].
    apply warnings_only_app; [|apply bigClusters_pushes_warn].
    apply warnings_only_app; [now apply clusterMap_pushes_clean|].
    apply warnings_only_app;
      [rewrite adjacency_pushes_clean by exact Hadj; constructor|].
    apply warnings_only_app; [now apply proximity_pushes_clean|].
    apply coordinate_pushes_clean. now apply index_in_range. }
  destruct Hissues as (H1 & H2 & H3).
  repeat split; try assumption.
  assert (E : run_exit r =
              if STRICT cli
                 && (negb (ok (in_clusters inp))
                     || nonempty_issue (schema (rp_issues (run_report r)))
                     || nonempty_issue (referential (rp_issues (run_report r))))
              then 1 else 0).
  { revert Hr. unfold doctor.
    destruct (clusters_pushes (in_clusters inp)) as [p1 st].
    destruct (diffs_of _ _ _ _ _ _ _) as [[sampled diffs]|]; [|discriminate].
    destruct (edge_stats _ _) as [stats|]; [|discriminate].
    intros [= <-]. reflexivity. }
  rewrite E, H2, H3, Hc. simpl. now rewrite andb_false_r.
Qed.

Lemma clean_inputs_pass_witness :
  exists r : Run,
    doctor idle_math demo_cli tidy_inputs {| at_write := ""; at_report := "" |} = Finished r
    /\ schema (rp_issues (run_report r)) = []
    /\ run_exit r = 0.
Proof.
  destruct (clean_inputs_pass idle_math demo_cli tidy_inputs
              {| at_write := ""; at_report := "" |} pqr eq_refl)
    as (r & Hr & _ & H2 & _ & H4).
  - split.
    + repeat constructor; discriminate.
    + simpl. repeat constructor; simpl; intuition discriminate.
  - intros k [<-|[]]. simpl. now left.
  - intros src v [[= <- <-]|[[= <- <-]|[]]]; (split; [reflexivity|]);
      eexists; (split; [reflexivity|]);
      intros dst; simpl; intros H;
      repeat (destruct H as [<-|H]; [split; [discriminate|reflexivity]|]);
      destruct H.
  - intros src v [[= <- <-]|[]]. split; [reflexivity|].
    eexists. split; [reflexivity|]. split.
    + simpl. repeat constructor; simpl; intuition discriminate.
    + intros it [<-|[<-|[]]]; eexists; simpl;
        (split; [reflexivity|]); repeat split; discriminate.
  - exists r. split; [exact Hr|]. split; [exact H2|exact H4].
Defined.

End SoundFacts.

Module SplitMore.
Import Js Split.
Import Doctor(SuburbItem, slug, name, lat, lng).

(** *** The centroids *)

(** X6.  With [1 <= K] and at least [K] located suburbs, the centroid
    array has [K] entries at the start and after any number of
    iterations, so every [centroids[k]] the loops read is defined, and
    [assignBucket] gives every point a bucket below [K]. *)
Theorem centroids_stay_K :
  forall (K iters : nat) (subs : list (SuburbItem * Point)),
    1 <= K -> K <= length subs ->
    length (init_centroids K subs) = K
    /\ length (lloyd iters K subs (init_centroids K subs)) = K
    /\ forall pt : Point,
         assignBucket K (lloyd iters K subs (init_centroids K subs)) pt =
           scan pt (lloyd iters K subs (init_centroids K subs)) 0 0 PrimFloat.infinity
         /\ assignBucket K (lloyd iters K subs (init_centroids K subs)) pt < K.
Proof.
  intros K iters subs HK Hn.
  pose proof (SplitFacts.init_centroids_length K subs HK Hn) as H0.
  assert (H : length (lloyd iters K subs (init_centroids K subs)) = K)
    by now rewrite SplitFacts.lloyd_length.
  split; [exact H0|]. split; [exact H|].
  intros pt. split; [|now apply SplitFacts.assignBucket_lt].
  unfold assignBucket. rewrite List.firstn_all2 by lia. reflexivity.
Qed.

Lemma centroids_stay_K_witness :
  length (lloyd 50 2 (located (k_suburbs (nth 1 four (nth 0 four
            {| k_slug := ""; k_name := ""; k_suburbs := [] |}))))
            (init_centroids 2 (located (k_suburbs (nth 1 four (nth 0 four
               {| k_slug := ""; k_name := ""; k_suburbs := [] |})))))) = 2.
Proof.
  destruct (centroids_stay_K 2 50 (located (k_suburbs (nth 1 four (nth 0 four
              {| k_slug := ""; k_name := ""; k_suburbs := [] |})))))
    as (_ & H & _); [lia|simpl; lia|exact H].
Defined.

(** *** The names of the sub-clusters *)

Lemma append_cancel (p a b : string) : (p ++ a = p ++ b)%string -> a = b.
Proof.
  induction p as [|c p IH]; simpl; [tauto|]. intros [= H]. now apply IH.
Qed.

Lemma to_uint_nonnil (n : nat) : Nat.to_uint n <> Decimal.Nil.
Proof.
  rewrite <- (Unsigned.of_to n) at 1. rewrite Unsigned.to_of.
  apply unorm_nonnil.
Qed.

Lemma decimal_inj (a b : nat) : decimal a = decimal b -> a = b.
Proof.
  unfold decimal. intros H.
  apply Unsigned.to_uint_inj.
  assert (E : Some (Nat.to_uint a) = Some (Nat.to_uint b)).
  { rewrite <- (NilZero.usu (Nat.to_uint a)) by apply to_uint_nonnil.
    rewrite <- (NilZero.usu (Nat.to_uint b)) by apply to_uint_nonnil.
    now rewrite H. }
  now injection E.
Qed.

Lemma new_cluster_slug_inj BN BS K cs subs (i j : nat) :
  k_slug (new_cluster BN BS K cs subs i) = k_slug (new_cluster BN BS K cs subs j) ->
  i = j.
Proof.
  cbn [k_slug new_cluster]. intros H.
  apply append_cancel in H.
  apply (append_cancel "-") in H.
  assert (E : forall n, nth_error labels (S (S (S (S (S (S n)))))) = None)
    by (intros n; apply nth_error_None; simpl; lia).
  do 6 (destruct i as [|i];
        [do 6 (destruct j as [|j];
               [try reflexivity; cbn [nth_error labels] in H; discriminate H|]);
         rewrite E in H; cbn [nth_error labels String.append] in H; discriminate H|]).
  do 6 (destruct j as [|j];
        [rewrite E in H; cbn [nth_error labels String.append] in H; discriminate H|]).
  rewrite !E in H.
  apply (append_cancel "part-") in H. apply decimal_inj in H. lia.
Qed.

(** X7.  The sub-clusters the splitter writes have pairwise different
    slugs, for every [K]: the six compass labels first, then
    [part-7], [part-8] and so on. *)
Theorem sub_cluster_slugs_distinct :
  forall (BASE_NAME BASE_SLUG : string) (K : nat) (subs : list (SuburbItem * Point)),
    List.NoDup (List.map k_slug (newClusters BASE_NAME BASE_SLUG K subs)).
Proof.
  intros BN BS K subs. unfold newClusters. rewrite List.map_map.
  generalize (lloyd 50 K subs (init_centroids K subs)). intros cs.
  apply Finite.Injective_map_NoDup; [|apply seq_NoDup].
  intros i j. apply new_cluster_slug_inj.
Qed.

End SplitMore.

Module ValidateMore.
Import Js Doctor ValidateData.

(** *** The order of [sort()] on strings *)

Lemma compare_not_Gt_trans (x y z : string) :
  String.compare x y <> Gt -> String.compare y z <> Gt -> String.compare x z <> Gt.
Proof.
  intros H1 H2.
  destruct (String.compare x y) eqn:E1; [| |congruence].
  - apply String.compare_eq_iff in E1. now subst y.
  - destruct (String.compare y z) eqn:E2; [| |congruence].
    + apply String.compare_eq_iff in E2. subst z. congruence.
    + apply OrderedTypeEx.String_as_OT.cmp_lt in E1, E2.
      pose proof (OrderedTypeEx.String_as_OT.lt_trans _ _ _ E1 E2) as E.
      apply OrderedTypeEx.String_as_OT.cmp_lt in E.
      unfold OrderedTypeEx.String_as_OT.cmp in E. congruence.
Qed.

Lemma compare_Gt_asym (x y : string) :
  String.compare x y = Gt -> String.compare y x <> Gt.
Proof.
  intros H. rewrite String.compare_antisym, H. discriminate.
Qed.

Lemma sort_strings_sorted (l : list string) :
  StronglySorted (fun a b => String.compare a b <> Gt) (js_sort String.compare l).
Proof.
  apply DoctorFacts.js_sort_ordered.
  - apply compare_not_Gt_trans.
  - apply compare_Gt_asym.
Qed.

Lemma sorted_NoDup_strict (l : list string) :
  StronglySorted (fun a b => String.compare a b <> Gt) l -> List.NoDup l ->
  StronglySorted (fun a b => String.compare a b = Lt) l.
Proof.
  induction 1 as [|x t Ht IH Hx]; intros Hn; [constructor|].
  inversion Hn as [|? ? Hnx Hn']; subst.
  constructor; [now apply IH|].
  apply List.Forall_forall. intros y Hy.
  pose proof (proj1 (List.Forall_forall _ _) Hx y Hy) as H.
  destruct (String.compare x y) eqn:E; [|reflexivity|congruence].
  apply String.compare_eq_iff in E. subst y. contradiction.
Qed.

(** *** What a successful build has checked and recorded *)

Section Success.
Variable slugify : string -> string.
Variable slugify_other : Untyped -> option string.
Variable STRICT : bool.

Local Abbreviation cslug_of := (cslug_of slugify slugify_other).
Local Abbreviation slugs_of := (slugs_of slugify slugify_other).
Local Abbreviation resolves := (resolves slugify slugify_other).
Local Abbreviation build_step := (build_step slugify slugify_other STRICT).
Local Abbreviation build_steps := (build_steps slugify slugify_other STRICT).
Local Abbreviation traced := (traced slugify slugify_other).
Local Abbreviation settled := (settled slugify slugify_other).
Local Abbreviation all_dups := (all_dups slugify slugify_other).

Lemma strict_check_passed k l :
  strict_check slugify STRICT k l = inr tt ->
  STRICT = true ->
  (exists raw, k = Some raw /\ slugify raw = raw)
  /\ forall x, In x l -> slugify (as_string x) = as_string x.
Proof.
  unfold strict_check. intros H S. rewrite S in H.
  destruct k as [raw|]; [|discriminate H].
  destruct (String.eqb raw (slugify raw)) eqn:E; simpl in H; [|discriminate].
  apply String.eqb_eq in E. split; [exists raw; split; [reflexivity|now symmetry]|].
  destruct (List.find _ l) eqn:F; [discriminate|].
  intros x Hx. pose proof (List.find_none _ _ F x Hx) as N.
  apply negb_false_iff, String.eqb_eq in N. now symmetry.
Qed.

Lemma build_step_strict st e st' :
  build_step st e = inr st' ->
  strict_check slugify STRICT (fst e) (snd e) = inr tt.
Proof.
  unfold ValidateData.build_step.
  destruct (key_slug slugify slugify_other (fst e)) as [c|]; [|discriminate].
  destruct (strict_check _ _ _ _) as [f|[]]; [discriminate|reflexivity].
Qed.

Lemma intra_dups_nil c l : forall seen : gset string,
  intra_dups c seen l = [] -> List.NoDup l /\ forall s, In s l -> s ∉ seen.
Proof.
  induction l as [|x t IH]; intros seen H.
  - split; [constructor|intros s []].
  - simpl in H. destruct (bool_decide (x ∈ seen)) eqn:E; [discriminate|].
    apply bool_decide_eq_false in E. simpl in H.
    destruct (IH _ H) as [Hn Hs]. split.
    + constructor; [|exact Hn]. intros Hin. apply (Hs x Hin).
      apply elem_of_union. left. now apply elem_of_singleton.
    + intros s [<-|Hin]; [exact E|].
      intros Hseen. apply (Hs s Hin). apply elem_of_union. now right.
Qed.

Lemma build_steps_success es : forall st pre st',
  build_steps st es = inr st' ->
  traced st pre ->
  traced st' (pre ++ es)
  /\ clean slugify STRICT es
  /\ (forall e, In e es -> resolves e)
  /\ bs_dupIntra st' = bs_dupIntra st ++ all_dups es
  /\ (forall c l, bs_c2s st' !! c = Some l ->
        bs_c2s st !! c = Some l
        \/ exists e, In e es /\ cslug_of e = c /\ l = sorted_slugs (slugs_of e))
  /\ (forall c, is_Some (bs_c2s st !! c) -> is_Some (bs_c2s st' !! c))
  /\ (forall e, In e es -> is_Some (bs_c2s st' !! cslug_of e))
  /\ ((forall e, In e (pre ++ es) -> truthy (cslug_of e) = true) ->
      settled st pre -> settled st' (pre ++ es)).
Proof.
  induction es as [|e t IH]; intros st pre st' H Ht.
  - simpl in H. injection H as <-. rewrite !app_nil_r.
    split; [exact Ht|]. split; [intros _ e []|]. split; [intros e []|].
    split; [reflexivity|].
    split; [intros c l Hl; now left|]. split; [auto|].
    split; [intros e []|auto].
  - simpl in H. destruct (build_step st e) as [f|st1] eqn:E; [discriminate|].
    simpl in H.
    pose proof (build_step_strict st e st1 E) as Hs.
    pose proof (ValidateFacts.build_step_resolves slugify slugify_other STRICT st e st1 E)
      as Hr.
    pose proof (ValidateFacts.build_step_traced slugify slugify_other STRICT st e st1 pre
                  Hs E Ht) as Ht1.
    destruct (IH st1 (pre ++ [e]) st' H Ht1) as (A1 & A2 & A0 & A3 & A4 & A5 & A6 & A7).
    assert (Happ : (pre ++ [e]) ++ t = pre ++ e :: t) by now rewrite <- app_assoc.
    rewrite Happ in A1, A7.
    destruct (ValidateFacts.build_step_inr slugify slugify_other STRICT st e st1 Hs E)
      as (m' & Ha & Est).
    assert (Ec : bs_c2s st1 = <[cslug_of e := sorted_slugs (slugs_of e)]> (bs_c2s st))
      by now rewrite Est.
    assert (Ed : bs_dupIntra st1 =
                 bs_dupIntra st ++ intra_dups (cslug_of e) ∅ (sorted_slugs (slugs_of e)))
      by now rewrite Est.
    split; [exact A1|]. split; [|split; [|split; [|split; [|split; [|split]]]]].
    + intros S e0 [<-|H0]; [now apply strict_check_passed|now apply (A2 S)].
    + intros e0 [<-|H0]; [exact Hr|now apply A0].
    + rewrite A3, Ed, <- app_assoc. reflexivity.
    + intros c l Hl. destruct (A4 c l Hl) as [H1|(e0 & H0 & H1 & H2)].
      * rewrite Ec in H1. destruct (decide (cslug_of e = c)) as [<-|Hne].
        -- rewrite lookup_insert_eq in H1. injection H1 as <-.
           right. exists e. split; [now left|now split].
        -- rewrite lookup_insert_ne in H1 by exact Hne. now left.
      * right. exists e0. split; [now right|now split].
    + intros c Hc. apply A5. rewrite Ec.
      destruct (decide (cslug_of e = c)) as [<-|Hne].
      * rewrite lookup_insert_eq. eauto.
      * now rewrite lookup_insert_ne.
    + intros e0 [<-|H0]; [|now apply A6].
      apply A5. rewrite Ec, lookup_insert_eq. eauto.
    + intros Htr Hst. apply A7; [exact Htr|].
      apply (ValidateFacts.build_step_settled slugify slugify_other STRICT st e st1 pre
               Hs E); [|exact Hst].
      intros e1 He1. apply Htr, in_or_app. now left.
Qed.

Lemma all_dups_nil es e :
  all_dups es = [] -> In e es -> List.NoDup (slugs_of e).
Proof.
  induction es as [|e0 t IH]; intros H Hin; [destruct Hin|].
  unfold ValidateData.all_dups in H. simpl in H. apply app_eq_nil in H as [H1 H2].
  destruct Hin as [<-|Hin]; [|now apply IH].
  apply intra_dups_nil in H1 as [Hn _].
  eapply Permutation_NoDup; [|exact Hn].
  apply DoctorFacts.js_sort_perm.
Qed.

End Success.

(** X8.  When [normalizeClusters] succeeds, the document has passed every
    check and the two indexes describe the clusters the loop has read
    (the elements of [clustersDoc.clusters] when the document has a key
    [clusters], its entries otherwise): [slugify] has thrown on none of
    their values; in strict mode every cluster has a slug and every raw
    slug equals its normalized form; no cluster lists a suburb twice;
    every entry of [suburbToCluster] comes from a cluster that lists the
    suburb; every cluster has its list in [clusterToSuburbs]; each list
    there is strictly increasing and holds exactly the normalized suburbs
    of a cluster of that slug; and when no normalized cluster slug is
    empty, every listed suburb is mapped to the slug of its cluster. *)
Theorem normalizeClusters_indexes :
  forall (slugify : string -> string) (slugify_other : Untyped -> option string)
         (STRICT : bool) (doc : ClustersDoc) (ix : Indexes),
    normalizeClusters slugify slugify_other STRICT doc = inr ix ->
    schema_ok doc = true
    /\ strict_clean slugify STRICT doc
    /\ (forall e, In e (entries_of doc) -> resolves slugify slugify_other e)
    /\ (forall e, In e (entries_of doc) -> List.NoDup (slugs_of slugify slugify_other e))
    /\ (forall s c, suburbToCluster ix !! s = Some c ->
          exists e, In e (entries_of doc) /\ cslug_of slugify slugify_other e = c
                    /\ lists slugify slugify_other e s)
    /\ (forall e, In e (entries_of doc) ->
          is_Some (clusterToSuburbs ix !! cslug_of slugify slugify_other e))
    /\ (forall c l, clusterToSuburbs ix !! c = Some l ->
          StronglySorted (fun a b => String.compare a b = Lt) l
          /\ exists e, In e (entries_of doc) /\ cslug_of slugify slugify_other e = c
                       /\ forall s, In s l <-> lists slugify slugify_other e s)
    /\ ((forall e, In e (entries_of doc) ->
           truthy (cslug_of slugify slugify_other e) = true) ->
        forall e s, In e (entries_of doc) -> lists slugify slugify_other e s ->
          suburbToCluster ix !! s = Some (cslug_of slugify slugify_other e)).
Proof.
  intros slugify slugify_other STRICT doc ix H. unfold normalizeClusters in H.
  destruct (schema_ok doc) eqn:Hschema; [|discriminate]. simpl in H.
  destruct (build_steps slugify slugify_other STRICT _ (entries_of doc))
    as [f|st] eqn:E; [discriminate|].
  simpl in H. destruct (bs_dupIntra st) eqn:D; [|discriminate]. simpl in H.
  injection H as <-. simpl.
  destruct (build_steps_success slugify slugify_other STRICT (entries_of doc) _ [] st E)
    as (A1 & A2 & A0 & A3 & A4 & A5 & A6 & A7).
  { intros s p Hl. simpl in Hl. now rewrite lookup_empty in Hl. }
  simpl in A1, A3, A4, A7. rewrite D in A3. symmetry in A3.
  assert (Hnd : forall e, In e (entries_of doc) ->
                  List.NoDup (slugs_of slugify slugify_other e))
    by (intros e He; now apply (all_dups_nil slugify slugify_other (entries_of doc))).
  split; [reflexivity|]. split; [exact A2|]. split; [exact A0|]. split; [exact Hnd|].
  split; [exact A1|]. split; [exact A6|]. split.
  - intros c l Hl. destruct (A4 c l Hl) as [H|(e & He & Hc & ->)].
    + now rewrite lookup_empty in H.
    + split.
      * apply sorted_NoDup_strict; [apply sort_strings_sorted|].
        eapply Permutation_NoDup; [|apply (Hnd e He)].
        symmetry. apply DoctorFacts.js_sort_perm.
      * exists e. split; [exact He|]. split; [exact Hc|].
        intros s. apply ValidateFacts.In_sorted_slugs.
  - intros Htr e s He Hs. apply (A7 Htr); auto.
    intros e0 [].
Qed.

Lemma normalizeClusters_indexes_witness :
  exists ix : Indexes,
    normalizeClusters Slug.slugify stringly false object_doc = inr ix
    /\ suburbToCluster ix !! "object-object" = Some "a".
Proof.
  destruct (normalizeClusters Slug.slugify stringly false object_doc) as [f|ix] eqn:E.
  - exfalso. vm_compute in E. discriminate E.
  - exists ix. split; [reflexivity|].
    destruct (normalizeClusters_indexes Slug.slugify stringly false object_doc ix E)
      as (_ & _ & _ & _ & _ & _ & _ & H).
    refine (H _ _ "object-object" (or_introl eq_refl) _).
    + intros e [<-|[]]; reflexivity.
    + right. now left.
Defined.

End ValidateMore.

Module FacadeMore.
Import Js Slug Facade SlugFacts.

(** *** From a slug to its display name and back *)

Local Abbreviation spaced :=
  (List.map (fun c : ascii => if is_hyphen c then " "%char else c)).

Lemma split_hyphen_cons cur l : exists w ws, split_hyphen cur l = w :: ws.
Proof.
  revert cur. induction l as [|c t IH]; intros cur; simpl; [eauto|].
  destruct (is_hyphen c); [eauto|apply IH].
Qed.

Lemma join_split cur l : join_space (split_hyphen cur l) = rev cur ++ spaced l.
Proof.
  revert cur. induction l as [|c t IH]; intros cur; simpl.
  - now rewrite app_nil_r.
  - destruct (is_hyphen c) eqn:E.
    + destruct (split_hyphen_cons [] t) as (w & ws & Hw).
      pose proof (IH []) as H. cbn [rev app] in H.
      rewrite <- H, Hw. reflexivity.
    + rewrite IH. simpl. now rewrite <- app_assoc.
Qed.

Lemma split_hyphen_words (P : ascii -> Prop) l : forall cur,
  Forall P cur -> (forall c, In c l -> is_hyphen c = false -> P c) ->
  Forall (Forall P) (split_hyphen cur l).
Proof.
  induction l as [|c t IH]; intros cur Hcur Hl; simpl.
  - constructor; [|constructor]. now apply List.Forall_rev.
  - destruct (is_hyphen c) eqn:E.
    + constructor; [now apply List.Forall_rev|].
      apply IH; [constructor|]. intros c' Hc'. apply Hl. now right.
    + apply IH.
      * constructor; [|exact Hcur]. apply Hl; [now left|exact E].
      * intros c' Hc'. apply Hl. now right.
Qed.

Lemma lower_upper c : is_lower c || is_digit c = true -> lower_char (upper_char c) = c.
Proof. all_chars c. Qed.

Lemma lower_plain c : is_lower c || is_digit c = true -> lower_char c = c.
Proof. all_chars c. Qed.

Lemma slug_char_plain c :
  slug_char c = true -> is_hyphen c = false -> is_lower c || is_digit c = true.
Proof. all_chars c. Qed.

Lemma plain_not_space c : is_lower c || is_digit c = true -> is_space c = false.
Proof. all_chars c. Qed.

Lemma plain_not_junk c : is_lower c || is_digit c = true -> facade_junk c = false.
Proof. all_chars c. Qed.

Lemma lower_capitalize w :
  Forall (fun c => is_lower c || is_digit c = true) w -> toLowerCase (capitalize w) = w.
Proof.
  intros H. destruct H as [|c t Hc Ht]; [reflexivity|].
  simpl. rewrite (lower_upper c Hc). f_equal.
  induction Ht as [|d u Hd _ IH]; [reflexivity|].
  simpl. now rewrite (lower_plain d Hd), IH.
Qed.

Lemma lower_join ws :
  toLowerCase (join_space ws) = join_space (List.map toLowerCase ws).
Proof.
  induction ws as [|w t IH]; [reflexivity|].
  destruct t as [|w' t']; [reflexivity|].
  change (join_space (w :: w' :: t')) with (w ++ " "%char :: join_space (w' :: t')).
  change (join_space (List.map toLowerCase (w :: w' :: t')))
    with (toLowerCase w ++ " "%char :: join_space (List.map toLowerCase (w' :: t'))).
  rewrite <- IH. unfold toLowerCase. now rewrite List.map_app.
Qed.

Lemma lower_titled l :
  Forall (fun c => slug_char c = true) l ->
  toLowerCase (join_space (List.map capitalize (split_hyphen [] l))) = spaced l.
Proof.
  intros H. rewrite lower_join, List.map_map.
  rewrite (List.map_ext_in _ (fun w => w)).
  - rewrite List.map_id. apply (join_split [] l).
  - intros w Hw. apply lower_capitalize.
    assert (F : Forall (Forall (fun c => is_lower c || is_digit c = true))
                  (split_hyphen [] l)).
    { apply split_hyphen_words; [constructor|].
      intros c Hc E. apply slug_char_plain; [|exact E].
      exact (proj1 (List.Forall_forall _ _) H c Hc). }
    exact (proj1 (List.Forall_forall _ _) F w Hw).
Qed.

Lemma spaced_space c : slug_char c = true ->
  is_space (if is_hyphen c then " "%char else c) = is_hyphen c.
Proof. all_chars c. Qed.

Lemma spaced_kept c : slug_char c = true ->
  facade_junk (if is_hyphen c then " "%char else c) = false.
Proof. all_chars c. Qed.

Lemma spaced_starts l :
  Forall (fun c => slug_char c = true) l ->
  starts_with is_space (spaced l) = starts_with is_hyphen l.
Proof.
  intros H. destruct H as [|c t Hc _]; [reflexivity|].
  simpl. now apply spaced_space.
Qed.

Lemma spaced_ends l :
  Forall (fun c => slug_char c = true) l ->
  ends_with is_space (spaced l) = ends_with is_hyphen l.
Proof.
  intros H. rewrite !ends_with_rev, <- List.map_rev.
  apply spaced_starts. now apply List.Forall_rev.
Qed.

Lemma spaced_runs l :
  Forall (fun c => slug_char c = true) l -> no_double_hyphen l = true ->
  replace_runs is_space hyphen (spaced l) = l.
Proof.
  induction 1 as [|c t Hc Ht IH]; intros Hn; [reflexivity|].
  unfold no_double_hyphen in *. rewrite no_adjacent_cons in Hn.
  apply andb_true_iff in Hn as [Hn Hn'].
  cbn [List.map replace_runs]. rewrite (spaced_space c Hc).
  destruct (is_hyphen c) eqn:E.
  - apply is_hyphen_eq in E. subst c.
    destruct Ht as [|c' t' Hc' Ht'] ; [reflexivity|].
    cbn [List.map]. rewrite (spaced_space c' Hc').
    simpl in Hn. apply negb_true_iff in Hn.
    specialize (IH Hn'). cbn [List.map] in IH.
    rewrite Hn in IH |- *. now rewrite IH.
  - f_equal. apply IH. exact Hn'.
Qed.

(** X9.  The display name the facade derives from a slug leads back to
    the slug: for a slug made of lowercase letters, digits and single
    hyphens that neither begins nor ends with a hyphen, [slugify] of
    [titleCase] of the slug is the slug. *)
Theorem titleCase_slugify :
  forall s : string,
    Forall (fun c => slug_char c = true) (list_ascii_of_string s) ->
    no_double_hyphen (list_ascii_of_string s) = true ->
    starts_with_hyphen (list_ascii_of_string s) = false ->
    ends_with_hyphen (list_ascii_of_string s) = false ->
    slugify (titleCase s) = s.
Proof.
  intros s Hs Hn H1 H2.
  set (l := list_ascii_of_string s) in *.
  unfold slugify, titleCase. rewrite list_ascii_of_string_of_list_ascii. fold l.
  set (T := join_space (List.map capitalize (split_hyphen [] l))).
  assert (HT : toLowerCase T = spaced l) by now apply lower_titled.
  assert (Htrim : trim (spaced l) = spaced l).
  { unfold trim. rewrite dropWhile_none by (rewrite spaced_starts; assumption).
    apply dropWhileEnd_none. rewrite spaced_ends; assumption. }
  unfold slugify_chars.
  rewrite <- !trim_lower, HT, !Htrim.
  rewrite delete_all_fix.
  - rewrite spaced_runs by assumption.
    rewrite collapse_fix by assumption.
    apply string_of_list_ascii_of_string.
  - apply List.Forall_forall. intros c Hc. apply in_map_iff in Hc as (d & <- & Hd).
    apply spaced_kept. exact (proj1 (List.Forall_forall _ _) Hs d Hd).
Qed.

Lemma titleCase_slugify_witness :
  titleCase "mount-crosby" = "Mount Crosby"
  /\ slugify (titleCase "mount-crosby") = "mount-crosby".
Proof.
  split; [reflexivity|].
  apply titleCase_slugify; try reflexivity.
  repeat constructor.
Defined.

End FacadeMore.

Module GraphFacts.
Import Js ValidateGraph.

(** *** The verdict of the graph check *)

Lemma filter_split_length {A : Type} (f : A -> bool) (l : list A) :
  length (List.filter f l) + length (List.filter (fun x => negb (f x)) l) = length l.
Proof.
  induction l as [|x t IH]; [reflexivity|].
  simpl. destruct (f x); simpl; lia.
Qed.

Lemma neighbor_warnings_nil s2c a c ns :
  neighbor_warnings s2c a (Some c) ns = [] <->
  forall b, In b ns -> cluster_of s2c b = Some c.
Proof.
  unfold neighbor_warnings. induction ns as [|b t IH]; simpl.
  - split; [intros _ b []|reflexivity].
  - split.
    + intros H. apply app_eq_nil in H as [H1 H2].
      intros b' [<-|Hb]; [|now apply IH].
      destruct (cluster_of s2c b) as [cb|]; [|discriminate].
      destruct (String.eqb c cb) eqn:E; [|discriminate].
      apply String.eqb_eq in E. now subst cb.
    + intros H. rewrite (H b) by now left. rewrite String.eqb_refl. simpl.
      apply IH. intros b' Hb. apply H. now right.
Qed.

Lemma node_warnings_nil s2c e :
  node_warnings false s2c e = [] <->
  exists c, cluster_of s2c (fst e) = Some c
            /\ forall b, In b (snd e) -> cluster_of s2c b = Some c.
Proof.
  unfold node_warnings. destruct (cluster_of s2c (fst e)) as [ca|].
  - rewrite neighbor_warnings_nil. split.
    + intros H. now exists ca.
    + intros (c & [= <-] & H). exact H.
  - split; [discriminate|]. intros (c & H & _). discriminate.
Qed.

Lemma flat_map_nil_iff {A B : Type} (f : A -> list B) (l : list A) :
  flat_map f l = [] <-> forall x, In x l -> f x = [].
Proof.
  induction l as [|x t IH]; simpl.
  - split; [intros _ x []|reflexivity].
  - split.
    + intros H. apply app_eq_nil in H as [H1 H2].
      intros y [<-|Hy]; [exact H1|]. now apply IH.
    + intros H. rewrite (H x) by now left. apply IH. intros y Hy. apply H. now right.
Qed.

(** X10.  In its strict mode the graph check of the data validator
    returns exactly when every node of the adjacency has a cluster and
    all its neighbors are in that same cluster, and it has then printed
    no warning; otherwise it fails with counts that add up to the
    warnings printed, at least one.  With [GEO_ALLOW_MISSING=1] it never
    fails. *)
Theorem graph_check_verdicts :
  forall (adj : list (string * list string)) (s2c : gmap string string),
    ((exists ws, validateAdjacencyAgainstClusters false adj s2c = Checked ws) <->
     (forall a ns, In (a, ns) adj ->
        exists c, cluster_of s2c a = Some c
                  /\ forall b, In b ns -> cluster_of s2c b = Some c))
    /\ (forall ws, validateAdjacencyAgainstClusters false adj s2c = Checked ws -> ws = [])
    /\ (forall m c ws,
          validateAdjacencyAgainstClusters false adj s2c = GraphInvalid m c ws ->
          0 < m + c /\ m + c = length ws)
    /\ exists ws, validateAdjacencyAgainstClusters true adj s2c = Checked ws.
Proof.
  intros adj s2c. unfold validateAdjacencyAgainstClusters.
  set (W := flat_map (node_warnings false s2c) adj).
  pose proof (filter_split_length is_missing W) as Hlen.
  assert (Hclean : W = [] <->
            forall a ns, In (a, ns) adj ->
              exists c, cluster_of s2c a = Some c
                        /\ forall b, In b ns -> cluster_of s2c b = Some c).
  { unfold W. rewrite flat_map_nil_iff. split.
    - intros H a ns Hin. now apply (node_warnings_nil s2c (a, ns)), H.
    - intros H [a ns] Hin. apply node_warnings_nil. now apply H. }
  clearbody W. cbn [negb andb].
  destruct ((length (List.filter is_missing W) =? 0)
            && (length (List.filter (fun w => negb (is_missing w)) W) =? 0)) eqn:E.
  - apply andb_true_iff in E as [E1 E2]. apply Nat.eqb_eq in E1, E2.
    assert (HW : W = []) by (apply length_zero_iff_nil; lia).
    simpl. repeat split.
    + intros _. now apply Hclean.
    + intros _. eauto.
    + intros ws [= <-]. exact HW.
    + discriminate.
    + discriminate.
    + eauto.
  - simpl. assert (HW : W <> []).
    { intros HW. rewrite HW in E. discriminate. }
    repeat split.
    + intros [ws H]. discriminate.
    + intros H. exfalso. now apply HW, Hclean.
    + discriminate.
    + injection H as <- <- <-.
      apply andb_false_iff in E as [E|E]; apply Nat.eqb_neq in E; lia.
    + injection H as <- <- <-. exact Hlen.
    + eauto.
Qed.

Lemma graph_check_verdicts_witness :
  validateAdjacencyAgainstClusters false [("x", ["y"])] {[ "x" := "a"; "y" := "b" ]}
  = GraphInvalid 0 1 [CrossEdge "x" "a" "y" "b"]
  /\ 0 < 0 + 1.
Proof.
  split; [vm_compute; reflexivity|].
  pose proof (graph_check_verdicts [("x", ["y"])] {[ "x" := "a"; "y" := "b" ]})
    as (_ & _ & H & _).
  exact (proj1 (H 0 1 [CrossEdge "x" "a" "y" "b"] ltac:(vm_compute; reflexivity))).
Defined.

(** *** The normalized adjacency *)

Lemma normalized_has slugify (doc : list (string * AdjValue)) : forall out k,
  map_has k out = true \/ (exists e, In e doc /\ slugify (fst e) = k) ->
  map_has k
    (fold_left
       (fun out e =>
          map_set (slugify (fst e))
            (js_sort String.compare (List.map slugify (list_of (snd e)))) out)
       doc out) = true.
Proof.
  induction doc as [|e t IH]; intros out k H; simpl.
  - destruct H as [H|(e & [] & _)]. exact H.
  - apply IH. rewrite DoctorFacts.map_has_set.
    destruct H as [H|(e0 & [<-|He0] & Hk)].
    + left. rewrite H. apply orb_true_r.
    + left. subst k. now rewrite String.eqb_refl.
    + right. now exists e0.
Qed.

(** X11.  The adjacency [normalizeAdjacency] returns has one entry per
    normalized node slug; every node of the document is there under its
    normalized slug; and every list is in ascending order and holds the
    normalized neighbors of a node of the document with that slug,
    repetitions included. *)
Theorem normalizeAdjacency_shape :
  forall (slugify : string -> string) (doc : list (string * AdjValue))
         (adj : list (string * list string)),
    normalizeAdjacency slugify doc = Some adj ->
    schema_ok doc = true
    /\ List.NoDup (map_keys adj)
    /\ (forall e, In e doc -> map_has (slugify (fst e)) adj = true)
    /\ (forall k l, In (k, l) adj ->
          StronglySorted (fun a b => String.compare a b <> Gt) l
          /\ exists e, In e doc /\ slugify (fst e) = k
                       /\ Permutation l (List.map slugify (list_of (snd e)))).
Proof.
  intros slugify doc adj H. unfold normalizeAdjacency in H.
  destruct (schema_ok doc) eqn:Hs; [|discriminate]. injection H as <-.
  split; [reflexivity|]. split; [|split].
  - apply (DoctorFacts.fold_left_inv (fun m : list (string * list string) =>
                                        List.NoDup (map_keys m))).
    + constructor.
    + intros m e _ Hm. now apply DoctorFacts.map_set_NoDup.
  - intros e He. apply normalized_has. right. now exists e.
  - intros k l Hin.
    assert (F : Forall
                  (fun kv : string * list string =>
                     StronglySorted (fun a b => String.compare a b <> Gt) (snd kv)
                     /\ exists e, In e doc /\ slugify (fst e) = fst kv
                          /\ Permutation (snd kv) (List.map slugify (list_of (snd e))))
                  (fold_left
                     (fun out e =>
                        map_set (slugify (fst e))
                          (js_sort String.compare (List.map slugify (list_of (snd e)))) out)
                     doc [])).
    { apply (DoctorFacts.fold_left_inv
               (fun m : list (string * list string) =>
                  Forall
                    (fun kv : string * list string =>
                       StronglySorted (fun a b => String.compare a b <> Gt) (snd kv)
                       /\ exists e, In e doc /\ slugify (fst e) = fst kv
                            /\ Permutation (snd kv) (List.map slugify (list_of (snd e))))
                    m)).
      - constructor.
      - intros m e He Hm. apply DoctorFacts.map_set_Forall; [|exact Hm].
        simpl. split; [apply ValidateMore.sort_strings_sorted|].
        exists e. split; [exact He|]. split; [reflexivity|].
        apply DoctorFacts.js_sort_perm. }
    exact (proj1 (List.Forall_forall _ _) F (k, l) Hin).
Qed.

Lemma normalizeAdjacency_shape_witness :
  normalizeAdjacency Slug.slugify
    [("Ipswich", VArray ["ripley"; "brassall"]); ("ripley", VArray ["ipswich"])]
  = Some [("ipswich", ["brassall"; "ripley"]); ("ripley", ["ipswich"])]
  /\ List.NoDup (map_keys [("ipswich", ["brassall"; "ripley"]); ("ripley", ["ipswich"])]).
Proof.
  assert (E : normalizeAdjacency Slug.slugify
                [("Ipswich", VArray ["ripley"; "brassall"]); ("ripley", VArray ["ipswich"])]
              = Some [("ipswich", ["brassall"; "ripley"]); ("ripley", ["ipswich"])])
    by (vm_compute; reflexivity).
  split; [exact E|].
  exact (proj1 (proj2 (normalizeAdjacency_shape _ _ _ E))).
Defined.

End GraphFacts.

Module IntegrityFacts.
Import Js Integrity.
Import Doctor(includes, repeats).

(** *** What the integrity check accepts *)

Lemma add_suburbs_tracks c l : forall b seen,
  (forall k, map_has k (suburb2cluster b) = includes k seen) ->
  duplicates (fold_left (add_suburb c) l b) =
    duplicates b ++ repeats seen (List.map slugify l)
  /\ forall k, map_has k (suburb2cluster (fold_left (add_suburb c) l b)) =
               includes k (rev (List.map slugify l) ++ seen).
Proof.
  induction l as [|n t IH]; intros b seen Ht.
  - simpl. now rewrite app_nil_r.
  - simpl fold_left.
    destruct (IH (add_suburb c b n) (slugify n :: seen)) as [H1 H2].
    + intros k. simpl. rewrite DoctorFacts.map_has_set, Ht. reflexivity.
    + split.
      * rewrite H1. simpl. rewrite Ht, <- app_assoc. reflexivity.
      * intros k. rewrite H2. simpl. now rewrite <- app_assoc.
Qed.

Lemma build_tracks clusters : forall b seen,
  (forall k, map_has k (suburb2cluster b) = includes k seen) ->
  duplicates
    (fold_left (fun b c => fold_left (add_suburb (g_slug c)) (suburbs_of c) b) clusters b) =
    duplicates b ++ repeats seen (catalog_slugs clusters)
  /\ forall k,
       map_has k
         (suburb2cluster
            (fold_left (fun b c => fold_left (add_suburb (g_slug c)) (suburbs_of c) b)
               clusters b)) =
       includes k (rev (catalog_slugs clusters) ++ seen).
Proof.
  induction clusters as [|c t IH]; intros b seen Ht.
  - simpl. now rewrite app_nil_r.
  - simpl fold_left. unfold catalog_slugs. simpl flat_map. fold (catalog_slugs t).
    destruct (add_suburbs_tracks (g_slug c) (suburbs_of c) b seen Ht) as [H1 H2].
    destruct (IH _ _ H2) as [G1 G2]. split.
    + rewrite G1, H1, DoctorFacts.repeats_app, <- app_assoc. reflexivity.
    + intros k. rewrite G2, rev_app_distr, <- app_assoc. reflexivity.
Qed.

Lemma repeats_nil seen l :
  repeats seen l = [] <-> List.NoDup l /\ forall x, In x l -> ~ In x seen.
Proof.
  revert seen. induction l as [|x t IH]; intros seen; simpl.
  - split; [intros _; split; [constructor|intros x []]|reflexivity].
  - destruct (includes x seen) eqn:E; simpl.
    + split; [discriminate|]. intros [_ H]. exfalso.
      apply (H x); [now left|now apply DoctorFacts.includes_In].
    + rewrite IH. split.
      * intros [Hn Hs]. split.
        -- constructor; [|exact Hn]. intros Hin. apply (Hs x Hin). now left.
        -- intros y [<-|Hy] Hseen.
           ++ apply DoctorFacts.includes_In in Hseen. congruence.
           ++ apply (Hs y Hy). now right.
      * intros [Hn Hs]. inversion Hn as [|? ? Hx Hn']; subst. split; [exact Hn'|].
        intros y Hy [<-|Hseen]; [contradiction|]. apply (Hs y); [now right|exact Hseen].
Qed.

Lemma build_known clusters k :
  map_has k (suburb2cluster (build clusters)) = true <-> In k (catalog_slugs clusters).
Proof.
  unfold build.
  destruct (build_tracks clusters {| suburb2cluster := []; duplicates := [] |} [])
    as [_ H]; [reflexivity|].
  rewrite H, app_nil_r, DoctorFacts.includes_In. symmetry. apply in_rev.
Qed.

Lemma build_duplicates clusters :
  duplicates (build clusters) = [] <-> List.NoDup (catalog_slugs clusters).
Proof.
  unfold build.
  destruct (build_tracks clusters {| suburb2cluster := []; duplicates := [] |} [])
    as [H _]; [reflexivity|].
  rewrite H. simpl. rewrite repeats_nil. split; [tauto|].
  intros Hn. split; [exact Hn|]. intros x _ [].
Qed.

Lemma node_events_clean m e evs :
  node_events m e = Some evs ->
  (List.filter is_missing evs = [] <->
   map_has (fst e) m = true
   /\ forall to, In to (neighbors_of (snd e)) -> map_has to m = true).
Proof.
  unfold node_events. destruct (map_has (fst e) m) eqn:Hf; simpl.
  - assert (Hscan : forall ns c,
              List.filter is_missing
                (flat_map
                   (fun to =>
                      match map_get to m with
                      | None => [Missing to]
                      | Some toCluster =>
                          if negb (String.eqb c toCluster)
                          then [Cross (fst e) to c toCluster] else []
                      end) ns) = [] <->
              forall to, In to ns -> map_has to m = true).
    { intros ns c. unfold map_has. induction ns as [|to t IH]; simpl.
      - split; [intros _ to []|reflexivity].
      - rewrite List.filter_app. split.
        + intros H. apply app_eq_nil in H as [H1 H2].
          intros to' [<-|Hin]; [|now apply IH].
          destruct (map_get to m); [reflexivity|discriminate].
        + intros H. pose proof (H to (or_introl eq_refl)) as Ht.
          destruct (map_get to m) as [tc|]; [|discriminate].
          rewrite (proj2 IH) by (intros to' Hin; apply H; now right).
          rewrite app_nil_r. now destruct (negb (String.eqb c tc)). }
    destruct (snd e) as [l|[l|]|]; intros [= <-]; simpl neighbors_of.
    + rewrite Hscan. tauto.
    + rewrite Hscan. tauto.
    + simpl. split; [intros _; split; [reflexivity|intros to []]|reflexivity].
  - intros [= <-]. simpl. split; [discriminate|]. intros [H _]. discriminate.
Qed.

Lemma all_events_clean m adj :
  (exists evs, all_events m adj = Some evs /\ List.filter is_missing evs = []) <->
  forall from d, In (from, d) adj ->
    map_has from m = true /\ d <> DNull
    /\ forall to, In to (neighbors_of d) -> map_has to m = true.
Proof.
  induction adj as [|e t IH]; simpl.
  - split; [intros _ from d []|]. intros _. now exists [].
  - split.
    + intros (evs & H & Hf).
      destruct (node_events m e) as [ev1|] eqn:E1; [|discriminate].
      destruct (all_events m t) as [rest|] eqn:E2; [|discriminate].
      injection H as <-. rewrite List.filter_app in Hf.
      apply app_eq_nil in Hf as [Hf1 Hf2].
      intros from d [->|Hin].
      * apply (node_events_clean m _ ev1 E1) in Hf1 as [A B]. simpl in *.
        split; [exact A|]. split; [|exact B].
        intros ->. unfold node_events in E1. simpl in E1. rewrite A in E1. discriminate.
      * apply (proj1 IH); [|exact Hin]. now exists rest.
    + intros H.
      destruct (proj2 IH) as (rest & E2 & Hr).
      { intros from d Hin. apply H. now right. }
      destruct e as [from d]. destruct (H from d (or_introl eq_refl)) as (A & B & C).
      destruct (node_events m (from, d)) as [ev1|] eqn:E1.
      * exists (ev1 ++ rest). rewrite E2. split; [reflexivity|].
        rewrite List.filter_app, Hr, app_nil_r.
        apply (node_events_clean m (from, d) ev1 E1). now split.
      * exfalso. unfold node_events in E1. simpl in E1. rewrite A in E1. simpl in E1.
        destruct d as [l|[l|]|]; try discriminate. now apply B.
Qed.

(** X12.  The integrity check ends with exit code 0 exactly when every
    cluster has a [suburbs] array, no suburb slug comes twice in the
    catalog (in one cluster or in two), every node of the adjacency is a
    catalog suburb with a value other than [null], and all its neighbors
    are catalog suburbs.  Edges that cross clusters are counted and never
    fail the check. *)
Theorem integrity_passes :
  forall (clusters : list Cluster) (adjacency : list (string * Data)),
    exit_code (run clusters adjacency) = 0 <->
    (Forall (fun c => g_suburbs c <> None) clusters
     /\ List.NoDup (catalog_slugs clusters)
     /\ forall from d, In (from, d) adjacency ->
          In from (catalog_slugs clusters) /\ d <> DNull
          /\ forall to, In to (neighbors_of d) -> In to (catalog_slugs clusters)).
Proof.
  intros clusters adjacency. unfold run.
  set (m := suburb2cluster (build clusters)).
  assert (Hsub : forallb (fun c => match g_suburbs c with Some _ => true | None => false end)
                   clusters = true <->
                 Forall (fun c => g_suburbs c <> None) clusters).
  { rewrite forallb_forall, List.Forall_forall. split; intros H c Hc.
    - specialize (H c Hc). destruct (g_suburbs c); [discriminate|discriminate H].
    - specialize (H c Hc). destruct (g_suburbs c); [reflexivity|contradiction]. }
  assert (Hadj : (exists evs, all_events m adjacency = Some evs
                              /\ List.filter is_missing evs = []) <->
                 forall from d, In (from, d) adjacency ->
                   In from (catalog_slugs clusters) /\ d <> DNull
                   /\ forall to, In to (neighbors_of d) -> In to (catalog_slugs clusters)).
  { rewrite all_events_clean. unfold m. split; intros H from d Hin;
      destruct (H from d Hin) as (A & B & C).
    - split; [now apply build_known|]. split; [exact B|].
      intros to Hto. now apply build_known, C.
    - split; [now apply build_known|]. split; [exact B|].
      intros to Hto. now apply build_known, C. }
  destruct (all_events m adjacency) as [evs|] eqn:E.
  - destruct (forallb _ clusters) eqn:F; simpl.
    + destruct (List.filter is_missing evs) as [|x xs] eqn:Fm; simpl.
      * destruct (duplicates (build clusters)) as [|y ys] eqn:D; simpl.
        -- split; [intros _|reflexivity].
           split; [now apply Hsub|]. split; [now apply build_duplicates|].
           apply Hadj. now exists evs.
        -- split; [discriminate|]. intros (_ & Hn & _).
           apply build_duplicates in Hn. congruence.
      * split; [discriminate|]. intros (_ & _ & H).
        apply Hadj in H as (evs' & [= <-] & H). congruence.
    + split; [discriminate|]. intros (H & _). apply Hsub in H. discriminate.
  - simpl. split; [discriminate|]. intros (_ & _ & H).
    apply Hadj in H as (evs' & H & _). discriminate.
Qed.

Lemma integrity_passes_witness :
  exit_code
    (run [ {| g_slug := "west"; g_suburbs := Some [NStr "Mount Crosby"; NStr "Anstead"] |} ]
         [ ("anstead", DObject (Some ["mount-crosby"])) ]) = 0.
Proof.
  apply integrity_passes. split; [|split].
  - repeat constructor; discriminate.
  - vm_compute. repeat constructor; simpl; intuition discriminate.
  - intros from d [[= <- <-]|[]]. split; [vm_compute; tauto|].
    split; [discriminate|]. intros to [<-|[]]. vm_compute. tauto.
Defined.

End IntegrityFacts.

Module EnforceFacts.
Import Js Enforce.

(** *** The adjacency after enforcement *)

Lemma keeps_drops wl m k v : drops wl m k v = true -> keeps wl m k v = false.
Proof.
  unfold drops, keeps. destruct (cluster_of m k), (cluster_of m v); try discriminate.
  intros H. apply andb_true_iff in H as [H1 H2].
  apply negb_true_iff in H1, H2. now rewrite H1, H2.
Qed.

Lemma filter_twice {A : Type} (f : A -> bool) (l : list A) :
  List.filter f (List.filter f l) = List.filter f l.
Proof.
  induction l as [|x t IH]; [reflexivity|].
  simpl. destruct (f x) eqn:E; [|exact IH]. simpl. now rewrite E, IH.
Qed.

Lemma filter_apart {A : Type} (f g : A -> bool) (l : list A) :
  (forall x, g x = true -> f x = false) -> List.filter g (List.filter f l) = [].
Proof.
  intros H. induction l as [|x t IH]; [reflexivity|].
  simpl. destruct (f x) eqn:E; [|exact IH].
  simpl. destruct (g x) eqn:G; [|exact IH].
  apply H in G. congruence.
Qed.

Lemma pair_key_sym (a b : string) : pair_key a b = pair_key b a.
Proof.
  unfold pair_key. rewrite (String.compare_antisym b a).
  destruct (String.compare a b) eqn:E; simpl; try reflexivity.
  apply String.compare_eq_iff in E. now subst b.
Qed.

(** X13.  Enforcing the cross-cluster policy keeps the nodes of the
    adjacency and, under each node, exactly the neighbors for which both
    ends have a cluster and the two clusters are equal or the pair is
    whitelisted, in either direction.  The count of dropped edges is at
    most the number of edges removed.  Enforcing again changes nothing and
    reports no dropped edge. *)
Theorem enforce_fixpoint :
  forall (whitelist : list Edge) (clusters : list Cluster)
         (adj : list (string * list string)),
    Forall2
      (fun e e' : string * list string =>
         fst e' = fst e
         /\ forall v, In v (snd e') <->
              In v (snd e)
              /\ exists kc vc,
                   cluster_of (cluster_map clusters) (fst e) = Some kc
                   /\ cluster_of (cluster_map clusters) v = Some vc
                   /\ (kc = vc \/ pair_key (fst e) v ∈ WL whitelist))
      adj (fst (enforce whitelist clusters adj))
    /\ (forall a b, pair_key a b = pair_key b a)
    /\ snd (enforce whitelist clusters adj) <=
       length (flat_map snd adj)
       - length (flat_map snd (fst (enforce whitelist clusters adj)))
    /\ enforce whitelist clusters (fst (enforce whitelist clusters adj)) =
       (fst (enforce whitelist clusters adj), 0).
Proof.
  intros whitelist clusters adj. unfold enforce. cbn [fst snd].
  set (wl := WL whitelist). set (m := cluster_map clusters).
  split; [|split; [|split]].
  - induction adj as [|[k l] t IH]; [constructor|].
    cbn [List.map]. constructor; [|exact IH].
    cbn [fst snd]. split; [reflexivity|].
    intros v. rewrite filter_In. unfold keeps.
    split.
    + intros [Hv H]. split; [exact Hv|].
      destruct (cluster_of m k) as [kc|]; [|discriminate].
      destruct (cluster_of m v) as [vc|]; [|discriminate].
      exists kc, vc. split; [reflexivity|]. split; [reflexivity|].
      apply orb_true_iff in H as [H|H].
      * left. now apply String.eqb_eq.
      * right. now apply bool_decide_eq_true in H.
    + intros [Hv (kc & vc & -> & -> & H)]. split; [exact Hv|].
      apply orb_true_iff. destruct H as [->|H].
      * left. apply String.eqb_refl.
      * right. now apply bool_decide_eq_true.
  - apply pair_key_sym.
  - induction adj as [|[k l] t IH]; [simpl; lia|].
    cbn [flat_map List.map fst snd]. rewrite !List.length_app.
    assert (H : length (List.filter (drops wl m k) l) + length (List.filter (keeps wl m k) l)
                <= length l).
    { clear IH. induction l as [|v u IHu]; [simpl; lia|].
      simpl. destruct (drops wl m k v) eqn:D.
      - rewrite (keeps_drops _ _ _ _ D). simpl. lia.
      - destruct (keeps wl m k v); simpl; lia. }
    assert (G : length (flat_map snd (List.map
                  (fun e : string * list string =>
                     (fst e, List.filter (keeps wl m (fst e)) (snd e))) t))
                <= length (flat_map snd t)).
    { clear IH. induction t as [|[k' l'] t' IHt]; [simpl; lia|].
      cbn [flat_map List.map fst snd]. rewrite !List.length_app.
      pose proof (DoctorMore.filter_length_le (keeps wl m k') l'). lia. }
    lia.
  - f_equal.
    + rewrite List.map_map. apply List.map_ext. intros [k l]. cbn [fst snd].
      now rewrite filter_twice.
    + rewrite (PassFacts.flat_map_none
                 (fun e : string * list string => List.filter (drops wl m (fst e)) (snd e)));
        [reflexivity|].
      intros e He. apply in_map_iff in He as ([k l] & <- & _). cbn [fst snd].
      apply filter_apart. intros v. apply keeps_drops.
Qed.

End EnforceFacts.

Module SyncFacts.
Import Js Sync.
Import Doctor(SuburbItem, slug, name, lat, lng, ClusterItem, cslug, suburbs,
              suburbBySlug, indexed_slugs).

(** *** The adjacency the sync writes *)

Lemma targets_spec ok src input : forall seen t,
  In t (targets ok src seen input) ->
  truthy t = true /\ t <> src /\ (t ∈ ok) /\ (t ∉ seen)
  /\ exists tRaw, In tRaw input /\ Slug.sync_slugify tRaw = t.
Proof.
  induction input as [|tRaw rest IH]; intros seen t; simpl; [intros []|].
  destruct (truthy (Slug.sync_slugify tRaw)) eqn:E1; simpl.
  - destruct (String.eqb (Slug.sync_slugify tRaw) src) eqn:E2.
    + intros H. destruct (IH _ _ H) as (A & B & C & D & x & Hx & Ex).
      repeat split; auto. exists x. split; [now right|exact Ex].
    + destruct (bool_decide (Slug.sync_slugify tRaw ∈ ok)) eqn:E3; simpl.
      * destruct (bool_decide (Slug.sync_slugify tRaw ∈ seen)) eqn:E4.
        -- intros H. destruct (IH _ _ H) as (A & B & C & D & x & Hx & Ex).
           repeat split; auto. exists x. split; [now right|exact Ex].
        -- intros [<-|H].
           ++ apply String.eqb_neq in E2. apply bool_decide_eq_true in E3.
              apply bool_decide_eq_false in E4.
              repeat split; auto. exists tRaw. split; [now left|reflexivity].
           ++ destruct (IH _ _ H) as (A & B & C & D & x & Hx & Ex).
              repeat split; auto.
              ** intros Hs. apply D. apply elem_of_union. now right.
              ** exists x. split; [now right|exact Ex].
      * intros H. destruct (IH _ _ H) as (A & B & C & D & x & Hx & Ex).
        repeat split; auto. exists x. split; [now right|exact Ex].
  - intros H. destruct (IH _ _ H) as (A & B & C & D & x & Hx & Ex).
    repeat split; auto. exists x. split; [now right|exact Ex].
Qed.

Lemma targets_NoDup ok src input : forall seen, List.NoDup (targets ok src seen input).
Proof.
  induction input as [|tRaw rest IH]; intros seen; simpl; [constructor|].
  destruct (negb (truthy (Slug.sync_slugify tRaw)) || String.eqb (Slug.sync_slugify tRaw) src);
    [apply IH|].
  destruct (negb (bool_decide (Slug.sync_slugify tRaw ∈ ok))); [apply IH|].
  destruct (bool_decide (Slug.sync_slugify tRaw ∈ seen)); [apply IH|].
  constructor; [|apply IH].
  intros H. apply targets_spec in H as (_ & _ & _ & H & _).
  apply H. apply elem_of_union. left. now apply elem_of_singleton.
Qed.

(** X14.  In the adjacency the sync derives from the rich source, every
    node is the normalized slug of a catalog suburb and comes once; its
    list is not empty and has no repetition; and every neighbor is the
    normalized form of a listed neighbor, is not empty, differs from the
    node and is the normalized slug of a catalog suburb. *)
Theorem sync_adjacency_clean :
  forall (clusters : list Written) (rich : list (string * option (list string))),
    List.NoDup (map_keys (mapped clusters rich))
    /\ forall src l, In (src, l) (mapped clusters rich) ->
         src ∈ valid clusters /\ l <> [] /\ List.NoDup l
         /\ forall t, In t l ->
              t <> "" /\ t <> src /\ t ∈ valid clusters
              /\ exists srcRaw input tRaw,
                   In (srcRaw, Some input) rich /\ Slug.sync_slugify srcRaw = src
                   /\ In tRaw input /\ Slug.sync_slugify tRaw = t.
Proof.
  intros clusters rich. unfold mapped.
  set (P := fun e : string * list string =>
              fst e ∈ valid clusters /\ snd e <> [] /\ List.NoDup (snd e)
              /\ forall t, In t (snd e) ->
                   t <> "" /\ t <> fst e /\ t ∈ valid clusters
                   /\ exists srcRaw input tRaw,
                        In (srcRaw, Some input) rich /\ Slug.sync_slugify srcRaw = fst e
                        /\ In tRaw input /\ Slug.sync_slugify tRaw = t).
  assert (H : List.NoDup (map_keys (fold_left
                (fun out e =>
                   let src := Slug.sync_slugify (fst e) in
                   if negb (bool_decide (src ∈ valid clusters)) then out
                   else match targets (valid clusters) src ∅
                                (match snd e with Some l => l | None => [] end) with
                        | [] => out
                        | l => map_set src l out
                        end) rich []))
              /\ Forall P (fold_left
                (fun out e =>
                   let src := Slug.sync_slugify (fst e) in
                   if negb (bool_decide (src ∈ valid clusters)) then out
                   else match targets (valid clusters) src ∅
                                (match snd e with Some l => l | None => [] end) with
                        | [] => out
                        | l => map_set src l out
                        end) rich [])).
  { apply (DoctorFacts.fold_left_inv
             (fun m : list (string * list string) =>
                List.NoDup (map_keys m) /\ Forall P m)).
    - split; constructor.
    - intros m [srcRaw v] Hin [Hn Hf]. cbn [fst snd].
      destruct (bool_decide (Slug.sync_slugify srcRaw ∈ valid clusters)) eqn:E;
        [|now split].
      apply bool_decide_eq_true in E. cbn [negb].
      destruct (targets _ _ _ _) as [|t0 ts] eqn:T; [now split|].
      split; [now apply DoctorFacts.map_set_NoDup|].
      apply DoctorFacts.map_set_Forall; [|exact Hf].
      unfold P. cbn [fst snd]. split; [exact E|]. split; [discriminate|].
      split; [rewrite <- T; apply targets_NoDup|].
      intros t Ht. rewrite <- T in Ht.
      apply targets_spec in Ht as (A & B & C & _ & tRaw & Hraw & Et).
      split; [intros ->; discriminate A|]. split; [exact B|]. split; [exact C|].
      destruct v as [input|]; [|destruct Hraw].
      exists srcRaw, input, tRaw. repeat split; auto. }
  destruct H as [Hn Hf]. split; [exact Hn|].
  intros src l Hin. exact (proj1 (List.Forall_forall _ _) Hf (src, l) Hin).
Qed.

(** *** The clusters the sync writes *)

Lemma set_add_In s set x : In x (set_add s set) <-> x = s \/ In x set.
Proof.
  unfold set_add. destruct (existsb (String.eqb s) set) eqn:E.
  - split; [now right|]. intros [->|H]; [|exact H].
    apply existsb_exists in E as (y & Hy & Ey).
    apply String.eqb_eq in Ey. now subst y.
  - rewrite in_app_iff. simpl. split.
    + intros [H|[<-|[]]]; auto.
    + intros [->|H]; auto.
Qed.

Lemma set_add_NoDup s set : List.NoDup set -> List.NoDup (set_add s set).
Proof.
  intros H. unfold set_add. destruct (existsb (String.eqb s) set) eqn:E; [exact H|].
  apply List.NoDup_app; [exact H|repeat constructor; intros []|].
  intros x Hx [<-|[]].
  assert (F : existsb (String.eqb s) set = true)
    by (apply existsb_exists; exists s; split; [exact Hx|apply String.eqb_refl]).
  congruence.
Qed.

Lemma add_names_In names : forall set x,
  In x (add_names names set) <->
  In x set \/ (truthy x = true /\ exists n, In n names /\ Slug.sync_slugify n = x).
Proof.
  unfold add_names.
  induction names as [|n t IH]; intros set x; simpl.
  - split; [now left|]. intros [H|(_ & n & [] & _)]. exact H.
  - rewrite IH. destruct (truthy (Slug.sync_slugify n)) eqn:E.
    + rewrite set_add_In. split.
      * intros [[->|H]|(Hx & m & Hm & Em)].
        -- right. split; [exact E|]. exists n. split; [now left|reflexivity].
        -- now left.
        -- right. split; [exact Hx|]. exists m. split; [now right|exact Em].
      * intros [H|(Hx & m & [->|Hm] & Em)].
        -- left. now right.
        -- left. left. now symmetry.
        -- right. split; [exact Hx|]. now exists m.
    + split.
      * intros [H|(Hx & m & Hm & Em)]; [now left|].
        right. split; [exact Hx|]. exists m. split; [now right|exact Em].
      * intros [H|(Hx & m & [->|Hm] & Em)]; [now left| |].
        -- rewrite <- Em in Hx. congruence.
        -- right. split; [exact Hx|]. now exists m.
Qed.

Lemma add_names_NoDup names : forall set,
  List.NoDup set -> List.NoDup (add_names names set).
Proof.
  unfold add_names.
  induction names as [|n t IH]; intros set H; simpl; [exact H|].
  apply IH. destruct (truthy (Slug.sync_slugify n)); [now apply set_add_NoDup|exact H].
Qed.

Lemma normal_slugified x :
  truthy (Slug.sync_slugify x) = true -> normal (Slug.sync_slugify x).
Proof. intros H. split; [exact H|apply SlugFacts.sync_slugify_idem]. Qed.

Lemma add_names_normal names set :
  Forall normal set -> Forall normal (add_names names set).
Proof.
  intros H. apply List.Forall_forall. intros x Hx.
  apply add_names_In in Hx as [Hx|(Ht & n & _ & <-)].
  - exact (proj1 (List.Forall_forall _ _) H x Hx).
  - now apply normal_slugified.
Qed.

Lemma normal_isStr s : normal s -> isStr s = true.
Proof.
  intros [Ht Hs]. unfold isStr.
  assert (E : Slug.sync_slugify_chars (list_ascii_of_string s) = list_ascii_of_string s).
  { unfold Slug.sync_slugify in Hs. apply (f_equal list_ascii_of_string) in Hs.
    now rewrite list_ascii_of_string_of_list_ascii in Hs. }
  rewrite SlugFacts.trim_fix.
  - destruct s; [discriminate Ht|reflexivity].
  - rewrite <- E.
    generalize (proj1 (SlugFacts.sync_slugify_chars_shape (list_ascii_of_string s))).
    apply SlugFacts.Forall_slug_weaken, SlugFacts.slug_char_not_space.
Qed.

Lemma canonical_normal k sl : mapLgaToCanonical k = Some sl -> normal sl.
Proof.
  unfold mapLgaToCanonical.
  destruct (str_includes "brisbane" _); [intros [= <-]; now split|].
  destruct (str_includes "ipswich" _); [intros [= <-]; now split|].
  destruct (str_includes "logan" _); [intros [= <-]; now split|discriminate].
Qed.

Lemma map_get_NoDup {V : Type} k (v : V) m :
  List.NoDup (map_keys m) -> In (k, v) m -> map_get k m = Some v.
Proof.
  induction m as [|[k' v'] t IH]; simpl; [intros _ []|].
  intros Hn. inversion Hn as [|? ? Hk Ht]; subst.
  intros [[= -> ->]|Hin].
  - now rewrite String.eqb_refl.
  - destruct (String.eqb k k') eqn:E; [|now apply IH].
    apply String.eqb_eq in E. subst k'. exfalso. apply Hk.
    unfold map_keys. change k with (fst (k, v)). now apply in_map.
Qed.

Lemma merge_ok m sl names :
  normal sl -> sets_ok m ->
  sets_ok (map_set sl
             (add_names names (match map_get sl m with Some set => set | None => [] end))
             m).
Proof.
  intros Hsl [Hn Hf]. split; [now apply DoctorFacts.map_set_NoDup|].
  apply DoctorFacts.map_set_Forall; [|exact Hf]. cbn [fst snd].
  split; [exact Hsl|].
  destruct (map_get sl m) as [set|] eqn:G.
  - apply DoctorFacts.map_get_In in G.
    destruct (proj1 (List.Forall_forall _ _) Hf _ G) as (_ & Hd & Ha).
    cbn [snd] in Hd, Ha.
    split; [now apply add_names_NoDup|now apply add_names_normal].
  - split; [apply add_names_NoDup; constructor|apply add_names_normal; constructor].
Qed.

Lemma content_step_ok st c :
  sets_ok (clusterSets st) -> sets_ok (clusterSets (content_step st c)).
Proof.
  intros H. unfold content_step.
  destruct (truthy (Slug.sync_slugify (opt_str (k_slug c)))) eqn:E; [|exact H].
  cbn [negb clusterSets]. unfold set_of.
  apply merge_ok; [now apply normal_slugified|exact H].
Qed.

Lemma true_step_ok st e :
  sets_ok (clusterSets st) -> sets_ok (clusterSets (true_step st e)).
Proof.
  intros H. unfold true_step.
  destruct (mapLgaToCanonical (fst e)) as [target|] eqn:E; [|exact H].
  cbn [clusterSets]. unfold set_of.
  apply merge_ok; [now apply (canonical_normal (fst e))|exact H].
Qed.

Lemma collect_ok content tc : sets_ok (clusterSets (collect content tc)).
Proof.
  unfold collect.
  assert (H0 : sets_ok (clusterSets {| clusterSets := []; clusterNames := [] |}))
    by (split; constructor).
  assert (H1 : sets_ok (clusterSets
                 match content with
                 | Some l => fold_left content_step l {| clusterSets := []; clusterNames := [] |}
                 | None => {| clusterSets := []; clusterNames := [] |}
                 end)).
  { destruct content as [l|]; [|exact H0].
    apply (DoctorFacts.fold_left_inv (fun st => sets_ok (clusterSets st))); [exact H0|].
    intros st c _. apply content_step_ok. }
  destruct tc as [l|]; [|exact H1].
  apply (DoctorFacts.fold_left_inv (fun st => sets_ok (clusterSets st))); [exact H1|].
  intros st e _. apply true_step_ok.
Qed.

Lemma fold_or {A B : Type} (f : A -> B -> A) (Q : A -> Prop) (R : B -> Prop) :
  (forall a b, Q (f a b) <-> Q a \/ R b) ->
  forall l a, Q (fold_left f l a) <-> Q a \/ exists b, In b l /\ R b.
Proof.
  intros Hf. induction l as [|b t IH]; intros a; simpl.
  - split; [now left|]. intros [H|(b & [] & _)]. exact H.
  - rewrite IH, Hf. split.
    + intros [[H|H]|(b' & Hb & Hr)].
      * now left.
      * right. exists b. split; [now left|exact H].
      * right. exists b'. split; [now right|exact Hr].
    + intros [H|(b' & [<-|Hb] & Hr)].
      * left. now left.
      * left. now right.
      * right. now exists b'.
Qed.

Lemma content_step_sets sl s st c :
  truthy sl = true ->
  In s (set_of sl (content_step st c)) <->
  In s (set_of sl st)
  \/ (Slug.sync_slugify (opt_str (k_slug c)) = sl /\ truthy s = true
      /\ exists n, In n (opt_list (k_suburbs c)) /\ Slug.sync_slugify n = s).
Proof.
  intros Hsl. unfold content_step.
  destruct (truthy (Slug.sync_slugify (opt_str (k_slug c)))) eqn:E; cbn [negb].
  - unfold set_of at 1. cbn [clusterSets]. rewrite DoctorMore.map_get_set.
    destruct (String.eqb sl (Slug.sync_slugify (opt_str (k_slug c)))) eqn:E1.
    + apply String.eqb_eq in E1. rewrite <- E1. rewrite add_names_In.
      split; [intros [H|H]; auto|intros [H|(_ & H)]; auto].
    + apply String.eqb_neq in E1. fold (set_of sl st).
      split; [now left|]. intros [H|(H & _)]; [exact H|]. now symmetry in H.
  - split; [now left|]. intros [H|(H & _)]; [exact H|]. congruence.
Qed.

Lemma true_step_sets sl s st e :
  In s (set_of sl (true_step st e)) <->
  In s (set_of sl st)
  \/ (mapLgaToCanonical (fst e) = Some sl /\ truthy s = true
      /\ exists n, In n (opt_list (snd e)) /\ Slug.sync_slugify n = s).
Proof.
  unfold true_step.
  destruct (mapLgaToCanonical (fst e)) as [target|] eqn:E.
  - unfold set_of at 1. cbn [clusterSets]. rewrite DoctorMore.map_get_set.
    destruct (String.eqb sl target) eqn:E1.
    + apply String.eqb_eq in E1. subst target. rewrite add_names_In.
      split; [intros [H|H]; auto|intros [H|(_ & H)]; auto].
    + apply String.eqb_neq in E1. fold (set_of sl st).
      split; [now left|]. intros [H|([= H] & _)]; [exact H|]. now symmetry in H.
  - split; [now left|]. intros [H|(H & _)]; [exact H|discriminate H].
Qed.

Lemma content_step_keys sl st c :
  truthy sl = true ->
  map_has sl (clusterSets (content_step st c)) = true <->
  map_has sl (clusterSets st) = true \/ Slug.sync_slugify (opt_str (k_slug c)) = sl.
Proof.
  intros Hsl. unfold content_step.
  destruct (truthy (Slug.sync_slugify (opt_str (k_slug c)))) eqn:E; cbn [negb clusterSets].
  - rewrite DoctorFacts.map_has_set.
    destruct (String.eqb sl (Slug.sync_slugify (opt_str (k_slug c)))) eqn:E1.
    + apply String.eqb_eq in E1. split; [now right|reflexivity].
    + apply String.eqb_neq in E1. split; [now left|].
      intros [H|H]; [exact H|]. now symmetry in H.
  - split; [now left|]. intros [H|H]; [exact H|]. congruence.
Qed.

Lemma true_step_keys sl st e :
  map_has sl (clusterSets (true_step st e)) = true <->
  map_has sl (clusterSets st) = true \/ mapLgaToCanonical (fst e) = Some sl.
Proof.
  unfold true_step.
  destruct (mapLgaToCanonical (fst e)) as [target|] eqn:E; cbn [clusterSets].
  - rewrite DoctorFacts.map_has_set.
    destruct (String.eqb sl target) eqn:E1.
    + apply String.eqb_eq in E1. subst target. split; [now right|reflexivity].
    + apply String.eqb_neq in E1. split; [now left|].
      intros [H|[= H]]; [exact H|]. now symmetry in H.
  - split; [now left|]. intros [H|H]; [exact H|discriminate H].
Qed.


Lemma collect_sets content tc sl s :
  truthy sl = true ->
  In s (set_of sl (collect content tc)) <-> truthy s = true /\ listed content tc sl s.
Proof.
  intros Hsl. unfold collect, listed.
  set (st0 := {| clusterSets := []; clusterNames := [] |}).
  assert (H1 : In s (set_of sl
                 match content with
                 | Some l => fold_left content_step l st0
                 | None => st0
                 end) <->
               truthy s = true
               /\ exists l c n, content = Some l /\ In c l
                    /\ Slug.sync_slugify (opt_str (k_slug c)) = sl
                    /\ In n (opt_list (k_suburbs c)) /\ Slug.sync_slugify n = s).
  { destruct content as [l|].
    - rewrite (fold_or content_step (fun st => In s (set_of sl st))
                 (fun c => Slug.sync_slugify (opt_str (k_slug c)) = sl /\ truthy s = true
                           /\ exists n, In n (opt_list (k_suburbs c))
                                        /\ Slug.sync_slugify n = s))
        by (intros; now apply content_step_sets).
      split.
      + intros [[]|(c & Hc & E & Hs & n & Hn & En)].
        split; [exact Hs|]. now exists l, c, n.
      + intros (Hs & l' & c & n & [= <-] & Hc & E & Hn & En).
        right. exists c. split; [exact Hc|]. split; [exact E|]. split; [exact Hs|].
        now exists n.
    - split; [intros []|]. intros (_ & l & c & n & H & _). discriminate H. }
  destruct tc as [lt|].
  - rewrite (fold_or true_step (fun st => In s (set_of sl st))
               (fun e => mapLgaToCanonical (fst e) = Some sl /\ truthy s = true
                         /\ exists n, In n (opt_list (snd e))
                                      /\ Slug.sync_slugify n = s))
      by (intros; apply true_step_sets).
    rewrite H1. split.
    + intros [(Hs & H)|(e & He & E & Hs & n & Hn & En)].
      * split; [exact Hs|now left].
      * split; [exact Hs|]. right. now exists lt, e, n.
    + intros (Hs & [H|(l' & e & n & [= <-] & He & E & Hn & En)]).
      * left. now split.
      * right. exists e. split; [exact He|]. split; [exact E|]. split; [exact Hs|].
        now exists n.
  - rewrite H1. split.
    + intros (Hs & H). split; [exact Hs|now left].
    + intros (Hs & [H|(l & e & n & H & _)]); [now split|discriminate H].
Qed.

Lemma collect_keys content tc sl :
  truthy sl = true ->
  map_has sl (clusterSets (collect content tc)) = true <-> opened content tc sl.
Proof.
  intros Hsl. unfold collect, opened.
  set (st0 := {| clusterSets := []; clusterNames := [] |}).
  assert (H1 : map_has sl (clusterSets
                 match content with
                 | Some l => fold_left content_step l st0
                 | None => st0
                 end) = true <->
               exists l c, content = Some l /\ In c l
                 /\ Slug.sync_slugify (opt_str (k_slug c)) = sl).
  { destruct content as [l|].
    - rewrite (fold_or content_step (fun st => map_has sl (clusterSets st) = true)
                 (fun c => Slug.sync_slugify (opt_str (k_slug c)) = sl))
        by (intros; now apply content_step_keys).
      split.
      + intros [H|(c & Hc & E)]; [discriminate H|]. now exists l, c.
      + intros (l' & c & [= <-] & Hc & E). right. now exists c.
    - split; [discriminate|]. intros (l & c & H & _). discriminate H. }
  destruct tc as [lt|].
  - rewrite (fold_or true_step (fun st => map_has sl (clusterSets st) = true)
               (fun e => mapLgaToCanonical (fst e) = Some sl))
      by (intros; apply true_step_keys).
    rewrite H1. split.
    + intros [H|(e & He & E)]; [now left|]. right. now exists lt, e.
    + intros [H|(l' & e & [= <-] & He & E)]; [now left|]. right. now exists e.
  - rewrite H1. split; [now left|].
    intros [H|(l & e & H & _)]; [exact H|discriminate H].
Qed.

Lemma entry_slug sl nm la ln : slug (entry sl nm la ln) = sl.
Proof. now destruct la, ln. Qed.

Lemma entry_name sl nm la ln : name (entry sl nm la ln) = nm.
Proof. now destruct la, ln. Qed.

Lemma entry_coordinates sl nm la ln :
  lat (entry sl nm la ln) = None <-> lng (entry sl nm la ln) = None.
Proof. destruct la, ln; simpl; split; congruence. Qed.

Lemma nameGuess_truthy s : truthy s = true -> truthy (nameGuess s) = true.
Proof. destruct s; [discriminate|reflexivity]. Qed.

Lemma truthy_nonempty s : truthy s = true <-> s <> "".
Proof.
  unfold truthy. destruct (String.eqb s "") eqn:E.
  - apply String.eqb_eq in E. split; [discriminate|congruence].
  - apply String.eqb_neq in E. split; [now intros _|reflexivity].
Qed.

Lemma or_else_truthy a b : truthy b = true -> truthy (or_else a b) = true.
Proof. intros H. unfold or_else. now destruct (truthy a) eqn:E. Qed.

Lemma merged_of_sets content tc subs enrich :
  clusterSets (collect content tc) <> [] ->
  clusters content tc subs enrich = merged (collect content tc) (lookups subs) enrich.
Proof.
  intros Hne. unfold clusters.
  destruct (merged (collect content tc) (lookups subs) enrich) eqn:M; [|reflexivity].
  unfold merged in M. apply map_eq_nil in M. contradiction.
Qed.

Lemma guessed_slugs lk enrich set : List.map slug (List.map (guessed lk enrich) set) = set.
Proof.
  rewrite List.map_map. rewrite <- (List.map_id set) at 2.
  apply List.map_ext. intros s. apply entry_slug.
Qed.

(** X15.  On sources whose cluster slugs, LGA names and suburb names are
    ASCII text (those of the suburbs file included), and when some cluster
    slug of the sources is not empty,
    the sync writes one cluster per normalized cluster slug of the content
    file and per canonical LGA target, each once and with a name.  The
    suburbs of a cluster are the distinct non-empty normalized names listed
    under that slug by either source; every suburb has a name, a slug that
    is its own normal form, and either both coordinates or none. *)
Theorem sync_clusters_merged :
  forall content tc subs enrich,
    ascii_content content ->
    ascii_entries tc ->
    ascii_sources subs ->
    clusterSets (collect content tc) <> [] ->
    let cl := clusters content tc subs enrich in
    List.NoDup (List.map w_slug cl)
    /\ (forall sl, In (Some sl) (List.map w_slug cl) <-> sl <> "" /\ opened content tc sl)
    /\ forall w, In w cl ->
         exists sl nm,
           w_slug w = Some sl /\ normal sl /\ w_name w = Some nm /\ nm <> ""
           /\ List.NoDup (List.map slug (w_suburbs w))
           /\ (forall s, In s (List.map slug (w_suburbs w)) <->
                         s <> "" /\ listed content tc sl s)
           /\ Forall (fun it => normal (slug it) /\ name it <> ""
                                /\ (lat it = None <-> lng it = None))
                (w_suburbs w).
Proof.
  intros content tc subs enrich _ _ _ Hne cl. unfold cl.
  rewrite (merged_of_sets content tc subs enrich Hne).
  destruct (collect_ok content tc) as [Hn Hf].
  unfold merged. split; [|split].
  - rewrite List.map_map. cbn [w_slug].
    rewrite <- (List.map_map fst Some).
    apply Finite.Injective_map_NoDup; [|exact Hn]. now intros a b [= ->].
  - intros sl. rewrite List.map_map. cbn [w_slug]. rewrite in_map_iff. split.
    + intros ([k set] & [= <-] & Hin).
      destruct (proj1 (List.Forall_forall _ _) Hf _ Hin) as ([Hk _] & _). cbn [fst] in *.
      split; [now apply truthy_nonempty|].
      apply collect_keys; [exact Hk|]. apply DoctorFacts.map_has_keys.
      unfold map_keys. change k with (fst (k, set)). now apply in_map.
    + intros [Hsl Hop]. apply truthy_nonempty in Hsl.
      apply collect_keys in Hop; [|exact Hsl].
      apply DoctorFacts.map_has_keys in Hop. unfold map_keys in Hop.
      apply in_map_iff in Hop as (e & <- & He). now exists e.
  - intros w Hw. apply in_map_iff in Hw as ([sl set] & <- & Hin).
    destruct (proj1 (List.Forall_forall _ _) Hf _ Hin) as (Hsl & Hd & Ha).
    cbn [fst snd] in *.
    exists sl, (or_else (opt_str (map_get sl (clusterNames (collect content tc)))) sl).
    cbn [w_slug w_name w_suburbs]. rewrite guessed_slugs.
    split; [reflexivity|]. split; [exact Hsl|]. split; [reflexivity|].
    split; [apply truthy_nonempty, or_else_truthy, Hsl|].
    split; [exact Hd|]. split.
    + intros s. rewrite <- truthy_nonempty, <- (collect_sets content tc sl s (proj1 Hsl)).
      unfold set_of. now rewrite (map_get_NoDup sl set _ Hn Hin).
    + apply List.Forall_forall. intros it Hit.
      apply in_map_iff in Hit as (s & <- & Hs).
      pose proof (proj1 (List.Forall_forall _ _) Ha s Hs) as Hns.
      unfold guessed. rewrite entry_slug, entry_name.
      split; [exact Hns|].
      split; [apply truthy_nonempty, or_else_truthy, nameGuess_truthy, Hns|].
      apply entry_coordinates.
Qed.

Lemma sync_clusters_merged_witness :
  List.map w_slug (clusters (Some demo_content) (Some demo_true) [] [])
  = [Some "ipswich"; Some "brisbane"]
  /\ List.NoDup (List.map w_slug (clusters (Some demo_content) (Some demo_true) [] [])).
Proof.
  split; [vm_compute; reflexivity|].
  assert (H : clusterSets (collect (Some demo_content) (Some demo_true)) <> [])
    by (vm_compute; discriminate).
  assert (Hc : ascii_content (Some demo_content)).
  { intros l c [= <-] [<-|[]]. split; [reflexivity|]. now repeat constructor. }
  assert (Ht : ascii_entries (Some demo_true)).
  { intros l e [= <-] [<-|[<-|[]]]; (split; [reflexivity|]); now repeat constructor. }
  pose proof (sync_clusters_merged (Some demo_content) (Some demo_true) [] [] Hc Ht
                (List.Forall_nil _) H) as M.
  cbv zeta in M. exact (proj1 M).
Defined.


(** *** The doctor on what the sync wrote *)

Lemma mapped_sound cl rich : forall src l,
  In (src, l) (mapped cl rich) ->
  src ∈ valid cl /\ forall t, In t l -> t <> src /\ t ∈ valid cl.
Proof.
  set (P := fun e : string * list string =>
              fst e ∈ valid cl /\ forall t, In t (snd e) -> t <> fst e /\ t ∈ valid cl).
  assert (H : Forall P (mapped cl rich)).
  { unfold mapped. apply (DoctorFacts.fold_left_inv (Forall P)); [constructor|].
    intros m [srcRaw v] _ Hf. cbn [fst snd].
    destruct (bool_decide (Slug.sync_slugify srcRaw ∈ valid cl)) eqn:E; [|exact Hf].
    apply bool_decide_eq_true in E. cbn [negb].
    destruct (targets _ _ _ _) as [|t0 ts] eqn:T; [exact Hf|].
    apply DoctorFacts.map_set_Forall; [|exact Hf].
    split; [exact E|]. cbn [fst snd]. intros t Ht. rewrite <- T in Ht.
    apply targets_spec in Ht as (_ & B & C & _). now split. }
  intros src l Hin. exact (proj1 (List.Forall_forall _ _) H (src, l) Hin).
Qed.

Lemma valid_indexed cl :
  (forall w, In w cl ->
     (exists sl, w_slug w = Some sl /\ normal sl)
     /\ Forall (fun it => normal (slug it)) (w_suburbs w)) ->
  forall t, t ∈ valid cl -> map_has t (suburbBySlug (List.map as_read cl)) = true.
Proof.
  intros H t Ht. unfold valid in Ht.
  apply elem_of_list_to_set, list_elem_of_In, in_flat_map in Ht as (w & Hw & Ht).
  apply in_map_iff in Ht as (it & <- & Hit).
  destruct (H w Hw) as ((sl & Esl & Hsl) & Hf).
  destruct (proj1 (List.Forall_forall _ _) Hf it Hit) as [_ ->].
  apply DoctorMore.indexed_has. unfold indexed_slugs.
  apply in_flat_map. exists (as_read w). split; [now apply in_map|].
  unfold as_read. cbn [cslug suburbs]. rewrite Esl. cbn [opt_str].
  rewrite (normal_isStr sl Hsl). now apply in_map.
Qed.

(** X16.  On sources whose cluster slugs, LGA names, suburb names (those
    of the suburbs file included) and adjacency nodes are ASCII text, and
    when some cluster slug of the sources is not empty, the doctor finds
    no fault in the adjacency the sync derives from the rich source: read
    against the catalog written by the same run, every value is an array,
    no node or neighbor is unknown and no suburb lists itself. *)
Theorem sync_adjacency_accepted :
  forall content tc subs enrich rich flat,
    ascii_content content ->
    ascii_entries tc ->
    ascii_sources subs ->
    ascii_entries (Some rich) ->
    clusterSets (collect content tc) <> [] ->
    let cl := clusters content tc subs enrich in
    Doctor.adjacency_pushes (suburbBySlug (List.map as_read cl))
      (Doctor.Parsed (adj_read (adjOut cl (Some rich) flat))) = [].
Proof.
  intros content tc subs enrich rich flat _ _ _ _ Hne cl.
  apply SoundFacts.adjacency_pushes_clean. cbn [Wellformed.loaded_ok adjOut].
  assert (Hcl : forall w, In w cl ->
            (exists sl, w_slug w = Some sl /\ normal sl)
            /\ Forall (fun it => normal (slug it)) (w_suburbs w)).
  { unfold cl. rewrite (merged_of_sets content tc subs enrich Hne).
    destruct (collect_ok content tc) as [_ Hf].
    intros w Hw. apply in_map_iff in Hw as ([sl set] & <- & Hin).
    destruct (proj1 (List.Forall_forall _ _) Hf _ Hin) as (Hsl & _ & Ha).
    cbn [fst snd w_slug w_suburbs] in *. split; [now exists sl|].
    apply List.Forall_forall. intros it Hit.
    apply in_map_iff in Hit as (s & <- & Hs).
    unfold guessed. rewrite entry_slug.
    exact (proj1 (List.Forall_forall _ _) Ha s Hs). }
  intros src v Hin. unfold adj_read in Hin.
  apply in_map_iff in Hin as ([src' l] & [= <- <-] & Hin).
  apply mapped_sound in Hin as [Hsrc Ht].
  split; [now apply valid_indexed|].
  exists l. split; [reflexivity|].
  intros dst Hdst. destruct (Ht dst Hdst) as [Hneq Hv].
  split; [exact Hneq|now apply valid_indexed].
Qed.

Lemma sync_adjacency_accepted_witness :
  adjOut (clusters (Some demo_content) (Some demo_true) [] []) (Some demo_rich) []
  = [("goodna", ["redbank-plains"; "ripley"])]
  /\ Doctor.adjacency_pushes
       (suburbBySlug
          (List.map as_read (clusters (Some demo_content) (Some demo_true) [] [])))
       (Doctor.Parsed
          (adj_read
             (adjOut (clusters (Some demo_content) (Some demo_true) [] [])
                (Some demo_rich) []))) = [].
Proof.
  split; [vm_compute; reflexivity|].
  assert (H : clusterSets (collect (Some demo_content) (Some demo_true)) <> [])
    by (vm_compute; discriminate).
  assert (Hc : ascii_content (Some demo_content)).
  { intros l c [= <-] [<-|[]]. split; [reflexivity|]. now repeat constructor. }
  assert (Ht : ascii_entries (Some demo_true)).
  { intros l e [= <-] [<-|[<-|[]]]; (split; [reflexivity|]); now repeat constructor. }
  assert (Hr : ascii_entries (Some demo_rich)).
  { intros l e [= <-] [<-|[<-|[]]]; (split; [reflexivity|]); now repeat constructor. }
  exact (sync_adjacency_accepted (Some demo_content) (Some demo_true) [] []
           demo_rich [] Hc Ht (List.Forall_nil _) Hr H).
Defined.


End SyncFacts.

Module SnapshotFacts.
Import Js Facade ValidateProximity.
Import Doctor(SuburbItem, slug, name, lat, lng, NearbyItem, n_slug, n_name).

(** *** The snapshot against its validator *)

Lemma map_set_In_inv {V : Type} k k' (v v' : V) m :
  In (k, v) (map_set k' v' m) -> (k = k' /\ v = v') \/ In (k, v) m.
Proof.
  induction m as [|[k0 v0] t IH]; simpl.
  - intros [[= <- <-]|[]]. now left.
  - destruct (String.eqb k' k0).
    + intros [[= <- <-]|H]; [now left|right; now right].
    + intros [H|H]; [right; now left|].
      destruct (IH H) as [H'|H']; [now left|right; now right].
Qed.

Section Loaded.
Variable RAW : list RawCluster.

(** Every indexed suburb and every suburb of a loaded cluster belongs to
    the catalog, and the index files each suburb under its slug. *)
Lemma indices_catalog :
  forall l, incl l RAW ->
    (forall k v, In (k, v) (suburbIndex (indices l)) -> slug v = k /\ In v (catalog RAW))
    /\ (forall k c x, In (k, c) (clusterByDatasetSlug (indices l)) ->
                      In x (c_suburbs c) -> In x (catalog RAW)).
Proof.
  intros l Hl. unfold indices.
  apply (DoctorFacts.fold_left_inv
           (fun ix =>
              (forall k v, In (k, v) (suburbIndex ix) -> slug v = k /\ In v (catalog RAW))
              /\ (forall k c x, In (k, c) (clusterByDatasetSlug ix) ->
                                In x (c_suburbs c) -> In x (catalog RAW)))).
  - split; [intros k v []|intros k c x []].
  - intros ix c Hc [Hi Hk].
    assert (Hsub : forall x, In x (List.map suburb_of (raw_suburbs c)) -> In x (catalog RAW)).
    { intros x Hx. unfold catalog. apply in_flat_map. exists c. split; [now apply Hl|exact Hx]. }
    unfold load_cluster. cbn [suburbIndex clusterByDatasetSlug]. split.
    + revert Hsub Hi. generalize (suburbIndex ix).
      induction (List.map suburb_of (raw_suburbs c)) as [|s t IH]; intros m Hsub Hi; [exact Hi|].
      simpl. apply IH; [intros x Hx; apply Hsub; now right|].
      intros k v H. apply map_set_In_inv in H as [[-> ->]|H]; [|now apply Hi].
      split; [reflexivity|apply Hsub; now left].
    + intros k c0 x H Hx. apply map_set_In_inv in H as [[-> ->]|H].
      * apply Hsub. exact Hx.
      * now apply (Hk k c0).
Qed.

End Loaded.

Lemma dedupe_In l : forall seen x, In x (dedupe seen l) -> In x l.
Proof.
  induction l as [|s t IH]; intros seen x; simpl; [tauto|].
  destruct (bool_decide (slug s ∈ seen)).
  - intros H. right. now apply (IH seen).
  - intros [<-|H]; [now left|right; exact (IH _ x H)].
Qed.

Section Built.
Variable R : Runtime.
Variable imp : Imports.

Lemma found_catalog s x :
  findSuburbBySlug imp s = Some x -> In x (catalog (clustersDoc imp)).
Proof.
  unfold findSuburbBySlug. intros H. apply DoctorFacts.map_get_In in H.
  now apply (proj1 (indices_catalog (clustersDoc imp) _ (incl_refl _)) _ _ H).
Qed.

Lemma listed_catalog c x :
  In x (listSuburbsForClusterSyncAsObjects R imp c) -> In x (catalog (clustersDoc imp)).
Proof.
  unfold listSuburbsForClusterSyncAsObjects.
  destruct (match canon R c with Some c0 => Some c0 | None => canon R (strip_region c) end)
    as [canonical|]; [|intros []].
  intros H. apply dedupe_In, in_flat_map in H as ([k cl] & Hin & Hx). cbn [fst snd] in Hx.
  destruct (toCanonicalCluster R k) as [can|]; [|destruct Hx].
  destruct (String.eqb can canonical); [|destruct Hx].
  exact (proj2 (indices_catalog (clustersDoc imp) _ (incl_refl _)) _ _ _ Hin Hx).
Qed.

Lemma ranked_In src l x : In x (rankByDistance R src l) -> In x l.
Proof.
  unfold rankByDistance.
  destruct (Doctor.isNum (lat src) && Doctor.isNum (lng src)); intros H.
  - apply in_map_iff in H as ([y d] & <- & Hy).
    apply (Permutation_in _ (DoctorFacts.js_sort_perm _ _)) in Hy.
    apply in_map_iff in Hy as (z & [= <- _] & Hz). exact Hz.
  - exact (Permutation_in _ (DoctorFacts.js_sort_perm _ _) H).
Qed.

Lemma nearby_catalog s limit x :
  In x (getNearbySuburbs R imp s limit) -> In x (catalog (clustersDoc imp)).
Proof.
  unfold getNearbySuburbs.
  destruct (findSuburbBySlug imp s) as [src|]; [|intros []].
  set (adj := flat_map _ _).
  assert (Hadj : forall y, In y adj -> In y (catalog (clustersDoc imp))).
  { intros y Hy. apply in_flat_map in Hy as (sl & _ & Hy).
    destruct (findSuburbBySlug imp sl) as [z|] eqn:E; [|destruct Hy].
    destruct Hy as [<-|[]]. now apply (found_catalog sl). }
  destruct (_ <=? length adj).
  - intros H. apply DoctorFacts.In_firstn in H. now apply Hadj.
  - intros H. apply DoctorFacts.In_firstn, in_app_or in H as [H|H]; [now apply Hadj|].
    apply ranked_In in H.
    destruct (getClusterForSuburbSync R imp (slug src)) as [canonical|]; [|destruct H].
    apply List.filter_In in H as [H _]. now apply (listed_catalog canonical).
Qed.

End Built.

Lemma idents_slugs l :
  (forall r, In r l -> ident r = Some (slug (suburb_of r))) ->
  idents l = Some (List.map (fun r => slug (suburb_of r)) l).
Proof.
  induction l as [|r t IH]; intros H; [reflexivity|].
  simpl. rewrite (H r) by now left. rewrite IH; [reflexivity|].
  intros r' Hr'. apply H. now right.
Qed.

(** X17.  When every suburb of the catalog is identified by its own slug,
    the snapshot that build-proximity computes passes validate-proximity
    against the same catalog: every key and every listed neighbor is
    known. *)
Theorem snapshot_validates :
  forall (R : Runtime) (imp : Imports),
    (forall c r, In c (clustersDoc imp) -> In r (raw_suburbs c) ->
                 ident r = Some (slug (suburb_of r))) ->
    validate (clustersDoc imp) (Snapshot (Some (nearby (build_proximity R imp)))) = Passed.
Proof.
  intros R imp H. unfold validate, known.
  rewrite (idents_slugs (flat_map raw_suburbs (clustersDoc imp))).
  2:{ intros r Hr. apply in_flat_map in Hr as (c & Hc & Hr). now apply (H c). }
  cbn [prox_of].
  assert (Hk : forall x, In x (catalog (clustersDoc imp)) ->
            slug x ∈ (list_to_set (List.map (fun r => slug (suburb_of r))
                        (flat_map raw_suburbs (clustersDoc imp))) : gset string)).
  { intros x Hx. apply elem_of_list_to_set, list_elem_of_In.
    unfold catalog in Hx. apply in_flat_map in Hx as (c & Hc & Hx).
    apply in_map_iff in Hx as (r & <- & Hr).
    apply in_map_iff. exists r. split; [reflexivity|].
    apply in_flat_map. now exists c. }
  assert (E : errs (list_to_set (List.map (fun r => slug (suburb_of r))
                      (flat_map raw_suburbs (clustersDoc imp))))
                (nearby (build_proximity R imp)) = []).
  { unfold errs. apply PassFacts.flat_map_none. intros [s l] Hin.
    unfold build_proximity in Hin. cbn [nearby] in Hin.
    apply in_map_iff in Hin as (s' & [= <- <-] & Hs).
    apply DoctorFacts.uniq_from_In in Hs as [Hs _].
    apply in_flat_map in Hs as (c & _ & Hs).
    apply in_map_iff in Hs as (x & <- & Hx).
    cbn [fst snd]. rewrite bool_decide_eq_true_2 by (apply Hk; now apply (listed_catalog R imp c)).
    cbn [app]. apply PassFacts.flat_map_none. intros it Hit.
    apply in_map_iff in Hit as (y & <- & Hy). cbn [n_slug].
    rewrite bool_decide_eq_true_2; [reflexivity|].
    apply Hk. exact (nearby_catalog R imp _ _ y Hy). }
  now rewrite E.
Qed.

Lemma snapshot_validates_witness :
  nearby (build_proximity demo_runtime slug_imports)
  = [("anstead", [ {| n_slug := "karana-downs"; n_name := "Karana Downs" |};
                   {| n_slug := "mount-crosby"; n_name := "Mount Crosby" |} ]);
     ("mount-crosby", [ {| n_slug := "anstead"; n_name := "Anstead" |};
                        {| n_slug := "karana-downs"; n_name := "Karana Downs" |} ]);
     ("karana-downs", [ {| n_slug := "anstead"; n_name := "Anstead" |};
                        {| n_slug := "mount-crosby"; n_name := "Mount Crosby" |} ])]
  /\ validate (clustersDoc slug_imports)
       (Snapshot (Some (nearby (build_proximity demo_runtime slug_imports)))) = Passed.
Proof.
  split; [vm_compute; reflexivity|].
  apply snapshot_validates.
  intros c r [<-|[]] Hr. cbn [raw_suburbs slug_imports clustersDoc] in Hr.
  destruct Hr as [<-|[<-|[<-|[]]]]; vm_compute; reflexivity.
Defined.

End SnapshotFacts.

Module NearbyFacts.
Import Js Facade Nearby.
Import Doctor(SuburbItem, slug, name, lat, lng).

(** *** What a nearby list is made of *)

Lemma dedupe_fresh l : forall seen,
  List.NoDup (List.map slug (dedupe seen l))
  /\ forall x, In x (dedupe seen l) -> slug x ∉ seen.
Proof.
  induction l as [|s t IH]; intros seen; simpl; [split; [constructor|intros x []]|].
  destruct (bool_decide (slug s ∈ seen)) eqn:E; [apply IH|].
  apply bool_decide_eq_false in E.
  destruct (IH ({[slug s]} ∪ seen)) as [Hn Hs]. split.
  - simpl. constructor; [|exact Hn]. intros H.
    apply in_map_iff in H as (y & Ey & Hy). apply (Hs y Hy).
    rewrite Ey. apply elem_of_union. left. now apply elem_of_singleton.
  - intros x [<-|Hx]; [exact E|].
    intros H. apply (Hs x Hx). apply elem_of_union. now right.
Qed.

Lemma NoDup_map_filter {A B : Type} (f : A -> B) (p : A -> bool) l :
  List.NoDup (List.map f l) -> List.NoDup (List.map f (List.filter p l)).
Proof.
  induction l as [|x t IH]; simpl; [tauto|].
  intros H. inversion H as [|? ? Hx Ht]; subst.
  destruct (p x); [|now apply IH]. simpl. constructor; [|now apply IH].
  intros Hin. apply Hx. apply in_map_iff in Hin as (y & Ey & Hy).
  apply List.filter_In in Hy as [Hy _]. apply in_map_iff. now exists y.
Qed.

Section Ranked.
Variable R : Runtime.

Lemma ranked_perm src l : Permutation (rankByDistance R src l) l.
Proof.
  assert (H : Permutation
                (List.map fst (js_sort by_distance (List.map (fun s => (s, hav R src s)) l)))
                l).
  { rewrite <- (List.map_id l) at 2.
    rewrite <- (List.map_ext (fun s => fst (s, hav R src s)) id) by reflexivity.
    rewrite <- (List.map_map (fun s => (s, hav R src s)) fst).
    apply Permutation_map, DoctorFacts.js_sort_perm. }
  unfold rankByDistance.
  destruct (Doctor.isNum (lat src) && Doctor.isNum (lng src));
    [exact H|apply DoctorFacts.js_sort_perm].
Qed.

End Ranked.

(** X18.  For a suburb the index knows, the nearby list never exceeds the
    limit (which is at least one); it opens with the adjacency entries the
    index knows, in the order of the document, and what follows them is
    padding from the listing of the suburb's cluster: suburbs with
    pairwise distinct slugs, none of them the suburb itself and none
    already among the adjacency entries. *)
Theorem nearby_fill :
  forall (R : Runtime) (imp : Imports) (s : string) (limit : option nat) (src : SuburbItem),
    findSuburbBySlug imp s = Some src ->
    length (getNearbySuburbs R imp s limit) <= bound limit
    /\ exists pad,
         getNearbySuburbs R imp s limit = firstn (bound limit) (hits imp src ++ pad)
         /\ List.NoDup (List.map slug pad)
         /\ forall x, In x pad ->
              slug x <> slug src
              /\ ~ In (slug x) (List.map slug (hits imp src))
              /\ exists canonical,
                   getClusterForSuburbSync R imp (slug src) = Some canonical
                   /\ In x (listSuburbsForClusterSyncAsObjects R imp canonical).
Proof.
  intros R imp s limit src Hsrc.
  set (pool :=
         match getClusterForSuburbSync R imp (slug src) with
         | Some canonical =>
             List.filter
               (fun s0 => negb (String.eqb (slug s0) (slug src))
                          && negb (existsb (fun a => String.eqb (slug a) (slug s0))
                                     (hits imp src)))
               (listSuburbsForClusterSyncAsObjects R imp canonical)
         | None => []
         end).
  assert (E : getNearbySuburbs R imp s limit =
              firstn (bound limit) (hits imp src ++ rankByDistance R src pool)).
  { unfold getNearbySuburbs. rewrite Hsrc. fold (hits imp src). fold (bound limit).
    destruct (bound limit <=? length (hits imp src)) eqn:L; [|reflexivity].
    apply Nat.leb_le in L. rewrite firstn_app.
    replace (bound limit - length (hits imp src)) with 0 by lia.
    now rewrite firstn_O, app_nil_r. }
  split; [rewrite E; apply firstn_le_length|].
  exists (rankByDistance R src pool). split; [exact E|].
  assert (Hpool : List.NoDup (List.map slug pool)
                  /\ forall x, In x pool ->
                       slug x <> slug src
                       /\ ~ In (slug x) (List.map slug (hits imp src))
                       /\ exists canonical,
                            getClusterForSuburbSync R imp (slug src) = Some canonical
                            /\ In x (listSuburbsForClusterSyncAsObjects R imp canonical)).
  { unfold pool. destruct (getClusterForSuburbSync R imp (slug src)) as [canonical|].
    - split.
      + apply NoDup_map_filter. unfold listSuburbsForClusterSyncAsObjects.
        destruct (match canon R canonical with
                  | Some c0 => Some c0
                  | None => canon R (strip_region canonical)
                  end); [apply dedupe_fresh|constructor].
      + intros x Hx. apply List.filter_In in Hx as [Hx Hp].
        apply andb_true_iff in Hp as [H1 H2].
        apply negb_true_iff in H1, H2. apply String.eqb_neq in H1.
        split; [exact H1|]. split; [|now exists canonical].
        intros Hin. apply in_map_iff in Hin as (a & Ea & Ha).
        assert (F : existsb (fun a => String.eqb (slug a) (slug x)) (hits imp src) = true).
        { apply existsb_exists. exists a. split; [exact Ha|]. now apply String.eqb_eq. }
        congruence.
    - split; [constructor|intros x []]. }
  destruct Hpool as [Hn Hp]. split.
  - apply (Permutation_NoDup (l := List.map slug pool)); [|exact Hn].
    apply Permutation_map, Permutation_sym, ranked_perm.
  - intros x Hx. apply Hp. exact (Permutation_in _ (ranked_perm R src pool) Hx).
Qed.

Lemma nearby_fill_witness :
  getNearbySuburbs demo_runtime ValidateProximity.slug_imports "Anstead" (Some 0)
  = [ {| slug := "karana-downs"; name := "Karana Downs"; lat := None; lng := None |} ]
  /\ length (getNearbySuburbs demo_runtime ValidateProximity.slug_imports "Anstead" (Some 0))
     <= bound (Some 0).
Proof.
  split; [vm_compute; reflexivity|].
  apply (nearby_fill demo_runtime ValidateProximity.slug_imports "Anstead" (Some 0)
           {| slug := "anstead"; name := "Anstead"; lat := None; lng := None |}).
  vm_compute. reflexivity.
Defined.

End NearbyFacts.

Module SuggestFacts.
Import Js Suggest.
Import Doctor(uniq_from, includes).

(** *** The caps of the coverage suggestion *)

Lemma number_S n : (number (S n) == number n + 1)%Q.
Proof.
  unfold number. rewrite Nat2Z.inj_succ. unfold Z.succ.
  now rewrite inject_Z_plus.
Qed.

Lemma number_le n m : n <= m -> (number n <= number m)%Q.
Proof.
  intros H. unfold number. rewrite <- Zle_Qle. lia.
Qed.

Lemma at_least_floor floor o n : (floor <= at_least floor o n)%Q.
Proof.
  unfold at_least. destruct (Qle_bool floor _) eqn:E.
  - now apply Qle_bool_iff.
  - apply Qle_refl.
Qed.

Section Loop.
Variable current : list string.
Variable cluster_of : string -> string.
Variable addCap : Q.
Variable perClusterCap : Q.

Local Abbreviation fresh := (fresh current).
Local Abbreviation choose := (choose current cluster_of addCap perClusterCap).

(** The additions that fall in cluster [c]. *)
Local Abbreviation in_cluster c :=
  (fun s => fresh s && String.eqb (cluster_of s) c).

Lemma filter_snoc {A : Type} (f : A -> bool) l x :
  List.filter f (l ++ [x]) = List.filter f l ++ (if f x then [x] else []).
Proof. rewrite List.filter_app. simpl. now destruct (f x). Qed.

Lemma choose_capped : forall rank chosen per,
  (forall c, length (List.filter (in_cluster c) chosen)
             = match map_get c per with Some n => n | None => 0 end) ->
  (number (length (List.filter fresh chosen)) < addCap + 1)%Q ->
  (forall c, (number (length (List.filter (in_cluster c) chosen)) < perClusterCap + 1)%Q) ->
  (number (length (List.filter fresh (choose chosen per rank))) < addCap + 1)%Q
  /\ (forall c, (number (length (List.filter (in_cluster c) (choose chosen per rank)))
                 < perClusterCap + 1)%Q)
  /\ forall s, In s (choose chosen per rank) -> In s chosen \/ In s rank.
Proof.
  induction rank as [|r rest IH]; intros chosen per H1 H2 H3; simpl.
  - split; [exact H2|]. split; [exact H3|]. intros s Hs. now left.
  - destruct (includes r current) eqn:Ec.
    + assert (Ef : fresh r = false) by (unfold Suggest.fresh; now rewrite Ec).
      destruct (IH (chosen ++ [r]) per) as (A & B & C).
      * intros c. rewrite filter_snoc, Ef. simpl. rewrite app_nil_r. apply H1.
      * rewrite filter_snoc, Ef, app_nil_r. exact H2.
      * intros c. rewrite filter_snoc, Ef. simpl. rewrite app_nil_r. apply H3.
      * split; [exact A|]. split; [exact B|]. intros s Hs.
        destruct (C s Hs) as [H|H]; [|right; now right].
        apply in_app_or in H as [H|[<-|[]]]; [now left|right; now left].
    + assert (Ef : fresh r = true) by (unfold Suggest.fresh; now rewrite Ec).
      destruct (Qle_bool addCap (number (length (List.filter fresh chosen)))) eqn:Ea.
      { split; [exact H2|]. split; [exact H3|]. intros s Hs. now left. }
      assert (La : (number (length (List.filter fresh chosen)) < addCap)%Q).
      { apply Qnot_le_lt. intros H. apply Qle_bool_iff in H. congruence. }
      destruct (Qle_bool perClusterCap _) eqn:Eu.
      { destruct (IH chosen per H1 H2 H3) as (A & B & C).
        split; [exact A|]. split; [exact B|]. intros s Hs.
        destruct (C s Hs) as [H|H]; [now left|right; now right]. }
      assert (Lu : (number (length (List.filter (in_cluster (cluster_of r)) chosen))
                    < perClusterCap)%Q).
      { rewrite H1. apply Qnot_le_lt. intros H. apply Qle_bool_iff in H. congruence. }
      destruct (IH (chosen ++ [r])
                  (map_set (cluster_of r)
                     (match map_get (cluster_of r) per with Some n => n | None => 0 end + 1)
                     per)) as (A & B & C).
      * intros c. rewrite filter_snoc, Ef, DoctorMore.map_get_set. cbn [andb].
        rewrite (String.eqb_sym c). destruct (String.eqb (cluster_of r) c) eqn:E.
        -- apply String.eqb_eq in E. subst c. rewrite length_app, H1. reflexivity.
        -- rewrite app_nil_r. apply H1.
      * rewrite filter_snoc, Ef, length_app. simpl length.
        rewrite Nat.add_1_r, number_S. now apply Qplus_lt_l.
      * intros c. rewrite filter_snoc, Ef. cbn [andb].
        destruct (String.eqb (cluster_of r) c) eqn:E.
        -- apply String.eqb_eq in E. subst c. rewrite length_app. simpl length.
           rewrite Nat.add_1_r, number_S. now apply Qplus_lt_l.
        -- rewrite app_nil_r. apply H3.
      * split; [exact A|]. split; [exact B|]. intros s Hs.
        destruct (C s Hs) as [H|H]; [|right; now right].
        apply in_app_or in H as [H|[<-|[]]]; [now left|right; now left].
Qed.

End Loop.

Lemma as_set_In l x : In x (as_set l) <-> In x l.
Proof.
  unfold as_set. split.
  - intros H. now apply DoctorFacts.uniq_from_In in H.
  - intros H. apply PassFacts.uniq_from_complete; [exact H|intros []].
Qed.

Lemma sorted_In (l : list string) x : In x (js_sort String.compare l) <-> In x l.
Proof.
  split; intros H.
  - exact (Permutation_in _ (DoctorFacts.js_sort_perm _ _) H).
  - exact (Permutation_in _ (Permutation_sym (DoctorFacts.js_sort_perm _ _)) H).
Qed.

Lemma NoDup_subset_length (l1 l2 : list string) :
  List.NoDup l1 -> (forall x, In x l1 -> In x l2) -> length l1 <= length l2.
Proof. intros Hn Hi. now apply List.NoDup_incl_length. Qed.

(** X19.  When the coverage of a service is listed in lower case without
    surrounding blanks, the suggestion removes nothing and keeps every
    covered suburb; what it adds comes from the ranking, and the number of
    additions stays within [maxAdd], and within [clusterCap] for each
    cluster (a cap that is not a whole number is exceeded by less than
    one). *)
Theorem suggest_capped :
  forall (listed : list string) (conf : Conf) (cluster_of : string -> string)
         (rank : list string),
    Forall (fun s => normalize s = s) listed ->
    let out := suggest (Some listed) conf cluster_of rank in
    remove (snd out) = []
    /\ (forall s, In s listed -> In s (fst out))
    /\ (forall s, In s (add (snd out)) -> In s rank /\ ~ In s listed)
    /\ (number (length (add (snd out))) < at_least 0 (maxAdd conf) (length rank) + 1)%Q
    /\ forall c,
         (number (length (List.filter (fun s => String.eqb (cluster_of s) c)
                            (add (snd out))))
          < at_least 1 (clusterCap conf) (length rank) + 1)%Q.
Proof.
  intros listed conf cluster_of rank Hl out.
  assert (Em : List.map normalize listed = listed).
  { rewrite <- (List.map_id listed) at 2. apply List.map_ext_in.
    intros s Hs. exact (proj1 (List.Forall_forall _ _) Hl s Hs). }
  unfold out, suggest. rewrite Em. cbn [fst snd add remove].
  set (current := as_set listed).
  set (addCap := at_least 0 (maxAdd conf) (length rank)).
  set (cCap := at_least 1 (clusterCap conf) (length rank)).
  set (chosen := choose current cluster_of addCap cCap [] [] rank).
  set (union := js_sort String.compare (as_set (current ++ chosen))).
  assert (Hu : forall s, In s union <-> In s listed \/ In s chosen).
  { intros s. unfold union. rewrite sorted_In, as_set_In, in_app_iff.
    unfold current. now rewrite as_set_In. }
  destruct (choose_capped current cluster_of addCap cCap rank [] []) as (A & B & C).
  { intros c. reflexivity. }
  { simpl. unfold number. simpl.
    apply Qlt_le_trans with (y := (0 + 1)%Q); [reflexivity|].
    apply Qplus_le_l, at_least_floor. }
  { intros c. simpl. unfold number. simpl.
    apply Qlt_le_trans with (y := (1 + 1)%Q); [reflexivity|].
    apply Qplus_le_l, at_least_floor. }
  fold chosen in A, B, C.
  assert (Hadd : forall s,
            In s (js_sort String.compare
                    (List.filter (fun x => negb (includes x current)) (as_set union))) ->
            In s chosen /\ fresh current s = true).
  { intros s Hs. apply sorted_In, List.filter_In in Hs as [Hs Hf].
    apply as_set_In, Hu in Hs. split; [|exact Hf].
    destruct Hs as [Hs|Hs]; [|exact Hs].
    apply negb_true_iff in Hf.
    assert (F : includes s current = true)
      by (apply DoctorFacts.includes_In; unfold current; now apply as_set_In).
    congruence. }
  assert (Hn : List.NoDup
                 (js_sort String.compare
                    (List.filter (fun x => negb (includes x current)) (as_set union)))).
  { apply (Permutation_NoDup (Permutation_sym (DoctorFacts.js_sort_perm _ _))).
    apply DoctorMore.NoDup_filter_keep. apply DoctorFacts.uniq_from_NoDup. }
  split; [|split; [|split; [|split]]].
  - rewrite SoundFacts.filter_none; [reflexivity|].
    intros x Hx. apply negb_false_iff, DoctorFacts.includes_In, as_set_In, Hu.
    left. exact (proj1 (as_set_In _ _) Hx).
  - intros s Hs. apply Hu. now left.
  - intros s Hs. apply Hadd in Hs as [Hc Hf]. split.
    + destruct (C s Hc) as [[]|H]. exact H.
    + intros Hin. apply negb_true_iff in Hf.
      assert (F : includes s current = true)
        by (apply DoctorFacts.includes_In; unfold current; now apply as_set_In).
      congruence.
  - eapply Qle_lt_trans; [|exact A]. apply number_le.
    apply NoDup_subset_length; [exact Hn|].
    intros x Hx. apply Hadd in Hx as [Hc Hf]. apply List.filter_In. now split.
  - intros c. eapply Qle_lt_trans; [|exact (B c)]. apply number_le.
    apply NoDup_subset_length; [now apply DoctorMore.NoDup_filter_keep|].
    intros x Hx. apply List.filter_In in Hx as [Hx Ec].
    apply Hadd in Hx as [Hc Hf]. apply List.filter_In. split; [exact Hc|].
    now rewrite Hf, Ec.
Qed.

Lemma suggest_capped_witness :
  suggest (Some ["b"]) {| maxAdd := Some 1%Q; clusterCap := None |}
    (fun _ => "west") ["a"; "b"; "c"]
  = (["a"; "b"], {| add := ["a"]; remove := [] |})
  /\ remove (snd (suggest (Some ["b"]) {| maxAdd := Some 1%Q; clusterCap := None |}
                    (fun _ => "west") ["a"; "b"; "c"])) = [].
Proof.
  split; [vm_compute; reflexivity|].
  assert (H : Forall (fun s => normalize s = s) ["b"])
    by (constructor; [vm_compute; reflexivity|constructor]).
  pose proof (suggest_capped ["b"] {| maxAdd := Some 1%Q; clusterCap := None |}
                (fun _ => "west") ["a"; "b"; "c"] H) as M.
  cbv zeta in M. exact (proj1 M).
Defined.

End SuggestFacts.

Module ImportFacts.
Import Js ImportGeo.
Import Doctor(uniq_from).

(** *** The imported adjacency *)

Lemma lower_idem s : Coverage.lower (Coverage.lower s) = Coverage.lower s.
Proof.
  unfold Coverage.lower. rewrite list_ascii_of_string_of_list_ascii.
  f_equal. apply SlugFacts.toLowerCase_fix.
  unfold Slug.toLowerCase. apply List.Forall_forall. intros c Hc.
  apply in_map_iff in Hc as (c0 & <- & _). apply SlugFacts.lower_char_not_upper.
Qed.

Lemma neighbors_shape l :
  StronglySorted (fun a b => String.compare a b = Lt) (neighbors l)
  /\ forall x, In x (neighbors l) <->
               x <> "" /\ exists y, In y l /\ Coverage.lower y = x.
Proof.
  unfold neighbors. split.
  - apply ValidateMore.sorted_NoDup_strict; [apply ValidateMore.sort_strings_sorted|].
    apply (Permutation_NoDup (Permutation_sym (DoctorFacts.js_sort_perm _ _))).
    apply DoctorFacts.uniq_from_NoDup.
  - intros x. split.
    + intros H. apply (Permutation_in _ (DoctorFacts.js_sort_perm _ _)) in H.
      apply DoctorFacts.uniq_from_In in H as [H _].
      apply List.filter_In in H as [H Ht]. apply in_map_iff in H as (y & E & Hy).
      split; [now apply SyncFacts.truthy_nonempty|]. now exists y.
    + intros (Hx & y & Hy & E).
      apply (Permutation_in _ (Permutation_sym (DoctorFacts.js_sort_perm _ _))).
      apply PassFacts.uniq_from_complete; [|intros []].
      apply List.filter_In. split; [|now apply SyncFacts.truthy_nonempty].
      apply in_map_iff. now exists y.
Qed.

Lemma map_set_fresh {V : Type} k (v : V) m :
  ~ In k (map_keys m) -> map_set k v m = m ++ [(k, v)].
Proof.
  induction m as [|[k' v'] t IH]; simpl; [reflexivity|].
  intros H. destruct (String.eqb k k') eqn:E.
  - apply String.eqb_eq in E. subst k'. exfalso. apply H. now left.
  - rewrite IH; [reflexivity|]. intros Hin. apply H. now right.
Qed.

Lemma document_read (m : list (string * list string)) : forall acc,
  List.NoDup (map_keys acc ++ map_keys m) ->
  Forall (fun e => Coverage.lower (fst e) = fst e
                   /\ List.map Coverage.lower (snd e) = snd e) m ->
  fold_left
    (fun out e =>
       match snd e with
       | Facade.AdjArray l | Facade.AdjObject l =>
           map_set (Coverage.lower (fst e)) (List.map Coverage.lower l) out
       | Facade.AdjOtherValue => out
       end)
    (as_document m) acc = acc ++ m.
Proof.
  induction m as [|[k l] t IH]; intros acc Hn Hf; simpl; [now rewrite app_nil_r|].
  inversion Hf as [|? ? [Hk Hl] Ht]; subst. cbn [fst snd] in *.
  rewrite Hk, Hl. rewrite map_set_fresh.
  - rewrite IH; [now rewrite <- app_assoc| |exact Ht].
    unfold map_keys in *. rewrite List.map_app. simpl. now rewrite <- app_assoc.
  - intros Hin. simpl in Hn. apply List.NoDup_remove_2 in Hn.
    apply Hn. apply in_or_app. now left.
Qed.

(** X20.  In the adjacency the importer writes, every node comes once and
    in lower case; its neighbors are the lower-cased, non-empty neighbors
    of the source, in strictly ascending order, hence without repetition;
    and the facade reads the written document back unchanged. *)
Theorem imported_adjacency :
  forall adjRaw : list (string * option (list string)),
    List.NoDup (map_keys (adjOut adjRaw))
    /\ (forall k, In k (map_keys (adjOut adjRaw)) <->
                  exists e, In e adjRaw /\ Coverage.lower (fst e) = k)
    /\ (forall k l, In (k, l) (adjOut adjRaw) ->
          StronglySorted (fun a b => String.compare a b = Lt) l
          /\ exists v, In (v, k) (List.map (fun e => (snd e, Coverage.lower (fst e))) adjRaw)
               /\ forall x, In x l <->
                    x <> "" /\ exists y, In y (match v with Some l0 => l0 | None => [] end)
                                         /\ Coverage.lower y = x)
    /\ Facade.ADJ (as_document (adjOut adjRaw)) = adjOut adjRaw.
Proof.
  intros adjRaw.
  set (P := fun e : string * list string =>
              StronglySorted (fun a b => String.compare a b = Lt) (snd e)
              /\ exists v, In (v, fst e)
                             (List.map (fun e => (snd e, Coverage.lower (fst e))) adjRaw)
                   /\ forall x, In x (snd e) <->
                        x <> "" /\ exists y, In y (match v with Some l0 => l0 | None => [] end)
                                             /\ Coverage.lower y = x).
  assert (H : List.NoDup (map_keys (adjOut adjRaw)) /\ Forall P (adjOut adjRaw)).
  { unfold adjOut.
    apply (DoctorFacts.fold_left_inv
             (fun m : list (string * list string) =>
                List.NoDup (map_keys m) /\ Forall P m)).
    - split; constructor.
    - intros m [k v] Hin [Hn Hf]. cbn [fst snd].
      split; [now apply DoctorFacts.map_set_NoDup|].
      apply DoctorFacts.map_set_Forall; [|exact Hf].
      unfold P. cbn [fst snd].
      destruct (neighbors_shape (match v with Some l => l | None => [] end)) as [Hs Hm].
      split; [exact Hs|]. exists v. split; [|exact Hm].
      apply in_map_iff. now exists (k, v). }
  destruct H as [Hn Hf].
  assert (Hk : forall k, In k (map_keys (adjOut adjRaw)) <->
                         exists e, In e adjRaw /\ Coverage.lower (fst e) = k).
  { intros k. unfold adjOut.
    rewrite <- DoctorFacts.map_has_keys.
    rewrite (SyncFacts.fold_or
               (fun out (e : string * option (list string)) =>
                  map_set (Coverage.lower (fst e))
                    (neighbors (match snd e with Some l => l | None => [] end)) out)
               (fun m => map_has k m = true)
               (fun e => Coverage.lower (fst e) = k)).
    - split; [intros [H|H]; [discriminate H|exact H]|now right].
    - intros m e. rewrite DoctorFacts.map_has_set.
      destruct (String.eqb k (Coverage.lower (fst e))) eqn:E.
      + apply String.eqb_eq in E. split; [now right|reflexivity].
      + apply String.eqb_neq in E. split; [now left|].
        intros [H|H]; [exact H|]. now symmetry in H. }
  split; [exact Hn|]. split; [exact Hk|]. split.
  - intros k l Hin. exact (proj1 (List.Forall_forall _ _) Hf (k, l) Hin).
  - unfold Facade.ADJ. rewrite document_read; [reflexivity|exact Hn|].
    apply List.Forall_forall. intros [k l] Hin. cbn [fst snd]. split.
    + assert (Hin' : In k (map_keys (adjOut adjRaw))).
      { unfold map_keys. change k with (fst (k, l)). now apply in_map. }
      apply Hk in Hin' as (e & _ & <-). apply lower_idem.
    + destruct (proj1 (List.Forall_forall _ _) Hf (k, l) Hin) as (_ & v & _ & Hm).
      cbn [snd] in Hm. rewrite <- (List.map_id l) at 2. apply List.map_ext_in.
      intros x Hx. apply Hm in Hx as (_ & y & _ & <-). apply lower_idem.
Qed.

End ImportFacts.

